(** * tenpy.linalg.np_conserved: block-sparse arrays with charge conservation

    A shallow embedding of [Array] and of the module-level functions of
    [src/tenpy/linalg/np_conserved.py], and the properties of it that the
    specification states.

    Conventions of the embedding.
    - Array entries are exact scalars, modelled by [Z]; sector indices, flat
      indices and offsets are naturals, charges are vectors of [Z].
    - A numpy [ndarray] is its shape, its dtype tag and its entry function
      on multi-indices.
    - A Python exception is a value of [pyerr]; code that can raise lives in
      the [result] monad.
    - The classes [ChargeInfo], [LegCharge] and [LegPipe] live in
      [charges.py]; what this module consumes from them is modelled from the
      specification (sections 3 and 6). *)

From stdpp Require Import base list gmap strings sorting.
From Stdlib Require Import ZArith Lia Ascii.

(** ** Exceptions and the result monad *)

(** An exception carries the message of the [raise] that produced it. *)
Inductive pyerr : Type :=
  | ValueError (msg : string)
  | IndexError (msg : string)
  | TypeError (msg : string).

Inductive result (A : Type) : Type :=
  | Ok (x : A)
  | Raise (e : pyerr).
Arguments Ok {A} x.
Arguments Raise {A} e.

Global Instance result_ret : MRet result := λ A x, Ok x.
Global Instance result_bind : MBind result := λ A B f m,
  match m with Ok x => f x | Raise e => Raise e end.

Definition is_Ok {A} (r : result A) : bool :=
  match r with Ok _ => true | Raise _ => false end.

(** [seq[i]] of Python: [IndexError] outside the sequence. *)
Definition py_index {A} (l : list A) (i : nat) : result A :=
  match l !! i with
  | Some x => Ok x
  | None => Raise (IndexError "index out of range")
  end.

(** ** Charges *)

Definition charge := list Z.

(** Modelled from the spec: [ChargeInfo] of [charges.py]; a charge vector is
    canonicalized component-wise by a modulus, [0] meaning unbounded. *)
Record ChargeInfo : Type := mkChargeInfo { qmod : list Z }.

Global Instance ChargeInfo_eq_dec : EqDecision ChargeInfo.
Proof. solve_decision. Defined.

Definition make_valid_1 (m x : Z) : Z := if (m =? 0)%Z then x else (x mod m)%Z.

Definition make_valid (ci : ChargeInfo) (q : charge) : charge :=
  zip_with make_valid_1 (qmod ci) q.

Definition qnumber (ci : ChargeInfo) : nat := length (qmod ci).

Definition charge_zero (ci : ChargeInfo) : charge := replicate (qnumber ci) 0%Z.
Definition charge_add (p q : charge) : charge := zip_with Z.add p q.
Definition charge_neg (q : charge) : charge := Z.opp <$> q.
Definition charge_scale (s : Z) (q : charge) : charge := Z.mul s <$> q.

(** [np.sum(list_of_charges, axis=0)] *)
Definition charge_sum (ci : ChargeInfo) (qs : list charge) : charge :=
  foldr charge_add (charge_zero ci) qs.

(** ** Legs *)

(** Modelled from the spec: [LegCharge] of [charges.py]. A row of [qind] is
    a sector: first flat index, one past its last flat index, charge. A
    [LegPipe] is a leg that remembers the legs it fuses. *)
Local Unset Elimination Schemes.
Inductive LegCharge : Type := mkLeg {
  qind : list (nat * nat * charge);
  qconj : Z;
  pipe_legs : option (list LegCharge) }.
Local Set Elimination Schemes.

Definition block_number (l : LegCharge) : nat := length (qind l).

Definition ind_len (l : LegCharge) : nat :=
  match last (qind l) with Some (_, e, _) => e | None => 0 end.

Definition sector (l : LegCharge) (qi : nat) : nat * nat * charge :=
  nth qi (qind l) (0, 0, []).

Definition sector_start (l : LegCharge) (qi : nat) : nat := (sector l qi).1.1.
Definition sector_stop (l : LegCharge) (qi : nat) : nat := (sector l qi).1.2.
Definition sector_size (l : LegCharge) (qi : nat) : nat :=
  sector_stop l qi - sector_start l qi.

(** [l.get_slice(qi)]: the flat range of a sector. *)
Definition get_slice (l : LegCharge) (qi : nat) : nat * nat :=
  (sector_start l qi, sector_stop l qi).

(** [l.get_charge(qi)]: the charge of a sector, [qconj] taken into account. *)
Definition get_charge (l : LegCharge) (qi : nat) : charge :=
  charge_scale (qconj l) (sector l qi).2.

(** [l.conj()]: the leg with the opposite sign. *)
Definition leg_conj (l : LegCharge) : LegCharge :=
  {| qind := qind l; qconj := (- qconj l)%Z; pipe_legs := pipe_legs l |}.

Definition isinstance_LegPipe (l : LegCharge) : bool :=
  match pipe_legs l with Some _ => true | None => false end.

(** ** Dense arrays *)

Inductive np_dtype : Type := dt_int | dt_float | dt_complex.

Global Instance np_dtype_eq_dec : EqDecision np_dtype.
Proof. solve_decision. Defined.

Record ndarray : Type := mkNd {
  nd_shape : list nat;
  nd_dtype : np_dtype;
  nd_at : list nat → Z }.

Definition np_zeros (sh : list nat) (dt : np_dtype) : ndarray :=
  {| nd_shape := sh; nd_dtype := dt; nd_at := λ _, 0%Z |}.

Definition np_zeros_like (t : ndarray) : ndarray :=
  np_zeros (nd_shape t) (nd_dtype t).

(** [np.multiply(t, s)] for a scalar [s]. *)
Definition np_multiply (s : Z) (t : ndarray) : ndarray :=
  {| nd_shape := nd_shape t; nd_dtype := nd_dtype t;
     nd_at := λ i, (nd_at t i * s)%Z |}.

(** ** The class [Array] *)

Record Array : Type := mkArray {
  chinfo : ChargeInfo;
  legs : list LegCharge;
  shape : list nat;
  dtype : np_dtype;
  qtotal : charge;
  labels : gmap string nat;
  _data : list ndarray;
  _qdata : list (list nat);
  _qdata_sorted : bool }.

Definition rank (a : Array) : nat := length (shape a).
Definition stored_blocks (a : Array) : nat := length (_data a).

(** Attribute assignments [self.x = v]. *)
Definition set_legs (ls : list LegCharge) (a : Array) : Array :=
  mkArray (chinfo a) ls (shape a) (dtype a) (qtotal a) (labels a)
          (_data a) (_qdata a) (_qdata_sorted a).
Definition set_shape (sh : list nat) (a : Array) : Array :=
  mkArray (chinfo a) (legs a) sh (dtype a) (qtotal a) (labels a)
          (_data a) (_qdata a) (_qdata_sorted a).
Definition set_dtype (dt : np_dtype) (a : Array) : Array :=
  mkArray (chinfo a) (legs a) (shape a) dt (qtotal a) (labels a)
          (_data a) (_qdata a) (_qdata_sorted a).
Definition set_qtotal (q : charge) (a : Array) : Array :=
  mkArray (chinfo a) (legs a) (shape a) (dtype a) q (labels a)
          (_data a) (_qdata a) (_qdata_sorted a).
Definition set_labels (lb : gmap string nat) (a : Array) : Array :=
  mkArray (chinfo a) (legs a) (shape a) (dtype a) (qtotal a) lb
          (_data a) (_qdata a) (_qdata_sorted a).
Definition set_data (d : list ndarray) (a : Array) : Array :=
  mkArray (chinfo a) (legs a) (shape a) (dtype a) (qtotal a) (labels a)
          d (_qdata a) (_qdata_sorted a).
Definition set_qdata (q : list (list nat)) (a : Array) : Array :=
  mkArray (chinfo a) (legs a) (shape a) (dtype a) (qtotal a) (labels a)
          (_data a) q (_qdata_sorted a).
Definition set_qdata_sorted (b : bool) (a : Array) : Array :=
  mkArray (chinfo a) (legs a) (shape a) (dtype a) (qtotal a) (labels a)
          (_data a) (_qdata a) b.

(** [Array._set_shape] *)
Definition _set_shape (a : Array) : Array := set_shape (ind_len <$> legs a) a.

(** The assignments of [Array.__init__]: no block is stored. *)
Definition Array_new (ci : ChargeInfo) (ls : list LegCharge) (dt : np_dtype)
    (qt : charge) : Array :=
  _set_shape (mkArray ci ls [] dt (make_valid ci qt) ∅ [] [] true).

(** [Array.copy]: as a value the copy has the fields of the original; object
    identity is the business of the store of [Module Objects]. *)
Definition copy (a : Array) : Array := a.

(** [Array.zeros_like] *)
Definition zeros_like (a : Array) : Array :=
  let res := copy a in
  set_qdata_sorted true (set_qdata [] (set_data [] res)).

(** [Array.iunary_blockwise] *)
Definition iunary_blockwise (func : ndarray → ndarray) (a : Array) : Array :=
  let a1 := set_data (func <$> _data a) a in
  match _data a1 with
  | t :: _ => set_dtype (nd_dtype t) a1
  | [] => a1
  end.

(** [Array.unary_blockwise] *)
Definition unary_blockwise (func : ndarray → ndarray) (a : Array) : Array :=
  iunary_blockwise func (copy a).

(** The right operand of an arithmetic operator: a scalar
    ([sp.isscalar(other)]) or anything else. *)
Inductive operand : Type :=
  | OScalar (s : Z)
  | ONonScalar.

(** [Array.__mul__]; [raise NotImplemented] is a [TypeError]. *)
Definition __mul__ (a : Array) (other : operand) : result Array :=
  match other with
  | OScalar s =>
      if (s =? 0)%Z then Ok (zeros_like a)
      else Ok (unary_blockwise (np_multiply s) a)
  | ONonScalar => Raise (TypeError "NotImplemented")
  end.

(** [Array.__rmul__] *)
Definition __rmul__ (a : Array) (other : operand) : result Array :=
  __mul__ a other.

(** [Array.__imul__]: the result is the receiver after the call. *)
Definition __imul__ (a : Array) (other : operand) : result Array :=
  match other with
  | OScalar s =>
      if (s =? 0)%Z then
        Ok (set_qdata_sorted true (set_qdata [] (set_data [] a)))
      else Ok (iunary_blockwise (np_multiply s) a)
  | ONonScalar => Raise (TypeError "NotImplemented")
  end.

(** ** The canonical order of block rows *)

(** Python's [<] on tuples of integers. *)
Fixpoint tuple_lt (x y : list nat) : bool :=
  match x, y with
  | _, [] => false
  | [], _ :: _ => true
  | a :: x', b :: y' =>
      if a <? b then true else if b <? a then false else tuple_lt x' y'
  end.

(** The order of [np.lexsort(qdata.T)] on rows: the last column is the
    primary key, so rows compare as their reversed tuples. *)
Definition row_lt (r r' : list nat) : bool := tuple_lt (reverse r) (reverse r').
Definition row_le (r r' : list nat) : bool := negb (row_lt r' r).

Fixpoint insert_by {A} (le : A → A → bool) (x : A) (l : list A) : list A :=
  match l with
  | [] => [x]
  | y :: l' => if le x y then x :: l else y :: insert_by le x l'
  end.

(** A stable sort. *)
Definition sort_by {A} (le : A → A → bool) (l : list A) : list A :=
  foldr (insert_by le) [] l.

(** The permutation that sorts [keys], as [np.argsort] and [np.lexsort]
    return it. *)
Definition argsort_by {A} (le : A → A → bool) (keys : list A) : list nat :=
  (sort_by (λ p q, le p.1 q.1) (zip keys (seq 0 (length keys)))).*2.

Definition np_argsort (keys : list nat) : list nat := argsort_by Nat.leb keys.
Definition np_lexsort_rows (rows : list (list nat)) : list nat :=
  argsort_by row_le rows.

Global Instance ndarray_inhabited : Inhabited ndarray :=
  populate (np_zeros [] dt_float).

(** Fancy indexing [x[perm]] with a list of positions. *)
Definition fancy {A} `{Inhabited A} (l : list A) (perm : list nat) : list A :=
  (λ p, l !!! p) <$> perm.

(** [Array.isort_qdata] *)
Definition isort_qdata (a : Array) : Array :=
  if _qdata_sorted a then a
  else if length (_qdata a) <? 2 then set_qdata_sorted true a
  else
    let perm := np_lexsort_rows (_qdata a) in
    set_qdata_sorted true
      (set_data (fancy (_data a) perm) (set_qdata (fancy (_qdata a) perm) a)).

(** ** Compatibility of legs *)

(** Modelled from the spec: [LegCharge.test_equal], legs identical in order,
    sizes and charges. *)
Definition test_equal (l1 l2 : LegCharge) : result unit :=
  if decide (qind l1 = qind l2 ∧ qconj l1 = qconj l2) then Ok ()
  else Raise (ValueError "incompatible LegCharge").

(** Modelled from the spec: [LegCharge.test_contractible], equal charges,
    opposite sign, equal size. *)
Definition test_contractible (l1 l2 : LegCharge) : result unit :=
  test_equal l1 (leg_conj l2).

(** [for x in xs: f(x)] for an [f] that can raise. *)
Fixpoint for_each {A} (f : A → result unit) (xs : list A) : result unit :=
  match xs with
  | [] => Ok ()
  | x :: xs' => _ ← f x; for_each f xs'
  end.

(** ** Blockwise binary operations *)

(** The [while i < Na or j < Nb] loop of [Array.ibinary_blockwise]; [la] and
    [lb] are the rows and blocks from positions [i] and [j] on. Reading
    [aq[i]] or [bq[j]] past the end of a table is an [IndexError]. *)
Fixpoint blockwise_merge (func : ndarray → ndarray → ndarray)
    (la : list (list nat * ndarray))
    : list (list nat * ndarray) → result (list (list nat * ndarray)) :=
  fix go (lb : list (list nat * ndarray)) :=
    match la, lb with
    | [], [] => Ok []
    | [], _ :: _ => Raise (IndexError "index out of bounds")
    | _ :: _, [] => Raise (IndexError "index out of bounds")
    | (ra, ta) :: la', (rb, tb) :: lb' =>
        if decide (ra = rb) then
          rest ← blockwise_merge func la' lb';
          Ok ((ra, func ta tb) :: rest)
        else if tuple_lt (reverse ra) (reverse rb) then
          rest ← blockwise_merge func la' lb;
          Ok ((ra, func ta (np_zeros_like ta)) :: rest)
        else
          rest ← go lb';
          Ok ((rb, func (np_zeros_like tb) tb) :: rest)
    end.

(** The new [_data] and [_qdata] that [ibinary_blockwise] computes from the
    two sorted operands. *)
Definition blockwise_data (func : ndarray → ndarray → ndarray)
    (a b : Array) : result (list ndarray * list (list nat)) :=
  let adata := _data a in
  let bdata := _data b in
  let aq := _qdata a in
  let bq := _qdata b in
  if bool_decide (length aq = length bq) && bool_decide (aq = bq) then
    Ok (zip_with func adata bdata, aq)
  else
    r ← blockwise_merge func (zip aq adata) (zip bq bdata);
    Ok (r.*2, r.*1).

(** The assignments that end [ibinary_blockwise]. *)
Definition blockwise_finish (a : Array)
    (r : list ndarray * list (list nat)) : Array :=
  let a1 := set_qdata r.2 (set_data r.1 a) in
  match _data a1 with
  | t :: _ => set_dtype (nd_dtype t) a1
  | [] => a1
  end.

(** [Array.ibinary_blockwise]: the receiver after the call. *)
Definition ibinary_blockwise (func : ndarray → ndarray → ndarray)
    (self other : Array) : result Array :=
  _ ← for_each (λ p, test_equal p.1 p.2) (zip (legs self) (legs other));
  let self1 := isort_qdata self in
  let other1 := isort_qdata other in
  r ← blockwise_data func self1 other1;
  Ok (blockwise_finish self1 r).

(** [Array.binary_blockwise] *)
Definition binary_blockwise (func : ndarray → ndarray → ndarray)
    (self other : Array) : result Array :=
  ibinary_blockwise func (copy self) other.

(** [np.add] of two blocks. *)
Definition np_add (s t : ndarray) : ndarray :=
  {| nd_shape := nd_shape s; nd_dtype := nd_dtype s;
     nd_at := λ i, (nd_at s i + nd_at t i)%Z |}.

(** ** Blocks and their charges *)

(** [Array._get_block_charge] *)
Definition _get_block_charge (a : Array) (qindices : list nat) : charge :=
  let q := charge_sum (chinfo a) (zip_with get_charge (legs a) qindices) in
  make_valid (chinfo a) q.

(** [Array._get_block_slices] *)
Definition _get_block_slices (a : Array) (qindices : list nat)
    : list (nat * nat) :=
  zip_with get_slice (legs a) qindices.

(** [Array._get_block_shape] *)
Definition _get_block_shape (a : Array) (qindices : list nat) : list nat :=
  zip_with sector_size (legs a) qindices.

(** The position of the first row of [_qdata] equal to [qindices]:
    [np.argwhere(np.all(self._qdata == qindices, axis=1))[:, 0]], first
    entry. *)
Definition find_row (qdata : list (list nat)) (qindices : list nat)
    : option nat :=
  fst <$> list_find (λ r, r = qindices) qdata.

(** [Array._get_block]. A block is a mutable object of [_data]; the model
    returns its position in [_data] (no position for [None]) next to the
    receiver after the call. *)
Definition _get_block (a : Array) (qindices : list nat)
    (insert raise_incomp_q : bool) : result (option nat * Array) :=
  if negb (bool_decide (_get_block_charge a qindices = qtotal a)) then
    if raise_incomp_q then
      Raise (IndexError
               "trying to get block for qindices incompatible with charges")
    else Ok (None, a)
  else
    match find_row (_qdata a) qindices with
    | None =>
        if insert then
          let res := np_zeros (_get_block_shape a qindices) (dtype a) in
          Ok (Some (length (_data a)),
              set_qdata_sorted false
                (set_qdata (_qdata a ++ [qindices])
                   (set_data (_data a ++ [res]) a)))
        else Ok (None, a)
    | Some k => Ok (Some k, a)
    end.

(** ** Indexing *)

(** One entry of an index tuple. Array-valued entries are not modelled. *)
Inductive index : Type :=
  | Iint (i : Z)
  | Islice (start stop step : option Z)
  | IEllipsis.

Global Instance index_eq_dec : EqDecision index.
Proof. solve_decision. Defined.

(** The object between the brackets of [self[inds]]: a tuple, or a single
    entry that is not wrapped in a tuple. *)
Inductive pyinds : Type :=
  | ITuple (l : list index)
  | IBare (i : index).

Definition is_Iint (i : index) : bool :=
  match i with Iint _ => true | _ => false end.

(** [Array._pre_indexing]. [tuple(inds)] of an integer, a slice or
    [Ellipsis] is a [TypeError]. *)
Definition _pre_indexing (a : Array) (inds : pyinds)
    : result (bool * list index) :=
  inds ← match inds with
         | ITuple l => Ok l
         | IBare _ => Raise (TypeError "object is not iterable")
         end;
  let inds := if length inds <? rank a then inds ++ [IEllipsis] else inds in
  let inds :=
    match list_find (λ i, i = IEllipsis) inds with
    | Some (e, _) =>
        let fill := replicate (rank a + 1 - length inds) (Islice None None None) in
        take e inds ++ fill ++ drop (S e) inds
    | None => inds
    end in
  if rank a <? length inds then Raise (IndexError "too many indices for Array")
  else Ok (forallb is_Iint inds, inds).

(** Modelled from the spec: [LegCharge.get_qindex], the sector that holds a
    flat index and the offset inside it; an [IndexError] out of range. *)
Definition get_qindex (l : LegCharge) (i : Z) : result (nat * nat) :=
  if bool_decide (0 ≤ i < Z.of_nat (ind_len l))%Z then
    let n := Z.to_nat i in
    match list_find (λ s : nat * nat * charge, s.1.1 ≤ n < s.1.2) (qind l) with
    | Some (qi, s) => Ok (qi, n - s.1.1)
    | None => Raise (IndexError "flat index out of range")
    end
  else Raise (IndexError "flat index out of range").

(** [mapM] of the result monad. *)
Fixpoint map_result {A B} (f : A → result B) (xs : list A) : result (list B) :=
  match xs with
  | [] => Ok []
  | x :: xs' => y ← f x; ys ← map_result f xs'; Ok (y :: ys)
  end.

(** [pos = np.array([l.get_qindex(i) for i, l in zip(inds, self.legs)])]
    followed by the columns [pos[:, 0]] and [pos[:, 1]]; an empty [pos] is
    one-dimensional and has no columns. *)
Definition resolve_pos (a : Array) (inds : list index)
    : result (list nat * list nat) :=
  pos ← map_result
          (λ p : index * LegCharge,
             match p.1 with
             | Iint i => get_qindex p.2 i
             | _ => Raise (TypeError "not an integer index")
             end)
          (zip inds (legs a));
  match pos with
  | [] => Raise (IndexError "too many indices for array")
  | _ => Ok (pos.*1, pos.*2)
  end.

(** [block[idx]] and [block[idx] = v] for a full multi-index. *)
Definition in_bounds (sh idx : list nat) : bool :=
  bool_decide (length idx = length sh) &&
  forallb (λ p : nat * nat, p.1 <? p.2) (zip idx sh).

Definition nd_getitem (t : ndarray) (idx : list nat) : result Z :=
  if in_bounds (nd_shape t) idx then Ok (nd_at t idx)
  else Raise (IndexError "index out of bounds").

Definition nd_set (t : ndarray) (idx : list nat) (v : Z) : ndarray :=
  {| nd_shape := nd_shape t; nd_dtype := nd_dtype t;
     nd_at := λ i, if decide (i = idx) then v else nd_at t i |}.

Definition nd_setitem (t : ndarray) (idx : list nat) (v : Z) : result ndarray :=
  if in_bounds (nd_shape t) idx then Ok (nd_set t idx v)
  else Raise (IndexError "index out of bounds").

(** What [self[inds]] evaluates to: an entry, or the Array that
    [_advanced_getitem] builds from the normalized indices. *)
Inductive getitem_outcome : Type :=
  | Entry (v : Z)
  | Advanced (inds : list index).

(** [Array.__getitem__] *)
Definition __getitem__ (a : Array) (inds : pyinds) : result getitem_outcome :=
  '(int_only, inds) ← _pre_indexing a inds;
  if int_only : bool then
    '(qindices, offsets) ← resolve_pos a inds;
    '(block, _) ← _get_block a qindices false false;
    match block with
    | None => Ok (Entry 0%Z)
    | Some k =>
        t ← py_index (_data a) k;
        v ← nd_getitem t offsets;
        Ok (Entry v)
    end
  else Ok (Advanced inds).

(** The receiver after [self[inds] = other], or the hand-over to
    [_advanced_setitem_npc]. *)
Inductive setitem_outcome : Type :=
  | Stored (a : Array)
  | AdvancedSet (inds : list index).

(** [Array.__setitem__] for a scalar [other]. *)
Definition __setitem__ (a : Array) (inds : pyinds) (other : Z)
    : result setitem_outcome :=
  '(int_only, inds) ← _pre_indexing a inds;
  if int_only : bool then
    '(qindices, offsets) ← resolve_pos a inds;
    '(block, a1) ← _get_block a qindices true true;
    match block with
    | None => Raise (TypeError "NoneType does not support item assignment")
    | Some k =>
        t ← py_index (_data a1) k;
        t' ← nd_setitem t offsets other;
        Ok (Stored (set_data (<[k := t']> (_data a1)) a1))
    end
  else Ok (AdvancedSet inds).

(** ** Sanity checks *)

Fixpoint contiguous_from (start : nat) (q : list (nat * nat * charge)) : bool :=
  match q with
  | [] => true
  | (b, e, _) :: q' => (b =? start) && (b <? e) && contiguous_from e q'
  end.

(** Modelled from the spec: [LegCharge.test_sanity]; the sectors are
    non-empty contiguous ranges that start at [0], their charges are
    canonical vectors of the charge group, and the sign is [+1] or [-1]. *)
Definition leg_sane (ci : ChargeInfo) (l : LegCharge) : bool :=
  contiguous_from 0 (qind l) &&
  forallb (λ s : nat * nat * charge,
             bool_decide (length s.2 = qnumber ci) &&
             bool_decide (make_valid ci s.2 = s.2)) (qind l) &&
  (bool_decide (qconj l = 1%Z) || bool_decide (qconj l = (-1)%Z)).

Definition check (b : bool) (msg : string) : result unit :=
  if b then Ok () else Raise (ValueError msg).

(** [Array.test_sanity] *)
Definition test_sanity (a : Array) : result unit :=
  _ ← check (bool_decide (shape a = ind_len <$> legs a))
        "shape mismatch with LegCharges";
  _ ← check (forallb (λ d, bool_decide (nd_dtype d = dtype a)) (_data a))
        "wrong dtype";
  _ ← check (forallb (leg_sane (chinfo a)) (legs a)) "leg is not sane";
  _ ← check (bool_decide (length (_qdata a) = stored_blocks a) &&
             forallb (λ r, bool_decide (length r = rank a)) (_qdata a))
        "_qdata shape wrong";
  _ ← check (forallb (λ r, forallb (λ p : nat * LegCharge, p.1 <? block_number p.2)
                             (zip r (legs a))) (_qdata a))
        "invalid qind in _qdata";
  if _qdata_sorted a then
    check (bool_decide (np_lexsort_rows (_qdata a) = seq 0 (length (_qdata a))))
      "_qdata_sorted == True, but _qdata is not sorted"
  else Ok ().

(** [Array.__init__] *)
Definition Array_init (ci : ChargeInfo) (ls : list LegCharge) (dt : np_dtype)
    (qt : charge) : result Array :=
  let a := Array_new ci ls dt qt in
  _ ← test_sanity a; Ok a.

(** ** Conjugation *)

Fixpoint insert_stars (prev : Ascii.ascii) (l : list Ascii.ascii)
    : list Ascii.ascii :=
  match l with
  | [] => []
  | c :: l' =>
      (if negb (Ascii.eqb prev ")") && (Ascii.eqb c "." || Ascii.eqb c ")")
       then ["*"%char; c] else [c]) ++ insert_stars c l'
  end.

(** [str.replace('**', '')] *)
Fixpoint remove_double_star (l : list Ascii.ascii) : list Ascii.ascii :=
  match l with
  | c :: ((d :: l'') as l') =>
      if Ascii.eqb c "*" && Ascii.eqb d "*" then remove_double_star l''
      else c :: remove_double_star l'
  | _ => l
  end.

(** [Array._conj_leg_label]; [label[-1]] of the empty string is an
    [IndexError]. *)
Definition _conj_leg_label (label : string) : result string :=
  match String.list_ascii_of_string label with
  | [] => Raise (IndexError "string index out of range")
  | c :: rest =>
      let s := c :: insert_stars c rest in
      let s := if negb (bool_decide (last s = Some ")"%char))
               then s ++ ["*"%char] else s in
      Ok (String.string_of_list_ascii (remove_double_star s))
  end.

(** [np.conj] of a block; the entries of the model are real. *)
Definition np_conj (t : ndarray) : ndarray := t.

(** [Array.conj], the receiver or the copy after the call. The new label
    dictionary is filled in the iteration order of the old one. *)
Definition conj (a : Array) (complex_conj : bool) : result Array :=
  let res :=
    if bool_decide (dtype a = dt_complex) && complex_conj
    then unary_blockwise np_conj a
    else copy a in
  let res := set_qtotal (charge_neg (qtotal res)) res in
  let res := set_legs (leg_conj <$> legs res) res in
  lbs ← map_result
          (λ p : string * nat, lab ← _conj_leg_label p.1; Ok (lab, p.2))
          (map_to_list (labels res));
  Ok (set_labels (list_to_map lbs) res).

(** ** Axes and labels *)

Inductive leg_label : Type :=
  | LInt (i : Z)
  | LStr (s : string).

(** [Array.get_leg_index]; a string that is no label compares greater than
    every integer. *)
Definition get_leg_index (a : Array) (label : leg_label) : result Z :=
  res ← match label with
        | LInt i => Ok i
        | LStr s =>
            match labels a !! s with
            | Some i => Ok (Z.of_nat i)
            | None => Raise (ValueError "axis out of rank")
            end
        end;
  if (Z.of_nat (rank a) <? res)%Z then Raise (ValueError "axis out of rank")
  else if (res <? 0)%Z then Ok (res + Z.of_nat (rank a))%Z
  else Ok res.

(** [Array.get_leg_indices] *)
Definition get_leg_indices (a : Array) (lbs : list leg_label) : result (list Z) :=
  map_result (get_leg_index a) lbs.

(** [l[i]] of a Python list, negative positions counted from the end. *)
Definition py_list_get {A} (l : list A) (i : Z) : result A :=
  let n := Z.of_nat (length l) in
  if bool_decide (0 ≤ i < n)%Z then py_index l (Z.to_nat i)
  else if bool_decide (- n ≤ i < 0)%Z then py_index l (Z.to_nat (n + i))
  else Raise (IndexError "list index out of range").

(** ** Splitting legs *)

(** [Array.split_legs]. [worker] stands for the call of
    [_split_legs_worker] and the relabelling that follows it; every check
    of [split_legs] precedes them. *)
Definition split_legs (worker : Array → list Z → Z → result Array)
    (a : Array) (axes : option (list leg_label)) (cutoff : Z) : result Array :=
  axes ← match axes with
         | None =>
             Ok ((λ p : nat * LegCharge, Z.of_nat p.1) <$>
                 filter (λ p : nat * LegCharge, isinstance_LegPipe p.2 = true)
                        (imap (λ i l, (i, l)) (legs a)))
         | Some axes =>
             axes ← get_leg_indices a axes;
             if bool_decide (length (remove_dups axes) = length axes) then
               Raise (ValueError "can't split a leg multiple times!")
             else Ok axes
         end;
  _ ← for_each
        (λ ax, l ← py_list_get (legs a) ax;
               if isinstance_LegPipe l then Ok ()
               else Raise (ValueError "can't split leg which is not a LegPipe"))
        axes;
  if bool_decide (length axes = 0) then Ok (copy a)
  else worker a axes cutoff.

(** ** Array objects in a store

    Python passes Arrays by reference. The store maps the identity of an
    Array object to its attribute values; a method that assigns to an
    attribute of [self] or [other] updates the store at that identity. The
    methods below rebind [_data] and [_qdata] to new containers and never
    write into a container that another object shares, so the attributes
    are kept by value. *)
Module Objects.

Abbreviation store := (gmap nat Array).

(** The outcome of a call and the store after it, also when it raises. *)
Definition call (A : Type) : Type := store → result A * store.

Definition unbound {A} : result A :=
  Raise (TypeError "the identity names no object").

(** [Array.copy(deep=False)]: a new object. *)
Definition copy_obj (self : nat) : call nat := λ σ,
  match σ !! self with
  | Some a => let res := fresh (dom σ) in (Ok res, <[res := copy a]> σ)
  | None => (unbound, σ)
  end.








End Objects.

(** ** Dense content *)

Definition sumZ (l : list Z) : Z := foldr Z.add 0%Z l.

(** All multi-indices of a shape in C order, as [np.ndindex]. *)
Fixpoint ndindex (sh : list nat) : list (list nat) :=
  match sh with
  | [] => [[]]
  | n :: sh' => i ← seq 0 n; (cons i) <$> ndindex sh'
  end.

(** [t.reshape((-1,))] *)
Definition flatten (t : ndarray) : list Z := nd_at t <$> ndindex (nd_shape t).

(** [np.inner] of two one-dimensional arrays. *)
Definition np_inner (x y : list Z) : result Z :=
  if bool_decide (length x = length y) then Ok (sumZ (zip_with Z.mul x y))
  else Raise (ValueError "shapes not aligned").

Definition in_slices (sl : list (nat * nat)) (idx : list nat) : bool :=
  bool_decide (length idx = length sl) &&
  forallb (λ p : nat * (nat * nat), (p.2.1 <=? p.1) && (p.1 <? p.2.2))
          (zip idx sl).

(** [res[slices] = block] *)
Definition nd_set_slices (res : ndarray) (sl : list (nat * nat))
    (block : ndarray) : ndarray :=
  {| nd_shape := nd_shape res; nd_dtype := nd_dtype res;
     nd_at := λ idx,
       if in_slices sl idx
       then nd_at block (zip_with (λ i (s : nat * nat), i - s.1) idx sl)
       else nd_at res idx |}.

(** [Array.__iter__]: block, slices, charges and row of every stored
    block. *)
Definition iter_blocks (a : Array)
    : list (ndarray * list (nat * nat) * list charge * list nat) :=
  (λ p : ndarray * list nat,
     (p.1, zip_with get_slice (legs a) p.2,
      zip_with get_charge (legs a) p.2, p.2))
  <$> zip (_data a) (_qdata a).

(** [Array.to_ndarray] *)
Definition to_ndarray (a : Array) : ndarray :=
  foldl (λ res y, nd_set_slices res y.1.1.2 y.1.1.1)
        (np_zeros (shape a) (dtype a)) (iter_blocks a).

(** The elementwise dot product of two dense arrays of one shape. *)
Definition dense_dot (s t : ndarray) : Z :=
  sumZ ((λ idx, (nd_at s idx * nd_at t idx)%Z) <$> ndindex (nd_shape s)).

(** ** Contraction *)

(** The two [for] loops that end [_iter_common_sorted], entered when one
    of the iterators is exhausted; the first rebinds [i]. *)
Definition ics_tail (a b : list nat) (i j : nat) (a_it b_it : list nat)
    : list (nat * nat) :=
  let first := (λ i', (i', j)) <$> filter (λ i', a !!! i' = b !!! j) a_it in
  let i := default i (last a_it) in
  let second := (λ j', (i, j')) <$> filter (λ j', a !!! i = b !!! j') b_it in
  first ++ second.

(** The [while True] loop of [_iter_common_sorted]; [a_it] and [b_it] are
    what the iterators still hold, [i] and [j] the current positions. *)
Fixpoint ics_loop (a b : list nat) (i : nat) (a_it : list nat)
    : nat → list nat → list (nat * nat) :=
  fix go (j : nat) (b_it : list nat) : list (nat * nat) :=
    if a !!! i <? b !!! j then
      match a_it with
      | i' :: a_it' => ics_loop a b i' a_it' j b_it
      | [] => ics_tail a b i j [] b_it
      end
    else if b !!! j <? a !!! i then
      match b_it with
      | j' :: b_it' => go j' b_it'
      | [] => ics_tail a b i j a_it []
      end
    else
      (i, j) ::
      match a_it with
      | i' :: a_it' =>
          match b_it with
          | j' :: b_it' => ics_loop a b i' a_it' j' b_it'
          | [] => ics_tail a b i' j a_it' []
          end
      | [] => ics_tail a b i j [] b_it
      end.

(** [_iter_common_sorted]: the pairs the generator yields, in order. A
    first [next] on an empty iterator ends the generator. *)
Definition _iter_common_sorted (a b : list nat) (a_idx b_idx : list nat)
    : list (nat * nat) :=
  match a_idx, b_idx with
  | i :: a_it, j :: b_it => ics_loop a b i a_it j b_it
  | _, _ => []
  end.

(** [np.cumprod] *)
Fixpoint cumprod_from (acc : nat) (l : list nat) : list nat :=
  match l with
  | [] => []
  | x :: l' => (acc * x) :: cumprod_from (acc * x) l'
  end.
Definition np_cumprod (l : list nat) : list nat := cumprod_from 1 l.

(** [np.sum(row * stride)]: a sector row as one integer. *)
Definition encode_row (stride row : list nat) : nat :=
  sum_list (zip_with Nat.mul row stride).

(** [np.find_common_type] *)
Definition find_common_type (s t : np_dtype) : np_dtype :=
  match s, t with
  | dt_complex, _ | _, dt_complex => dt_complex
  | dt_float, _ | _, dt_float => dt_float
  | dt_int, dt_int => dt_int
  end.

(** The [for] loop of [inner] over the common blocks. *)
Fixpoint inner_sum (a_data b_data : list ndarray) (pairs : list (nat * nat))
    (res : Z) : result Z :=
  match pairs with
  | [] => Ok res
  | (i, j) :: ps =>
      ta ← py_index a_data i;
      tb ← py_index b_data j;
      v ← np_inner (flatten ta) (flatten tb);
      inner_sum a_data b_data ps (res + v)%Z
  end.

(** The keys and blocks of one operand of [inner], sorted by key. *)
Definition inner_sorted (stride : list nat) (a : Array)
    : list nat * list ndarray :=
  let a_qdata := encode_row stride <$> _qdata a in
  if _qdata_sorted a then (a_qdata, _data a)
  else
    let perm := np_argsort a_qdata in
    (fancy a_qdata perm, fancy (_data a) perm).

(** [inner(a, b)] with the default [axes=None] and [do_conj=False]. *)
Definition inner (a b : Array) : result Z :=
  if negb (bool_decide (rank a = rank b)) then
    Raise (ValueError "different rank!")
  else if negb (bool_decide (chinfo a = chinfo b)) then
    Raise (ValueError "different ChargeInfo")
  else
    _ ← for_each (λ p, test_contractible p.1 p.2) (zip (legs a) (legs b));
    let res := 0%Z in
    if existsb (λ q, negb (q =? 0)%Z)
         (make_valid (chinfo a) (charge_add (qtotal a) (qtotal b)))
    then Ok res
    else if (stored_blocks a =? 0) || (stored_blocks b =? 0) then Ok res
    else
      let stride :=
        np_cumprod (1 :: (block_number <$> take (length (legs a) - 1) (legs a))) in
      let '(a_qdata, a_data) := inner_sorted stride a in
      let '(b_qdata, b_data) := inner_sorted stride b in
      inner_sum a_data b_data
        (_iter_common_sorted a_qdata b_qdata
           (seq 0 (length a_qdata)) (seq 0 (length b_qdata)))
        res.

(** [np.tensordot(s, t, axes)] of two blocks: the last [axes] axes of [s]
    are summed against the first [axes] axes of [t]. *)
Definition np_tensordot (axes : nat) (s t : ndarray) : ndarray :=
  let keep_s := length (nd_shape s) - axes in
  {| nd_shape := take keep_s (nd_shape s) ++ drop axes (nd_shape t);
     nd_dtype := find_common_type (nd_dtype s) (nd_dtype t);
     nd_at := λ idx,
       sumZ ((λ k, (nd_at s (take keep_s idx ++ k) *
                    nd_at t (k ++ drop keep_s idx))%Z)
             <$> ndindex (drop keep_s (nd_shape s))) |}.

(** [np.asarray(t, dtype=dt)] *)
Definition np_asarray (t : ndarray) (dt : np_dtype) : ndarray :=
  {| nd_shape := nd_shape t; nd_dtype := dt; nd_at := nd_at t |}.

(** Modelled from the spec: [charges._find_row_differences], the positions
    where a row differs from the row before it, with the first position in
    front and the number of rows at the end; rows between two consecutive
    positions form one group. *)
Fixpoint row_changes (prev : list nat) (i : nat) (rows : list (list nat))
    : list nat :=
  match rows with
  | [] => [i]
  | r :: rows' =>
      if decide (r = prev) then row_changes r (S i) rows'
      else i :: row_changes r (S i) rows'
  end.

Definition _find_row_differences (rows : list (list nat)) : list nat :=
  match rows with
  | [] => [0]
  | r :: rows' => 0 :: row_changes r 1 rows'
  end.

(** What [_tensordot_pre_worker] returns for one operand. *)
Record pre_result : Type := mkPre {
  p_data : list ndarray;
  p_qdata_sum : list nat;
  p_qdata_keep : list (list nat);
  p_charges_keep : list charge;
  p_slices : list nat }.

(** [x[slices[:-1]]] *)
Definition group_starts (slices : list nat) : list nat :=
  take (length slices - 1) slices.

(** [_tensordot_pre_worker] *)
Definition _tensordot_pre_worker (a b : Array) (cut_a cut_b : nat)
    : pre_result * pre_result :=
  let stride :=
    np_cumprod
      (1 :: (block_number <$> drop cut_a (take (length (legs a) - 1) (legs a)))) in
  let a_qdata_sum := (λ r, encode_row stride (drop cut_a r)) <$> _qdata a in
  let a_sort :=
    np_lexsort_rows (zip_with (λ s r, s :: take cut_a r) a_qdata_sum (_qdata a)) in
  let a_qdata_keep := fancy (take cut_a <$> _qdata a) a_sort in
  let a_qdata_sum := fancy a_qdata_sum a_sort in
  let a_data := fancy (_data a) a_sort in
  let b_qdata_sum := (λ r, encode_row stride (take cut_b r)) <$> _qdata b in
  let '(b_data, b_qdata_sum, b_qdata_keep) :=
    if negb (_qdata_sorted b) then
      let b_sort :=
        np_lexsort_rows
          (zip_with (λ s r, s :: drop cut_b r) b_qdata_sum (_qdata b)) in
      (fancy (_data b) b_sort, fancy b_qdata_sum b_sort,
       fancy (drop cut_b <$> _qdata b) b_sort)
    else (_data b, b_qdata_sum, drop cut_b <$> _qdata b) in
  let a_slices := _find_row_differences a_qdata_keep in
  let b_slices := _find_row_differences b_qdata_keep in
  let a_qdata_keep := fancy a_qdata_keep (group_starts a_slices) in
  let b_qdata_keep := fancy b_qdata_keep (group_starts b_slices) in
  let a_charges_keep :=
    (λ r, make_valid (chinfo a)
            (charge_sum (chinfo a) (zip_with get_charge (take cut_a (legs a)) r)))
    <$> a_qdata_keep in
  let b_charges_keep :=
    (λ r, make_valid (chinfo a)
            (charge_sum (chinfo a) (zip_with get_charge (drop cut_b (legs b)) r)))
    <$> b_qdata_keep in
  (mkPre a_data a_qdata_sum a_qdata_keep a_charges_keep a_slices,
   mkPre b_data b_qdata_sum b_qdata_keep b_charges_keep b_slices).

(** The range of positions between [slices[k]] and [slices[k+1]]. *)
Definition slice_range (slices : list nat) (k : nat) : list nat :=
  let beg := slices !!! k in
  seq beg (slices !!! (S k) - beg).

(** The innermost loop of [_tensordot_worker]: the sum of the contracted
    matching blocks, [None] when nothing matches. *)
Definition contract_common (axes : nat) (dt : np_dtype) (pa pb : pre_result)
    (a_sl b_sl : list nat) : option ndarray :=
  foldl
    (λ (block_sum : option ndarray) (k : nat * nat),
       let block := np_tensordot axes (p_data pa !!! k.1) (p_data pb !!! k.2) in
       match block_sum with
       | None => Some (np_asarray block dt)
       | Some s => Some (np_add s block)
       end)
    None
    (_iter_common_sorted (p_qdata_sum pa) (p_qdata_sum pb) a_sl b_sl).

(** The body of the loop over [row_a] in [_tensordot_worker], for the
    column [col_b]; [acc] is [(res_qdata, res_data)]. *)
Definition worker_body (ci : ChargeInfo) (qt : charge) (axes : nat)
    (dt : np_dtype) (pa pb : pre_result) (col_b : nat)
    (acc : list (list nat) * list ndarray) (row_a : nat)
    : list (list nat) * list ndarray :=
  let Q_col := p_charges_keep pb !!! col_b in
  let b_sl := slice_range (p_slices pb) col_b in
  let Q_row := p_charges_keep pa !!! row_a in
  if negb (bool_decide (make_valid ci (charge_add Q_col Q_row) = qt)) then acc
  else
    let a_sl := slice_range (p_slices pa) row_a in
    match contract_common axes dt pa pb a_sl b_sl with
    | None => acc
    | Some block_sum =>
        (acc.1 ++ [(p_qdata_keep pa !!! row_a) ++ (p_qdata_keep pb !!! col_b)],
         acc.2 ++ [block_sum])
    end.

(** The two nested loops of [_tensordot_worker]. *)
Definition worker_table (ci : ChargeInfo) (qt : charge) (axes : nat)
    (dt : np_dtype) (pa pb : pre_result) : list (list nat) * list ndarray :=
  foldl
    (λ acc col_b,
       foldl (worker_body ci qt axes dt pa pb col_b) acc
             (seq 0 (length (p_qdata_keep pa))))
    ([], []) (seq 0 (length (p_qdata_keep pb))).

(** [_tensordot_worker] *)
Definition _tensordot_worker (a b : Array) (axes : nat) : result Array :=
  let cut_a := rank a - axes in
  let cut_b := axes in
  let '(pa, pb) := _tensordot_pre_worker a b cut_a cut_b in
  let ci := chinfo a in
  let qt := make_valid ci (charge_add (qtotal a) (qtotal b)) in
  let dt := find_common_type (dtype a) (dtype b) in
  let '(res_qdata, res_data) := worker_table ci qt axes dt pa pb in
  res ← Array_init ci (take cut_a (legs a) ++ drop cut_b (legs b)) dt qt;
  if bool_decide (length res_data = 0) then Ok res
  else
    let res := set_data res_data (set_qdata_sorted true (set_qdata res_qdata res)) in
    _ ← test_sanity res;
    Ok res.

(** ** Invariants of the data model

    [test_sanity] checks the shape, the dtypes, the legs, the size and the
    range of the block rows and the sorted flag. The invariants below are
    the ones of the data model that it leaves unchecked. *)

(** No two stored blocks share their row. *)
Definition rows_distinct (a : Array) : bool := bool_decide (NoDup (_qdata a)).

(** The shape of a stored block is the sizes of its sectors. *)
Definition blocks_shaped (a : Array) : bool :=
  forallb (λ p : ndarray * list nat,
             bool_decide (nd_shape p.1 = _get_block_shape a p.2))
          (zip (_data a) (_qdata a)).

(** The charge of every stored block is the total charge. *)
Definition charges_conserved (a : Array) : bool :=
  forallb (λ r, bool_decide (_get_block_charge a r = qtotal a)) (_qdata a).

(** The same, for a total charge that is compared after it is made
    canonical. *)
Definition charges_congruent (a : Array) : bool :=
  forallb (λ r, bool_decide
                  (_get_block_charge a r = make_valid (chinfo a) (qtotal a)))
          (_qdata a).

(** ** What a call does to the store *)


(** The attributes that [isort_qdata] keeps, and the block table up to the
    order of its rows. *)
Definition same_content (a a' : Array) : Prop :=
  chinfo a' = chinfo a ∧ legs a' = legs a ∧ shape a' = shape a ∧
  dtype a' = dtype a ∧ qtotal a' = qtotal a ∧ labels a' = labels a ∧
  zip (_qdata a') (_data a') ≡ₚ zip (_qdata a) (_data a).

(** ** Example arrays *)

(** One charge of the cyclic group with two elements. *)
Definition Z2 : ChargeInfo := mkChargeInfo [2%Z].

(** A leg of two sectors of size one, with charges [0] and [1]. *)
Definition leg2 (c : Z) : LegCharge :=
  mkLeg [(0, 1, [0%Z]); (1, 2, [1%Z])] c None.

(** A block of shape [sh] that holds [v] everywhere. *)
Definition const_block (sh : list nat) (v : Z) : ndarray :=
  mkNd sh dt_float (λ _, v).

(** The identity matrix of the scenario of the specification. *)
Definition ex_eye : Array :=
  mkArray Z2 [leg2 1; leg2 (-1)] [2; 2] dt_float [0%Z] ∅
          [const_block [1; 1] 1; const_block [1; 1] 1] [[0; 0]; [1; 1]] true.

(** Twice the identity on the conjugate legs, its rows stored out of
    order. *)
Definition ex_two_unsorted : Array :=
  mkArray Z2 [leg2 (-1); leg2 1] [2; 2] dt_float [0%Z] ∅
          [const_block [1; 1] 2; const_block [1; 1] 3] [[1; 1]; [0; 0]] false.

(** The same rows out of order on the legs of [ex_eye]. *)
Definition ex_eye_unsorted : Array :=
  mkArray Z2 [leg2 1; leg2 (-1)] [2; 2] dt_float [0%Z] ∅
          [const_block [1; 1] 2; const_block [1; 1] 3] [[1; 1]; [0; 0]] false.

(** One block at the row [(0, 0)], and one at [(1, 1)]. *)
Definition ex_first : Array :=
  mkArray Z2 [leg2 1; leg2 (-1)] [2; 2] dt_float [0%Z] ∅
          [const_block [1; 1] 1] [[0; 0]] true.
Definition ex_second : Array :=
  mkArray Z2 [leg2 1; leg2 (-1)] [2; 2] dt_float [0%Z] ∅
          [const_block [1; 1] 2] [[1; 1]] true.

(** A matrix of total charge [1]: its only block sits at the row
    [(1, 0)]. *)
Definition ex_odd : Array :=
  mkArray Z2 [leg2 1; leg2 (-1)] [2; 2] dt_float [1%Z] ∅
          [const_block [1; 1] 5] [[1; 0]] true.

(** A vector with one stored block. *)
Definition ex_vector : Array :=
  mkArray Z2 [leg2 1] [2] dt_float [0%Z] ∅ [const_block [1] 4] [[0]] true.

(** A vector on a pipe that fuses the two legs of [ex_eye]. *)
Definition ex_pipe_leg : LegCharge :=
  mkLeg [(0, 2, [0%Z]); (2, 4, [1%Z])] 1 (Some [leg2 1; leg2 (-1)]).
Definition ex_fused : Array :=
  mkArray Z2 [ex_pipe_leg] [4] dt_float [0%Z] ∅
          [mkNd [2] dt_float (λ _, 1%Z)] [[0]] true.


(** The end of the last sector of a table that starts at [s]. *)
Definition ends_at (q : list (nat * nat * charge)) (s : nat) : nat :=
  match last q with Some (_, e, _) => e | None => s end.

(** An index lies in the sector [p.1] of its leg at the offset [p.2]. *)
Definition resolved (z : Z) (l : LegCharge) (p : nat * nat) : Prop :=
  p.1 < block_number l ∧
  sector_start l p.1 ≤ Z.to_nat z < sector_stop l p.1 ∧
  p.2 = Z.to_nat z - sector_start l p.1.
(** The error of a write at a sector row of the wrong charge. *)
Definition IncompatibleCharge : pyerr :=
  IndexError "trying to get block for qindices incompatible with charges".

(** What the docstring of [_iter_common_sorted] promises:
    [[(i, j) for j, i in itertools.product(b_idx, a_idx) if a[i] == b[j]]]. *)
Definition common_pairs (a b : list nat) (a_idx b_idx : list nat)
    : list (nat * nat) :=
  j ← b_idx; i ← a_idx; if decide (a !!! i = b !!! j) then [(i, j)] else [].

(** The keys [a[i]] are strictly ascending along the positions [idx]. *)
Definition ascending (a : list nat) (idx : list nat) : Prop :=
  StronglySorted (λ i i', a !!! i < a !!! i') idx.

(** What the specification says a pair of groups contributes to the result
    of [tensordot]: nothing when the kept charges do not add up to the
    total charge or when the merge-join of the summed keys finds no match,
    and otherwise one block, the sum of the contracted matches, at the row
    that concatenates the two kept sub-rows. *)
Definition group_pair_output (ci : ChargeInfo) (qt : charge) (axes : nat)
    (dt : np_dtype) (pa pb : pre_result) (row_a col_b : nat)
    : list (list nat * ndarray) :=
  let contract := λ k : nat * nat,
    np_tensordot axes (p_data pa !!! k.1) (p_data pb !!! k.2) in
  if bool_decide
       (make_valid ci (charge_add (p_charges_keep pb !!! col_b)
                         (p_charges_keep pa !!! row_a)) = qt)
  then
    match _iter_common_sorted (p_qdata_sum pa) (p_qdata_sum pb)
            (slice_range (p_slices pa) row_a)
            (slice_range (p_slices pb) col_b) with
    | [] => []
    | k :: ks =>
        [((p_qdata_keep pa !!! row_a) ++ (p_qdata_keep pb !!! col_b),
          foldl (λ s k', np_add s (contract k')) (np_asarray (contract k) dt) ks)]
    end
  else [].

(** The output of all pairs, columns of [b] in the outer loop. *)
Definition group_pairs_output (ci : ChargeInfo) (qt : charge) (axes : nat)
    (dt : np_dtype) (pa pb : pre_result) : list (list nat * ndarray) :=
  col_b ← seq 0 (length (p_qdata_keep pb));
  row_a ← seq 0 (length (p_qdata_keep pa));
  group_pair_output ci qt axes dt pa pb row_a col_b.

(** A row has one sector of every leg. *)
Definition row_in_range (ls : list LegCharge) (r : list nat) : Prop :=
  Forall2 (λ qi l, qi < block_number l) r ls.

(** The block table as a list of rows with their blocks. *)
Definition table (a : Array) : list (list nat * ndarray) :=
  zip (_qdata a) (_data a).

(** The entry at [idx] of the dense array that holds the block [t] in the
    slices [sl] and zeros elsewhere. *)
Definition embed (sl : list (nat * nat)) (t : ndarray) (idx : list nat) : Z :=
  if in_slices sl idx
  then nd_at t (zip_with (λ i (s : nat * nat), i - s.1) idx sl)
  else 0%Z.

(** The elementwise dot product of two blocks. *)
Definition block_dot (s t : ndarray) : Z :=
  sumZ (zip_with Z.mul (flatten s) (flatten t)).

(** The sum of the dot products of the blocks that two Arrays store at the
    same row. *)
Definition matched_dot (a b : Array) : Z :=
  sumZ ((λ x : list nat * ndarray,
           sumZ ((λ y : list nat * ndarray,
                    if decide (x.1 = y.1) then block_dot x.2 y.2 else 0%Z)
                 <$> table b))
        <$> table a).

(** The legs of two Arrays are pairwise contractible. *)
Definition legs_contractible (a b : Array) : Prop :=
  Forall2 (λ la lb, qind la = qind lb ∧ qconj la = (- qconj lb)%Z)
          (legs a) (legs b).

(** A row in the mixed radix of the sector counts [ns], the first axis
    least significant. *)
Fixpoint horner (ns row : list nat) : nat :=
  match ns, row with
  | n :: ns', r :: row' => r + n * horner ns' row'
  | _, _ => 0
  end.

(** The first row of every run of equal consecutive rows after [prev]:
    the rows that [_find_row_differences] points at. *)
Fixpoint run_heads (prev : list nat) (rows : list (list nat))
    : list (list nat) :=
  match rows with
  | [] => []
  | r :: rows' =>
      if decide (r = prev) then run_heads r rows' else r :: run_heads r rows'
  end.

(** ** Leg labels *)

(** The loop of [Array.set_leg_labels] over [enumerate(labels)], from the
    position [i] on; [None] stands for an anonymous leg. *)
Fixpoint set_leg_labels_loop (i : nat) (lbs : list (option string))
    (m : gmap string nat) : result (gmap string nat) :=
  match lbs with
  | [] => Ok m
  | l :: lbs' =>
      if bool_decide (l = Some EmptyString) then
        Raise (ValueError "use `None` for empty labels")
      else
        set_leg_labels_loop (S i) lbs'
          (match l with Some s => <[s := i]> m | None => m end)
  end.

(** [Array.set_leg_labels]: the receiver after a call that returns. *)
Definition set_leg_labels (a : Array) (lbs : list (option string))
    : result Array :=
  if negb (bool_decide (length lbs = rank a)) then
    Raise (ValueError "Need one leg label for each of the legs.")
  else
    m ← set_leg_labels_loop 0 lbs ∅;
    Ok (set_labels m a).

(** [lb[v] = k] for a list [lb]. *)
Definition py_list_set {A} (lb : list A) (v : nat) (k : A) : result (list A) :=
  if v <? length lb then Ok (<[v := k]> lb)
  else Raise (IndexError "list assignment index out of range").

(** [Array.get_leg_labels]; the dictionary is walked in the order of
    [map_to_list]. *)
Definition get_leg_labels (a : Array) : result (list (option string)) :=
  foldl (λ acc (kv : string * nat), lb ← acc; py_list_set lb kv.2 (Some kv.1))
        (Ok (replicate (rank a) None)) (map_to_list (labels a)).

(** ** Labels of pipes *)

(** [label[beg:stop]] *)
Definition str_slice (l : list Ascii.ascii) (beg stop : nat)
    : list Ascii.ascii :=
  take (stop - beg) (drop beg l).

(** ['.'.join(labels)] *)
Fixpoint join_dot (ps : list (list Ascii.ascii)) : list Ascii.ascii :=
  match ps with
  | [] => []
  | [p] => p
  | p :: ps' => p ++ "."%char :: join_dot ps'
  end.

(** The label that [combine_legs] gives a new pipe:
    ['(' + '.'.join(labels) + ')']. *)
Definition pipe_label (ps : list (list Ascii.ascii)) : list Ascii.ascii :=
  "("%char :: join_dot ps ++ [")"%char].

(** The [for] loop of [Array._split_leg_label] from the position [i] on;
    [cs] holds the characters [label[i:len(label) - 1]]. It returns [beg]
    and [res]. *)
Fixpoint split_label_loop (label : list Ascii.ascii) (i : nat)
    (cs : list Ascii.ascii) (beg : nat) (depth : Z)
    (res : list (list Ascii.ascii)) : nat * list (list Ascii.ascii) :=
  match cs with
  | [] => (beg, res)
  | c :: cs' =>
      if Ascii.eqb c "(" then
        split_label_loop label (S i) cs' beg (depth + 1) res
      else if Ascii.eqb c ")" then
        split_label_loop label (S i) cs' beg (depth - 1) res
      else if Ascii.eqb c "." && (depth =? 0)%Z then
        split_label_loop label (S i) cs' (S i) depth
                         (res ++ [str_slice label beg i])
      else split_label_loop label (S i) cs' beg depth res
  end.

(** What a call of [_split_leg_label] ends with: it returns or raises an
    exception of [pyerr], or it reads the loop variable [i] that no
    iteration has bound. *)
Inductive split_outcome : Type :=
  | SplitDone (r : result (list (option (list Ascii.ascii))))
  | SplitUnboundLocal.

(** [Array._split_leg_label] on the characters of the label. *)
Definition _split_leg_label (label : list Ascii.ascii) (count : nat)
    : split_outcome :=
  match label with
  | [] => SplitDone (Raise (IndexError "string index out of range"))
  | c0 :: _ =>
      if negb (Ascii.eqb c0 "(") || negb (bool_decide (last label = Some ")"%char))
      then SplitDone (Raise (ValueError
             "split label, which is not of the Form '(...)'"))
      else
        let n := length label in
        let middle := str_slice label 1 (n - 1) in
        if bool_decide (middle = []) then SplitUnboundLocal
        else
            let '(beg, res) := split_label_loop label 1 middle 1 0 [] in
            let res := res ++ [str_slice label beg (n - 1)] in
            if negb (bool_decide (length res = count)) then
              SplitDone (Raise (ValueError "wrong number of splitted labels."))
            else
              SplitDone
                (map_result
                   (λ p : list Ascii.ascii,
                      match p with
                      | [] => Raise (IndexError "string index out of range")
                      | c :: _ =>
                          if Ascii.eqb c "?" then Ok None else Ok (Some p)
                      end) res)
  end.

(** A label without the characters that structure the label of a pipe. *)
Definition plain_label (p : list Ascii.ascii) : Prop :=
  p ≠ [] ∧
  Forall (λ c, c ≠ "("%char ∧ c ≠ ")"%char ∧ c ≠ "."%char) p.

(** The entry at [idx] of the first block of a table whose slices hold
    [idx]; zero when no block does. *)
Fixpoint table_at (ls : list LegCharge) (T : list (list nat * ndarray))
    (idx : list nat) : Z :=
  match T with
  | [] => 0%Z
  | x :: T' =>
      if in_slices (zip_with get_slice ls x.1) idx
      then nd_at x.2 (zip_with (λ i (s : nat * nat), i - s.1) idx
                               (zip_with get_slice ls x.1))
      else table_at ls T' idx
  end.

(** [np.add(s, t)] and [np.subtract(s, t)] of two blocks of one shape; the
    result has the common type of the two. *)
Definition np_ufunc_add (s t : ndarray) : ndarray :=
  {| nd_shape := nd_shape s;
     nd_dtype := find_common_type (nd_dtype s) (nd_dtype t);
     nd_at := λ i, (nd_at s i + nd_at t i)%Z |}.
Definition np_ufunc_subtract (s t : ndarray) : ndarray :=
  {| nd_shape := nd_shape s;
     nd_dtype := find_common_type (nd_dtype s) (nd_dtype t);
     nd_at := λ i, (nd_at s i - nd_at t i)%Z |}.

(** [Array.__add__], [Array.__iadd__], [Array.__sub__] and [Array.__isub__]
    for an [other] that is an Array. *)
Definition __add__ (self other : Array) : result Array :=
  binary_blockwise np_ufunc_add self other.
Definition __iadd__ (self other : Array) : result Array :=
  ibinary_blockwise np_ufunc_add self other.
Definition __sub__ (self other : Array) : result Array :=
  binary_blockwise np_ufunc_subtract self other.
Definition __isub__ (self other : Array) : result Array :=
  ibinary_blockwise np_ufunc_subtract self other.

(** The sum of [ex_second] and [ex_eye_unsorted]. *)
Definition ex_sum : Array :=
  mkArray Z2 [leg2 1; leg2 (-1)] [2; 2] dt_float [0%Z] ∅
          [const_block [1; 1] 3; const_block [1; 1] 4] [[0; 0]; [1; 1]] true.

(** The identity matrix with blocks of integers. *)
Definition ex_eye_int : Array :=
  mkArray Z2 [leg2 1; leg2 (-1)] [2; 2] dt_int [0%Z] ∅
          [mkNd [1; 1] dt_int (λ _, 1%Z); mkNd [1; 1] dt_int (λ _, 1%Z)]
          [[0; 0]; [1; 1]] true.

(** [t.astype(dt, copy=True)] of a block. *)
Definition nd_astype (dt : np_dtype) (t : ndarray) : ndarray :=
  {| nd_shape := nd_shape t; nd_dtype := dt; nd_at := nd_at t |}.

(** [Array.astype] for a [dtype] that is not [None]: the blocks are
    converted with [self.dtype]. *)
Definition astype (self : Array) (dt : np_dtype) : Array :=
  let cp := copy self in
  let cp := set_dtype dt cp in
  set_data (nd_astype (dtype self) <$> _data self) cp.

(** ** Transposition *)

Global Instance LegCharge_inhabited : Inhabited LegCharge :=
  populate (mkLeg [] 1 None).

(** The axis of a block with [n] axes that the entry [z] of an [axes]
    argument names. *)
Definition normalize_axis (n : nat) (z : Z) : result nat :=
  if bool_decide (0 ≤ z < Z.of_nat n)%Z then Ok (Z.to_nat z)
  else if bool_decide (- Z.of_nat n ≤ z < 0)%Z then Ok (Z.to_nat (Z.of_nat n + z))
  else Raise (ValueError "axis is out of bounds").

(** The inverse of a permutation of the axes: [np.argsort(axes)]. *)
Definition inverse_axes (ax : list nat) : list nat :=
  (λ j, default 0 (fst <$> list_find (λ p, p = j) ax)) <$> seq 0 (length ax).

(** [np.transpose(t, axes)]: axis [i] of the result is axis [axes[i]] of
    [t]. *)
Definition np_transpose (t : ndarray) (axes : list Z) : result ndarray :=
  let n := length (nd_shape t) in
  if negb (bool_decide (length axes = n)) then
    Raise (ValueError "axes don't match array")
  else
    ax ← map_result (normalize_axis n) axes;
    if negb (bool_decide (NoDup ax)) then
      Raise (ValueError "repeated axis in transpose")
    else
      Ok {| nd_shape := fancy (nd_shape t) ax; nd_dtype := nd_dtype t;
            nd_at := λ idx, nd_at t (fancy idx (inverse_axes ax)) |}.

(** The assignments of [Array.itranspose] once [axes] is a tuple of
    integers. *)
Definition itranspose_axes (self : Array) (axes : list Z) : result Array :=
  legs' ← map_result (py_list_get (legs self)) axes;
  let s1 := _set_shape (set_legs legs' self) in
  labs ← get_leg_labels s1;
  labs' ← map_result (py_list_get labs) axes;
  s2 ← set_leg_labels s1 labs';
  qdata' ← map_result (λ r, map_result (py_list_get r) axes) (_qdata s2);
  let s3 := set_qdata_sorted false (set_qdata qdata' s2) in
  data' ← map_result (λ t, np_transpose t axes) (_data s3);
  Ok (set_data data' s3).

(** [Array.itranspose]: the receiver after a call that returns. *)
Definition itranspose (self : Array) (axes : option (list leg_label))
    : result Array :=
  match axes with
  | None => itranspose_axes self (Z.of_nat <$> reverse (seq 0 (rank self)))
  | Some lbs =>
      axes ← get_leg_indices self lbs;
      if negb (bool_decide (length axes = rank self)) ||
         negb (bool_decide (length (remove_dups axes) = rank self))
      then Raise (ValueError "axes has wrong length")
      else if bool_decide (axes = Z.of_nat <$> seq 0 (rank self))
      then Ok self
      else itranspose_axes self axes
  end.

(** [Array.transpose]: [itranspose] on a deep copy. *)
Definition transpose (self : Array) (axes : option (list leg_label))
    : result Array :=
  itranspose (copy self) axes.

(** A label that [conj] stars or unstars: no dot, no parenthesis, and at
    most one star, at its end. *)
Definition simple_label (s : string) : Prop :=
  ∃ t : string,
    String.list_ascii_of_string t ≠ [] ∧
    Forall (λ c, c ≠ "."%char ∧ c ≠ ")"%char ∧ c ≠ "*"%char)
           (String.list_ascii_of_string t) ∧
    (s = t ∨ s = String.append t "*").

(** [ex_odd] with the labels ['p'] and ['p*'] on its legs. *)
Definition ex_labelled : Array :=
  set_labels (<["p"%string := 0]> (<["p*"%string := 1]> ∅)) ex_odd.

(** What a stored block [x] of [a] and a stored block [y] of [b]
    contribute to the dense entry at [idx] of their contraction over the
    last [axes] legs of [a] and the first [axes] legs of [b]. *)
Definition contraction_term (a b : Array) (axes : nat) (idx : list nat)
    (x y : list nat * ndarray) : Z :=
  if decide (drop (rank a - axes) x.1 = take axes y.1)
  then embed (zip_with get_slice
                (take (rank a - axes) (legs a) ++ drop axes (legs b))
                (take (rank a - axes) x.1 ++ drop axes y.1))
             (np_tensordot axes x.2 y.2) idx
  else 0%Z.

(** ** Gauging the total charge *)

(** The leg that [gauge_total_charge] puts in place of [l]: the charges of
    its sectors are shifted by [qconj * chdiff] and made canonical. *)
Definition gauge_leg (ci : ChargeInfo) (chdiff : charge) (l : LegCharge)
    : LegCharge :=
  {| qind := (λ s : nat * nat * charge,
                (s.1, make_valid ci
                        (charge_add s.2 (charge_scale (qconj l) chdiff))))
             <$> qind l;
     qconj := qconj l;
     pipe_legs := pipe_legs l |}.

(** [Array.gauge_total_charge] for a given [newqtotal]. The test
    [isinstance(leg, LegPipe)] looks at the index of the leg and never
    holds. *)
Definition gauge_total_charge (self : Array) (leg : leg_label)
    (newqtotal : charge) : result Array :=
  leg ← get_leg_index self leg;
  let newqtotal := make_valid (chinfo self) newqtotal in
  let chdiff := zip_with Z.sub newqtotal (qtotal self) in
  l ← py_list_get (legs self) leg;
  let newleg := gauge_leg (chinfo self) chdiff l in
  let n := Z.of_nat (length (legs self)) in
  let p := Z.to_nat (if (leg <? 0)%Z then n + leg else leg)%Z in
  Ok (set_qtotal newqtotal (set_legs (<[p := newleg]> (legs self)) self)).

(** ** Scaling an axis *)

(** [t[i]] of a Python tuple, negative positions counted from the end. *)
Definition py_tuple_get {A} (l : list A) (i : Z) : result A :=
  match py_list_get l i with
  | Ok x => Ok x
  | Raise _ => Raise (IndexError "tuple index out of range")
  end.

(** A list with the entries at two positions exchanged. *)
Definition swap_pos {A} `{Inhabited A} (l : list A) (i j : nat) : list A :=
  <[i := l !!! j]> (<[j := l !!! i]> l).

(** [np.swapaxes(t, axis1, axis2)] *)
Definition np_swapaxes (t : ndarray) (axis1 axis2 : Z) : result ndarray :=
  let n := length (nd_shape t) in
  a1 ← normalize_axis n axis1;
  a2 ← normalize_axis n axis2;
  Ok {| nd_shape := swap_pos (nd_shape t) a1 a2; nd_dtype := nd_dtype t;
        nd_at := λ idx, nd_at t (swap_pos idx a1 a2) |}.

(** [s[beg:stop]] of a one-dimensional array; a slice is clipped to the
    array. *)
Definition nd_slice_1d (s : ndarray) (sl : nat * nat) : ndarray :=
  let n := default 0 (head (nd_shape s)) in
  let b := sl.1 `min` n in
  let e := sl.2 `min` n in
  {| nd_shape := [e - b]; nd_dtype := nd_dtype s;
     nd_at := λ idx, nd_at s (zip_with Nat.add [b] idx) |}.

(** [t * v] of numpy for a one-dimensional [v], which is broadcast along
    the last axis of [t]; an axis of length [1] is stretched. *)
Definition np_multiply_last (t v : ndarray) : result ndarray :=
  let k := length (nd_shape t) in
  let d := default 1 (last (nd_shape t)) in
  let m := default 1 (head (nd_shape v)) in
  if bool_decide (d = m) || bool_decide (d = 1) || bool_decide (m = 1) then
    Ok {| nd_shape := take (k - 1) (nd_shape t) ++ [if d =? 1 then m else d];
          nd_dtype := find_common_type (nd_dtype t) (nd_dtype v);
          nd_at := λ idx,
            let j := default 0 (last idx) in
            let it := take (k - 1) idx ++
                      (if k =? 0 then [] else [if d =? 1 then 0 else j]) in
            let iv := [if m =? 1 then 0 else j] in
            (nd_at t it * nd_at v iv)%Z |}
  else Raise (ValueError "operands could not be broadcast together").

(** [Array.iscale_axis]: the receiver after a call that returns. The
    message of the [ValueError] is the first argument of the exception. *)
Definition iscale_axis (self : Array) (s : ndarray) (axis : leg_label)
    : result Array :=
  axis ← get_leg_index self axis;
  n ← py_tuple_get (shape self) axis;
  if negb (bool_decide (nd_shape s = [n])) then
    Raise (ValueError "s has wrong shape: ")
  else
    let self := set_dtype (find_common_type (dtype self) (nd_dtype s)) self in
    leg ← py_list_get (legs self) axis;
    data ←
      (if negb (bool_decide (axis = Z.of_nat (rank self) - 1)%Z) then
         map_result
           (λ x : list nat * ndarray,
              qi ← py_list_get x.1 axis;
              t1 ← np_swapaxes x.2 axis (-1);
              t2 ← np_multiply_last t1 (nd_slice_1d s (get_slice leg qi));
              np_swapaxes t2 axis (-1))
           (zip (_qdata self) (_data self))
       else
         map_result
           (λ x : list nat * ndarray,
              qi ← py_list_get x.1 axis;
              np_multiply_last x.2 (nd_slice_1d s (get_slice leg qi)))
           (zip (_qdata self) (_data self)));
    Ok (set_data data self).


(** A vector of length [2] with the entries [3] and [7]. *)
Definition ex_scale : ndarray :=
  {| nd_shape := [2]; nd_dtype := dt_float;
     nd_at := λ idx, match idx with
                     | [0] => 3%Z
                     | [1] => 7%Z
                     | _ => 0%Z
                     end |}.

(** ** Arrays from dense data *)

(** [Array._iter_all_blocks]: [itertools.product] over the block numbers
    of the legs in reverse, every tuple turned back. *)
Definition _iter_all_blocks (a : Array) : list (list nat) :=
  reverse <$> ndindex (block_number <$> reverse (legs a)).

(** [t[sl]] for a tuple of slices, one for every axis; a slice is clipped
    to its axis. *)
Definition nd_slices (t : ndarray) (sl : list (nat * nat)) : ndarray :=
  let starts := zip_with (λ n (s : nat * nat), s.1 `min` n) (nd_shape t) sl in
  {| nd_shape := zip_with (λ n (s : nat * nat), (s.2 `min` n) - (s.1 `min` n))
                          (nd_shape t) sl;
     nd_dtype := nd_dtype t;
     nd_at := λ j, nd_at t (zip_with Nat.add starts j) |}.

(** [np.all(x == y)] for two vectors; a vector of length one is broadcast,
    and vectors that cannot be broadcast compare unequal. *)
Definition np_all_eq (x y : list Z) : bool :=
  if bool_decide (length x = length y) then bool_decide (x = y)
  else match x, y with
       | _, [v] => forallb (λ u, bool_decide (u = v)) x
       | [u], _ => forallb (λ v, bool_decide (u = v)) y
       | _, _ => false
       end.

(** [np.any(np.abs(t) > cutoff)] *)
Definition np_any_abs_gt (t : ndarray) (cutoff : Z) : bool :=
  existsb (λ j, (cutoff <? Z.abs (nd_at t j))%Z) (ndindex (nd_shape t)).

(** [Array.detect_ndarray_qtotal] for a [cutoff] that the call gives; the
    warning is not modelled. *)
Definition detect_ndarray_qtotal (self : Array) (flat_array : ndarray)
    (cutoff : Z) : charge :=
  match filter (λ q, np_any_abs_gt
                       (nd_slices flat_array (_get_block_slices self q))
                       cutoff = true)
               (_iter_all_blocks self) with
  | q :: _ => _get_block_charge self q
  | [] => charge_zero (chinfo self)
  end.

(** [Array.from_ndarray] for a [cutoff] that the call gives. The blocks are
    compared with the [qtotal] of the call, not with the canonical
    [res.qtotal]; the warning is not modelled, and the message of the
    [ValueError], which spells out both shapes, is cut short. *)
Definition from_ndarray (data_flat : ndarray) (chargeinfo : ChargeInfo)
    (legcharges : list LegCharge) (dt : np_dtype) (qtotal : option charge)
    (cutoff : Z) : result Array :=
  res ← Array_init chargeinfo legcharges dt
          (default (charge_zero chargeinfo) qtotal);
  let data_flat := np_asarray data_flat (dtype res) in
  if negb (bool_decide (shape res = nd_shape data_flat)) then
    Raise (ValueError "Incompatible shapes")
  else
    let qt := match qtotal with
              | Some q => q
              | None => detect_ndarray_qtotal res data_flat cutoff
              end in
    let res := match qtotal with
               | Some _ => res
               | None => set_qtotal qt res
               end in
    let rows := filter (λ q, np_all_eq (_get_block_charge res q) qt = true)
                       (_iter_all_blocks res) in
    let data := (λ q, np_asarray (nd_slices data_flat (_get_block_slices res q))
                                 (dtype res)) <$> rows in
    let res := set_qdata_sorted true (set_qdata rows (set_data data res)) in
    _ ← test_sanity res;
    Ok res.

(** The dense vector with the entries [0 5]. *)
Definition ex_dense_vector : ndarray :=
  {| nd_shape := [2]; nd_dtype := dt_float;
     nd_at := λ idx, match idx with
                     | [1] => 5%Z
                     | _ => 0%Z
                     end |}.

(** The dense matrix with the entries [1 2; 3 4]. *)
Definition ex_dense : ndarray :=
  {| nd_shape := [2; 2]; nd_dtype := dt_float;
     nd_at := λ idx, match idx with
                     | [0; 0] => 1%Z
                     | [0; 1] => 2%Z
                     | [1; 0] => 3%Z
                     | [1; 1] => 4%Z
                     | _ => 0%Z
                     end |}.

(** ** Methods on Array objects

    The methods of [Module Objects] and the ones below are computations on
    the store: a call reads and assigns attributes of objects one after the
    other, and when it raises the store is the one at the raise. *)
Module Methods.
Import Objects.

Definition call_ret {A} (x : A) : call A := λ σ, (Ok x, σ).

Definition call_bind {A B} (f : A → call B) (m : call A) : call B := λ σ,
  match m σ with
  | (Ok x, σ1) => f x σ1
  | (Raise e, σ1) => (Raise e, σ1)
  end.

Global Instance call_mret : MRet call := @call_ret.
Global Instance call_mbind : MBind call := @call_bind.




(** A new object. *)
Definition new (a : Array) : call nat := λ σ,
  let res := fresh (dom σ) in (Ok res, <[res := a]> σ).















End Methods.

(** ** What a method call returns and keeps *)



(** The invariants of the data model on the structure of an Array: it
    passes [test_sanity], no two blocks share their row, and every block
    has the shape of its sectors. *)
Definition structured (a : Array) : Prop :=
  test_sanity a = Ok () ∧ rows_distinct a = true ∧ blocks_shaped a = true.

(** A well-formed Array: the invariants of the data model. The charge of a
    block is compared with the canonical form of the total charge. *)
Definition well_formed (a : Array) : Prop :=
  structured a ∧ charges_congruent a = true.


(** A call keeps the objects of the store in existence. *)
Definition keeps_dom {A} (f : Objects.call A) : Prop :=
  ∀ σ id, is_Some (σ !! id) → is_Some ((f σ).2 !! id).




(** ** Value-returning calls *)












(* ================================================================= *)
(** * Properties *)

(** ** Scalar multiplication *)

Lemma iunary_blockwise_fields (func : ndarray → ndarray) (a : Array) :
  chinfo (iunary_blockwise func a) = chinfo a ∧
  legs (iunary_blockwise func a) = legs a ∧
  shape (iunary_blockwise func a) = shape a ∧
  qtotal (iunary_blockwise func a) = qtotal a ∧
  labels (iunary_blockwise func a) = labels a ∧
  _data (iunary_blockwise func a) = func <$> _data a ∧
  _qdata (iunary_blockwise func a) = _qdata a ∧
  _qdata_sorted (iunary_blockwise func a) = _qdata_sorted a.
Proof.
  unfold iunary_blockwise. simpl.
  destruct (func <$> _data a) eqn:E; simpl; rewrite ?E; repeat split; done.
Qed.

(** C10: multiplying an Array by the scalar zero ([a * 0], [0 * a] or
    [a *= 0]) gives an empty block table and leaves the charge group, the
    legs, the shape, the dtype, the total charge and the labels as they
    were; multiplying by any other scalar keeps the stored sector rows. *)
Theorem mul_scalar_block_table (a : Array) (s : Z) :
  ∃ r ri,
    __mul__ a (OScalar s) = Ok r ∧
    __rmul__ a (OScalar s) = Ok r ∧
    __imul__ a (OScalar s) = Ok ri ∧
    if (s =? 0)%Z then
      (_data r = [] ∧ _qdata r = [] ∧ chinfo r = chinfo a ∧ legs r = legs a ∧
       shape r = shape a ∧ dtype r = dtype a ∧ qtotal r = qtotal a ∧
       labels r = labels a) ∧
      (_data ri = [] ∧ _qdata ri = [] ∧ chinfo ri = chinfo a ∧
       legs ri = legs a ∧ shape ri = shape a ∧ dtype ri = dtype a ∧
       qtotal ri = qtotal a ∧ labels ri = labels a)
    else
      (_qdata r = _qdata a ∧ length (_data r) = length (_data a)) ∧
      (_qdata ri = _qdata a ∧ length (_data ri) = length (_data a)).
Proof.
  unfold __rmul__, __mul__, __imul__.
  destruct (s =? 0)%Z eqn:Hs.
  - eexists _, _. repeat split; reflexivity.
  - eexists _, _. split; [reflexivity|]. split; [reflexivity|].
    split; [reflexivity|].
    unfold unary_blockwise, copy.
    destruct (iunary_blockwise_fields (np_multiply s) a)
      as (_ & _ & _ & _ & _ & Hd & Hq & _).
    rewrite Hd, Hq, length_fmap. done.
Qed.

(** ** Indexing with a bare integer *)

(** C5: [T[i]] with a single integer [i] that is not wrapped in a tuple
    raises a [TypeError] in [_pre_indexing], for every Array and so for
    every Array of rank one and every in-range [i]; no entry is returned. *)
Theorem getitem_bare_integer_raises (a : Array) (i : Z) :
  __getitem__ a (IBare (Iint i)) = Raise (TypeError "object is not iterable").
Proof. reflexivity. Qed.

(** The same read through a tuple returns the stored entry. *)
Example getitem_vector_tuple :
  __getitem__ ex_vector (ITuple [Iint 0%Z]) = Ok (Entry 4%Z) ∧
  __getitem__ ex_vector (ITuple [Iint 1%Z]) = Ok (Entry 0%Z) ∧
  __getitem__ ex_vector (IBare (Iint 0%Z)) =
    Raise (TypeError "object is not iterable").
Proof. repeat split; vm_compute; reflexivity. Qed.

(** ** The merge of two block tables *)



(** C4: on two operands with identical legs whose tables hold one row
    each, [(0, 0)] and [(1, 1)], the merge of [ibinary_blockwise] consumes
    the first table and then reads past its end: the call raises an
    [IndexError] in both orders of the operands, and no row of the result
    is produced. *)
Theorem ibinary_blockwise_exhausted_table_raises :
  ibinary_blockwise np_add ex_first ex_second =
    Raise (IndexError "index out of bounds") ∧
  ibinary_blockwise np_add ex_second ex_first =
    Raise (IndexError "index out of bounds").
Proof. split; vm_compute; reflexivity. Qed.

(** ** Splitting legs *)

(** C8: on an Array whose only leg is a pipe, [split_legs] with the single
    axis [0] raises the error of a repeated axis, and with the axis [0]
    given twice it raises nothing of its own and hands both references to
    the worker. *)
Theorem split_legs_duplicate_check_inverted
    (worker : Array → list Z → Z → result Array) (cutoff : Z) :
  split_legs worker ex_fused (Some [LInt 0%Z]) cutoff =
    Raise (ValueError "can't split a leg multiple times!") ∧
  split_legs worker ex_fused (Some [LInt 0%Z; LInt 0%Z]) cutoff =
    worker ex_fused [0%Z; 0%Z] cutoff.
Proof. split; reflexivity. Qed.

(** ** Conjugation and the charge invariant *)

(** C1: [ex_odd] passes [test_sanity] and its block has the total charge
    [1]; after [conj] the total charge is [-1], which is not canonical for
    the modulus [2], the charge of the stored block is [1], and the
    invariant fails. *)
Theorem conj_breaks_charge_invariant :
  test_sanity ex_odd = Ok () ∧
  charges_conserved ex_odd = true ∧
  ∃ r, conj ex_odd true = Ok r ∧
       _qdata r = [[1; 0]] ∧
       qtotal r = [(-1)%Z] ∧
       _get_block_charge r [1; 0] = [1%Z] ∧
       charges_conserved r = false.
Proof.
  split; [vm_compute; reflexivity|]. split; [vm_compute; reflexivity|].
  eexists. split; [vm_compute; reflexivity|].
  repeat split; vm_compute; reflexivity.
Qed.

(** ** Splitting the result of [combine_legs] *)

Lemma remove_dups_NoDup {A} `{EqDecision A} (l : list A) :
  NoDup l → remove_dups l = l.
Proof.
  induction 1 as [|x l Hx Hl IH]; simpl; [done|].
  destruct (decide_rel elem_of x l); [done|]. by rewrite IH.
Qed.

Lemma get_leg_index_in_range (a : Array) (ax : Z) :
  (0 ≤ ax < Z.of_nat (rank a))%Z → get_leg_index a (LInt ax) = Ok ax.
Proof.
  intros Hax. unfold get_leg_index. cbn [mbind result_bind].
  destruct (Z.ltb_spec (Z.of_nat (rank a)) ax); [lia|].
  destruct (Z.ltb_spec ax 0); [lia|]. done.
Qed.

Lemma get_leg_indices_in_range (a : Array) (axes : list Z) :
  Forall (λ ax, (0 ≤ ax < Z.of_nat (rank a))%Z) axes →
  get_leg_indices a (LInt <$> axes) = Ok axes.
Proof.
  unfold get_leg_indices.
  induction 1 as [|ax axes Hax _ IH]; [done|].
  rewrite fmap_cons. cbn [map_result].
  rewrite (get_leg_index_in_range _ _ Hax), IH. done.
Qed.

(** C7: [split_legs] with an explicit list of distinct in-range axes, as
    the round trip passes the pipe axes of [combine_legs], raises the error
    of a repeated axis for every Array, so the round trip returns no dense
    content. *)
Theorem split_legs_distinct_axes_raise
    (worker : Array → list Z → Z → result Array)
    (c : Array) (axes : list Z) (cutoff : Z) :
  NoDup axes →
  Forall (λ ax, (0 ≤ ax < Z.of_nat (rank c))%Z) axes →
  (split_legs worker c (Some (LInt <$> axes)) cutoff ≫= λ r, Ok (to_ndarray r)) =
    Raise (ValueError "can't split a leg multiple times!").
Proof.
  intros Hnd Hr. unfold split_legs.
  rewrite (get_leg_indices_in_range _ _ Hr). simpl.
  rewrite (remove_dups_NoDup _ Hnd).
  rewrite bool_decide_eq_true_2 by done. done.
Qed.

Lemma split_legs_distinct_axes_raise_witness :
  NoDup [0%Z] ∧
  Forall (λ ax, (0 ≤ ax < Z.of_nat (rank ex_fused))%Z) [0%Z] ∧
  (split_legs (λ a _ _, Ok a) ex_fused (Some (LInt <$> [0%Z])) 0%Z
     ≫= λ r, Ok (to_ndarray r)) =
    Raise (ValueError "can't split a leg multiple times!").
Proof.
  assert (H1 : NoDup [0%Z]) by (apply NoDup_singleton).
  assert (H2 : Forall (λ ax, (0 ≤ ax < Z.of_nat (rank ex_fused))%Z) [0%Z]).
  { constructor; [unfold rank, ex_fused; simpl; lia | constructor]. }
  split; [exact H1|]. split; [exact H2|].
  exact (split_legs_distinct_axes_raise (λ a _ _, Ok a) ex_fused [0%Z] 0%Z H1 H2).
Defined.


(** ** Facts that [test_sanity] establishes *)

Lemma check_Ok b msg : check b msg = Ok () → b = true.
Proof. destruct b; [done|discriminate]. Qed.

Lemma test_sanity_Ok (a : Array) :
  test_sanity a = Ok () →
  shape a = ind_len <$> legs a ∧
  forallb (λ d, bool_decide (nd_dtype d = dtype a)) (_data a) = true ∧
  forallb (leg_sane (chinfo a)) (legs a) = true ∧
  length (_qdata a) = length (_data a) ∧
  forallb (λ r, bool_decide (length r = rank a)) (_qdata a) = true ∧
  forallb (λ r, forallb (λ p : nat * LegCharge, p.1 <? block_number p.2)
                  (zip r (legs a))) (_qdata a) = true ∧
  (_qdata_sorted a = true →
   np_lexsort_rows (_qdata a) = seq 0 (length (_qdata a))).
Proof.
  unfold test_sanity. intros H.
  repeat match type of H with
  | (check ?b ?m ≫= _) = _ =>
      let E := fresh "E" in
      destruct b eqn:E; [cbn [check mbind result_bind] in H | discriminate H]
  end.
  apply bool_decide_eq_true in E.
  apply andb_true_iff in E2 as [E2 E2'].
  apply bool_decide_eq_true in E2.
  repeat split; try done.
  intros Hs. rewrite Hs in H. apply check_Ok in H.
  by apply bool_decide_eq_true in H.
Qed.

Lemma rank_legs (a : Array) : test_sanity a = Ok () → rank a = length (legs a).
Proof.
  intros H. apply test_sanity_Ok in H as (Hs & _). unfold rank.
  by rewrite Hs, length_fmap.
Qed.

(** ** Sectors of a sane leg *)


Lemma ends_at_cons b e c q s : ends_at ((b, e, c) :: q) s = ends_at q e.
Proof.
  unfold ends_at. destruct q as [|x q]; [done|].
  rewrite last_cons_cons, (last_cons x q).
  destruct (last q) as [[[? ?] ?]|]; destruct x as [[? ?] ?]; done.
Qed.

Lemma contiguous_covers q : ∀ s n,
  contiguous_from s q = true → s ≤ n < ends_at q s →
  ∃ sec, sec ∈ q ∧ sec.1.1 ≤ n < sec.1.2.
Proof.
  induction q as [|[[b e] c] q IH]; intros s n H Hn.
  - unfold ends_at in Hn. simpl in Hn. lia.
  - simpl in H. apply andb_true_iff in H as [H H3].
    apply andb_true_iff in H as [H1 H2].
    apply Nat.eqb_eq in H1. apply Nat.ltb_lt in H2. subst b.
    rewrite ends_at_cons in Hn.
    destruct (decide (n < e)) as [Hlt|Hge].
    + exists (s, e, c). split; [left|simpl; lia].
    + destruct (IH e n H3) as (sec & Hin & Hsec); [lia|].
      exists sec. split; [by right|done].
Qed.

Lemma leg_sane_contiguous ci l :
  leg_sane ci l = true → contiguous_from 0 (qind l) = true.
Proof.
  unfold leg_sane. intros H.
  apply andb_true_iff in H as [H _]. by apply andb_true_iff in H as [H _].
Qed.

Lemma sector_lookup l qi s : qind l !! qi = Some s → sector l qi = s.
Proof. intros H. unfold sector. by rewrite nth_lookup, H. Qed.

Lemma get_qindex_in_range ci l z :
  leg_sane ci l = true → (0 ≤ z < Z.of_nat (ind_len l))%Z →
  ∃ qi, get_qindex l z = Ok (qi, Z.to_nat z - sector_start l qi) ∧
        qi < block_number l ∧
        sector_start l qi ≤ Z.to_nat z < sector_stop l qi.
Proof.
  intros Hs Hz. apply leg_sane_contiguous in Hs.
  destruct (contiguous_covers _ 0 (Z.to_nat z) Hs) as (sec & Hin & Hsec).
  { unfold ind_len in Hz. unfold ends_at. lia. }
  destruct (list_find_elem_of (λ s : nat * nat * charge,
              s.1.1 ≤ Z.to_nat z < s.1.2) _ _ Hin Hsec) as [[qi s] Hf].
  exists qi. unfold get_qindex.
  rewrite bool_decide_eq_true_2 by done. rewrite Hf.
  apply list_find_Some in Hf as (Hl & HP & _).
  unfold sector_start, sector_stop. rewrite (sector_lookup _ _ _ Hl).
  split; [done|]. split; [|done].
  unfold block_number. by eapply lookup_lt_Some.
Qed.


(** ** Writing one entry *)


Lemma pre_indexing_integers (a : Array) (zs : list Z) :
  length zs = rank a →
  _pre_indexing a (ITuple (Iint <$> zs)) = Ok (true, Iint <$> zs).
Proof.
  intros Hlen. unfold _pre_indexing. cbn [mbind result_bind].
  rewrite length_fmap, Hlen.
  rewrite Nat.ltb_irrefl.
  assert (Hf : list_find (λ i : index, i = IEllipsis) (Iint <$> zs) = None).
  { apply list_find_None. apply Forall_fmap, Forall_forall. intros z _. done. }
  rewrite Hf. rewrite length_fmap, Hlen, Nat.ltb_irrefl.
  assert (Hall : forallb is_Iint (Iint <$> zs) = true).
  { clear. induction zs; simpl; auto. }
  by rewrite Hall.
Qed.

Lemma map_result_resolve (ci : ChargeInfo) (zs : list Z) (ls : list LegCharge) :
  Forall2 (λ z l, (0 ≤ z < Z.of_nat (ind_len l))%Z) zs ls →
  forallb (leg_sane ci) ls = true →
  ∃ pos,
    map_result
      (λ p : index * LegCharge,
         match p.1 with
         | Iint i => get_qindex p.2 i
         | _ => Raise (TypeError "not an integer index")
         end)
      (zip (Iint <$> zs) ls) = Ok pos ∧
    Forall3 resolved zs ls pos.
Proof.
  induction 1 as [|z l zs ls Hz _ IH]; intros Hs.
  - exists []. split; [done|constructor].
  - simpl in Hs. apply andb_true_iff in Hs as [Hl Hs].
    destruct (IH Hs) as (pos & Hm & HF).
    destruct (get_qindex_in_range _ _ _ Hl Hz) as (qi & Hq & Hb & Hr).
    exists ((qi, Z.to_nat z - sector_start l qi) :: pos). split.
    + rewrite fmap_cons. cbn [zip zip_with map_result fst snd].
      rewrite Hq. cbn [mbind result_bind]. rewrite Hm. done.
    + constructor; [|done]. repeat split; simpl; lia.
Qed.

Lemma resolve_pos_in_range (a : Array) (zs : list Z) :
  test_sanity a = Ok () → legs a ≠ [] →
  Forall2 (λ z l, (0 ≤ z < Z.of_nat (ind_len l))%Z) zs (legs a) →
  ∃ pos, resolve_pos a (Iint <$> zs) = Ok (pos.*1, pos.*2) ∧
         Forall3 resolved zs (legs a) pos.
Proof.
  intros Hs Hne HF.
  destruct (test_sanity_Ok _ Hs) as (_ & _ & Hl & _).
  destruct (map_result_resolve _ _ _ HF Hl) as (pos & Hm & H3).
  exists pos. split; [|done].
  unfold resolve_pos. rewrite Hm. cbn [mbind result_bind].
  destruct pos; [|done].
  inversion H3; subst. congruence.
Qed.

Lemma resolved_in_bounds (zs : list Z) (ls : list LegCharge) (pos : list (nat * nat)) :
  Forall3 resolved zs ls pos →
  in_bounds (zip_with sector_size ls pos.*1) pos.*2 = true.
Proof.
  intros H. unfold in_bounds. apply andb_true_iff. split.
  - apply bool_decide_eq_true.
    induction H; simpl; [done|]. by f_equal.
  - induction H as [|z l p zs ls pos Hr _ IH]; simpl; [done|].
    apply andb_true_iff. split; [|done].
    destruct Hr as (_ & Hr & Hp). unfold sector_size.
    apply Nat.ltb_lt. lia.
Qed.

Lemma blocks_shaped_lookup (a : Array) (k : nat) (t : ndarray) (row : list nat) :
  blocks_shaped a = true → _data a !! k = Some t → _qdata a !! k = Some row →
  nd_shape t = _get_block_shape a row.
Proof.
  unfold blocks_shaped. intros H Ht Hr.
  rewrite forallb_forall in H.
  specialize (H (t, row)). simpl in H.
  eapply bool_decide_eq_true_1, H.
  apply list_elem_of_In, list_elem_of_lookup. exists k.
  by rewrite lookup_zip_with, Ht; simpl; rewrite Hr.
Qed.

Lemma find_row_Some (qd : list (list nat)) (row : list nat) (k : nat) :
  find_row qd row = Some k → qd !! k = Some row.
Proof.
  unfold find_row. intros H.
  destruct (list_find _ qd) as [[i r]|] eqn:E; [|done].
  simpl in H. injection H as <-.
  apply list_find_Some in E as (Hl & -> & _). done.
Qed.

Lemma insert_end {A} (l : list A) (x y : A) :
  <[length l := y]> (l ++ [x]) = l ++ [y].
Proof.
  rewrite insert_app_r_alt by lia. by rewrite Nat.sub_diag.
Qed.




(** The scenario of the specification: a write on the diagonal of the
    identity overwrites the stored entry, a write off the diagonal
    raises. *)
Example setitem_identity_scenario :
  is_Ok (__setitem__ ex_eye (ITuple [Iint 1%Z; Iint 1%Z]) 7%Z) = true ∧
  __setitem__ ex_eye (ITuple [Iint 0%Z; Iint 1%Z]) 7%Z = Raise IncompatibleCharge.
Proof. split; vm_compute; reflexivity. Qed.


(** ** Sorting *)

Lemma insert_by_Permutation {A} (le : A → A → bool) (x : A) (l : list A) :
  insert_by le x l ≡ₚ x :: l.
Proof.
  induction l as [|y l IH]; simpl; [done|].
  destruct (le x y); [done|]. rewrite IH. apply Permutation_swap.
Qed.

Lemma sort_by_Permutation {A} (le : A → A → bool) (l : list A) :
  sort_by le l ≡ₚ l.
Proof.
  induction l as [|x l IH]; simpl; [done|].
  unfold sort_by in *. simpl. rewrite insert_by_Permutation. by rewrite IH.
Qed.

Lemma argsort_by_Permutation {A} (le : A → A → bool) (keys : list A) :
  argsort_by le keys ≡ₚ seq 0 (length keys).
Proof.
  unfold argsort_by. rewrite sort_by_Permutation.
  rewrite snd_zip; [done|]. by rewrite length_seq.
Qed.

Lemma fancy_seq {A} `{Inhabited A} (l : list A) :
  fancy l (seq 0 (length l)) = l.
Proof.
  unfold fancy. apply list_eq. intros i.
  rewrite list_lookup_fmap.
  destruct (decide (i < length l)) as [Hi|Hi].
  - rewrite lookup_seq_lt by done. simpl.
    destruct (lookup_lt_is_Some_2 l i Hi) as [x Hx].
    rewrite Hx. f_equal. by apply list_lookup_total_correct.
  - rewrite lookup_seq_ge by lia. simpl.
    symmetry. apply lookup_ge_None. lia.
Qed.

Lemma fancy_Permutation {A} `{Inhabited A} (l : list A) (perm : list nat) :
  perm ≡ₚ seq 0 (length l) → fancy l perm ≡ₚ l.
Proof.
  intros Hp. rewrite <- (fancy_seq l) at 2. unfold fancy. by rewrite Hp.
Qed.

Lemma fancy_zip {A B} `{Inhabited A} `{Inhabited B}
    (l : list A) (k : list B) (perm : list nat) :
  length l = length k → Forall (λ p, p < length l) perm →
  zip (fancy l perm) (fancy k perm) = fancy (zip l k) perm.
Proof.
  intros Hlen. unfold fancy.
  induction 1 as [|p perm Hp _ IH]; simpl; [done|].
  f_equal; [|done].
  destruct (lookup_lt_is_Some_2 l p Hp) as [x Hx].
  destruct (lookup_lt_is_Some_2 k p) as [y Hy]; [lia|].
  rewrite (list_lookup_total_correct _ _ _ Hx).
  rewrite (list_lookup_total_correct _ _ _ Hy).
  symmetry. apply list_lookup_total_correct.
  by rewrite lookup_zip_with, Hx; simpl; rewrite Hy.
Qed.

Lemma Permutation_seq_lt (perm : list nat) (n : nat) :
  perm ≡ₚ seq 0 n → Forall (λ p, p < n) perm.
Proof.
  intros Hp. rewrite Hp. apply Forall_forall. intros p Hin.
  apply elem_of_seq in Hin. lia.
Qed.

(** ** What the in-place sort of the block table changes *)

Lemma same_content_refl (a : Array) : same_content a a.
Proof. repeat split; done. Qed.

Lemma isort_qdata_same_content (a : Array) :
  length (_qdata a) = length (_data a) → same_content a (isort_qdata a).
Proof.
  intros Hlen. unfold isort_qdata.
  destruct (_qdata_sorted a); [apply same_content_refl|].
  destruct (length (_qdata a) <? 2); [repeat split; done|].
  repeat split; try done. simpl.
  assert (Hp := argsort_by_Permutation row_le (_qdata a)).
  rewrite fancy_zip; [|done|by apply Permutation_seq_lt].
  apply fancy_Permutation. by rewrite length_zip, <- Hlen, Nat.min_id.
Qed.

(** ** Calls on the store *)

Import Objects.

Lemma fresh_lookup_None (σ : gmap nat Array) : σ !! fresh (dom σ) = None.
Proof. apply not_elem_of_dom. apply is_fresh. Qed.

Lemma copy_obj_frame (self : nat) (σ : gmap nat Array) (id : nat) (a : Array) :
  σ !! id = Some a → (copy_obj self σ).2 !! id = Some a.
Proof.
  intros Hid. unfold copy_obj. destruct (σ !! self); [|done]. simpl.
  rewrite lookup_insert_ne; [done|].
  intros <-. by rewrite fresh_lookup_None in Hid.
Qed.






(** ** The merge-join of two ascending key sequences *)


Lemma ics_loop_unfold (a b : list nat) (i : nat) (a_it : list nat)
    (j : nat) (b_it : list nat) :
  ics_loop a b i a_it j b_it =
    if a !!! i <? b !!! j then
      match a_it with
      | i' :: a_it' => ics_loop a b i' a_it' j b_it
      | [] => ics_tail a b i j [] b_it
      end
    else if b !!! j <? a !!! i then
      match b_it with
      | j' :: b_it' => ics_loop a b i a_it j' b_it'
      | [] => ics_tail a b i j a_it []
      end
    else
      (i, j) ::
      match a_it with
      | i' :: a_it' =>
          match b_it with
          | j' :: b_it' => ics_loop a b i' a_it' j' b_it'
          | [] => ics_tail a b i' j a_it' []
          end
      | [] => ics_tail a b i j [] b_it
      end.
Proof. destruct a_it, b_it; reflexivity. Qed.

Lemma filter_none {A} (P : A → Prop) `{∀ x, Decision (P x)} (l : list A) :
  Forall (λ x, ¬ P x) l → filter P l = [].
Proof.
  induction 1 as [|x l Hx _ IH]; [done|].
  rewrite filter_cons. by destruct (decide (P x)).
Qed.

Lemma common_row_none (a b : list nat) (a_idx : list nat) (j : nat) :
  Forall (λ i, a !!! i ≠ b !!! j) a_idx →
  (a_idx ≫= λ i, if decide (a !!! i = b !!! j) then [(i, j)] else []) = [].
Proof.
  induction 1 as [|i l Hi _ IH]; [done|].
  rewrite bind_cons. destruct (decide _); [done|]. done.
Qed.

Lemma common_pairs_nil_l (a b : list nat) (b_idx : list nat) :
  common_pairs a b [] b_idx = [].
Proof.
  unfold common_pairs. induction b_idx as [|j l IH]; [done|].
  rewrite bind_cons, IH. done.
Qed.

Lemma common_pairs_cons_r (a b : list nat) (a_idx : list nat) (j : nat)
    (b_idx : list nat) :
  common_pairs a b a_idx (j :: b_idx) =
    (a_idx ≫= λ i, if decide (a !!! i = b !!! j) then [(i, j)] else [])
    ++ common_pairs a b a_idx b_idx.
Proof. unfold common_pairs. by rewrite bind_cons. Qed.

Lemma common_pairs_skip_l (a b : list nat) (i : nat) (a_idx b_idx : list nat) :
  Forall (λ j, a !!! i ≠ b !!! j) b_idx →
  common_pairs a b (i :: a_idx) b_idx = common_pairs a b a_idx b_idx.
Proof.
  induction 1 as [|j l Hj _ IH]; [done|].
  rewrite !common_pairs_cons_r, IH. f_equal.
  rewrite bind_cons. by destruct (decide _).
Qed.

Lemma common_pairs_skip_r (a b : list nat) (a_idx : list nat) (j : nat)
    (b_idx : list nat) :
  Forall (λ i, a !!! i ≠ b !!! j) a_idx →
  common_pairs a b a_idx (j :: b_idx) = common_pairs a b a_idx b_idx.
Proof.
  intros H. by rewrite common_pairs_cons_r, common_row_none.
Qed.

Lemma common_pairs_match (a b : list nat) (i : nat) (a_idx : list nat)
    (j : nat) (b_idx : list nat) :
  a !!! i = b !!! j →
  Forall (λ i', a !!! i' ≠ b !!! j) a_idx →
  Forall (λ j', a !!! i ≠ b !!! j') b_idx →
  common_pairs a b (i :: a_idx) (j :: b_idx) =
    (i, j) :: common_pairs a b a_idx b_idx.
Proof.
  intros Hij Ha Hb. rewrite common_pairs_cons_r, bind_cons.
  destruct (decide _); [|done].
  rewrite common_row_none by done. simpl.
  by rewrite common_pairs_skip_l.
Qed.

Lemma ics_tail_none (a b : list nat) (i j : nat) (a_it b_it : list nat) :
  Forall (λ i', a !!! i' ≠ b !!! j) a_it →
  Forall (λ j', a !!! (default i (last a_it)) ≠ b !!! j') b_it →
  ics_tail a b i j a_it b_it = [].
Proof.
  intros Ha Hb. unfold ics_tail.
  rewrite (filter_none _ _ Ha), (filter_none _ _ Hb). done.
Qed.

Lemma ascending_cons (a : list nat) (i : nat) (idx : list nat) :
  ascending a (i :: idx) →
  ascending a idx ∧ Forall (λ i', a !!! i < a !!! i') idx.
Proof. intros H. by apply StronglySorted_inv in H. Qed.

Lemma ics_loop_spec (a b : list nat) (a_it : list nat) : ∀ i b_it j,
  ascending a (i :: a_it) → ascending b (j :: b_it) →
  ics_loop a b i a_it j b_it = common_pairs a b (i :: a_it) (j :: b_it).
Proof.
  induction a_it as [|i' a_it IHa]; intros i b_it.
  - induction b_it as [|j' b_it IHb]; intros j Ha Hb;
      rewrite ics_loop_unfold;
      apply ascending_cons in Hb as [Hb Hbj].
    + destruct (Nat.ltb_spec (a !!! i) (b !!! j)).
      { rewrite ics_tail_none by done.
        rewrite common_pairs_skip_l; [by rewrite common_pairs_nil_l|].
        constructor; [lia|done]. }
      destruct (Nat.ltb_spec (b !!! j) (a !!! i)).
      { rewrite ics_tail_none by done.
        rewrite common_pairs_skip_l; [by rewrite common_pairs_nil_l|].
        constructor; [lia|done]. }
      rewrite ics_tail_none by done.
      rewrite common_pairs_match; [|lia|done|done].
      by rewrite common_pairs_nil_l.
    + destruct (Nat.ltb_spec (a !!! i) (b !!! j)).
      { rewrite ics_tail_none; [| done |].
        - rewrite common_pairs_skip_l; [by rewrite common_pairs_nil_l|].
          constructor; [lia|]. eapply Forall_impl; [exact Hbj|].
          simpl. intros; lia.
        - simpl. eapply Forall_impl; [exact Hbj|]. simpl. intros; lia. }
      destruct (Nat.ltb_spec (b !!! j) (a !!! i)).
      { rewrite IHb by done.
        rewrite (common_pairs_skip_r a b [i] j); [done|].
        constructor; [lia|done]. }
      rewrite ics_tail_none; [| done |].
      * rewrite common_pairs_match; [|lia|done|].
        -- by rewrite common_pairs_nil_l.
        -- eapply Forall_impl; [exact Hbj|]. simpl. intros; lia.
      * simpl. eapply Forall_impl; [exact Hbj|]. simpl. intros; lia.
  - induction b_it as [|j' b_it IHb]; intros j Ha Hb;
      rewrite ics_loop_unfold;
      apply ascending_cons in Ha as [Ha Hai];
      apply ascending_cons in Hb as [Hb Hbj].
    + destruct (Nat.ltb_spec (a !!! i) (b !!! j)).
      { rewrite IHa by (done || by constructor).
        rewrite (common_pairs_skip_l a b i); [done|].
        constructor; [lia|done]. }
      destruct (Nat.ltb_spec (b !!! j) (a !!! i)).
      { rewrite ics_tail_none; [| |done].
        - rewrite common_pairs_skip_r; [done|].
          constructor; [lia|]. eapply Forall_impl; [exact Hai|].
          simpl. intros; lia.
        - eapply Forall_impl; [exact Hai|]. simpl. intros; lia. }
      rewrite ics_tail_none; [| |done].
      * rewrite common_pairs_match; [done|lia| |done].
        eapply Forall_impl; [exact Hai|]. simpl. intros; lia.
      * apply ascending_cons in Ha as [_ Ha'].
        eapply Forall_impl; [exact Ha'|]. simpl.
        apply Forall_inv in Hai. intros; lia.
    + destruct (Nat.ltb_spec (a !!! i) (b !!! j)).
      { rewrite IHa by (done || by constructor).
        rewrite (common_pairs_skip_l a b i); [done|].
        constructor; [lia|]. eapply Forall_impl; [exact Hbj|].
        simpl. intros; lia. }
      destruct (Nat.ltb_spec (b !!! j) (a !!! i)).
      { rewrite IHb by (done || by constructor).
        rewrite (common_pairs_skip_r a b (i :: i' :: a_it) j); [done|].
        constructor; [lia|]. eapply Forall_impl; [exact Hai|].
        simpl. intros; lia. }
      rewrite IHa by done.
      rewrite (common_pairs_match a b i (i' :: a_it) j (j' :: b_it)); [done|lia| |].
      * eapply Forall_impl; [exact Hai|]. simpl. intros; lia.
      * eapply Forall_impl; [exact Hbj|]. simpl. intros; lia.
Qed.

(** [_iter_common_sorted] yields what its docstring says, for keys that
    ascend strictly along both position lists. *)
Lemma iter_common_sorted_spec (a b : list nat) (a_idx b_idx : list nat) :
  ascending a a_idx → ascending b b_idx →
  _iter_common_sorted a b a_idx b_idx = common_pairs a b a_idx b_idx.
Proof.
  intros Ha Hb. unfold _iter_common_sorted.
  destruct a_idx as [|i a_it]; [by rewrite common_pairs_nil_l|].
  destruct b_idx as [|j b_it]; [done|].
  by apply ics_loop_spec.
Qed.


(** ** The group pairs of [tensordot] *)


Lemma foldl_block_sum (f : nat * nat → ndarray) (dt : np_dtype)
    (ks : list (nat * nat)) (s : ndarray) :
  foldl (λ (block_sum : option ndarray) k,
           match block_sum with
           | None => Some (np_asarray (f k) dt)
           | Some s => Some (np_add s (f k))
           end) (Some s) ks =
  Some (foldl (λ s k, np_add s (f k)) s ks).
Proof. revert s. induction ks as [|k ks IH]; intros s; simpl; [done|]. apply IH. Qed.

Lemma worker_body_output ci qt axes dt pa pb col_b acc row_a :
  worker_body ci qt axes dt pa pb col_b acc row_a =
    (acc.1 ++ (group_pair_output ci qt axes dt pa pb row_a col_b).*1,
     acc.2 ++ (group_pair_output ci qt axes dt pa pb row_a col_b).*2).
Proof.
  unfold worker_body, group_pair_output, contract_common.
  destruct (bool_decide _); simpl.
  - destruct (_iter_common_sorted _ _ _ _) as [|k ks]; simpl.
    + rewrite !app_nil_r. by destruct acc.
    + rewrite foldl_block_sum. done.
  - rewrite !app_nil_r. by destruct acc.
Qed.

Lemma worker_rows_output ci qt axes dt pa pb col_b (rows : list nat) : ∀ acc,
  foldl (worker_body ci qt axes dt pa pb col_b) acc rows =
    (acc.1 ++ (rows ≫= λ row_a, group_pair_output ci qt axes dt pa pb row_a col_b).*1,
     acc.2 ++ (rows ≫= λ row_a, group_pair_output ci qt axes dt pa pb row_a col_b).*2).
Proof.
  induction rows as [|r rows IH]; intros acc; simpl.
  - rewrite !app_nil_r. by destruct acc.
  - rewrite IH, worker_body_output. simpl.
    rewrite !fmap_app, !app_assoc. done.
Qed.

Lemma worker_table_output ci qt axes dt pa pb :
  worker_table ci qt axes dt pa pb =
    ((group_pairs_output ci qt axes dt pa pb).*1,
     (group_pairs_output ci qt axes dt pa pb).*2).
Proof.
  unfold worker_table, group_pairs_output.
  generalize (seq 0 (length (p_qdata_keep pa))) as rows.
  generalize (seq 0 (length (p_qdata_keep pb))) as cols.
  intros cols rows.
  enough (H : ∀ acc,
    foldl (λ acc col_b, foldl (worker_body ci qt axes dt pa pb col_b) acc rows)
      acc cols =
    (acc.1 ++ (cols ≫= λ col_b, rows ≫= λ row_a,
                 group_pair_output ci qt axes dt pa pb row_a col_b).*1,
     acc.2 ++ (cols ≫= λ col_b, rows ≫= λ row_a,
                 group_pair_output ci qt axes dt pa pb row_a col_b).*2))
    by (rewrite H; done).
  induction cols as [|c cols IH]; intros acc; simpl.
  - rewrite !app_nil_r. by destruct acc.
  - rewrite IH, worker_rows_output. simpl.
    rewrite !fmap_app, !app_assoc. done.
Qed.

(** On the identity and twice the identity the worker returns the two
    diagonal blocks. *)
Example tensordot_worker_example :
  (λ r, match r with
        | Ok res => Some (_qdata res, flatten <$> _data res)
        | Raise _ => None
        end) (_tensordot_worker ex_eye ex_two_unsorted 1) =
  Some ([[0; 0]; [1; 1]], [[3%Z]; [2%Z]]).
Proof. vm_compute. reflexivity. Qed.


(** ** Finite sums *)

Lemma sumZ_cons (x : Z) (l : list Z) : sumZ (x :: l) = (x + sumZ l)%Z.
Proof. reflexivity. Qed.

Lemma sumZ_app (l k : list Z) : sumZ (l ++ k) = (sumZ l + sumZ k)%Z.
Proof.
  induction l as [|x l IH]; [done|].
  rewrite <- app_comm_cons, !sumZ_cons, IH. lia.
Qed.

Lemma sumZ_fmap_ext {A} (f g : A → Z) (l : list A) :
  Forall (λ x, f x = g x) l → sumZ (f <$> l) = sumZ (g <$> l).
Proof.
  induction 1 as [|x l Hx _ IH]; [done|].
  by rewrite !fmap_cons, !sumZ_cons, Hx, IH.
Qed.

Lemma sumZ_fmap_zero {A} (f : A → Z) (l : list A) :
  Forall (λ x, f x = 0%Z) l → sumZ (f <$> l) = 0%Z.
Proof.
  induction 1 as [|x l Hx _ IH]; [done|].
  by rewrite !fmap_cons, !sumZ_cons, Hx, IH.
Qed.

Lemma sumZ_fmap_add {A} (f g : A → Z) (l : list A) :
  sumZ ((λ x, f x + g x)%Z <$> l) = (sumZ (f <$> l) + sumZ (g <$> l))%Z.
Proof.
  induction l as [|x l IH]; [done|].
  rewrite !fmap_cons, !sumZ_cons, IH. lia.
Qed.

Lemma sumZ_fmap_mul_l {A} (c : Z) (f : A → Z) (l : list A) :
  sumZ ((λ x, c * f x)%Z <$> l) = (c * sumZ (f <$> l))%Z.
Proof.
  induction l as [|x l IH]; [cbn; lia|].
  rewrite !fmap_cons, !sumZ_cons, IH. lia.
Qed.

Lemma sumZ_fmap_mul_r {A} (c : Z) (f : A → Z) (l : list A) :
  sumZ ((λ x, f x * c)%Z <$> l) = (sumZ (f <$> l) * c)%Z.
Proof.
  induction l as [|x l IH]; [cbn; lia|].
  rewrite !fmap_cons, !sumZ_cons, IH. lia.
Qed.

Lemma sumZ_bind {A B} (f : B → Z) (g : A → list B) (l : list A) :
  sumZ (f <$> (l ≫= g)) = sumZ ((λ x, sumZ (f <$> g x)) <$> l).
Proof.
  induction l as [|x l IH]; [done|].
  rewrite bind_cons, fmap_app, sumZ_app, IH. done.
Qed.

Lemma sumZ_Permutation (l k : list Z) : l ≡ₚ k → sumZ l = sumZ k.
Proof. induction 1; rewrite ?sumZ_cons; lia. Qed.

Lemma sumZ_fmap_Permutation {A} (f : A → Z) (l k : list A) :
  l ≡ₚ k → sumZ (f <$> l) = sumZ (f <$> k).
Proof. intros H. apply sumZ_Permutation. by rewrite H. Qed.

Lemma sumZ_swap {A B} (f : A → B → Z) (l : list A) (k : list B) :
  sumZ ((λ x, sumZ (f x <$> k)) <$> l) =
  sumZ ((λ y, sumZ ((λ x, f x y) <$> l)) <$> k).
Proof.
  induction l as [|x l IH].
  - symmetry. by apply sumZ_fmap_zero, Forall_forall.
  - rewrite fmap_cons, sumZ_cons, IH. rewrite <- sumZ_fmap_add.
    apply sumZ_fmap_ext, Forall_forall. intros y _.
    by rewrite fmap_cons, sumZ_cons.
Qed.

Lemma sumZ_seq_lookup {A} `{Inhabited A} (f : A → Z) (l : list A) :
  sumZ ((λ i, f (l !!! i)) <$> seq 0 (length l)) = sumZ (f <$> l).
Proof.
  transitivity (sumZ (f <$> fancy l (seq 0 (length l)))).
  - unfold fancy. by rewrite <- list_fmap_compose.
  - by rewrite fancy_seq.
Qed.

(** Restricting a sum over [0 .. n) to the range [s .. e). *)
Lemma sumZ_range (H : nat → Z) (s e n : nat) :
  s ≤ e ≤ n →
  sumZ ((λ i, if (s <=? i) && (i <? e) then H (i - s) else 0%Z) <$> seq 0 n) =
  sumZ (H <$> seq 0 (e - s)).
Proof.
  intros Hr.
  replace n with (s + ((e - s) + (n - e))) by lia.
  rewrite !seq_app, !fmap_app, !sumZ_app. rewrite Nat.add_0_l.
  rewrite sumZ_fmap_zero.
  2:{ apply Forall_forall. intros i Hi. apply elem_of_seq in Hi.
      destruct (Nat.leb_spec s i); [lia|done]. }
  rewrite (sumZ_fmap_zero _ (seq (s + (e - s)) _)).
  2:{ apply Forall_forall. intros i Hi. apply elem_of_seq in Hi.
      destruct (Nat.ltb_spec i e); [lia|]. by rewrite andb_false_r. }
  replace (seq s (e - s)) with (Nat.add s <$> seq 0 (e - s))
    by (rewrite fmap_add_seq; f_equal; lia).
  rewrite <- list_fmap_compose.
  rewrite Z.add_0_l, Z.add_0_r. apply sumZ_fmap_ext, Forall_forall.
  intros i Hi. apply elem_of_seq in Hi. simpl.
  destruct (Nat.leb_spec s (s + i)); [|lia].
  destruct (Nat.ltb_spec (s + i) e); [|lia]. simpl. f_equal. lia.
Qed.


(** ** Sectors of a sane leg are disjoint *)

Lemma contiguous_bounds q : ∀ s i x,
  contiguous_from s q = true → q !! i = Some x →
  s ≤ x.1.1 ∧ x.1.1 < x.1.2 ∧ x.1.2 ≤ ends_at q s.
Proof.
  induction q as [|[[b e] c] q IH]; intros s i x H Hx; [done|].
  simpl in H. apply andb_true_iff in H as [H H3].
  apply andb_true_iff in H as [H1 H2].
  apply Nat.eqb_eq in H1. apply Nat.ltb_lt in H2. subst b.
  rewrite ends_at_cons.
  assert (He : e ≤ ends_at q e).
  { destruct q as [|y q']; [done|].
    destruct (IH e 0 y H3 eq_refl) as (? & ? & ?). lia. }
  destruct i as [|i]; simpl in Hx.
  - injection Hx as <-. simpl. lia.
  - destruct (IH e i x H3 Hx) as (? & ? & ?). lia.
Qed.

Lemma contiguous_order q : ∀ s i j x y,
  contiguous_from s q = true → i < j →
  q !! i = Some x → q !! j = Some y → x.1.2 ≤ y.1.1.
Proof.
  induction q as [|[[b e] c] q IH]; intros s i j x y H Hij Hx Hy; [done|].
  simpl in H. apply andb_true_iff in H as [H H3].
  destruct j as [|j]; [lia|]. simpl in Hy.
  destruct i as [|i]; simpl in Hx.
  - injection Hx as <-. simpl.
    destruct (contiguous_bounds q e j y H3 Hy) as (? & _). done.
  - eapply (IH e i j); eauto. lia.
Qed.

Lemma sector_lookup_Some l qi :
  qi < block_number l → qind l !! qi = Some (sector l qi).
Proof.
  intros H. destruct (lookup_lt_is_Some_2 (qind l) qi H) as [x Hx].
  by rewrite (sector_lookup _ _ _ Hx).
Qed.

Lemma sector_unique ci l qi qi' n :
  leg_sane ci l = true → qi < block_number l → qi' < block_number l →
  sector_start l qi ≤ n < sector_stop l qi →
  sector_start l qi' ≤ n < sector_stop l qi' → qi = qi'.
Proof.
  intros Hs Hq Hq' Hn Hn'. apply leg_sane_contiguous in Hs.
  apply sector_lookup_Some in Hq, Hq'.
  unfold sector_start, sector_stop in *.
  destruct (Nat.lt_trichotomy qi qi') as [Hlt|[->|Hlt]]; [|done|].
  - pose proof (contiguous_order _ _ _ _ _ _ Hs Hlt Hq Hq'). lia.
  - pose proof (contiguous_order _ _ _ _ _ _ Hs Hlt Hq' Hq). lia.
Qed.

Lemma sector_in_leg ci l qi :
  leg_sane ci l = true → qi < block_number l →
  sector_start l qi ≤ sector_stop l qi ≤ ind_len l.
Proof.
  intros Hs Hq. apply leg_sane_contiguous in Hs.
  apply sector_lookup_Some in Hq.
  destruct (contiguous_bounds _ _ _ _ Hs Hq) as (? & ? & ?).
  unfold sector_start, sector_stop, ind_len, ends_at in *. lia.
Qed.

(** ** Slices *)

Lemma in_slices_nil_nil : in_slices [] [] = true.
Proof. reflexivity. Qed.

Lemma in_slices_cons s e sl i idx :
  in_slices ((s, e) :: sl) (i :: idx) =
    (s <=? i) && (i <? e) && in_slices sl idx.
Proof.
  unfold in_slices. cbn [length zip zip_with forallb fst snd].
  destruct (decide (length idx = length sl)) as [Hl|Hl].
  - rewrite !bool_decide_eq_true_2 by (done || by f_equal).
    by rewrite !andb_true_l.
  - rewrite !bool_decide_eq_false_2 by (done || by intros [=]).
    by rewrite andb_false_l, andb_false_r.
Qed.

Lemma in_slices_length sl idx : in_slices sl idx = true → length idx = length sl.
Proof.
  unfold in_slices. intros H. apply andb_true_iff in H as [H _].
  by apply bool_decide_eq_true in H.
Qed.


Lemma slices_disjoint ci (ls : list LegCharge) : ∀ r r' idx,
  forallb (leg_sane ci) ls = true →
  row_in_range ls r → row_in_range ls r' →
  in_slices (zip_with get_slice ls r) idx = true →
  in_slices (zip_with get_slice ls r') idx = true → r = r'.
Proof.
  induction ls as [|l ls IH]; intros r r' idx Hs Hr Hr' Hi Hi'.
  - inversion Hr; inversion Hr'; done.
  - inversion Hr as [|qi ? r1 ? Hq Hr1]; subst.
    inversion Hr' as [|qi' ? r1' ? Hq' Hr1']; subst.
    simpl in Hs. apply andb_true_iff in Hs as [Hl Hs].
    destruct idx as [|i idx].
    { apply in_slices_length in Hi. done. }
    cbn [zip_with] in Hi, Hi'. unfold get_slice in Hi, Hi'.
    rewrite in_slices_cons in Hi, Hi'.
    apply andb_true_iff in Hi as [Hi Hi2]. apply andb_true_iff in Hi as [Ha Hb].
    apply andb_true_iff in Hi' as [Hi' Hi2']. apply andb_true_iff in Hi' as [Ha' Hb'].
    apply Nat.leb_le in Ha, Ha'. apply Nat.ltb_lt in Hb, Hb'.
    f_equal.
    + eapply (sector_unique ci l qi qi' i); eauto.
    + eapply IH; eauto.
Qed.


(** ** The dense content of an Array *)


Lemma zip_swap {A B} (l : list A) (k : list B) :
  zip k l = (λ p : A * B, (p.2, p.1)) <$> zip l k.
Proof.
  revert k. induction l as [|x l IH]; intros [|y k]; simpl; try done.
  by rewrite IH.
Qed.

Lemma to_ndarray_table (a : Array) :
  to_ndarray a =
    foldl (λ res (x : list nat * ndarray),
             nd_set_slices res (zip_with get_slice (legs a) x.1) x.2)
          (np_zeros (shape a) (dtype a)) (table a).
Proof.
  unfold to_ndarray, iter_blocks, table.
  rewrite (zip_swap (_qdata a) (_data a)).
  generalize (np_zeros (shape a) (dtype a)) as res0.
  generalize (zip (_qdata a) (_data a)) as T.
  induction T as [|x T IH]; intros res0; simpl; [done|]. apply IH.
Qed.

Lemma foldl_set_slices_shape (ls : list LegCharge)
    (T : list (list nat * ndarray)) : ∀ res0,
  nd_shape (foldl (λ res (x : list nat * ndarray),
                     nd_set_slices res (zip_with get_slice ls x.1) x.2)
                  res0 T) = nd_shape res0.
Proof. induction T as [|x T IH]; intros res0; simpl; [done|]. by rewrite IH. Qed.

Lemma to_ndarray_shape (a : Array) : nd_shape (to_ndarray a) = shape a.
Proof. rewrite to_ndarray_table. by rewrite foldl_set_slices_shape. Qed.

Lemma foldl_set_slices_at ci (ls : list LegCharge)
    (T : list (list nat * ndarray)) (sh : list nat) (dt : np_dtype)
    (idx : list nat) :
  forallb (leg_sane ci) ls = true →
  NoDup T.*1 → Forall (λ x, row_in_range ls x.1) T →
  nd_at (foldl (λ res (x : list nat * ndarray),
                  nd_set_slices res (zip_with get_slice ls x.1) x.2)
               (np_zeros sh dt) T) idx =
  sumZ ((λ x, embed (zip_with get_slice ls x.1) x.2 idx) <$> T).
Proof.
  intros Hs. induction T as [|x T IH] using rev_ind; intros Hnd Hr; [done|].
  rewrite foldl_app, fmap_app, sumZ_app. cbn [foldl fmap list_fmap].
  rewrite sumZ_cons. cbn [nd_at nd_set_slices].
  rewrite fmap_app in Hnd. apply NoDup_app in Hnd as (Hnd & Hx & _).
  apply Forall_app in Hr as [Hr Hrx]. apply Forall_inv in Hrx.
  unfold embed at 2.
  destruct (in_slices (zip_with get_slice ls x.1) idx) eqn:Hin.
  - rewrite sumZ_fmap_zero; [cbn; lia|].
    apply Forall_forall. intros y Hy. unfold embed.
    destruct (in_slices (zip_with get_slice ls y.1) idx) eqn:Hin'; [|done].
    exfalso. apply (Hx y.1).
    + apply list_elem_of_fmap. by exists y.
    + assert (y.1 = x.1) as ->; [|by left].
      eapply slices_disjoint; eauto.
      rewrite Forall_forall in Hr. by apply Hr.
  - rewrite IH by done. cbn. lia.
Qed.

Lemma table_fst (a : Array) :
  length (_qdata a) = length (_data a) → (table a).*1 = _qdata a.
Proof. intros H. unfold table. apply fst_zip. lia. Qed.

Lemma table_row_in_range (a : Array) :
  test_sanity a = Ok () → Forall (λ x, row_in_range (legs a) x.1) (table a).
Proof.
  intros Hs. pose proof (rank_legs _ Hs) as Hrk.
  destruct (test_sanity_Ok _ Hs) as (_ & _ & _ & Hl & Hlen & Hrg & _).
  enough (H : Forall (row_in_range (legs a)) (table a).*1)
    by (apply Forall_forall; intros x Hx; rewrite Forall_forall in H;
        apply H, list_elem_of_fmap; by exists x).
  rewrite (table_fst _ Hl).
  rewrite forallb_forall in Hlen. rewrite forallb_forall in Hrg.
  apply Forall_forall. intros r Hr. apply list_elem_of_In in Hr.
  specialize (Hlen r Hr). specialize (Hrg r Hr).
  apply bool_decide_eq_true in Hlen. rewrite Hrk in Hlen.
  clear -Hlen Hrg. unfold row_in_range.
  revert Hlen Hrg. generalize (legs a) as ls.
  induction r as [|qi r IH]; intros [|l ls] Hlen Hrg; try done;
    try (by constructor).
  simpl in *. apply andb_true_iff in Hrg as [H1 H2].
  constructor; [by apply Nat.ltb_lt|]. apply IH; [lia|done].
Qed.

Lemma to_ndarray_at (a : Array) (idx : list nat) :
  test_sanity a = Ok () → rows_distinct a = true →
  nd_at (to_ndarray a) idx =
  sumZ ((λ x, embed (zip_with get_slice (legs a) x.1) x.2 idx) <$> table a).
Proof.
  intros Hs Hd. rewrite to_ndarray_table.
  destruct (test_sanity_Ok _ Hs) as (_ & _ & Hl & Hlen & _).
  eapply foldl_set_slices_at; eauto.
  - rewrite (table_fst _ Hlen). by apply bool_decide_eq_true in Hd.
  - by apply table_row_in_range.
Qed.

(** ** Sums over a box of multi-indices *)

Lemma ndindex_cons (n : nat) (sh : list nat) :
  ndindex (n :: sh) = seq 0 n ≫= λ i, cons i <$> ndindex sh.
Proof. reflexivity. Qed.

Lemma box_sum (sh : list nat) (sl : list (nat * nat)) : ∀ F : list nat → Z,
  Forall2 (λ n (p : nat * nat), p.1 ≤ p.2 ≤ n) sh sl →
  sumZ ((λ idx, if in_slices sl idx
                then F (zip_with (λ i (s : nat * nat), i - s.1) idx sl)
                else 0%Z) <$> ndindex sh) =
  sumZ (F <$> ndindex ((λ p : nat * nat, p.2 - p.1) <$> sl)).
Proof.
  intros F H. revert F.
  induction H as [|n [s e] sh sl Hn _ IH]; intros F; [done|].
  rewrite fmap_cons, !ndindex_cons, !sumZ_bind. cbn [fst snd] in *.
  rewrite <- (sumZ_range
    (λ k, sumZ (F <$> (cons k <$> ndindex ((λ p : nat * nat, p.2 - p.1) <$> sl))))
    s e n Hn).
  apply sumZ_fmap_ext, Forall_forall. intros i _.
  rewrite <- !list_fmap_compose.
  destruct ((s <=? i) && (i <? e)) eqn:Hi.
  - rewrite <- (IH (F ∘ cons (i - s))).
    apply sumZ_fmap_ext, Forall_forall. intros idx _. simpl.
    rewrite in_slices_cons, Hi. simpl.
    by destruct (in_slices sl idx).
  - apply sumZ_fmap_zero, Forall_forall. intros idx _. simpl.
    by rewrite in_slices_cons, Hi.
Qed.


(** ** The dot product of two dense arrays, block by block *)


Lemma sizes_of_slices (ls : list LegCharge) : ∀ r,
  (λ p : nat * nat, p.2 - p.1) <$> zip_with get_slice ls r =
  zip_with sector_size ls r.
Proof.
  induction ls as [|l ls IH]; intros [|qi r]; simpl; try done.
  by rewrite IH.
Qed.

Lemma slices_in_shape ci (ls : list LegCharge) (r : list nat) :
  forallb (leg_sane ci) ls = true → row_in_range ls r →
  Forall2 (λ n (p : nat * nat), p.1 ≤ p.2 ≤ n)
          (ind_len <$> ls) (zip_with get_slice ls r).
Proof.
  intros Hs Hr. induction Hr as [|qi l r ls Hq _ IH]; simpl; [constructor|].
  simpl in Hs. apply andb_true_iff in Hs as [Hl Hs].
  constructor; [|by apply IH].
  simpl. by eapply sector_in_leg.
Qed.

Lemma zip_with_mul_fmap {A} (f g : A → Z) (l : list A) :
  zip_with Z.mul (f <$> l) (g <$> l) = (λ x, f x * g x)%Z <$> l.
Proof.
  induction l as [|x l IH]; [done|].
  rewrite !fmap_cons. cbn [zip_with]. by rewrite IH.
Qed.

Lemma pair_dot ci (ls : list LegCharge) (x y : list nat * ndarray) :
  forallb (leg_sane ci) ls = true →
  row_in_range ls x.1 → row_in_range ls y.1 →
  nd_shape x.2 = zip_with sector_size ls x.1 →
  nd_shape y.2 = zip_with sector_size ls y.1 →
  sumZ ((λ idx, embed (zip_with get_slice ls x.1) x.2 idx *
                embed (zip_with get_slice ls y.1) y.2 idx)%Z
        <$> ndindex (ind_len <$> ls)) =
  if decide (x.1 = y.1) then block_dot x.2 y.2 else 0%Z.
Proof.
  intros Hs Hx Hy Hsx Hsy. destruct (decide (x.1 = y.1)) as [Heq|Hne].
  - rewrite <- Heq in *. unfold block_dot, flatten. rewrite Hsx, Hsy.
    rewrite zip_with_mul_fmap, <- sizes_of_slices.
    rewrite <- (box_sum (ind_len <$> ls) (zip_with get_slice ls x.1)
                  (λ o, nd_at x.2 o * nd_at y.2 o)%Z)
      by (by eapply slices_in_shape).
    apply sumZ_fmap_ext, Forall_forall. intros idx _. unfold embed.
    by destruct (in_slices _ idx).
  - apply sumZ_fmap_zero, Forall_forall. intros idx _. unfold embed.
    destruct (in_slices (zip_with get_slice ls x.1) idx) eqn:H1; [|done].
    destruct (in_slices (zip_with get_slice ls y.1) idx) eqn:H2; [|lia].
    exfalso. apply Hne. eapply slices_disjoint; eauto.
Qed.

Lemma table_shaped (a : Array) :
  blocks_shaped a = true →
  Forall (λ x, nd_shape x.2 = _get_block_shape a x.1) (table a).
Proof.
  unfold blocks_shaped, table. rewrite (zip_swap (_data a) (_qdata a)).
  intros H. rewrite forallb_forall in H.
  apply Forall_forall. intros x Hx.
  apply list_elem_of_fmap in Hx as ([t r] & -> & Hp). simpl.
  eapply bool_decide_eq_true_1, (H (t, r)).
  by apply list_elem_of_In.
Qed.

Lemma contractible_slices (la lb : list LegCharge) : ∀ r,
  Forall2 (λ la lb, qind la = qind lb ∧ qconj la = (- qconj lb)%Z) la lb →
  zip_with get_slice lb r = zip_with get_slice la r ∧
  zip_with sector_size lb r = zip_with sector_size la r ∧
  (row_in_range lb r → row_in_range la r).
Proof.
  intros r H. revert r.
  induction H as [|l l' la lb [Hq _] _ IH]; intros r.
  - destruct r; repeat split; try done.
  - destruct r as [|qi r]; [repeat split; try done; inversion 1|].
    destruct (IH r) as (H1 & H2 & H3). cbn [zip_with].
    rewrite H1, H2.
    assert (get_slice l' qi = get_slice l qi) as ->
      by (unfold get_slice, sector_start, sector_stop, sector; by rewrite Hq).
    assert (sector_size l' qi = sector_size l qi) as ->
      by (unfold sector_size, sector_start, sector_stop, sector; by rewrite Hq).
    repeat split; try done.
    inversion 1; subst. constructor; [|by apply H3].
    unfold block_number in *. by rewrite Hq.
Qed.

Lemma contractible_shape (a b : Array) :
  test_sanity a = Ok () → test_sanity b = Ok () →
  legs_contractible a b → shape b = shape a.
Proof.
  intros Ha Hb H.
  destruct (test_sanity_Ok _ Ha) as (-> & _).
  destruct (test_sanity_Ok _ Hb) as (-> & _).
  unfold legs_contractible in H.
  induction H as [|l l' la lb [Hq _] _ IH]; simpl; [done|].
  f_equal; [|done]. unfold ind_len. by rewrite Hq.
Qed.

(** The dense dot product is the sum of the dot products of the blocks
    that both Arrays store at one row. *)
Lemma dense_dot_matched (a b : Array) :
  test_sanity a = Ok () → test_sanity b = Ok () →
  rows_distinct a = true → rows_distinct b = true →
  blocks_shaped a = true → blocks_shaped b = true →
  legs_contractible a b →
  dense_dot (to_ndarray a) (to_ndarray b) = matched_dot a b.
Proof.
  intros Ha Hb Hda Hdb Hsa Hsb Hc.
  unfold dense_dot, matched_dot. rewrite to_ndarray_shape.
  destruct (test_sanity_Ok _ Ha) as (Hsh & _ & Hl & _).
  rewrite Hsh.
  transitivity (sumZ ((λ idx,
    sumZ ((λ x : list nat * ndarray,
      sumZ ((λ y : list nat * ndarray,
        embed (zip_with get_slice (legs a) x.1) x.2 idx *
        embed (zip_with get_slice (legs a) y.1) y.2 idx)%Z <$> table b))
      <$> table a)) <$> ndindex (ind_len <$> legs a))).
  { apply sumZ_fmap_ext, Forall_forall. intros idx _.
    rewrite (to_ndarray_at a idx Ha Hda), (to_ndarray_at b idx Hb Hdb).
    rewrite <- sumZ_fmap_mul_r.
    apply sumZ_fmap_ext, Forall_forall. intros x _.
    rewrite <- sumZ_fmap_mul_l.
    apply sumZ_fmap_ext, Forall_forall. intros y _.
    by destruct (contractible_slices _ _ y.1 Hc) as (-> & _). }
  rewrite sumZ_swap.
  apply sumZ_fmap_ext, Forall_forall. intros x Hx.
  rewrite sumZ_swap.
  apply sumZ_fmap_ext, Forall_forall. intros y Hy.
  pose proof (table_row_in_range _ Ha) as Hra.
  pose proof (table_row_in_range _ Hb) as Hrb.
  pose proof (table_shaped _ Hsa) as Hta.
  pose proof (table_shaped _ Hsb) as Htb.
  rewrite Forall_forall in Hra, Hrb, Hta, Htb.
  destruct (contractible_slices _ _ y.1 Hc) as (_ & Hsz & Hrg).
  apply (pair_dot (chinfo a) (legs a) x y Hl).
  - by apply Hra.
  - by apply Hrg, Hrb.
  - by apply Hta.
  - rewrite (Htb y Hy). unfold _get_block_shape. done.
Qed.


(** ** Rows as integers *)


Lemma encode_horner (ns : list nat) : ∀ row acc,
  length row = length ns →
  sum_list (zip_with Nat.mul row
              (acc :: cumprod_from acc (take (length ns - 1) ns))) =
  acc * horner ns row.
Proof.
  induction ns as [|n ns IH]; intros [|r row] acc Hlen; try done.
  simpl in Hlen. destruct ns as [|n2 ns'].
  - destruct row; [|done]. cbn. nia.
  - replace (length (n :: n2 :: ns') - 1) with (S (length (n2 :: ns') - 1))
      by (simpl; lia).
    cbn [take cumprod_from zip_with sum_list sum_list_with horner].
    change (sum_list_with id ?l) with (sum_list l).
    rewrite IH by lia. unfold id. cbn [horner]. nia.
Qed.

Lemma encode_row_horner (ls : list LegCharge) (row : list nat) :
  length row = length ls →
  encode_row (np_cumprod (1 :: (block_number <$> take (length ls - 1) ls))) row =
  horner (block_number <$> ls) row.
Proof.
  intros Hlen. unfold encode_row, np_cumprod. cbn [cumprod_from].
  rewrite fmap_take. rewrite <- (length_fmap block_number ls).
  rewrite Nat.mul_1_l, encode_horner by (by rewrite length_fmap). lia.
Qed.

Lemma horner_inj (ns : list nat) : ∀ r r',
  Forall2 lt r ns → Forall2 lt r' ns → horner ns r = horner ns r' → r = r'.
Proof.
  induction ns as [|n ns IH]; intros r r' Hr Hr' Heq.
  - inversion Hr; inversion Hr'; done.
  - inversion Hr as [|r0 ? r1 ? H0 H1]; subst.
    inversion Hr' as [|r0' ? r1' ? H0' H1']; subst.
    cbn [horner] in Heq.
    assert (horner ns r1 = horner ns r1') by nia.
    f_equal; [nia|]. by apply IH.
Qed.

Lemma tuple_lt_snoc (x : list nat) : ∀ y a b,
  length x = length y →
  tuple_lt (x ++ [a]) (y ++ [b]) =
    tuple_lt x y || (bool_decide (x = y) && (a <? b)).
Proof.
  induction x as [|u x IH]; intros [|v y] a b Hlen; try done.
  - cbn [app tuple_lt]. rewrite bool_decide_eq_true_2 by done.
    destruct (Nat.ltb_spec a b); [done|].
    by destruct (Nat.ltb_spec b a).
  - cbn [app tuple_lt]. simpl in Hlen.
    destruct (Nat.ltb_spec u v); [done|].
    destruct (Nat.ltb_spec v u).
    + rewrite bool_decide_eq_false_2; [done|]. intros [=]. lia.
    + assert (u = v) as -> by lia. rewrite IH by lia.
      f_equal. f_equal. apply bool_decide_ext. split; [by intros ->|by intros [=]].
Qed.

Lemma horner_lt (ns : list nat) : ∀ r r',
  Forall2 lt r ns → Forall2 lt r' ns →
  row_lt r r' = true ↔ horner ns r < horner ns r'.
Proof.
  unfold row_lt.
  induction ns as [|n ns IH]; intros r r' Hr Hr'.
  - inversion Hr; inversion Hr'; subst. cbn. split; [done|lia].
  - inversion Hr as [|r0 ? r1 ? H0 H1]; subst.
    inversion Hr' as [|r0' ? r1' ? H0' H1']; subst.
    rewrite !reverse_cons, tuple_lt_snoc.
    2:{ rewrite !length_reverse.
        apply Forall2_length in H1, H1'. congruence. }
    cbn [horner]. specialize (IH r1 r1' H1 H1').
    rewrite orb_true_iff, andb_true_iff, bool_decide_eq_true, Nat.ltb_lt.
    split.
    + intros [Hlt|[Heq Hlt]].
      * apply IH in Hlt. nia.
      * apply (inj reverse) in Heq. subst. lia.
    + intros Hlt.
      destruct (Nat.lt_trichotomy (horner ns r1) (horner ns r1')) as [H|[H|H]].
      * left. by apply IH.
      * right. apply horner_inj in H; [|done..]. subst. split; [done|lia].
      * nia.
Qed.

Lemma row_lt_asym (r r' : list nat) : row_lt r r' = true → row_lt r' r = false.
Proof.
  unfold row_lt. generalize (reverse r) (reverse r'). clear.
  induction l as [|a x IH]; intros [|b y]; try done.
  cbn [tuple_lt].
  destruct (Nat.ltb_spec a b), (Nat.ltb_spec b a); try done; try lia.
  apply IH.
Qed.

(** ** Insertion sort sorts *)

Lemma insert_by_HdRel {A} (le : A → A → bool) (x y : A) (l : list A) :
  le y x = true → HdRel (λ u v, le u v = true) y l →
  HdRel (λ u v, le u v = true) y (insert_by le x l).
Proof.
  intros Hyx Hl. destruct l as [|z l]; simpl; [by constructor|].
  destruct (le x z); constructor; [done|]. by inversion Hl.
Qed.

Lemma insert_by_Sorted {A} (le : A → A → bool) (x : A) (l : list A) :
  (∀ u v, le u v = false → le v u = true) →
  Sorted (λ u v, le u v = true) l →
  Sorted (λ u v, le u v = true) (insert_by le x l).
Proof.
  intros Htot. induction 1 as [|y l Hs IH Hd]; simpl.
  - repeat constructor.
  - destruct (le x y) eqn:E.
    + constructor; [by constructor|by constructor].
    + constructor; [done|]. apply insert_by_HdRel; [by apply Htot|done].
Qed.

Lemma sort_by_Sorted {A} (le : A → A → bool) (l : list A) :
  (∀ u v, le u v = false → le v u = true) →
  Sorted (λ u v, le u v = true) (sort_by le l).
Proof.
  intros Htot. induction l as [|x l IH]; [constructor|].
  unfold sort_by. cbn [foldr]. by apply insert_by_Sorted.
Qed.

(** ** Strictly ascending keys *)

Lemma Sorted_fmap_elem {A B} (R : A → A → Prop) (R' : B → B → Prop)
    (f : A → B) (l : list A) :
  (∀ x y, x ∈ l → y ∈ l → R x y → R' (f x) (f y)) →
  Sorted R l → Sorted R' (f <$> l).
Proof.
  intros Hf Hs. induction Hs as [|x l Hs IH Hd]; [constructor|].
  rewrite fmap_cons. constructor.
  - apply IH. intros u v Hu Hv. apply Hf; by right.
  - destruct Hd as [|y l' Hxy]; [constructor|]. rewrite fmap_cons.
    constructor. apply Hf; [by left|by right; left|done].
Qed.

Lemma StronglySorted_le_lt (l : list nat) :
  StronglySorted le l → NoDup l → StronglySorted lt l.
Proof.
  induction 1 as [|x l Hs IH Hx]; intros Hnd; [constructor|].
  apply NoDup_cons in Hnd as [Hx' Hnd].
  constructor; [by apply IH|].
  rewrite Forall_forall in Hx |- *. intros y Hy.
  specialize (Hx y Hy). assert (x ≠ y) by (by intros ->). lia.
Qed.

Lemma StronglySorted_lookup_lt (l : list nat) : ∀ i j,
  StronglySorted lt l → i < j → j < length l → l !!! i < l !!! j.
Proof.
  induction l as [|x l IH]; intros i j Hs Hij Hj; [simpl in Hj; lia|].
  apply StronglySorted_inv in Hs as [Hs Hx].
  destruct j as [|j]; [lia|]. simpl in Hj.
  destruct (lookup_lt_is_Some_2 l j) as [y Hy]; [lia|].
  destruct i as [|i].
  - rewrite Forall_forall in Hx.
    rewrite (list_lookup_total_correct (x :: l) (S j) y Hy).
    cbn. apply Hx. by eapply list_elem_of_lookup_2.
  - rewrite !lookup_total_cons_ne_0 by done. simpl.
    apply IH; [done|lia|lia].
Qed.

Lemma ascending_seq (a : list nat) :
  StronglySorted lt a → ascending a (seq 0 (length a)).
Proof.
  intros Hs. unfold ascending.
  enough (H : ∀ n s, s + n ≤ length a →
            StronglySorted (λ i i', a !!! i < a !!! i') (seq s n))
    by (by apply H).
  induction n as [|n IH]; intros s Hn; [constructor|].
  cbn [seq]. constructor; [apply IH; lia|].
  apply Forall_forall. intros i Hi. apply elem_of_seq in Hi.
  apply StronglySorted_lookup_lt; [done|lia|lia].
Qed.


(** ** The sorted keys of [inner] *)

Lemma fancy_fst_snd {A} `{Inhabited A} (keys : list A) (L : list (A * nat)) :
  Forall (λ p, keys !! p.2 = Some p.1) L → fancy keys L.*2 = L.*1.
Proof.
  unfold fancy. induction 1 as [|[k i] L Hp _ IH]; [done|].
  rewrite !fmap_cons, IH. simpl in *. f_equal.
  by apply list_lookup_total_correct.
Qed.

Lemma zip_seq_lookup {A} (keys : list A) :
  Forall (λ p, keys !! p.2 = Some p.1) (zip keys (seq 0 (length keys))).
Proof.
  apply Forall_forall. intros [k i] Hin.
  apply list_elem_of_lookup in Hin as [j Hj].
  apply lookup_zip_with_Some in Hj as (x & y & [= <- <-] & Hx & Hy).
  apply lookup_seq in Hy as [-> _]. done.
Qed.

Lemma argsort_fancy {A} `{Inhabited A} (le : A → A → bool) (keys : list A) :
  fancy keys (argsort_by le keys) =
  (sort_by (λ p q : A * nat, le p.1 q.1) (zip keys (seq 0 (length keys)))).*1.
Proof.
  unfold argsort_by. apply fancy_fst_snd.
  rewrite sort_by_Permutation. apply zip_seq_lookup.
Qed.

Lemma zip_fmap_fst {A B C} (f : A → C) (l : list A) (k : list B) :
  zip (f <$> l) k = (λ x : A * B, (f x.1, x.2)) <$> zip l k.
Proof.
  revert k. induction l as [|x l IH]; intros [|y k]; simpl; try done.
  by rewrite IH.
Qed.

Lemma in_range_length (ls : list LegCharge) (r : list nat) :
  Forall2 lt r (block_number <$> ls) → length r = length ls.
Proof. intros H. apply Forall2_length in H. by rewrite length_fmap in H. Qed.

Lemma inner_sorted_spec (ls : list LegCharge) (a : Array) :
  length (_qdata a) = length (_data a) →
  Forall (λ r, Forall2 lt r (block_number <$> ls)) (_qdata a) →
  NoDup (_qdata a) →
  (_qdata_sorted a = true →
   np_lexsort_rows (_qdata a) = seq 0 (length (_qdata a))) →
  let ks := inner_sorted
              (np_cumprod (1 :: (block_number <$> take (length ls - 1) ls))) a in
  StronglySorted lt ks.1 ∧ length ks.1 = length ks.2 ∧
  zip ks.1 ks.2 ≡ₚ
    (λ x : list nat * ndarray, (horner (block_number <$> ls) x.1, x.2)) <$> table a.
Proof.
  intros Hlen Hrg Hnd Hsorted.
  set (ns := block_number <$> ls).
  set (stride := np_cumprod (1 :: (block_number <$> take (length ls - 1) ls))).
  assert (Hkeys : encode_row stride <$> _qdata a = horner ns <$> _qdata a).
  { apply Forall_fmap_ext_1. eapply Forall_impl; [exact Hrg|].
    intros r Hr. apply encode_row_horner. by apply in_range_length. }
  assert (Hndk : NoDup (horner ns <$> _qdata a)).
  { apply NoDup_fmap_2_strong; [|done]. intros r r' Hr Hr' Heq.
    rewrite Forall_forall in Hrg. eapply horner_inj; eauto. }
  assert (Htab : zip (horner ns <$> _qdata a) (_data a) =
                 (λ x : list nat * ndarray, (horner ns x.1, x.2)) <$> table a)
    by apply zip_fmap_fst.
  unfold inner_sorted. fold stride. rewrite Hkeys.
  destruct (_qdata_sorted a) eqn:Hflag; cbn [fst snd].
  - split; [|split; [by rewrite length_fmap|by rewrite Htab]].
    apply StronglySorted_le_lt; [|done].
    apply Sorted_StronglySorted; [apply _|].
    specialize (Hsorted eq_refl).
    pose proof (argsort_fancy row_le (_qdata a)) as Hf.
    unfold np_lexsort_rows in Hsorted. rewrite Hsorted, fancy_seq in Hf.
    rewrite Hf at 1. rewrite <- list_fmap_compose.
    eapply Sorted_fmap_elem; [|apply sort_by_Sorted].
    + intros u v Hu Hv Hle. simpl.
      assert (Hin : ∀ w, w ∈ sort_by (λ p q : list nat * nat, row_le p.1 q.1)
                           (zip (_qdata a) (seq 0 (length (_qdata a)))) →
                         Forall2 lt w.1 ns).
      { intros w Hw. rewrite sort_by_Permutation in Hw.
        rewrite Forall_forall in Hrg. apply Hrg.
        apply list_elem_of_lookup in Hw as [j Hj].
        apply lookup_zip_with_Some in Hj as (x & y & -> & Hx & Hy).
        by eapply list_elem_of_lookup_2. }
      unfold row_le in Hle. apply negb_true_iff in Hle.
      destruct (decide (horner ns v.1 < horner ns u.1)) as [Hlt|]; [|lia].
      apply (horner_lt ns v.1 u.1) in Hlt; [congruence|by apply Hin..].
    + intros u v Hle. unfold row_le in *. apply negb_false_iff in Hle.
      apply row_lt_asym in Hle. by rewrite Hle.
  - set (keys := horner ns <$> _qdata a) in *.
    assert (Hp := argsort_by_Permutation Nat.leb keys).
    split; [|split].
    + unfold np_argsort. rewrite argsort_fancy.
      apply StronglySorted_le_lt.
      * apply Sorted_StronglySorted; [apply _|].
        eapply Sorted_fmap_elem; [|apply sort_by_Sorted].
        -- intros u v _ _ Hle. by apply Nat.leb_le.
        -- intros u v Hle. apply Nat.leb_le. apply Nat.leb_gt in Hle. lia.
      * rewrite sort_by_Permutation. rewrite fst_zip; [done|].
        by rewrite length_seq.
    + unfold fancy. by rewrite !length_fmap.
    + unfold np_argsort. rewrite fancy_zip.
      * rewrite <- Htab. apply fancy_Permutation.
        rewrite Hp. unfold keys.
        rewrite length_zip, !length_fmap, <- Hlen, Nat.min_id. done.
      * unfold keys. by rewrite length_fmap.
      * by apply Permutation_seq_lt.
Qed.


(** ** Charges of a row that two contractible Arrays share *)

Lemma charge_neg_add (p q : charge) :
  charge_neg (charge_add p q) = charge_add (charge_neg p) (charge_neg q).
Proof.
  unfold charge_neg, charge_add. revert q.
  induction p as [|x p IH]; intros [|y q]; simpl; try done.
  rewrite IH. f_equal. lia.
Qed.

Lemma charge_neg_zero ci : charge_neg (charge_zero ci) = charge_zero ci.
Proof. unfold charge_neg, charge_zero. by rewrite fmap_replicate. Qed.

Lemma contractible_charge_sum ci (la lb : list LegCharge) : ∀ r,
  Forall2 (λ la lb, qind la = qind lb ∧ qconj la = (- qconj lb)%Z) la lb →
  charge_sum ci (zip_with get_charge lb r) =
  charge_neg (charge_sum ci (zip_with get_charge la r)).
Proof.
  intros r H. revert r. unfold charge_sum.
  induction H as [|l l' la lb [Hq Hc] _ IH]; intros r.
  - destruct r; simpl; by rewrite charge_neg_zero.
  - destruct r as [|qi r]; [simpl; by rewrite charge_neg_zero|].
    cbn [zip_with foldr]. rewrite IH, charge_neg_add. f_equal.
    unfold get_charge, charge_neg, charge_scale, sector.
    rewrite Hq, Hc, <- list_fmap_compose.
    apply list_fmap_ext. intros _ x _. simpl. lia.
Qed.

Lemma make_valid_1_cancel (m x y sa : Z) :
  make_valid_1 m sa = make_valid_1 m x →
  make_valid_1 m (- sa) = make_valid_1 m y →
  make_valid_1 m (x + y) = 0%Z.
Proof.
  unfold make_valid_1. destruct (Z.eqb_spec m 0) as [->|Hm]; [lia|].
  intros H1 H2.
  rewrite Z.add_mod, <- H1, <- H2, <- Z.add_mod by done.
  by rewrite Z.add_opp_diag_r, Z.mod_0_l.
Qed.

Lemma common_row_total_charge (a b : Array) (r : list nat) :
  chinfo a = chinfo b → legs_contractible a b →
  _get_block_charge a r = make_valid (chinfo a) (qtotal a) →
  _get_block_charge b r = make_valid (chinfo b) (qtotal b) →
  existsb (λ q, negb (q =? 0)%Z)
    (make_valid (chinfo a) (charge_add (qtotal a) (qtotal b))) = false.
Proof.
  intros Hci Hc Ha Hb. unfold _get_block_charge in *. rewrite <- Hci in Hb.
  rewrite (contractible_charge_sum _ _ _ r Hc) in Hb.
  set (Sa := charge_sum (chinfo a) (zip_with get_charge (legs a) r)) in *.
  apply not_true_is_false. intros Hex.
  apply existsb_exists in Hex as (v & Hin & Hv).
  apply list_elem_of_In, list_elem_of_lookup in Hin as [i Hi].
  unfold make_valid in Hi.
  apply lookup_zip_with_Some in Hi as (m & s & -> & Hm & Hs).
  unfold charge_add in Hs.
  apply lookup_zip_with_Some in Hs as (x & y & -> & Hx & Hy).
  assert (Ha' : make_valid (chinfo a) Sa !! i =
                make_valid (chinfo a) (qtotal a) !! i) by (by rewrite Ha).
  assert (Hb' : make_valid (chinfo a) (charge_neg Sa) !! i =
                make_valid (chinfo a) (qtotal b) !! i) by (by rewrite Hb).
  unfold make_valid, charge in *.
  rewrite !lookup_zip_with, Hm in Ha', Hb'. simpl in Ha', Hb'.
  rewrite Hx in Ha'. rewrite Hy in Hb'. simpl in Ha', Hb'.
  unfold charge_neg in Hb'. rewrite list_lookup_fmap in Hb'.
  destruct (@lookup nat Z (list Z) _ i Sa) as [sa|]; simpl in Ha', Hb'; [|done].
  injection Ha' as Ha'. injection Hb' as Hb'.
  rewrite (make_valid_1_cancel m x y sa Ha' Hb') in Hv. done.
Qed.

(** ** The checks of [inner] *)

Lemma test_contractible_Ok (l l' : LegCharge) :
  test_contractible l l' = Ok () →
  qind l = qind l' ∧ qconj l = (- qconj l')%Z.
Proof.
  unfold test_contractible, test_equal.
  destruct (decide _) as [[Hq Hc]|]; [done|discriminate].
Qed.

Lemma for_each_contractible (la lb : list LegCharge) :
  length la = length lb →
  for_each (λ p, test_contractible p.1 p.2) (zip la lb) = Ok () →
  Forall2 (λ la lb, qind la = qind lb ∧ qconj la = (- qconj lb)%Z) la lb.
Proof.
  revert lb. induction la as [|l la IH]; intros [|l' lb] Hlen H; try done;
    try (by constructor).
  cbn [zip zip_with for_each fst snd] in H.
  destruct (test_contractible l l') as [[]|] eqn:E; [|discriminate].
  constructor; [by apply test_contractible_Ok|].
  apply IH; [by injection Hlen|done].
Qed.

(** ** The loop of [inner] *)

Lemma inner_sum_ok (da db : list ndarray) (pairs : list (nat * nat)) : ∀ res,
  Forall (λ p : nat * nat,
            ∃ t t', da !! p.1 = Some t ∧ db !! p.2 = Some t' ∧
                    length (flatten t) = length (flatten t')) pairs →
  inner_sum da db pairs res =
    Ok (res + sumZ ((λ p : nat * nat, block_dot (da !!! p.1) (db !!! p.2))
                    <$> pairs))%Z.
Proof.
  induction pairs as [|[i j] ps IH]; intros res H.
  - cbn. f_equal. lia.
  - apply Forall_cons in H as [(t & t' & Ht & Ht' & Hl) H].
    cbn [inner_sum]. simpl in Ht, Ht'.
    unfold py_index. rewrite Ht, Ht'. cbn [mbind result_bind].
    unfold np_inner. rewrite bool_decide_eq_true_2 by done.
    cbn [mbind result_bind]. rewrite IH by done.
    rewrite fmap_cons, sumZ_cons. cbn [fst snd].
    rewrite (list_lookup_total_correct _ _ _ Ht).
    rewrite (list_lookup_total_correct _ _ _ Ht').
    unfold block_dot. f_equal. lia.
Qed.

Lemma sum_common_pairs (ka kb : list nat) (G : nat → nat → Z)
    (ia ib : list nat) :
  sumZ ((λ p : nat * nat, G p.1 p.2) <$> common_pairs ka kb ia ib) =
  sumZ ((λ j, sumZ ((λ i, if decide (ka !!! i = kb !!! j) then G i j else 0%Z)
                    <$> ia)) <$> ib).
Proof.
  unfold common_pairs. rewrite sumZ_bind.
  apply sumZ_fmap_ext, Forall_forall. intros j _.
  rewrite sumZ_bind.
  apply sumZ_fmap_ext, Forall_forall. intros i _.
  destruct (decide _); cbn; lia.
Qed.

Lemma elem_of_common_pairs (ka kb : list nat) (ia ib : list nat) (p : nat * nat) :
  p ∈ common_pairs ka kb ia ib →
  p.1 ∈ ia ∧ p.2 ∈ ib ∧ ka !!! p.1 = kb !!! p.2.
Proof.
  unfold common_pairs. intros H.
  apply list_elem_of_bind in H as (j & H & Hj).
  apply list_elem_of_bind in H as (i & H & Hi).
  destruct (decide _); [|by apply elem_of_nil in H].
  apply list_elem_of_singleton in H as ->. done.
Qed.

Lemma zip_lookup_total {A B} `{Inhabited A} `{Inhabited B}
    (l : list A) (k : list B) (i : nat) :
  i < length l → length l = length k →
  zip l k !!! i = (l !!! i, k !!! i).
Proof.
  intros Hi Hlen.
  destruct (lookup_lt_is_Some_2 l i Hi) as [x Hx].
  destruct (lookup_lt_is_Some_2 k i) as [y Hy]; [lia|].
  rewrite (list_lookup_total_correct _ _ _ Hx).
  rewrite (list_lookup_total_correct _ _ _ Hy).
  apply list_lookup_total_correct.
  by rewrite lookup_zip_with, Hx; simpl; rewrite Hy.
Qed.

(** The sum over the positions of two keyed tables is the sum over their
    entries. *)
Lemma sum_positions (ka kb : list nat) (da db : list ndarray) :
  length ka = length da → length kb = length db →
  sumZ ((λ j, sumZ ((λ i, if decide (ka !!! i = kb !!! j)
                          then block_dot (da !!! i) (db !!! j) else 0%Z)
                    <$> seq 0 (length ka))) <$> seq 0 (length kb)) =
  sumZ ((λ y : nat * ndarray,
           sumZ ((λ x : nat * ndarray,
                    if decide (x.1 = y.1) then block_dot x.2 y.2 else 0%Z)
                 <$> zip ka da)) <$> zip kb db).
Proof.
  intros Ha Hb.
  rewrite <- (sumZ_seq_lookup _ (zip kb db)).
  rewrite length_zip, <- Hb, Nat.min_id.
  apply sumZ_fmap_ext, Forall_forall. intros j Hj. apply elem_of_seq in Hj.
  rewrite zip_lookup_total by (done || lia). cbn [fst snd].
  rewrite <- (sumZ_seq_lookup _ (zip ka da)).
  rewrite length_zip, <- Ha, Nat.min_id.
  apply sumZ_fmap_ext, Forall_forall. intros i Hi. apply elem_of_seq in Hi.
  rewrite zip_lookup_total by (done || lia). done.
Qed.


(** ** [inner] and the dense dot product *)

Lemma keyed_sum_matched (a b : Array) (ns : list nat)
    (KSa KSb : list (nat * ndarray)) :
  KSa ≡ₚ (λ x : list nat * ndarray, (horner ns x.1, x.2)) <$> table a →
  KSb ≡ₚ (λ x : list nat * ndarray, (horner ns x.1, x.2)) <$> table b →
  Forall (λ x : list nat * ndarray, Forall2 lt x.1 ns) (table a) →
  Forall (λ x : list nat * ndarray, Forall2 lt x.1 ns) (table b) →
  sumZ ((λ y : nat * ndarray,
           sumZ ((λ x : nat * ndarray,
                    if decide (x.1 = y.1) then block_dot x.2 y.2 else 0%Z)
                 <$> KSa)) <$> KSb) =
  matched_dot a b.
Proof.
  intros Ha Hb Hra Hrb.
  rewrite (sumZ_fmap_Permutation _ _ _ Hb), <- list_fmap_compose.
  unfold matched_dot.
  rewrite (sumZ_swap (λ x y : list nat * ndarray,
             if decide (x.1 = y.1) then block_dot x.2 y.2 else 0%Z)
             (table a) (table b)).
  apply sumZ_fmap_ext, Forall_forall. intros y Hy. simpl.
  rewrite (sumZ_fmap_Permutation _ _ _ Ha), <- list_fmap_compose.
  apply sumZ_fmap_ext, Forall_forall. intros x Hx. simpl.
  rewrite Forall_forall in Hra, Hrb.
  destruct (decide (horner ns x.1 = horner ns y.1)) as [Heq|Hne].
  - apply horner_inj in Heq; [|by apply Hra|by apply Hrb].
    rewrite decide_True; done.
  - rewrite decide_False; [done|]. intros Heq. by rewrite Heq in Hne.
Qed.

Lemma flatten_length (t : ndarray) : length (flatten t) = length (ndindex (nd_shape t)).
Proof. unfold flatten. by rewrite length_fmap. Qed.

Lemma common_pairs_blocks (a b : Array) (ns : list nat)
    (ka kb : list nat) (da db : list ndarray) (ls : list LegCharge) :
  length ka = length da → length kb = length db →
  zip ka da ≡ₚ (λ x : list nat * ndarray, (horner ns x.1, x.2)) <$> table a →
  zip kb db ≡ₚ (λ x : list nat * ndarray, (horner ns x.1, x.2)) <$> table b →
  Forall (λ x : list nat * ndarray, Forall2 lt x.1 ns) (table a) →
  Forall (λ x : list nat * ndarray, Forall2 lt x.1 ns) (table b) →
  Forall (λ x : list nat * ndarray, nd_shape x.2 = zip_with sector_size ls x.1)
         (table a) →
  Forall (λ x : list nat * ndarray, nd_shape x.2 = zip_with sector_size ls x.1)
         (table b) →
  Forall (λ p : nat * nat,
            ∃ t t', da !! p.1 = Some t ∧ db !! p.2 = Some t' ∧
                    length (flatten t) = length (flatten t'))
         (common_pairs ka kb (seq 0 (length ka)) (seq 0 (length kb))).
Proof.
  intros Hla Hlb Ha Hb Hra Hrb Hsa Hsb.
  apply Forall_forall. intros [i j] Hp.
  apply elem_of_common_pairs in Hp as (Hi & Hj & Hk). simpl in *.
  apply elem_of_seq in Hi, Hj.
  destruct (lookup_lt_is_Some_2 da i) as [t Ht]; [lia|].
  destruct (lookup_lt_is_Some_2 db j) as [t' Ht']; [lia|].
  exists t, t'. split; [done|]. split; [done|].
  assert (Hxa : (ka !!! i, t) ∈ zip ka da).
  { apply list_elem_of_lookup. exists i.
    rewrite lookup_zip_with, Ht.
    destruct (lookup_lt_is_Some_2 ka i) as [k Hk']; [lia|].
    rewrite Hk'. simpl. by rewrite (list_lookup_total_correct _ _ _ Hk'). }
  assert (Hxb : (kb !!! j, t') ∈ zip kb db).
  { apply list_elem_of_lookup. exists j.
    rewrite lookup_zip_with, Ht'.
    destruct (lookup_lt_is_Some_2 kb j) as [k Hk']; [lia|].
    rewrite Hk'. simpl. by rewrite (list_lookup_total_correct _ _ _ Hk'). }
  rewrite Ha in Hxa. rewrite Hb in Hxb.
  apply list_elem_of_fmap in Hxa as (x & [= Hkx Htx] & Hx).
  apply list_elem_of_fmap in Hxb as (y & [= Hky Hty] & Hy).
  rewrite Forall_forall in Hra, Hrb, Hsa, Hsb.
  assert (x.1 = y.1) as Hxy.
  { eapply horner_inj; [by apply Hra|by apply Hrb|congruence]. }
  rewrite !flatten_length. subst t t'.
  by rewrite (Hsa x Hx), (Hsb y Hy), Hxy.
Qed.

Lemma row_in_range_lt (ls : list LegCharge) (r : list nat) :
  row_in_range ls r → Forall2 lt r (block_number <$> ls).
Proof. intros H. by apply Forall2_fmap_r. Qed.

(** C3: for two sane Arrays of one rank over one charge group, with
    distinct rows, blocks of the shapes of their sectors, blocks of the
    total charge and pairwise contractible legs, [inner] with the default
    arguments returns the elementwise dot product of the two dense arrays;
    it returns zero when the canonical sum of the two total charges has a
    nonzero component. *)
Theorem inner_dense_dot (a b : Array) :
  test_sanity a = Ok () → test_sanity b = Ok () →
  rows_distinct a = true → rows_distinct b = true →
  blocks_shaped a = true → blocks_shaped b = true →
  charges_congruent a = true → charges_congruent b = true →
  rank a = rank b → chinfo a = chinfo b →
  for_each (λ p, test_contractible p.1 p.2) (zip (legs a) (legs b)) = Ok () →
  inner a b = Ok (dense_dot (to_ndarray a) (to_ndarray b)) ∧
  (existsb (λ q, negb (q =? 0)%Z)
     (make_valid (chinfo a) (charge_add (qtotal a) (qtotal b))) = true →
   inner a b = Ok 0%Z).
Proof.
  intros Ha Hb Hda Hdb Hsa Hsb Hqa Hqb Hrk Hci Hfe.
  assert (Hc : legs_contractible a b).
  { apply for_each_contractible; [|done].
    by rewrite <- (rank_legs _ Ha), <- (rank_legs _ Hb). }
  assert (Hstart : inner a b =
    if existsb (λ q, negb (q =? 0)%Z)
         (make_valid (chinfo a) (charge_add (qtotal a) (qtotal b)))
    then Ok 0%Z
    else if (stored_blocks a =? 0) || (stored_blocks b =? 0) then Ok 0%Z
    else
      let stride :=
        np_cumprod (1 :: (block_number <$> take (length (legs a) - 1) (legs a))) in
      let '(a_qdata, a_data) := inner_sorted stride a in
      let '(b_qdata, b_data) := inner_sorted stride b in
      inner_sum a_data b_data
        (_iter_common_sorted a_qdata b_qdata
           (seq 0 (length a_qdata)) (seq 0 (length b_qdata)))
        0%Z).
  { unfold inner.
    rewrite (bool_decide_eq_true_2 _ Hrk), (bool_decide_eq_true_2 _ Hci).
    cbn [negb]. rewrite Hfe. done. }
  split; [|by intros Hex; rewrite Hstart, Hex].
  rewrite (dense_dot_matched a b) by done.
  rewrite Hstart.
  pose proof (table_row_in_range _ Ha) as Hra.
  pose proof (table_row_in_range _ Hb) as Hrb.
  destruct (test_sanity_Ok _ Ha) as (_ & _ & _ & Hla & _ & _ & Hsorta).
  destruct (test_sanity_Ok _ Hb) as (_ & _ & _ & Hlb & _ & _ & Hsortb).
  destruct (existsb _ _) eqn:Hex.
  - (* the total charges do not cancel: no row is shared *)
    f_equal. symmetry. unfold matched_dot.
    apply sumZ_fmap_zero, Forall_forall. intros x Hx.
    apply sumZ_fmap_zero, Forall_forall. intros y Hy.
    destruct (decide (x.1 = y.1)) as [Heq|]; [|done]. exfalso.
    assert (Hxa : x.1 ∈ _qdata a).
    { rewrite <- (table_fst _ Hla). apply list_elem_of_fmap. by exists x. }
    assert (Hyb : x.1 ∈ _qdata b).
    { rewrite Heq, <- (table_fst _ Hlb). apply list_elem_of_fmap. by exists y. }
    unfold charges_congruent in Hqa, Hqb.
    rewrite forallb_forall in Hqa, Hqb.
    apply list_elem_of_In in Hxa, Hyb.
    specialize (Hqa _ Hxa). specialize (Hqb _ Hyb).
    apply bool_decide_eq_true in Hqa, Hqb.
    pose proof (common_row_total_charge a b x.1 Hci Hc Hqa Hqb). congruence.
  - destruct ((stored_blocks a =? 0) || (stored_blocks b =? 0)) eqn:Hz.
    + f_equal. symmetry. unfold matched_dot, table, stored_blocks in *.
      apply orb_true_iff in Hz as [Hz|Hz]; apply Nat.eqb_eq in Hz;
        apply nil_length_inv in Hz; rewrite Hz.
      * by rewrite zip_with_nil_r.
      * rewrite zip_with_nil_r. by apply sumZ_fmap_zero, Forall_forall.
    + cbv zeta.
      assert (Hna : Forall (λ x : list nat * ndarray,
                Forall2 lt x.1 (block_number <$> legs a)) (table a)).
      { eapply Forall_impl; [exact Hra|]. intros x. apply row_in_range_lt. }
      assert (Hnb : Forall (λ x : list nat * ndarray,
                Forall2 lt x.1 (block_number <$> legs a)) (table b)).
      { eapply Forall_impl; [exact Hrb|]. intros x Hx.
        apply row_in_range_lt.
        destruct (contractible_slices (legs a) (legs b) x.1 Hc) as (_ & _ & H).
        by apply H. }
      assert (Hqna : Forall (λ r, Forall2 lt r (block_number <$> legs a)) (_qdata a)).
      { rewrite <- (table_fst _ Hla). apply Forall_fmap.
        eapply Forall_impl; [exact Hna|]. done. }
      assert (Hqnb : Forall (λ r, Forall2 lt r (block_number <$> legs a)) (_qdata b)).
      { rewrite <- (table_fst _ Hlb). apply Forall_fmap.
        eapply Forall_impl; [exact Hnb|]. done. }
      apply bool_decide_eq_true in Hda, Hdb.
      pose proof (inner_sorted_spec (legs a) a Hla Hqna Hda Hsorta) as Hia.
      pose proof (inner_sorted_spec (legs a) b Hlb Hqnb Hdb Hsortb) as Hib.
      cbv zeta in Hia, Hib.
      destruct (inner_sorted _ a) as [ka da].
      destruct (inner_sorted _ b) as [kb db].
      cbn [fst snd] in Hia, Hib.
      destruct Hia as (Hsa' & Hlena & Hpa). destruct Hib as (Hsb' & Hlenb & Hpb).
      rewrite iter_common_sorted_spec by (by apply ascending_seq).
      rewrite inner_sum_ok.
      * f_equal. rewrite Z.add_0_l.
        rewrite (sum_common_pairs ka kb
                   (λ i j, block_dot (da !!! i) (db !!! j))).
        rewrite sum_positions by done.
        by apply (keyed_sum_matched a b (block_number <$> legs a)).
      * apply (common_pairs_blocks a b (block_number <$> legs a) ka kb da db
                 (legs a)); try done.
        -- by apply table_shaped.
        -- pose proof (table_shaped _ Hsb) as Hshb.
           eapply Forall_impl; [exact Hshb|]. intros x Hx. simpl in Hx.
           rewrite Hx. unfold _get_block_shape.
           by destruct (contractible_slices (legs a) (legs b) x.1 Hc)
             as (_ & -> & _).
Qed.

Lemma inner_dense_dot_witness :
  test_sanity ex_eye = Ok () ∧ test_sanity ex_two_unsorted = Ok () ∧
  rows_distinct ex_eye = true ∧ rows_distinct ex_two_unsorted = true ∧
  blocks_shaped ex_eye = true ∧ blocks_shaped ex_two_unsorted = true ∧
  charges_congruent ex_eye = true ∧ charges_congruent ex_two_unsorted = true ∧
  rank ex_eye = rank ex_two_unsorted ∧ chinfo ex_eye = chinfo ex_two_unsorted ∧
  for_each (λ p, test_contractible p.1 p.2)
           (zip (legs ex_eye) (legs ex_two_unsorted)) = Ok () ∧
  inner ex_eye ex_two_unsorted =
    Ok (dense_dot (to_ndarray ex_eye) (to_ndarray ex_two_unsorted)) ∧
  (existsb (λ q, negb (q =? 0)%Z)
     (make_valid (chinfo ex_eye)
        (charge_add (qtotal ex_eye) (qtotal ex_two_unsorted))) = true →
   inner ex_eye ex_two_unsorted = Ok 0%Z).
Proof.
  repeat (split; [vm_compute; reflexivity|]).
  apply (inner_dense_dot ex_eye ex_two_unsorted); vm_compute; reflexivity.
Defined.

(** The identity against twice the identity with blocks [2] and [3]; and
    a matrix of total charge [1] against one of total charge [0]. *)
Example inner_examples :
  inner ex_eye ex_two_unsorted = Ok 5%Z ∧
  dense_dot (to_ndarray ex_eye) (to_ndarray ex_two_unsorted) = 5%Z ∧
  inner ex_odd ex_two_unsorted = Ok 0%Z ∧
  dense_dot (to_ndarray ex_odd) (to_ndarray ex_two_unsorted) = 0%Z ∧
  existsb (λ q, negb (q =? 0)%Z)
    (make_valid (chinfo ex_odd)
       (charge_add (qtotal ex_odd) (qtotal ex_two_unsorted))) = true.
Proof. vm_compute. repeat split; reflexivity. Qed.


(** ** Sorting what is sorted *)

Lemma insert_by_head {A} (le : A → A → bool) (x : A) (l : list A) :
  HdRel (λ u v, le u v = true) x l → insert_by le x l = x :: l.
Proof. destruct 1 as [|y l H]; simpl; [done|]. by rewrite H. Qed.

Lemma sort_by_sorted {A} (le : A → A → bool) (l : list A) :
  Sorted (λ u v, le u v = true) l → sort_by le l = l.
Proof.
  induction 1 as [|x l Hs IH Hd]; [done|].
  unfold sort_by in *. cbn [foldr]. rewrite IH. by apply insert_by_head.
Qed.

Lemma zip_seq_Sorted {A} (le : A → A → bool) (keys : list A) : ∀ s,
  Sorted (λ u v, le u v = true) keys →
  Sorted (λ p q : A * nat, le p.1 q.1 = true) (zip keys (seq s (length keys))).
Proof.
  induction keys as [|k keys IH]; intros s Hs; [constructor|].
  apply Sorted_inv in Hs as [Hs Hd]. cbn [length seq zip zip_with].
  constructor; [by apply IH|].
  destruct Hd as [|k' keys' Hk]; [constructor|]. cbn. by constructor.
Qed.

Lemma argsort_by_sorted {A} (le : A → A → bool) (keys : list A) :
  Sorted (λ u v, le u v = true) keys →
  argsort_by le keys = seq 0 (length keys).
Proof.
  intros Hs. unfold argsort_by.
  rewrite sort_by_sorted by (by apply zip_seq_Sorted).
  apply snd_zip. rewrite length_seq. lia.
Qed.

Lemma argsort_by_seq_Sorted {A} `{Inhabited A} (le : A → A → bool)
    (keys : list A) :
  (∀ u v, le u v = false → le v u = true) →
  argsort_by le keys = seq 0 (length keys) →
  Sorted (λ u v, le u v = true) keys.
Proof.
  intros Htot Hseq. rewrite <- (fancy_seq keys), <- Hseq, argsort_fancy.
  eapply (Sorted_fmap_elem (λ p q : A * nat, le p.1 q.1 = true));
    [|apply sort_by_Sorted].
  - intros x y _ _ Hxy. exact Hxy.
  - intros u v. apply Htot.
Qed.

(** ** The order of rows *)

Lemma tuple_lt_app_l (x : list nat) : ∀ y u v,
  length x = length y → tuple_lt x y = true →
  tuple_lt (x ++ u) (y ++ v) = true.
Proof.
  induction x as [|a x IH]; intros [|b y] u v Hlen Hlt; try done.
  cbn [app tuple_lt] in *.
  destruct (a <? b); [done|]. destruct (b <? a); [done|].
  apply IH; [by injection Hlen|done].
Qed.

Lemma tuple_lt_app_same (x u v : list nat) :
  tuple_lt (x ++ u) (x ++ v) = tuple_lt u v.
Proof.
  induction x as [|a x IH]; [done|].
  cbn [app tuple_lt]. by rewrite Nat.ltb_irrefl.
Qed.

Lemma tuple_lt_total (x : list nat) : ∀ y,
  length x = length y → tuple_lt x y = false → tuple_lt y x = false → x = y.
Proof.
  induction x as [|a x IH]; intros [|b y] Hlen H1 H2; try done.
  cbn [tuple_lt] in *.
  destruct (Nat.ltb_spec a b), (Nat.ltb_spec b a); try done.
  f_equal; [lia|]. apply IH; [by injection Hlen|done|done].
Qed.

Lemma tuple_lt_trans (x : list nat) : ∀ y z,
  tuple_lt x y = true → tuple_lt y z = true → tuple_lt x z = true.
Proof.
  induction x as [|a x IH]; intros [|b y] [|c z] H1 H2; try done.
  cbn [tuple_lt] in *.
  destruct (Nat.ltb_spec a b), (Nat.ltb_spec b a), (Nat.ltb_spec b c),
    (Nat.ltb_spec c b), (Nat.ltb_spec a c), (Nat.ltb_spec c a);
    try done; try lia.
  by eapply IH.
Qed.

Lemma row_lt_trans (r r' r'' : list nat) :
  row_lt r r' = true → row_lt r' r'' = true → row_lt r r'' = true.
Proof. unfold row_lt. apply tuple_lt_trans. Qed.

Lemma row_lt_irrefl (r : list nat) : row_lt r r = false.
Proof.
  destruct (row_lt r r) eqn:E; [|done].
  by rewrite (row_lt_asym _ _ E) in E.
Qed.

Lemma row_lt_le (r r' : list nat) : row_lt r r' = true → row_le r r' = true.
Proof. intros H. unfold row_le. by rewrite (row_lt_asym _ _ H). Qed.

Lemma row_le_total (r r' : list nat) : row_le r r' = false → row_le r' r = true.
Proof.
  unfold row_le. intros H. apply negb_false_iff in H.
  by rewrite (row_lt_asym _ _ H).
Qed.

Lemma row_le_drop (c : nat) (r r' : list nat) :
  length r = length r' → row_le r r' = true →
  row_le (drop c r) (drop c r') = true.
Proof.
  unfold row_le, row_lt. intros Hlen H.
  apply negb_true_iff. apply negb_true_iff in H.
  destruct (tuple_lt (reverse (drop c r')) (reverse (drop c r))) eqn:E; [|done].
  rewrite <- H, <- (take_drop c r'), <- (take_drop c r) at 1.
  rewrite !reverse_app. symmetry. apply tuple_lt_app_l; [|done].
  rewrite !length_reverse, !length_drop. lia.
Qed.

Lemma row_le_neq_lt (r r' : list nat) :
  length r = length r' → row_le r r' = true → r ≠ r' → row_lt r r' = true.
Proof.
  unfold row_le, row_lt. intros Hlen H Hne. apply negb_true_iff in H.
  destruct (tuple_lt (reverse r) (reverse r')) eqn:E; [done|].
  exfalso. apply Hne. apply (inj reverse).
  apply tuple_lt_total; [by rewrite !length_reverse|done|done].
Qed.

Lemma row_lt_app_r (ka ka' kb kb' : list nat) :
  length kb = length kb' → row_lt kb kb' = true →
  row_lt (ka ++ kb) (ka' ++ kb') = true.
Proof.
  unfold row_lt. intros Hlen H. rewrite !reverse_app.
  apply tuple_lt_app_l; [by rewrite !length_reverse|done].
Qed.

Lemma row_lt_app_same (ka ka' kb : list nat) :
  row_lt (ka ++ kb) (ka' ++ kb) = row_lt ka ka'.
Proof. unfold row_lt. rewrite !reverse_app. apply tuple_lt_app_same. Qed.

Global Instance row_lt_Transitive :
  Transitive (λ r r' : list nat, row_lt r r' = true).
Proof. intros r r' r''. apply row_lt_trans. Qed.

(** ** Groups of equal rows *)

Lemma row_changes_spec (all : list (list nat)) : ∀ rows pre prev,
  all = pre ++ rows →
  ∃ cs, row_changes prev (length pre) rows = cs ++ [length all] ∧
        fancy all cs = run_heads prev rows ∧
        Forall (λ p, p < length all) cs.
Proof.
  induction rows as [|r rows IH]; intros pre prev Hall.
  - exists []. subst all. rewrite app_nil_r. done.
  - destruct (IH (pre ++ [r]) r) as (cs & Hrc & Hf & Hlt).
    { by rewrite <- app_assoc. }
    rewrite length_app in Hrc. cbn [length] in Hrc.
    replace (length pre + 1) with (S (length pre)) in Hrc by lia.
    cbn [row_changes run_heads].
    destruct (decide (r = prev)) as [Heq|Hne].
    + exists cs. done.
    + exists (length pre :: cs). rewrite Hrc. split; [done|]. split.
      * unfold fancy in *. rewrite fmap_cons, Hf. f_equal.
        subst all. by rewrite list_lookup_total_middle.
      * constructor; [|done]. subst all. rewrite length_app. simpl. lia.
Qed.

Lemma find_row_differences_groups (rows : list (list nat)) :
  fancy rows (group_starts (_find_row_differences rows)) =
  match rows with [] => [] | r :: rows' => r :: run_heads r rows' end.
Proof.
  destruct rows as [|r rows']; [done|].
  destruct (row_changes_spec (r :: rows') rows' [r] r eq_refl)
    as (cs & Hrc & Hf & _).
  unfold _find_row_differences, group_starts. cbn [length] in Hrc.
  rewrite Hrc.
  set (n := S (length rows')).
  replace (take (length (0 :: cs ++ [n]) - 1) (0 :: cs ++ [n]))
    with (0 :: cs).
  2:{ change (0 :: cs ++ [n]) with ((0 :: cs) ++ [n]).
      rewrite length_app. cbn [length].
      replace (S (length cs) + 1 - 1) with (length (0 :: cs))
        by (cbn [length]; lia).
      by rewrite take_app_length. }
  unfold fancy in *. rewrite fmap_cons, Hf. done.
Qed.

Lemma run_heads_Forall (P : list nat → Prop) : ∀ rows prev,
  Forall P rows → Forall P (run_heads prev rows).
Proof.
  induction rows as [|r rows IH]; intros prev H; [constructor|].
  apply Forall_cons in H as [Hr H]. cbn [run_heads].
  destruct (decide (r = prev)); [by apply IH|].
  constructor; [done|by apply IH].
Qed.

Lemma run_heads_Sorted (n : nat) : ∀ rows prev,
  Forall (λ r, length r = n) (prev :: rows) →
  Sorted (λ u v, row_le u v = true) (prev :: rows) →
  Sorted (λ u v, row_lt u v = true) (prev :: run_heads prev rows).
Proof.
  induction rows as [|r rows IH]; intros prev Hlen Hs.
  - repeat constructor.
  - apply Sorted_inv in Hs as [Hs Hd].
    apply Forall_cons in Hlen as [Hp Hlen].
    specialize (IH r Hlen Hs). cbn [run_heads].
    destruct (decide (r = prev)) as [->|Hne]; [done|].
    constructor; [done|]. constructor.
    apply HdRel_inv in Hd. apply Forall_cons in Hlen as [Hr _].
    apply row_le_neq_lt; [congruence|done|congruence].
Qed.

Lemma groups_sorted (n : nat) (rows : list (list nat)) :
  Forall (λ r, length r = n) rows →
  Sorted (λ u v, row_le u v = true) rows →
  StronglySorted (λ u v, row_lt u v = true)
    (fancy rows (group_starts (_find_row_differences rows))).
Proof.
  intros Hlen Hs. rewrite find_row_differences_groups.
  destruct rows as [|r rows]; [constructor|].
  apply Sorted_StronglySorted; [apply _|]. by apply (run_heads_Sorted n).
Qed.

Lemma groups_Forall (P : list nat → Prop) (rows : list (list nat)) :
  Forall P rows →
  Forall P (fancy rows (group_starts (_find_row_differences rows))).
Proof.
  intros H. rewrite find_row_differences_groups.
  destruct rows as [|r rows]; [constructor|].
  apply Forall_cons in H as [Hr H].
  constructor; [done|by apply run_heads_Forall].
Qed.


(** ** The groups of [_tensordot_pre_worker] *)

Lemma fancy_fmap {A B} `{Inhabited A} `{Inhabited B} (g : A → B)
    (l : list A) (perm : list nat) :
  Forall (λ p, p < length l) perm → fancy (g <$> l) perm = g <$> fancy l perm.
Proof.
  unfold fancy. induction 1 as [|p perm Hp _ IH]; [done|].
  rewrite !fmap_cons, IH. f_equal.
  destruct (lookup_lt_is_Some_2 l p Hp) as [y Hy].
  rewrite (list_lookup_total_correct _ _ _ Hy).
  apply list_lookup_total_correct. by rewrite list_lookup_fmap, Hy.
Qed.

Lemma zip_with_cons_drop (f : list nat → list nat) (Q : list (list nat)) :
  ∀ sums, length sums = length Q →
  drop 1 <$> zip_with (λ s r, s :: f r) sums Q = f <$> Q.
Proof.
  induction Q as [|r Q IH]; intros [|s sums] Hlen; try done.
  cbn [zip_with]. rewrite !fmap_cons. f_equal. apply IH. by injection Hlen.
Qed.

Lemma lexsort_keep_sorted (Q : list (list nat)) (sums : list nat)
    (f : list nat → list nat) (n : nat) :
  length sums = length Q → Forall (λ r, length (f r) = n) Q →
  let rows :=
    fancy (f <$> Q) (np_lexsort_rows (zip_with (λ s r, s :: f r) sums Q)) in
  Sorted (λ u v, row_le u v = true) rows ∧ rows ≡ₚ f <$> Q.
Proof.
  intros Hlen Hn. set (Z := zip_with (λ s r, s :: f r) sums Q).
  assert (HlZ : length Z = length Q)
    by (unfold Z; rewrite length_zip_with; lia).
  assert (Hperm : np_lexsort_rows Z ≡ₚ seq 0 (length Z))
    by apply argsort_by_Permutation.
  cbv zeta. split.
  - rewrite <- (zip_with_cons_drop f Q sums Hlen). fold Z.
    rewrite fancy_fmap by (by apply Permutation_seq_lt).
    unfold np_lexsort_rows. rewrite argsort_fancy.
    set (L := sort_by _ _).
    assert (HL : Sorted (λ p q : list nat * nat, row_le p.1 q.1 = true) L).
    { apply sort_by_Sorted. intros u v. apply row_le_total. }
    assert (Hel : ∀ p, p ∈ L → length p.1 = S n).
    { intros p Hp. unfold L in Hp. rewrite sort_by_Permutation in Hp.
      apply list_elem_of_lookup in Hp as [i Hi].
      apply lookup_zip_with_Some in Hi as (x & y & -> & Hx & _).
      apply lookup_zip_with_Some in Hx as (s & r & -> & _ & Hr).
      rewrite Forall_forall in Hn. cbn. f_equal. apply Hn.
      by eapply list_elem_of_lookup_2. }
    rewrite <- list_fmap_compose.
    eapply Sorted_fmap_elem; [|exact HL].
    intros x y Hx Hy Hxy. simpl.
    apply row_le_drop; [|done]. by rewrite !Hel.
  - apply fancy_Permutation. by rewrite length_fmap, <- HlZ.
Qed.

Lemma pre_worker_keep_a (a b : Array) (cut_a cut_b m : nat) :
  Forall (λ r, length r = m) (_qdata a) → cut_a ≤ m →
  let KA := p_qdata_keep (_tensordot_pre_worker a b cut_a cut_b).1 in
  StronglySorted (λ u v, row_lt u v = true) KA ∧
  Forall (λ k, ∃ r, r ∈ _qdata a ∧ k = take cut_a r) KA.
Proof.
  intros Hm Hcut. unfold _tensordot_pre_worker.
  destruct (negb (_qdata_sorted b)); cbn [fst p_qdata_keep].
  all: match goal with
       | |- context [np_lexsort_rows (zip_with _ ?s _)] => set (sums := s)
       end.
  all: assert (Hlen : Forall (λ r, length (take cut_a r) = cut_a) (_qdata a))
    by (eapply Forall_impl; [exact Hm|]; intros r Hr; cbv beta in *;
        rewrite length_take; lia).
  all: destruct (lexsort_keep_sorted (_qdata a) sums (take cut_a) cut_a)
    as [Hs Hp]; [by unfold sums; rewrite length_fmap|done|].
  all: split; [eapply (groups_sorted cut_a); [|exact Hs]|apply groups_Forall].
  all: rewrite Hp; apply Forall_fmap, Forall_forall; intros r Hr; simpl.
  all: try (by exists r).
  all: rewrite Forall_forall in Hlen; by apply Hlen.
Qed.

Lemma pre_worker_keep_b (a b : Array) (cut_a cut_b m : nat) :
  Forall (λ r, length r = m) (_qdata b) →
  (_qdata_sorted b = true →
   np_lexsort_rows (_qdata b) = seq 0 (length (_qdata b))) →
  let KB := p_qdata_keep (_tensordot_pre_worker a b cut_a cut_b).2 in
  StronglySorted (λ u v, row_lt u v = true) KB ∧
  Forall (λ k, ∃ r, r ∈ _qdata b ∧ k = drop cut_b r) KB.
Proof.
  intros Hm Hsorted. unfold _tensordot_pre_worker.
  assert (Hlen : Forall (λ r, length (drop cut_b r) = m - cut_b) (_qdata b)).
  { eapply Forall_impl; [exact Hm|]. intros r Hr. cbv beta in *.
    rewrite length_drop. lia. }
  destruct (_qdata_sorted b) eqn:Hsb; cbn [negb snd p_qdata_keep].
  - assert (Hs : Sorted (λ u v, row_le u v = true) (drop cut_b <$> _qdata b)).
    { eapply Sorted_fmap_elem.
      2:{ apply (argsort_by_seq_Sorted row_le); [apply row_le_total|].
          by apply Hsorted. }
      intros x y Hx Hy Hxy. rewrite Forall_forall in Hm.
      apply row_le_drop; [|done]. by rewrite (Hm x Hx), (Hm y Hy). }
    split; [eapply (groups_sorted (m - cut_b)); [|exact Hs]|apply groups_Forall].
    + by apply Forall_fmap.
    + apply Forall_fmap, Forall_forall. intros r Hr. simpl. by exists r.
  - match goal with
    | |- context [np_lexsort_rows (zip_with _ ?s _)] => set (sums := s)
    end.
    destruct (lexsort_keep_sorted (_qdata b) sums (drop cut_b) (m - cut_b))
      as [Hs Hp]; [by unfold sums; rewrite length_fmap|done|].
    split; [eapply (groups_sorted (m - cut_b)); [|exact Hs]|apply groups_Forall].
    + rewrite Hp. by apply Forall_fmap.
    + rewrite Hp. apply Forall_fmap, Forall_forall. intros r Hr. simpl.
      by exists r.
Qed.


(** ** The rows of the result of [_tensordot_worker] *)

Lemma StronglySorted_bind {A B} (R : relation B) (f : A → list B)
    (l : list A) :
  (∀ x, x ∈ l → StronglySorted R (f x)) →
  StronglySorted (λ x y, ∀ u v, u ∈ f x → v ∈ f y → R u v) l →
  StronglySorted R (l ≫= f).
Proof.
  intros Hf Hs. induction Hs as [|x l Hs IH Hx]; [constructor|].
  rewrite bind_cons. apply StronglySorted_app_2.
  - intros u v Hu Hv. apply list_elem_of_bind in Hv as (y & Hv & Hy).
    rewrite Forall_forall in Hx. by apply (Hx y Hy).
  - apply Hf. by left.
  - apply IH. intros y Hy. apply Hf. by right.
Qed.

Lemma StronglySorted_seq (Q : nat → nat → Prop) : ∀ n s,
  (∀ i j, s ≤ i → i < j → j < s + n → Q i j) → StronglySorted Q (seq s n).
Proof.
  induction n as [|n IH]; intros s H; [constructor|].
  cbn [seq]. constructor.
  - apply IH. intros i j ? ? ?. apply H; lia.
  - apply Forall_forall. intros j Hj. apply elem_of_seq in Hj. apply H; lia.
Qed.

Lemma StronglySorted_lookup {A} `{Inhabited A} (R : relation A) (l : list A) :
  ∀ i j, StronglySorted R l → i < j → j < length l → R (l !!! i) (l !!! j).
Proof.
  induction l as [|x l IH]; intros i j Hs Hij Hj; [simpl in Hj; lia|].
  apply StronglySorted_inv in Hs as [Hs Hx].
  destruct j as [|j]; [lia|]. simpl in Hj.
  destruct (lookup_lt_is_Some_2 l j) as [y Hy]; [lia|].
  destruct i as [|i].
  - rewrite Forall_forall in Hx.
    rewrite (list_lookup_total_correct (x :: l) (S j) y Hy).
    cbn. apply Hx. by eapply list_elem_of_lookup_2.
  - rewrite !lookup_total_cons_ne_0 by done. simpl.
    apply IH; [done|lia|lia].
Qed.

Lemma StronglySorted_NoDup {A} (R : relation A) (l : list A) :
  (∀ x, ¬ R x x) → StronglySorted R l → NoDup l.
Proof.
  intros Hirr. induction 1 as [|x l Hs IH Hx]; constructor; [|done].
  intros Hin. rewrite Forall_forall in Hx. by apply (Hirr x), Hx.
Qed.

Lemma foldl_add_dtype {K} (f : K → ndarray) (ks : list K) : ∀ s,
  nd_dtype (foldl (λ s k, np_add s (f k)) s ks) = nd_dtype s.
Proof. induction ks as [|k ks IH]; intros s; simpl; [done|]. by rewrite IH. Qed.

Lemma group_pair_output_row ci qt axes dt pa pb row col u :
  u ∈ group_pair_output ci qt axes dt pa pb row col →
  u.1 = (p_qdata_keep pa !!! row) ++ (p_qdata_keep pb !!! col) ∧
  nd_dtype u.2 = dt.
Proof.
  unfold group_pair_output.
  destruct (bool_decide _); [|by intros ?%elem_of_nil].
  destruct (_iter_common_sorted _ _ _ _); [by intros ?%elem_of_nil|].
  intros ->%list_elem_of_singleton. cbn [fst snd]. split; [done|].
  by rewrite foldl_add_dtype.
Qed.

Lemma group_pair_output_sorted (R : relation (list nat * ndarray))
    ci qt axes dt pa pb row col :
  StronglySorted R (group_pair_output ci qt axes dt pa pb row col).
Proof.
  unfold group_pair_output.
  destruct (bool_decide _); [|constructor].
  destruct (_iter_common_sorted _ _ _ _); repeat constructor.
Qed.

Lemma group_pairs_output_sorted ci qt axes dt pa pb (n : nat) :
  StronglySorted (λ u v, row_lt u v = true) (p_qdata_keep pa) →
  StronglySorted (λ u v, row_lt u v = true) (p_qdata_keep pb) →
  Forall (λ k, length k = n) (p_qdata_keep pb) →
  StronglySorted (λ x y : list nat * ndarray, row_lt x.1 y.1 = true)
    (group_pairs_output ci qt axes dt pa pb).
Proof.
  intros HA HB Hn. unfold group_pairs_output.
  apply StronglySorted_bind.
  - intros col _. apply StronglySorted_bind.
    + intros row _. apply group_pair_output_sorted.
    + apply StronglySorted_seq. intros i j _ Hij Hj u v Hu Hv.
      apply group_pair_output_row in Hu as [Hu _].
      apply group_pair_output_row in Hv as [Hv _].
      rewrite Hu, Hv, row_lt_app_same.
      apply (StronglySorted_lookup _ _ i j HA); lia.
  - apply StronglySorted_seq. intros i j _ Hij Hj u v Hu Hv.
    apply list_elem_of_bind in Hu as (r & Hu & _).
    apply list_elem_of_bind in Hv as (r' & Hv & _).
    apply group_pair_output_row in Hu as [Hu _].
    apply group_pair_output_row in Hv as [Hv _].
    rewrite Hu, Hv.
    assert (Hlen : ∀ k, k < length (p_qdata_keep pb) →
                        length (p_qdata_keep pb !!! k) = n).
    { intros k Hk. destruct (lookup_lt_is_Some_2 _ k Hk) as [x Hx].
      rewrite (list_lookup_total_correct _ _ _ Hx).
      by apply (Forall_lookup_1 _ _ _ _ Hn Hx). }
    apply row_lt_app_r; [rewrite !Hlen; lia|].
    apply (StronglySorted_lookup _ _ i j HB); lia.
Qed.

(** ** Passing [test_sanity] *)

Lemma check_bind (b : bool) (msg : string) (k : result unit) :
  b = true → (check b msg ≫= λ _, k) = k.
Proof. by intros ->. Qed.

Lemma row_in_range_forallb (ls : list LegCharge) (r : list nat) :
  row_in_range ls r →
  forallb (λ p : nat * LegCharge, p.1 <? block_number p.2) (zip r ls) = true.
Proof.
  induction 1 as [|qi l r ls Hlt _ IH]; [done|].
  cbn [zip zip_with forallb fst snd]. rewrite IH, andb_true_r.
  by apply Nat.ltb_lt.
Qed.

Lemma forallb_row_in_range (ls : list LegCharge) : ∀ r,
  length r = length ls →
  forallb (λ p : nat * LegCharge, p.1 <? block_number p.2) (zip r ls) = true →
  row_in_range ls r.
Proof.
  induction ls as [|l ls IH]; intros [|qi r] Hlen H; try done;
    try (by constructor).
  cbn [zip zip_with forallb fst snd] in H. apply andb_true_iff in H as [H1 H2].
  constructor; [by apply Nat.ltb_lt|]. apply IH; [by injection Hlen|done].
Qed.

Lemma test_sanity_intro (a : Array) :
  shape a = ind_len <$> legs a →
  Forall (λ d, nd_dtype d = dtype a) (_data a) →
  forallb (leg_sane (chinfo a)) (legs a) = true →
  length (_qdata a) = length (_data a) →
  Forall (row_in_range (legs a)) (_qdata a) →
  (_qdata_sorted a = true →
   np_lexsort_rows (_qdata a) = seq 0 (length (_qdata a))) →
  test_sanity a = Ok ().
Proof.
  intros Hsh Hdt Hlegs Hlen Hrows Hsorted. unfold test_sanity.
  rewrite Forall_forall in Hdt. rewrite Forall_forall in Hrows.
  rewrite check_bind by (by apply bool_decide_eq_true_2).
  rewrite check_bind.
  2:{ apply forallb_forall. intros d Hd. apply bool_decide_eq_true_2.
      by apply Hdt, list_elem_of_In. }
  rewrite check_bind by done.
  rewrite check_bind.
  2:{ apply andb_true_iff. split; [by apply bool_decide_eq_true_2|].
      apply forallb_forall. intros r Hr. apply bool_decide_eq_true_2.
      apply list_elem_of_In, Hrows, Forall2_length in Hr.
      unfold rank. by rewrite Hsh, length_fmap. }
  rewrite check_bind.
  2:{ apply forallb_forall. intros r Hr.
      by apply row_in_range_forallb, Hrows, list_elem_of_In. }
  destruct (_qdata_sorted a); [|done].
  unfold check. by rewrite bool_decide_eq_true_2 by (by apply Hsorted).
Qed.

Lemma sane_rows (a : Array) :
  test_sanity a = Ok () →
  Forall (λ r, length r = rank a ∧ row_in_range (legs a) r) (_qdata a).
Proof.
  intros Hs. pose proof (rank_legs _ Hs) as Hrk.
  destruct (test_sanity_Ok _ Hs) as (_ & _ & _ & _ & Hlen & Hrg & _).
  rewrite forallb_forall in Hlen. rewrite forallb_forall in Hrg.
  apply Forall_forall. intros r Hr. apply list_elem_of_In in Hr.
  specialize (Hlen r Hr). specialize (Hrg r Hr).
  apply bool_decide_eq_true in Hlen. split; [done|].
  apply forallb_row_in_range; [congruence|done].
Qed.


(** ** [_tensordot_worker] returns a sane Array *)

Lemma forallb_Forall {A} (P : A → bool) (l : list A) :
  forallb P l = true ↔ Forall (λ x, P x = true) l.
Proof.
  induction l as [|x l IH]; cbn [forallb].
  - split; [constructor|done].
  - rewrite andb_true_iff, Forall_cons, IH. done.
Qed.

Lemma group_pairs_output_elem ci qt axes dt pa pb u :
  u ∈ group_pairs_output ci qt axes dt pa pb →
  ∃ row col, row < length (p_qdata_keep pa) ∧
             col < length (p_qdata_keep pb) ∧
             u.1 = (p_qdata_keep pa !!! row) ++ (p_qdata_keep pb !!! col) ∧
             nd_dtype u.2 = dt.
Proof.
  unfold group_pairs_output. intros Hu.
  apply list_elem_of_bind in Hu as (col & Hu & Hcol).
  apply list_elem_of_bind in Hu as (row & Hu & Hrow).
  apply elem_of_seq in Hcol, Hrow.
  apply group_pair_output_row in Hu as [Hu Hd].
  exists row, col. repeat split; [lia|lia|done|done].
Qed.

Lemma Sorted_row_lt_le (rows : list (list nat)) :
  StronglySorted (λ u v, row_lt u v = true) rows →
  Sorted (λ u v, row_le u v = true) rows.
Proof.
  intros Hs. apply StronglySorted_Sorted in Hs.
  rewrite <- (list_fmap_id rows).
  eapply Sorted_fmap; [|exact Hs]. intros x y. apply row_lt_le.
Qed.

Lemma tensordot_worker_returns (a b : Array) (axes : nat) :
  test_sanity a = Ok () → test_sanity b = Ok () → chinfo a = chinfo b →
  axes ≤ rank a → axes ≤ rank b →
  let pre := _tensordot_pre_worker a b (rank a - axes) axes in
  let ci := chinfo a in
  let qt := make_valid ci (charge_add (qtotal a) (qtotal b)) in
  let dt := find_common_type (dtype a) (dtype b) in
  let out := group_pairs_output ci qt axes dt pre.1 pre.2 in
  ∃ res, _tensordot_worker a b axes = Ok res ∧
         legs res = take (rank a - axes) (legs a) ++ drop axes (legs b) ∧
         _qdata res = out.*1 ∧ _data res = out.*2 ∧
         StronglySorted (λ u v, row_lt u v = true) (_qdata res).
Proof.
  intros Ha Hb Hci Hxa Hxb pre ci qt dt out.
  set (ls := take (rank a - axes) (legs a) ++ drop axes (legs b)).
  pose proof (sane_rows _ Ha) as Hra. pose proof (sane_rows _ Hb) as Hrb.
  destruct (test_sanity_Ok _ Ha) as (_ & _ & Hla & _).
  destruct (test_sanity_Ok _ Hb) as (_ & _ & Hlb & _ & _ & _ & Hsb).
  assert (Hlegs : forallb (leg_sane ci) ls = true).
  { apply forallb_Forall, Forall_app. rewrite <- Hci in Hlb.
    apply forallb_Forall in Hla, Hlb.
    split; [by apply Forall_take|by apply Forall_drop]. }
  destruct (pre_worker_keep_a a b (rank a - axes) axes (rank a))
    as [HsA HeA]; [|lia|].
  { eapply Forall_impl; [exact Hra|]. by intros r [? _]. }
  destruct (pre_worker_keep_b a b (rank a - axes) axes (rank b))
    as [HsB HeB]; [|done|].
  { eapply Forall_impl; [exact Hrb|]. by intros r [? _]. }
  fold pre in HsA, HeA, HsB, HeB.
  assert (HrA : Forall (row_in_range (take (rank a - axes) (legs a)))
                  (p_qdata_keep pre.1)).
  { eapply Forall_impl; [exact HeA|]. intros k (r & Hr & ->).
    rewrite Forall_forall in Hra. destruct (Hra r Hr) as [_ Hrg].
    by apply Forall2_take. }
  assert (HrB : Forall (row_in_range (drop axes (legs b)))
                  (p_qdata_keep pre.2)).
  { eapply Forall_impl; [exact HeB|]. intros k (r & Hr & ->).
    rewrite Forall_forall in Hrb. destruct (Hrb r Hr) as [_ Hrg].
    by apply Forall2_drop. }
  assert (Hrows : Forall (row_in_range ls) out.*1).
  { apply Forall_fmap, Forall_forall. intros u Hu.
    apply group_pairs_output_elem in Hu as (row & col & Hrow & Hcol & Hu & _).
    simpl. rewrite Hu. apply Forall2_app.
    - by apply (Forall_lookup_total_1 _ _ _ HrA).
    - by apply (Forall_lookup_total_1 _ _ _ HrB). }
  assert (Hdt : Forall (λ d, nd_dtype d = dt) out.*2).
  { apply Forall_fmap, Forall_forall. intros u Hu.
    by apply group_pairs_output_elem in Hu as (_ & _ & _ & _ & _ & Hd). }
  assert (Hsort : StronglySorted (λ u v, row_lt u v = true) out.*1).
  { eapply StronglySorted_fmap;
      [|apply (group_pairs_output_sorted _ _ _ _ _ _
                 (length (drop axes (legs b))) HsA HsB)].
    - by intros x y Hxy.
    - eapply Forall_impl; [exact HrB|]. intros k Hk.
      by apply Forall2_length in Hk. }
  assert (Hnew : test_sanity (Array_new ci ls dt qt) = Ok ()).
  { apply test_sanity_intro; try done; by constructor. }
  pose proof (worker_table_output ci qt axes dt pre.1 pre.2) as Ht.
  fold out in Ht.
  unfold _tensordot_worker. fold pre ci qt dt ls.
  destruct pre as [pa pb]. cbn [fst snd] in Ht. rewrite Ht.
  unfold Array_init. rewrite Hnew. cbn [mbind result_bind].
  destruct (bool_decide (length out.*2 = 0)) eqn:Hl.
  - apply bool_decide_eq_true in Hl. rewrite length_fmap in Hl.
    apply nil_length_inv in Hl.
    exists (Array_new ci ls dt qt). rewrite Hl. repeat split; constructor.
  - set (res := set_data _ _).
    assert (Hres : test_sanity res = Ok ()).
    { apply test_sanity_intro; try done.
      - unfold res. cbn. by rewrite !length_fmap.
      - intros _. unfold res. cbn.
        apply argsort_by_sorted, Sorted_row_lt_le, Hsort. }
    rewrite Hres. cbn [mbind result_bind]. exists res. done.
Qed.


(** ** One block for every productive pair of groups *)

Lemma StronglySorted_lookup_inj {A} `{Inhabited A} (R : relation A)
    (l : list A) (i j : nat) :
  (∀ x, ¬ R x x) → StronglySorted R l →
  i < length l → j < length l → l !!! i = l !!! j → i = j.
Proof.
  intros Hirr Hs Hi Hj Heq.
  destruct (Nat.lt_trichotomy i j) as [Hlt|[->|Hlt]]; [|done|].
  - pose proof (StronglySorted_lookup R l i j Hs Hlt Hj) as HR.
    rewrite Heq in HR. by apply Hirr in HR.
  - pose proof (StronglySorted_lookup R l j i Hs Hlt Hi) as HR.
    rewrite Heq in HR. by apply Hirr in HR.
Qed.

Lemma group_pairs_output_at ci qt axes dt pa pb (n : nat) row col u :
  StronglySorted (λ u v, row_lt u v = true) (p_qdata_keep pa) →
  StronglySorted (λ u v, row_lt u v = true) (p_qdata_keep pb) →
  Forall (λ k, length k = n) (p_qdata_keep pa) →
  row < length (p_qdata_keep pa) → col < length (p_qdata_keep pb) →
  u ∈ group_pairs_output ci qt axes dt pa pb →
  u.1 = (p_qdata_keep pa !!! row) ++ (p_qdata_keep pb !!! col) →
  u ∈ group_pair_output ci qt axes dt pa pb row col.
Proof.
  intros HA HB Hn Hrow Hcol Hu Hkey. unfold group_pairs_output in Hu.
  apply list_elem_of_bind in Hu as (col' & Hu & Hcol').
  apply list_elem_of_bind in Hu as (row' & Hu & Hrow').
  apply elem_of_seq in Hcol', Hrow'.
  pose proof (group_pair_output_row _ _ _ _ _ _ _ _ _ Hu) as [Hu1 _].
  rewrite Hkey in Hu1. apply app_inj_1 in Hu1 as [H1 H2].
  2:{ rewrite (Forall_lookup_total_1 _ _ _ Hn Hrow).
      rewrite (Forall_lookup_total_1 _ _ _ Hn); lia. }
  assert (Hirr : ∀ x : list nat, ¬ row_lt x x = true).
  { intros x. by rewrite row_lt_irrefl. }
  apply (StronglySorted_lookup_inj _ _ _ _ Hirr HA) in H1; [|lia|lia].
  apply (StronglySorted_lookup_inj _ _ _ _ Hirr HB) in H2; [|lia|lia].
  by subst row' col'.
Qed.

Lemma group_pair_output_elem ci qt axes dt pa pb row col u :
  row < length (p_qdata_keep pa) → col < length (p_qdata_keep pb) →
  u ∈ group_pair_output ci qt axes dt pa pb row col →
  u ∈ group_pairs_output ci qt axes dt pa pb.
Proof.
  intros Hrow Hcol Hu. unfold group_pairs_output.
  apply list_elem_of_bind. exists col. split; [|apply elem_of_seq; lia].
  apply list_elem_of_bind. exists row. split; [done|apply elem_of_seq; lia].
Qed.

(** C2: [tensordot] calls [_tensordot_worker] on operands over one charge
    group whose contracted legs are pairwise contractible, with at least
    one contracted axis and at least one leg that is kept. On such
    operands that satisfy the invariants of the data model the worker
    returns an Array whose block table is the concatenation, over the
    groups of [b] and of [a], of what each pair contributes, and no two of
    its rows are equal. For a charge-compatible pair of a kept-row group
    of [a] and one of [b]: when the merge-join of the keys of their
    contracted sectors finds no match, the result stores nothing at the
    concatenation of the kept row of [a] and the kept row of [b]; when it
    finds a match, the result stores a block at exactly one position with
    that row. *)
Theorem tensordot_worker_group_pairs (a b : Array) (axes : nat) :
  test_sanity a = Ok () → test_sanity b = Ok () →
  blocks_shaped a = true → blocks_shaped b = true →
  chinfo a = chinfo b →
  0 < axes → axes ≤ rank a → axes ≤ rank b →
  ¬ (axes = rank a ∧ axes = rank b) →
  for_each (λ p, test_contractible p.1 p.2)
           (zip (drop (rank a - axes) (legs a)) (take axes (legs b))) = Ok () →
  let pre := _tensordot_pre_worker a b (rank a - axes) axes in
  let pa := pre.1 in
  let pb := pre.2 in
  let ci := chinfo a in
  let qt := make_valid ci (charge_add (qtotal a) (qtotal b)) in
  let dt := find_common_type (dtype a) (dtype b) in
  ∃ res,
    _tensordot_worker a b axes = Ok res ∧
    worker_table ci qt axes dt pa pb = (_qdata res, _data res) ∧
    table res = group_pairs_output ci qt axes dt pa pb ∧
    NoDup (_qdata res) ∧
    ∀ row_a col_b,
      row_a < length (p_qdata_keep pa) → col_b < length (p_qdata_keep pb) →
      make_valid ci (charge_add (p_charges_keep pb !!! col_b)
                       (p_charges_keep pa !!! row_a)) = qt →
      let row := (p_qdata_keep pa !!! row_a) ++ (p_qdata_keep pb !!! col_b) in
      match _iter_common_sorted (p_qdata_sum pa) (p_qdata_sum pb)
              (slice_range (p_slices pa) row_a)
              (slice_range (p_slices pb) col_b) with
      | [] => row ∉ _qdata res
      | _ :: _ =>
          ∃ i, _qdata res !! i = Some row ∧ is_Some (_data res !! i) ∧
               ∀ j, _qdata res !! j = Some row → j = i
      end.
Proof.
  intros Ha Hb _ _ Hci _ Hxa Hxb _ _ pre pa pb ci qt dt.
  destruct (tensordot_worker_returns a b axes Ha Hb Hci Hxa Hxb)
    as (res & Hres & _ & Hq & Hd & Hs).
  fold pre ci qt dt in Hq, Hd. fold pa pb in Hq, Hd.
  set (out := group_pairs_output ci qt axes dt pa pb) in *.
  assert (Hnd : NoDup (_qdata res)).
  { eapply StronglySorted_NoDup; [|exact Hs]. intros x Hx.
    by rewrite row_lt_irrefl in Hx. }
  exists res. split; [done|]. split.
  { rewrite Hq, Hd. apply worker_table_output. }
  split; [unfold table; by rewrite Hq, Hd, zip_fst_snd|].
  split; [done|].
  intros row_a col_b Hrow Hcol Hcharge row.
  pose proof (sane_rows _ Ha) as Hra.
  destruct (test_sanity_Ok _ Hb) as (_ & _ & _ & _ & _ & _ & Hsb).
  destruct (pre_worker_keep_a a b (rank a - axes) axes (rank a))
    as [HsA HeA]; [|lia|].
  { eapply Forall_impl; [exact Hra|]. by intros r [? _]. }
  destruct (pre_worker_keep_b a b (rank a - axes) axes (rank b))
    as [HsB _]; [|done|].
  { eapply Forall_impl; [exact (sane_rows _ Hb)|]. by intros r [? _]. }
  fold pre in HsA, HeA, HsB. fold pa in HsA, HeA. fold pb in HsB.
  assert (HnA : Forall (λ k, length k = rank a - axes) (p_qdata_keep pa)).
  { eapply Forall_impl; [exact HeA|]. intros k (r & Hr & ->).
    rewrite Forall_forall in Hra. destruct (Hra r Hr) as [Hlen _].
    rewrite length_take. lia. }
  assert (Hgpo : group_pair_output ci qt axes dt pa pb row_a col_b =
    match _iter_common_sorted (p_qdata_sum pa) (p_qdata_sum pb)
            (slice_range (p_slices pa) row_a)
            (slice_range (p_slices pb) col_b) with
    | [] => []
    | k :: ks =>
        [(row,
          foldl (λ s k', np_add s (np_tensordot axes (p_data pa !!! k'.1)
                                     (p_data pb !!! k'.2)))
            (np_asarray (np_tensordot axes (p_data pa !!! k.1)
                           (p_data pb !!! k.2)) dt) ks)]
    end).
  { unfold group_pair_output. by rewrite (bool_decide_eq_true_2 _ Hcharge). }
  destruct (_iter_common_sorted _ _ _ _) as [|k ks].
  - intros Hin. rewrite Hq in Hin.
    apply list_elem_of_fmap in Hin as (u & Hu1 & Hu). symmetry in Hu1.
    apply (group_pairs_output_at ci qt axes dt pa pb (rank a - axes)
             row_a col_b u HsA HsB HnA Hrow Hcol Hu) in Hu1.
    rewrite Hgpo in Hu1. by apply elem_of_nil in Hu1.
  - match type of Hgpo with _ = [?p] => set (u := p) in * end.
    assert (Hu : u ∈ out).
    { apply (group_pair_output_elem _ _ _ _ _ _ row_a col_b); [done|done|].
      rewrite Hgpo. by left. }
    apply list_elem_of_lookup in Hu as [i Hi].
    exists i. rewrite Hq, Hd, !list_lookup_fmap, Hi.
    split; [done|]. split; [by eexists|].
    intros j Hj. rewrite Hq in Hnd.
    eapply NoDup_lookup; [exact Hnd|exact Hj|].
    by rewrite list_lookup_fmap, Hi.
Qed.

Lemma tensordot_worker_group_pairs_witness :
  test_sanity ex_eye = Ok () ∧ test_sanity ex_eye_unsorted = Ok () ∧
  blocks_shaped ex_eye = true ∧ blocks_shaped ex_eye_unsorted = true ∧
  chinfo ex_eye = chinfo ex_eye_unsorted ∧
  0 < 1 ∧ 1 ≤ rank ex_eye ∧ 1 ≤ rank ex_eye_unsorted ∧
  ¬ (1 = rank ex_eye ∧ 1 = rank ex_eye_unsorted) ∧
  for_each (λ p, test_contractible p.1 p.2)
           (zip (drop (rank ex_eye - 1) (legs ex_eye))
                (take 1 (legs ex_eye_unsorted))) = Ok () ∧
  ∃ res, _tensordot_worker ex_eye ex_eye_unsorted 1 = Ok res ∧
         table res =
           group_pairs_output (chinfo ex_eye)
             (make_valid (chinfo ex_eye)
                (charge_add (qtotal ex_eye) (qtotal ex_eye_unsorted)))
             1 (find_common_type (dtype ex_eye) (dtype ex_eye_unsorted))
             (_tensordot_pre_worker ex_eye ex_eye_unsorted
                (rank ex_eye - 1) 1).1
             (_tensordot_pre_worker ex_eye ex_eye_unsorted
                (rank ex_eye - 1) 1).2 ∧
         NoDup (_qdata res).
Proof.
  assert (H1 : test_sanity ex_eye = Ok ()) by (vm_compute; reflexivity).
  assert (H2 : test_sanity ex_eye_unsorted = Ok ()) by (vm_compute; reflexivity).
  assert (H3 : blocks_shaped ex_eye = true) by (vm_compute; reflexivity).
  assert (H4 : blocks_shaped ex_eye_unsorted = true)
    by (vm_compute; reflexivity).
  assert (H5 : chinfo ex_eye = chinfo ex_eye_unsorted) by reflexivity.
  assert (H6 : 0 < 1) by lia.
  assert (H7 : 1 ≤ rank ex_eye) by (vm_compute; lia).
  assert (H8 : 1 ≤ rank ex_eye_unsorted) by (vm_compute; lia).
  assert (H9 : ¬ (1 = rank ex_eye ∧ 1 = rank ex_eye_unsorted))
    by (vm_compute; lia).
  assert (H10 : for_each (λ p, test_contractible p.1 p.2)
                  (zip (drop (rank ex_eye - 1) (legs ex_eye))
                       (take 1 (legs ex_eye_unsorted))) = Ok ())
    by (vm_compute; reflexivity).
  repeat (split; [assumption|]).
  destruct (tensordot_worker_group_pairs ex_eye ex_eye_unsorted 1
              H1 H2 H3 H4 H5 H6 H7 H8 H9 H10) as (res & Hres & _ & Ht & Hnd & _).
  exists res. repeat split; assumption.
Defined.

(** The identity against the blocks [2] and [3] stored out of order: both
    pairs of groups with matching keys give one block. *)
Example tensordot_worker_sorts :
  (λ r, match r with
        | Ok res => Some (_qdata res, flatten <$> _data res)
        | Raise _ => None
        end) (_tensordot_worker ex_eye ex_eye_unsorted 1) =
  Some ([[0; 0]; [1; 1]], [[3%Z]; [2%Z]]).
Proof. vm_compute. reflexivity. Qed.


(* ================================================================= *)
(** * Further properties of the code *)

(** ** The merge-join [_iter_common_sorted] *)

Lemma ics_tail_sound (a b : list nat) (i j : nat) (a_it b_it : list nat)
    (p : nat * nat) :
  p ∈ ics_tail a b i j a_it b_it →
  p.1 ∈ i :: a_it ∧ p.2 ∈ j :: b_it ∧ a !!! p.1 = b !!! p.2.
Proof.
  unfold ics_tail. intros Hp. apply elem_of_app in Hp as [Hp|Hp].
  - apply list_elem_of_fmap in Hp as (i' & -> & Hi').
    apply list_elem_of_filter in Hi' as [Heq Hi']. cbn [fst snd].
    split; [by right|]. split; [by left|done].
  - apply list_elem_of_fmap in Hp as (j' & -> & Hj').
    apply list_elem_of_filter in Hj' as [Heq Hj']. cbn [fst snd].
    split; [|split; [by right|done]].
    destruct (last a_it) as [i'|] eqn:El; [|by left].
    right. cbn. apply last_Some in El as [l' ->].
    apply elem_of_app. right. by left.
Qed.

Local Ltac ics_weaken H :=
  let Hi := fresh in let Hj := fresh in let Heq := fresh in
  destruct H as (Hi & Hj & Heq);
  split_and!; [first [done|by right]|first [done|by right]|done].

Lemma ics_loop_sound (a b : list nat) (a_it : list nat) : ∀ i b_it j p,
  p ∈ ics_loop a b i a_it j b_it →
  p.1 ∈ i :: a_it ∧ p.2 ∈ j :: b_it ∧ a !!! p.1 = b !!! p.2.
Proof.
  induction a_it as [|i' a_it IHa]; intros i b_it;
    induction b_it as [|j' b_it IHb]; intros j p Hp;
    rewrite ics_loop_unfold in Hp;
    destruct (Nat.ltb_spec (a !!! i) (b !!! j)) as [H1|H1];
    try destruct (Nat.ltb_spec (b !!! j) (a !!! i)) as [H2|H2];
    try (apply elem_of_cons in Hp as [->|Hp];
         [cbn [fst snd]; split_and!; [by left|by left|lia]|]).
  all: try (apply ics_tail_sound in Hp; ics_weaken Hp).
  all: try (apply IHa in Hp; ics_weaken Hp).
  all: try (apply IHb in Hp; ics_weaken Hp).
Qed.

(** X1: for positions inside the two key arrays at which the keys are
    strictly ascending, [_iter_common_sorted] yields, in this order, the
    pairs of the comprehension of its docstring: for every [j] of [b_idx]
    the [i] of [a_idx] with [a[i] == b[j]]. *)
Theorem iter_common_sorted_docstring (a b : list nat) (a_idx b_idx : list nat) :
  Forall (λ i, i < length a) a_idx → Forall (λ j, j < length b) b_idx →
  ascending a a_idx → ascending b b_idx →
  _iter_common_sorted a b a_idx b_idx = common_pairs a b a_idx b_idx.
Proof. intros _ _. apply iter_common_sorted_spec. Qed.

Lemma iter_common_sorted_docstring_witness :
  Forall (λ i, i < length [1; 3; 5; 7]) [0; 1; 3] ∧
  Forall (λ j, j < length [3; 4; 7; 9]) [0; 1; 2; 3] ∧
  ascending [1; 3; 5; 7] [0; 1; 3] ∧ ascending [3; 4; 7; 9] [0; 1; 2; 3] ∧
  _iter_common_sorted [1; 3; 5; 7] [3; 4; 7; 9] [0; 1; 3] [0; 1; 2; 3] =
    common_pairs [1; 3; 5; 7] [3; 4; 7; 9] [0; 1; 3] [0; 1; 2; 3].
Proof.
  assert (H1 : Forall (λ i, i < length [1; 3; 5; 7]) [0; 1; 3])
    by (repeat constructor; simpl; lia).
  assert (H2 : Forall (λ j, j < length [3; 4; 7; 9]) [0; 1; 2; 3])
    by (repeat constructor; simpl; lia).
  assert (H3 : ascending [1; 3; 5; 7] [0; 1; 3])
    by (repeat constructor; simpl; lia).
  assert (H4 : ascending [3; 4; 7; 9] [0; 1; 2; 3])
    by (repeat constructor; simpl; lia).
  repeat (split; [assumption|]).
  exact (iter_common_sorted_docstring _ _ _ _ H1 H2 H3 H4).
Defined.

(** X2: whatever the order of the keys, [_iter_common_sorted] never yields
    a pair of positions whose keys differ, nor a position that is not in
    its index range; with an empty range it yields nothing. *)
Theorem iter_common_sorted_sound (a b : list nat) (a_idx b_idx : list nat) :
  Forall (λ i, i < length a) a_idx → Forall (λ j, j < length b) b_idx →
  Forall (λ p : nat * nat, p.1 ∈ a_idx ∧ p.2 ∈ b_idx ∧ a !! p.1 = b !! p.2)
         (_iter_common_sorted a b a_idx b_idx) ∧
  (a_idx = [] ∨ b_idx = [] → _iter_common_sorted a b a_idx b_idx = []).
Proof.
  intros Ha Hb. split.
  - apply Forall_forall. intros p Hp. unfold _iter_common_sorted in Hp.
    destruct a_idx as [|i a_it]; [by apply elem_of_nil in Hp|].
    destruct b_idx as [|j b_it]; [by apply elem_of_nil in Hp|].
    apply ics_loop_sound in Hp as (Hi & Hj & Heq).
    split; [done|]. split; [done|].
    rewrite Forall_forall in Ha. rewrite Forall_forall in Hb.
    destruct (lookup_lt_is_Some_2 a p.1 (Ha _ Hi)) as [x Hx].
    destruct (lookup_lt_is_Some_2 b p.2 (Hb _ Hj)) as [y Hy].
    rewrite (list_lookup_total_correct _ _ _ Hx) in Heq.
    rewrite (list_lookup_total_correct _ _ _ Hy) in Heq.
    by rewrite Hx, Hy, Heq.
  - intros [-> | ->]; [done|]. by destruct a_idx.
Qed.

Lemma iter_common_sorted_sound_witness :
  Forall (λ i, i < length [5; 1; 3]) [0; 1; 2] ∧
  Forall (λ j, j < length [3; 5]) [0; 1] ∧
  Forall (λ p : nat * nat,
            p.1 ∈ [0; 1; 2] ∧ p.2 ∈ [0; 1] ∧ [5; 1; 3] !! p.1 = [3; 5] !! p.2)
         (_iter_common_sorted [5; 1; 3] [3; 5] [0; 1; 2] [0; 1]) ∧
  ([0; 1; 2] = [] ∨ [0; 1] = [] →
   _iter_common_sorted [5; 1; 3] [3; 5] [0; 1; 2] [0; 1] = []).
Proof.
  assert (H1 : Forall (λ i, i < length [5; 1; 3]) [0; 1; 2])
    by (repeat constructor; simpl; lia).
  assert (H2 : Forall (λ j, j < length [3; 5]) [0; 1])
    by (repeat constructor; simpl; lia).
  repeat (split; [assumption|]).
  exact (iter_common_sorted_sound _ _ _ _ H1 H2).
Defined.


(** ** Dense content of scalar multiples *)

Lemma foldl_set_slices_scaled (ls : list LegCharge) (s : Z)
    (T : list (list nat * ndarray)) : ∀ res res' idx,
  nd_at res' idx = (nd_at res idx * s)%Z →
  nd_at (foldl (λ r (x : list nat * ndarray),
                  nd_set_slices r (zip_with get_slice ls x.1) x.2)
               res' ((λ x, (x.1, np_multiply s x.2)) <$> T)) idx =
  (nd_at (foldl (λ r (x : list nat * ndarray),
                   nd_set_slices r (zip_with get_slice ls x.1) x.2)
                res T) idx * s)%Z.
Proof.
  induction T as [|x T IH]; intros res res' idx H; [done|].
  rewrite fmap_cons. cbn [foldl]. apply IH.
  cbn [nd_set_slices nd_at fst snd np_multiply].
  by destruct (in_slices _ idx).
Qed.

Lemma zip_fmap_snd {A B C} (f : B → C) (l : list A) (k : list B) :
  zip l (f <$> k) = (λ x : A * B, (x.1, f x.2)) <$> zip l k.
Proof.
  revert k. induction l as [|x l IH]; intros [|y k]; simpl; try done.
  by rewrite IH.
Qed.

(** X3: every entry of the dense array of [a * s], [s * a] and of [a]
    after [a *= s] is [s] times the entry of the dense array of [a], for
    every scalar [s], zero included; the shape of the dense array is kept. *)
Theorem mul_scalar_dense (a : Array) (s : Z) :
  ∃ r ri,
    __mul__ a (OScalar s) = Ok r ∧ __rmul__ a (OScalar s) = Ok r ∧
    __imul__ a (OScalar s) = Ok ri ∧
    nd_shape (to_ndarray r) = nd_shape (to_ndarray a) ∧
    nd_shape (to_ndarray ri) = nd_shape (to_ndarray a) ∧
    ∀ idx, nd_at (to_ndarray r) idx = (nd_at (to_ndarray a) idx * s)%Z ∧
           nd_at (to_ndarray ri) idx = (nd_at (to_ndarray a) idx * s)%Z.
Proof.
  unfold __rmul__, __mul__, __imul__.
  destruct (s =? 0)%Z eqn:Hs.
  - apply Z.eqb_eq in Hs. subst s. eexists _, _.
    split; [reflexivity|]. split; [reflexivity|]. split; [reflexivity|].
    rewrite !to_ndarray_shape. split; [done|]. split; [done|].
    intros idx. cbn. lia.
  - eexists _, _.
    split; [reflexivity|]. split; [reflexivity|]. split; [reflexivity|].
    unfold unary_blockwise, copy. rewrite !to_ndarray_shape.
    destruct (iunary_blockwise_fields (np_multiply s) a)
      as (_ & Hl & Hsh & _ & _ & Hd & Hq & _).
    split; [done|]. split; [done|].
    assert (H : ∀ idx, nd_at (to_ndarray (iunary_blockwise (np_multiply s) a)) idx
                       = (nd_at (to_ndarray a) idx * s)%Z).
    { intros idx. rewrite !to_ndarray_table. unfold table.
      rewrite Hl, Hq, Hd, zip_fmap_snd.
      apply foldl_set_slices_scaled. cbn. lia. }
    intros idx. by rewrite H.
Qed.

(** ** Sorting the block table *)

Lemma Sorted_short {A} (R : relation A) (l : list A) :
  length l < 2 → Sorted R l.
Proof.
  destruct l as [|x [|y l]]; intros H; [constructor|repeat constructor|].
  simpl in H. lia.
Qed.

Lemma lexsort_fancy_Sorted (rows : list (list nat)) :
  Sorted (λ u v, row_le u v = true) (fancy rows (np_lexsort_rows rows)).
Proof.
  unfold np_lexsort_rows. rewrite argsort_fancy.
  eapply (Sorted_fmap_elem (λ p q : list nat * nat, row_le p.1 q.1 = true));
    [|apply sort_by_Sorted; intros u v; apply row_le_total].
  intros x y _ _ Hxy. exact Hxy.
Qed.

Lemma isort_qdata_sane (a : Array) :
  test_sanity a = Ok () →
  test_sanity (isort_qdata a) = Ok () ∧ _qdata_sorted (isort_qdata a) = true.
Proof.
  intros Hs. unfold isort_qdata.
  destruct (_qdata_sorted a) eqn:Hflag; [done|].
  destruct (test_sanity_Ok _ Hs) as (Hsh & Hdt & Hl & Hlen & _).
  pose proof (sane_rows _ Hs) as Hrows.
  apply forallb_Forall in Hdt.
  assert (Hdt' : Forall (λ d, nd_dtype d = dtype a) (_data a)).
  { eapply Forall_impl; [exact Hdt|]. intros d Hd.
    by apply bool_decide_eq_true in Hd. }
  assert (Hrows' : Forall (row_in_range (legs a)) (_qdata a)).
  { eapply Forall_impl; [exact Hrows|]. by intros r [_ ?]. }
  destruct (length (_qdata a) <? 2) eqn:Hshort.
  - split; [|done]. apply test_sanity_intro; try done.
    intros _. cbn. apply argsort_by_sorted, Sorted_short.
    by apply Nat.ltb_lt.
  - split; [|done].
    pose proof (argsort_by_Permutation row_le (_qdata a)) as Hp.
    fold (np_lexsort_rows (_qdata a)) in Hp.
    apply test_sanity_intro; try done; cbn.
    + rewrite fancy_Permutation; [done|]. by rewrite <- Hlen.
    + unfold fancy. by rewrite !length_fmap.
    + by rewrite fancy_Permutation.
    + intros _. apply argsort_by_sorted, lexsort_fancy_Sorted.
Qed.

(** X4: on an Array that passes [test_sanity] and stores no row twice,
    [isort_qdata] gives an Array that passes [test_sanity] with the sorted
    flag set (so its rows are in lexsort order) and that has the same
    dense array. *)
Theorem isort_qdata_sorts (a : Array) :
  test_sanity a = Ok () → rows_distinct a = true →
  test_sanity (isort_qdata a) = Ok () ∧
  _qdata_sorted (isort_qdata a) = true ∧
  np_lexsort_rows (_qdata (isort_qdata a)) =
    seq 0 (length (_qdata (isort_qdata a))) ∧
  nd_shape (to_ndarray (isort_qdata a)) = nd_shape (to_ndarray a) ∧
  ∀ idx, nd_at (to_ndarray (isort_qdata a)) idx = nd_at (to_ndarray a) idx.
Proof.
  intros Hs Hd.
  destruct (isort_qdata_sane _ Hs) as [Hs' Hflag].
  destruct (test_sanity_Ok _ Hs) as (_ & _ & _ & Hlen & _).
  destruct (test_sanity_Ok _ Hs') as (_ & _ & _ & Hlen' & _ & _ & Hsorted).
  destruct (isort_qdata_same_content a Hlen)
    as (_ & Hl & Hsh & _ & _ & _ & Hperm).
  split; [done|]. split; [done|]. split; [by apply Hsorted|].
  split; [by rewrite !to_ndarray_shape|].
  intros idx.
  assert (Hd' : rows_distinct (isort_qdata a) = true).
  { apply bool_decide_eq_true. apply bool_decide_eq_true in Hd.
    rewrite <- (table_fst _ Hlen'). unfold table. rewrite Hperm.
    by rewrite (fst_zip (_qdata a) (_data a)) by lia. }
  rewrite (to_ndarray_at _ _ Hs' Hd'), (to_ndarray_at _ _ Hs Hd), Hl.
  apply sumZ_fmap_Permutation. exact Hperm.
Qed.

Lemma isort_qdata_sorts_witness :
  test_sanity ex_eye_unsorted = Ok () ∧ rows_distinct ex_eye_unsorted = true ∧
  test_sanity (isort_qdata ex_eye_unsorted) = Ok () ∧
  _qdata_sorted (isort_qdata ex_eye_unsorted) = true ∧
  np_lexsort_rows (_qdata (isort_qdata ex_eye_unsorted)) =
    seq 0 (length (_qdata (isort_qdata ex_eye_unsorted))) ∧
  nd_shape (to_ndarray (isort_qdata ex_eye_unsorted)) =
    nd_shape (to_ndarray ex_eye_unsorted) ∧
  ∀ idx, nd_at (to_ndarray (isort_qdata ex_eye_unsorted)) idx =
         nd_at (to_ndarray ex_eye_unsorted) idx.
Proof.
  assert (H1 : test_sanity ex_eye_unsorted = Ok ()) by (vm_compute; reflexivity).
  assert (H2 : rows_distinct ex_eye_unsorted = true) by (vm_compute; reflexivity).
  split; [exact H1|]. split; [exact H2|].
  exact (isort_qdata_sorts ex_eye_unsorted H1 H2).
Defined.


(** ** Reading and writing one entry *)

Lemma getitem_eval (a : Array) (zs : list Z) (pos : list (nat * nat)) :
  length zs = rank a →
  resolve_pos a (Iint <$> zs) = Ok (pos.*1, pos.*2) →
  in_bounds (_get_block_shape a pos.*1) pos.*2 = true →
  (∀ k, find_row (_qdata a) pos.*1 = Some k →
        ∃ t, _data a !! k = Some t ∧ nd_shape t = _get_block_shape a pos.*1) →
  __getitem__ a (ITuple (Iint <$> zs)) =
    Ok (Entry (if bool_decide (_get_block_charge a pos.*1 = qtotal a)
               then match find_row (_qdata a) pos.*1 with
                    | Some k => nd_at (_data a !!! k) pos.*2
                    | None => 0%Z
                    end
               else 0%Z)).
Proof.
  intros Hlen Hpos Hb Hblk. unfold __getitem__.
  rewrite (pre_indexing_integers _ _ Hlen). cbn [mbind result_bind].
  rewrite Hpos. cbn [mbind result_bind]. unfold _get_block.
  destruct (bool_decide (_get_block_charge a pos.*1 = qtotal a)); [|done].
  cbn [negb]. destruct (find_row (_qdata a) pos.*1) as [k|]; [|done].
  destruct (Hblk k eq_refl) as (t & Ht & Hsh).
  cbn [mbind result_bind]. unfold py_index. rewrite Ht.
  cbn [mbind result_bind]. unfold nd_getitem. rewrite Hsh, Hb.
  cbn [mbind result_bind]. by rewrite (list_lookup_total_correct _ _ _ Ht).
Qed.

Lemma setitem_eval (a : Array) (zs : list Z) (pos : list (nat * nat)) (v : Z) :
  length zs = rank a →
  resolve_pos a (Iint <$> zs) = Ok (pos.*1, pos.*2) →
  in_bounds (_get_block_shape a pos.*1) pos.*2 = true →
  (∀ k, find_row (_qdata a) pos.*1 = Some k →
        ∃ t, _data a !! k = Some t ∧ nd_shape t = _get_block_shape a pos.*1) →
  __setitem__ a (ITuple (Iint <$> zs)) v =
    if bool_decide (_get_block_charge a pos.*1 = qtotal a)
    then Ok (Stored
               match find_row (_qdata a) pos.*1 with
               | Some k =>
                   set_data (<[k := nd_set (_data a !!! k) pos.*2 v]> (_data a)) a
               | None =>
                   set_qdata_sorted false
                     (set_qdata (_qdata a ++ [pos.*1])
                        (set_data
                           (_data a ++
                            [nd_set (np_zeros (_get_block_shape a pos.*1)
                                       (dtype a)) pos.*2 v]) a))
               end)
    else Raise IncompatibleCharge.
Proof.
  intros Hlen Hpos Hb Hblk. unfold __setitem__.
  rewrite (pre_indexing_integers _ _ Hlen). cbn [mbind result_bind].
  rewrite Hpos. cbn [mbind result_bind]. unfold _get_block.
  destruct (bool_decide (_get_block_charge a pos.*1 = qtotal a)); [|done].
  cbn [negb]. destruct (find_row (_qdata a) pos.*1) as [k|].
  - destruct (Hblk k eq_refl) as (t & Ht & Hsh).
    cbn [mbind result_bind]. unfold py_index. rewrite Ht.
    cbn [mbind result_bind]. unfold nd_setitem. rewrite Hsh, Hb.
    cbn [mbind result_bind]. by rewrite (list_lookup_total_correct _ _ _ Ht).
  - cbn [mbind result_bind]. unfold py_index.
    cbn [_data set_data set_qdata set_qdata_sorted].
    rewrite lookup_app_r by lia. rewrite Nat.sub_diag.
    cbn [lookup list_lookup mbind result_bind].
    unfold nd_setitem. cbn [nd_shape np_zeros]. rewrite Hb.
    cbn [mbind result_bind]. by rewrite insert_end.
Qed.

Lemma sane_blocks_found (a : Array) (row : list nat) :
  test_sanity a = Ok () → blocks_shaped a = true →
  ∀ k, find_row (_qdata a) row = Some k →
       ∃ t, _data a !! k = Some t ∧ nd_shape t = _get_block_shape a row.
Proof.
  intros Hs Hsh k Hf. apply find_row_Some in Hf.
  destruct (test_sanity_Ok _ Hs) as (_ & _ & _ & Hl & _).
  destruct (lookup_lt_is_Some_2 (_data a) k) as [t Ht].
  { rewrite <- Hl. by eapply lookup_lt_Some. }
  exists t. split; [done|]. by eapply blocks_shaped_lookup.
Qed.

Lemma find_row_None (qd : list (list nat)) (row : list nat) :
  find_row qd row = None → row ∉ qd.
Proof.
  unfold find_row. destruct (list_find _ qd) as [[i r]|] eqn:E; [done|].
  intros _ Hin. apply list_find_None in E. rewrite Forall_forall in E.
  by apply (E row).
Qed.

Lemma find_row_app_new (qd : list (list nat)) (row : list nat) :
  find_row qd row = None → find_row (qd ++ [row]) row = Some (length qd).
Proof.
  intros Hn. apply find_row_None in Hn. unfold find_row.
  assert (list_find (λ r, r = row) (qd ++ [row]) = Some (length qd, row))
    as ->; [|done].
  apply list_find_Some. split; [|split; [done|]].
  - rewrite lookup_app_r by lia. by rewrite Nat.sub_diag.
  - intros j y Hj Hlt. rewrite lookup_app_l in Hj by done.
    intros ->. apply Hn. by eapply list_elem_of_lookup_2.
Qed.

Lemma nd_set_in_bounds (t : ndarray) (idx : list nat) (v : Z) :
  nd_shape (nd_set t idx v) = nd_shape t ∧ nd_at (nd_set t idx v) idx = v.
Proof. split; [done|]. cbn. by rewrite decide_True. Qed.

(** X5: on an Array that passes [test_sanity] and whose blocks have the
    shapes of their sectors, an assignment [a[i1, ..., in] = v] with one
    in-range integer per axis that does not raise is read back: afterwards
    [a[i1, ..., in]] returns [v]. *)
Theorem setitem_then_getitem (a a' : Array) (zs : list Z) (v : Z) :
  test_sanity a = Ok () → blocks_shaped a = true → legs a ≠ [] →
  Forall2 (λ z l, (0 ≤ z < Z.of_nat (ind_len l))%Z) zs (legs a) →
  __setitem__ a (ITuple (Iint <$> zs)) v = Ok (Stored a') →
  __getitem__ a' (ITuple (Iint <$> zs)) = Ok (Entry v).
Proof.
  intros Hs Hsh Hne HF Hset.
  destruct (resolve_pos_in_range _ _ Hs Hne HF) as (pos & Hpos & H3).
  assert (Hlen : length zs = rank a).
  { rewrite (rank_legs _ Hs). by eapply Forall2_length. }
  assert (Hb := resolved_in_bounds _ _ _ H3).
  pose proof (sane_blocks_found a pos.*1 Hs Hsh) as Hblk.
  rewrite (setitem_eval a zs pos v Hlen Hpos Hb Hblk) in Hset.
  destruct (bool_decide (_get_block_charge a pos.*1 = qtotal a)) eqn:Hq;
    [|discriminate].
  destruct (test_sanity_Ok _ Hs) as (_ & _ & _ & Hl & _).
  injection Hset as <-.
  destruct (find_row (_qdata a) pos.*1) as [k|] eqn:Hf.
  - destruct (Hblk k eq_refl) as (t & Ht & Hst).
    set (a' := set_data _ a).
    assert (Hblk' : ∀ k', find_row (_qdata a') pos.*1 = Some k' →
              ∃ t', _data a' !! k' = Some t' ∧
                    nd_shape t' = _get_block_shape a' pos.*1).
    { intros k' Hk'. change (_qdata a') with (_qdata a) in Hk'.
      rewrite Hf in Hk'. injection Hk' as <-.
      exists (nd_set (_data a !!! k) pos.*2 v). split.
      - apply list_lookup_insert_eq. by eapply lookup_lt_Some.
      - cbn [nd_set nd_shape].
        by rewrite (list_lookup_total_correct _ _ _ Ht). }
    rewrite (getitem_eval a' zs pos Hlen Hpos Hb Hblk').
    change (_get_block_charge a' pos.*1) with (_get_block_charge a pos.*1).
    change (qtotal a') with (qtotal a). change (_qdata a') with (_qdata a).
    rewrite Hq, Hf. do 2 f_equal.
    change (_data a') with (<[k := nd_set (_data a !!! k) pos.*2 v]> (_data a)).
    rewrite list_lookup_total_insert_eq by (by eapply lookup_lt_Some).
    apply nd_set_in_bounds.
  - set (a' := set_qdata_sorted false _).
    assert (Hblk' : ∀ k', find_row (_qdata a') pos.*1 = Some k' →
              ∃ t', _data a' !! k' = Some t' ∧
                    nd_shape t' = _get_block_shape a' pos.*1).
    { intros k' Hk'. change (_qdata a') with (_qdata a ++ [pos.*1]) in Hk'.
      rewrite (find_row_app_new _ _ Hf) in Hk'. injection Hk' as <-.
      exists (nd_set (np_zeros (_get_block_shape a pos.*1) (dtype a))
                pos.*2 v).
      split; [|reflexivity].
      change (_data a') with
        (_data a ++ [nd_set (np_zeros (_get_block_shape a pos.*1) (dtype a))
                       pos.*2 v]).
      rewrite Hl, lookup_app_r by lia. by rewrite Nat.sub_diag. }
    rewrite (getitem_eval a' zs pos Hlen Hpos Hb Hblk').
    change (_get_block_charge a' pos.*1) with (_get_block_charge a pos.*1).
    change (qtotal a') with (qtotal a).
    change (_qdata a') with (_qdata a ++ [pos.*1]).
    rewrite Hq, (find_row_app_new _ _ Hf), Hl. do 2 f_equal.
    change (_data a') with
      (_data a ++ [nd_set (np_zeros (_get_block_shape a pos.*1) (dtype a))
                     pos.*2 v]).
    rewrite lookup_total_app_r by lia. rewrite Nat.sub_diag.
    apply nd_set_in_bounds.
Qed.

Lemma setitem_then_getitem_witness :
  test_sanity ex_eye = Ok () ∧ blocks_shaped ex_eye = true ∧
  legs ex_eye ≠ [] ∧
  Forall2 (λ z l, (0 ≤ z < Z.of_nat (ind_len l))%Z) [1%Z; 1%Z] (legs ex_eye) ∧
  __setitem__ ex_eye (ITuple (Iint <$> [1%Z; 1%Z])) 7%Z =
    Ok (Stored (set_data (<[1 := nd_set (_data ex_eye !!! 1) [0; 0] 7%Z]>
                            (_data ex_eye)) ex_eye)) ∧
  __getitem__ (set_data (<[1 := nd_set (_data ex_eye !!! 1) [0; 0] 7%Z]>
                           (_data ex_eye)) ex_eye)
              (ITuple (Iint <$> [1%Z; 1%Z])) = Ok (Entry 7%Z).
Proof.
  assert (H1 : test_sanity ex_eye = Ok ()) by (vm_compute; reflexivity).
  assert (H2 : blocks_shaped ex_eye = true) by (vm_compute; reflexivity).
  assert (H3 : legs ex_eye ≠ []) by discriminate.
  assert (H4 : Forall2 (λ z l, (0 ≤ z < Z.of_nat (ind_len l))%Z)
                 [1%Z; 1%Z] (legs ex_eye))
    by (repeat constructor; vm_compute; done).
  assert (H5 : __setitem__ ex_eye (ITuple (Iint <$> [1%Z; 1%Z])) 7%Z =
    Ok (Stored (set_data (<[1 := nd_set (_data ex_eye !!! 1) [0; 0] 7%Z]>
                            (_data ex_eye)) ex_eye)))
    by (vm_compute; reflexivity).
  split; [exact H1|]. split; [exact H2|]. split; [exact H3|].
  split; [exact H4|]. split; [exact H5|].
  exact (setitem_then_getitem ex_eye _ [1%Z; 1%Z] 7%Z H1 H2 H3 H4 H5).
Defined.

(** ** Entries and the dense array *)

Lemma resolved_slices (zs : list Z) (ls : list LegCharge)
    (pos : list (nat * nat)) :
  Forall3 resolved zs ls pos →
  row_in_range ls pos.*1 ∧
  in_slices (zip_with get_slice ls pos.*1) (Z.to_nat <$> zs) = true ∧
  zip_with (λ i (s : nat * nat), i - s.1) (Z.to_nat <$> zs)
           (zip_with get_slice ls pos.*1) = pos.*2.
Proof.
  induction 1 as [|z l p zs ls pos (Hq & Hr & Hp) _ (IH1 & IH2 & IH3)].
  - repeat split; constructor.
  - rewrite !fmap_cons. cbn [zip_with]. split; [by constructor|].
    unfold get_slice at 1 3. rewrite in_slices_cons, IH2.
    cbn [fst]. rewrite IH3, Hp. split; [|done].
    rewrite andb_true_r. apply andb_true_iff.
    split; [apply Nat.leb_le; lia|apply Nat.ltb_lt; lia].
Qed.

Lemma sumZ_single {A} (F : A → Z) (T : list A) : ∀ k x,
  T !! k = Some x →
  (∀ j y, T !! j = Some y → j ≠ k → F y = 0%Z) →
  sumZ (F <$> T) = F x.
Proof.
  induction T as [|y T IH]; intros k x Hk H0; [done|].
  rewrite fmap_cons, sumZ_cons. destruct k as [|k].
  - injection Hk as ->. rewrite sumZ_fmap_zero; [lia|].
    apply Forall_forall. intros y Hy.
    apply list_elem_of_lookup in Hy as [j Hj]. by apply (H0 (S j)).
  - rewrite (H0 0 y) by done. rewrite (IH k x Hk); [lia|].
    intros j y' Hj Hne. apply (H0 (S j)); [done|lia].
Qed.

(** X6: on an Array that passes [test_sanity], stores no row twice, has
    blocks of the shapes of their sectors and only blocks whose charge is
    [qtotal], reading [a[i1, ..., in]] with one in-range integer per axis
    returns the entry of [to_ndarray(a)] at that index. *)
Theorem getitem_is_dense_entry (a : Array) (zs : list Z) :
  test_sanity a = Ok () → rows_distinct a = true → blocks_shaped a = true →
  charges_conserved a = true → legs a ≠ [] →
  Forall2 (λ z l, (0 ≤ z < Z.of_nat (ind_len l))%Z) zs (legs a) →
  __getitem__ a (ITuple (Iint <$> zs)) =
    Ok (Entry (nd_at (to_ndarray a) (Z.to_nat <$> zs))).
Proof.
  intros Hs Hd Hsh Hc Hne HF.
  destruct (resolve_pos_in_range _ _ Hs Hne HF) as (pos & Hpos & H3).
  assert (Hlen : length zs = rank a).
  { rewrite (rank_legs _ Hs). by eapply Forall2_length. }
  assert (Hb := resolved_in_bounds _ _ _ H3).
  pose proof (sane_blocks_found a pos.*1 Hs Hsh) as Hblk.
  rewrite (getitem_eval a zs pos Hlen Hpos Hb Hblk).
  destruct (resolved_slices _ _ _ H3) as (Hrow & Hin & Hoff).
  rewrite (to_ndarray_at _ _ Hs Hd).
  destruct (test_sanity_Ok _ Hs) as (_ & _ & Hl & Hll & _).
  pose proof (table_row_in_range _ Hs) as Hrg.
  rewrite Forall_forall in Hrg.
  assert (Hother : ∀ y, y ∈ table a → y.1 ≠ pos.*1 →
            embed (zip_with get_slice (legs a) y.1) y.2 (Z.to_nat <$> zs) = 0%Z).
  { intros y Hy Hne'. unfold embed.
    destruct (in_slices (zip_with get_slice (legs a) y.1) _) eqn:E; [|done].
    exfalso. apply Hne'.
    eapply (slices_disjoint _ (legs a)); [exact Hl|by apply Hrg|done|exact E|done]. }
  assert (Hin_table : ∀ y, y ∈ table a → y.1 ∈ _qdata a).
  { intros y Hy. rewrite <- (table_fst _ Hll). apply list_elem_of_fmap.
    by exists y. }
  do 2 f_equal. symmetry.
  destruct (bool_decide (_get_block_charge a pos.*1 = qtotal a)) eqn:Hq.
  - destruct (find_row (_qdata a) pos.*1) as [k|] eqn:Hf.
    + destruct (Hblk k eq_refl) as (t & Ht & Hst).
      apply find_row_Some in Hf.
      rewrite (list_lookup_total_correct _ _ _ Ht).
      assert (Hk : table a !! k = Some (pos.*1, t)).
      { unfold table. by rewrite lookup_zip_with, Hf; cbn; rewrite Ht. }
      rewrite (sumZ_single _ _ k _ Hk).
      * unfold embed. cbn [fst snd]. by rewrite Hin, Hoff.
      * intros j y Hj Hjk. apply Hother; [by eapply list_elem_of_lookup_2|].
        intros Heq. apply Hjk. apply bool_decide_eq_true in Hd.
        eapply (NoDup_lookup _ j k _ Hd); [|exact Hf].
        unfold table in Hj. apply lookup_zip_with_Some in Hj
          as (r & t' & -> & Hr & _). by rewrite Hr, <- Heq.
    + apply sumZ_fmap_zero, Forall_forall. intros y Hy.
      apply Hother; [done|]. intros Heq. apply find_row_None in Hf.
      apply Hf. rewrite <- Heq. by apply Hin_table.
  - apply sumZ_fmap_zero, Forall_forall. intros y Hy.
    apply Hother; [done|]. intros Heq.
    apply bool_decide_eq_false in Hq. apply Hq.
    unfold charges_conserved in Hc. rewrite forallb_forall in Hc.
    rewrite <- Heq. eapply bool_decide_eq_true_1, Hc.
    by apply list_elem_of_In, Hin_table.
Qed.

Lemma getitem_is_dense_entry_witness :
  test_sanity ex_eye = Ok () ∧ rows_distinct ex_eye = true ∧
  blocks_shaped ex_eye = true ∧ charges_conserved ex_eye = true ∧
  legs ex_eye ≠ [] ∧
  Forall2 (λ z l, (0 ≤ z < Z.of_nat (ind_len l))%Z) [1%Z; 0%Z] (legs ex_eye) ∧
  __getitem__ ex_eye (ITuple (Iint <$> [1%Z; 0%Z])) =
    Ok (Entry (nd_at (to_ndarray ex_eye) (Z.to_nat <$> [1%Z; 0%Z]))).
Proof.
  assert (H1 : test_sanity ex_eye = Ok ()) by (vm_compute; reflexivity).
  assert (H2 : rows_distinct ex_eye = true) by (vm_compute; reflexivity).
  assert (H3 : blocks_shaped ex_eye = true) by (vm_compute; reflexivity).
  assert (H4 : charges_conserved ex_eye = true) by (vm_compute; reflexivity).
  assert (H5 : legs ex_eye ≠ []) by discriminate.
  assert (H6 : Forall2 (λ z l, (0 ≤ z < Z.of_nat (ind_len l))%Z)
                 [1%Z; 0%Z] (legs ex_eye))
    by (repeat constructor; vm_compute; done).
  split; [exact H1|]. split; [exact H2|]. split; [exact H3|].
  split; [exact H4|]. split; [exact H5|]. split; [exact H6|].
  exact (getitem_is_dense_entry ex_eye [1%Z; 0%Z] H1 H2 H3 H4 H5 H6).
Defined.


(** ** What an assignment changes *)

Lemma setitem_result (a a' : Array) (zs : list Z) (v : Z) :
  test_sanity a = Ok () → blocks_shaped a = true → legs a ≠ [] →
  Forall2 (λ z l, (0 ≤ z < Z.of_nat (ind_len l))%Z) zs (legs a) →
  __setitem__ a (ITuple (Iint <$> zs)) v = Ok (Stored a') →
  ∃ pos, Forall3 resolved zs (legs a) pos ∧
         _get_block_charge a pos.*1 = qtotal a ∧
         a' = match find_row (_qdata a) pos.*1 with
              | Some k =>
                  set_data (<[k := nd_set (_data a !!! k) pos.*2 v]> (_data a)) a
              | None =>
                  set_qdata_sorted false
                    (set_qdata (_qdata a ++ [pos.*1])
                       (set_data
                          (_data a ++
                           [nd_set (np_zeros (_get_block_shape a pos.*1)
                                      (dtype a)) pos.*2 v]) a))
              end.
Proof.
  intros Hs Hsh Hne HF Hset.
  destruct (resolve_pos_in_range _ _ Hs Hne HF) as (pos & Hpos & H3).
  assert (Hlen : length zs = rank a).
  { rewrite (rank_legs _ Hs). by eapply Forall2_length. }
  assert (Hb := resolved_in_bounds _ _ _ H3).
  pose proof (sane_blocks_found a pos.*1 Hs Hsh) as Hblk.
  rewrite (setitem_eval a zs pos v Hlen Hpos Hb Hblk) in Hset.
  destruct (bool_decide (_get_block_charge a pos.*1 = qtotal a)) eqn:Hq;
    [|discriminate].
  apply bool_decide_eq_true in Hq. injection Hset as <-.
  by exists pos.
Qed.

Lemma blocks_shaped_Forall2 (a : Array) :
  length (_qdata a) = length (_data a) →
  blocks_shaped a = true ↔
  Forall2 (λ t r, nd_shape t = _get_block_shape a r) (_data a) (_qdata a).
Proof.
  intros Hlen. unfold blocks_shaped.
  generalize dependent (_qdata a). generalize (_data a) as d.
  induction d as [|t d IH]; intros [|r q] Hlen; try done.
  cbn [zip zip_with forallb fst snd].
  rewrite andb_true_iff, Forall2_cons, bool_decide_eq_true, IH; [done|].
  by injection Hlen.
Qed.

Lemma test_sanity_Forall (a : Array) :
  test_sanity a = Ok () →
  shape a = ind_len <$> legs a ∧
  Forall (λ d, nd_dtype d = dtype a) (_data a) ∧
  forallb (leg_sane (chinfo a)) (legs a) = true ∧
  length (_qdata a) = length (_data a) ∧
  Forall (row_in_range (legs a)) (_qdata a) ∧
  (_qdata_sorted a = true →
   np_lexsort_rows (_qdata a) = seq 0 (length (_qdata a))).
Proof.
  intros Hs.
  destruct (test_sanity_Ok _ Hs) as (Hsh & Hdt & Hl & Hlen & _ & _ & Hsorted).
  split; [done|]. split.
  { apply forallb_Forall in Hdt. eapply Forall_impl; [exact Hdt|].
    intros d Hd. by apply bool_decide_eq_true in Hd. }
  split; [done|]. split; [done|]. split; [|done].
  eapply Forall_impl; [exact (sane_rows _ Hs)|]. by intros r [_ ?].
Qed.

Lemma setitem_invariants (a a' : Array) (zs : list Z) (v : Z) :
  test_sanity a = Ok () → blocks_shaped a = true → legs a ≠ [] →
  Forall2 (λ z l, (0 ≤ z < Z.of_nat (ind_len l))%Z) zs (legs a) →
  __setitem__ a (ITuple (Iint <$> zs)) v = Ok (Stored a') →
  test_sanity a' = Ok () ∧ blocks_shaped a' = true ∧
  (rows_distinct a = true → rows_distinct a' = true) ∧
  (charges_conserved a = true → charges_conserved a' = true).
Proof.
  intros Hs Hsh Hne HF Hset.
  destruct (setitem_result _ _ _ _ Hs Hsh Hne HF Hset) as (pos & H3 & Hq & ->).
  destruct (test_sanity_Forall _ Hs) as (Hshape & Hdt & Hl & Hlen & Hrows & Hsorted).
  destruct (resolved_slices _ _ _ H3) as (Hrow & _ & _).
  apply (blocks_shaped_Forall2 _ Hlen) in Hsh.
  destruct (find_row (_qdata a) pos.*1) as [k|] eqn:Hf.
  - apply find_row_Some in Hf.
    destruct (lookup_lt_is_Some_2 (_data a) k) as [t Ht].
    { rewrite <- Hlen. by eapply lookup_lt_Some. }
    rewrite (list_lookup_total_correct _ _ _ Ht).
    set (a' := set_data _ a).
    assert (Hs' : test_sanity a' = Ok ()).
    { apply test_sanity_intro; try done.
      - apply Forall_insert; [done|]. cbn.
        rewrite Forall_forall in Hdt. apply Hdt.
        by eapply list_elem_of_lookup_2.
      - cbn. by rewrite length_insert. }
    split; [done|]. split; [|done].
    apply (blocks_shaped_Forall2 a'); [cbn; by rewrite length_insert|].
    cbn [_data _qdata set_data a']. rewrite <- (list_insert_id _ _ _ Hf).
    apply Forall2_insert; [done|].
    cbn. by apply (Forall2_lookup_lr _ _ _ _ _ _ Hsh Ht Hf).
  - set (a' := set_qdata_sorted false _).
    assert (Hs' : test_sanity a' = Ok ()).
    { apply test_sanity_intro; try done.
      - apply Forall_app. split; [done|]. by repeat constructor.
      - cbn. rewrite !length_app. cbn. lia.
      - apply Forall_app. split; [done|]. by repeat constructor. }
    split; [done|]. split; [|split].
    + apply (blocks_shaped_Forall2 a'); [cbn; rewrite !length_app; cbn; lia|].
      apply Forall2_app; [done|]. by repeat constructor.
    + intros Hd. apply bool_decide_eq_true. apply bool_decide_eq_true in Hd.
      cbn. apply NoDup_app. split; [done|]. split; [|apply NoDup_singleton].
      intros r Hr ->%list_elem_of_singleton. by apply find_row_None in Hf.
    + unfold charges_conserved. intros Hc. cbn [_qdata set_qdata set_qdata_sorted set_data a'].
      rewrite forallb_app, andb_true_iff. split; [exact Hc|].
      cbn. rewrite andb_true_r. by apply bool_decide_eq_true.
Qed.

(** X7: an assignment [a[i1, ..., in] = v] with one in-range integer per
    axis that does not raise keeps the invariants of the data model: the
    Array still passes [test_sanity] and its blocks have the shapes of
    their sectors; if no row was stored twice none is afterwards, and if
    every block had the charge [qtotal] every block has it afterwards. *)
Theorem setitem_keeps_invariants (a a' : Array) (zs : list Z) (v : Z) :
  test_sanity a = Ok () → blocks_shaped a = true → legs a ≠ [] →
  Forall2 (λ z l, (0 ≤ z < Z.of_nat (ind_len l))%Z) zs (legs a) →
  __setitem__ a (ITuple (Iint <$> zs)) v = Ok (Stored a') →
  test_sanity a' = Ok () ∧ blocks_shaped a' = true ∧
  (rows_distinct a = true → rows_distinct a' = true) ∧
  (charges_conserved a = true → charges_conserved a' = true).
Proof. apply setitem_invariants. Qed.

Lemma setitem_keeps_invariants_witness :
  test_sanity ex_first = Ok () ∧ blocks_shaped ex_first = true ∧
  legs ex_first ≠ [] ∧
  Forall2 (λ z l, (0 ≤ z < Z.of_nat (ind_len l))%Z) [1%Z; 1%Z] (legs ex_first) ∧
  ∃ a', __setitem__ ex_first (ITuple (Iint <$> [1%Z; 1%Z])) 7%Z = Ok (Stored a') ∧
        test_sanity a' = Ok () ∧ blocks_shaped a' = true ∧
        (rows_distinct ex_first = true → rows_distinct a' = true) ∧
        (charges_conserved ex_first = true → charges_conserved a' = true).
Proof.
  assert (H1 : test_sanity ex_first = Ok ()) by (vm_compute; reflexivity).
  assert (H2 : blocks_shaped ex_first = true) by (vm_compute; reflexivity).
  assert (H3 : legs ex_first ≠ []) by discriminate.
  assert (H4 : Forall2 (λ z l, (0 ≤ z < Z.of_nat (ind_len l))%Z)
                 [1%Z; 1%Z] (legs ex_first))
    by (repeat constructor; vm_compute; done).
  split; [exact H1|]. split; [exact H2|]. split; [exact H3|].
  split; [exact H4|].
  destruct (__setitem__ ex_first (ITuple (Iint <$> [1%Z; 1%Z])) 7%Z)
    as [[a'|]|] eqn:H5; try (vm_compute in H5; discriminate).
  exists a'. split; [reflexivity|].
  exact (setitem_keeps_invariants ex_first a' [1%Z; 1%Z] 7%Z H1 H2 H3 H4 H5).
Defined.

(** ** The dense array after an assignment *)

Lemma offsets_inj (sl : list (nat * nat)) : ∀ idx idx',
  in_slices sl idx = true → in_slices sl idx' = true →
  zip_with (λ i (s : nat * nat), i - s.1) idx sl =
  zip_with (λ i (s : nat * nat), i - s.1) idx' sl →
  idx = idx'.
Proof.
  induction sl as [|[s e] sl IH]; intros idx idx' Hi Hi' Heq.
  - apply in_slices_length in Hi, Hi'. destruct idx, idx'; done.
  - pose proof (in_slices_length _ _ Hi) as Hl.
    pose proof (in_slices_length _ _ Hi') as Hl'.
    destruct idx as [|i idx]; [done|]. destruct idx' as [|i' idx']; [done|].
    rewrite in_slices_cons in Hi, Hi'.
    apply andb_true_iff in Hi as [Hi Hi2]. apply andb_true_iff in Hi as [Ha Hb].
    apply andb_true_iff in Hi' as [Hi' Hi2']. apply andb_true_iff in Hi' as [Ha' Hb'].
    apply Nat.leb_le in Ha, Ha'. cbn [zip_with fst] in Heq.
    injection Heq as H0 Hrest. f_equal; [lia|]. by apply IH.
Qed.

Lemma embed_other_row (a : Array) (row : list nat) (idx : list nat)
    (y : list nat * ndarray) :
  test_sanity a = Ok () → row_in_range (legs a) row →
  in_slices (zip_with get_slice (legs a) row) idx = true →
  y ∈ table a → y.1 ≠ row →
  embed (zip_with get_slice (legs a) y.1) y.2 idx = 0%Z.
Proof.
  intros Hs Hrow Hin Hy Hne. unfold embed.
  destruct (in_slices (zip_with get_slice (legs a) y.1) idx) eqn:E; [|done].
  exfalso. apply Hne.
  destruct (test_sanity_Ok _ Hs) as (_ & _ & Hl & _).
  pose proof (table_row_in_range _ Hs) as Hrg. rewrite Forall_forall in Hrg.
  eapply (slices_disjoint _ (legs a)); [exact Hl|by apply Hrg|done|exact E|done].
Qed.

Lemma embed_nd_set (sl : list (nat * nat)) (t : ndarray) (off : list nat)
    (v : Z) (idx idx' : list nat) :
  in_slices sl idx = true →
  zip_with (λ i (s : nat * nat), i - s.1) idx sl = off →
  embed sl (nd_set t off v) idx' =
    if decide (idx' = idx) then v else embed sl t idx'.
Proof.
  intros Hin Hoff. unfold embed. cbn [nd_set nd_at].
  destruct (decide (idx' = idx)) as [->|Hne].
  - by rewrite Hin, Hoff, decide_True.
  - destruct (in_slices sl idx') eqn:E; [|done].
    rewrite decide_False; [done|]. intros Heq. apply Hne.
    apply (offsets_inj sl); [done|done|]. by rewrite Heq, Hoff.
Qed.

Lemma zip_insert_r {A B} (l : list A) : ∀ (k : list B) i x y,
  l !! i = Some x → zip l (<[i := y]> k) = <[i := (x, y)]> (zip l k).
Proof.
  induction l as [|u l IH]; intros [|w k] [|i] x y Hi; try done.
  - cbn in Hi. injection Hi as ->. done.
  - cbn in Hi. cbn. f_equal. by apply IH.
Qed.

Lemma setitem_dense (a a' : Array) (zs : list Z) (v : Z) :
  test_sanity a = Ok () → blocks_shaped a = true → rows_distinct a = true →
  legs a ≠ [] →
  Forall2 (λ z l, (0 ≤ z < Z.of_nat (ind_len l))%Z) zs (legs a) →
  __setitem__ a (ITuple (Iint <$> zs)) v = Ok (Stored a') →
  ∀ idx', nd_at (to_ndarray a') idx' =
          if decide (idx' = Z.to_nat <$> zs) then v
          else nd_at (to_ndarray a) idx'.
Proof.
  intros Hs Hsh Hd Hne HF Hset idx'.
  destruct (setitem_invariants _ _ _ _ Hs Hsh Hne HF Hset) as (Hs' & _ & Hd' & _).
  specialize (Hd' Hd).
  rewrite (to_ndarray_at _ _ Hs' Hd'), (to_ndarray_at _ _ Hs Hd).
  destruct (setitem_result _ _ _ _ Hs Hsh Hne HF Hset) as (pos & H3 & Hq & ->).
  destruct (test_sanity_Forall _ Hs) as (_ & _ & _ & Hlen & _).
  destruct (resolved_slices _ _ _ H3) as (Hrow & Hin & Hoff).
  set (idx := Z.to_nat <$> zs) in *.
  assert (Hzero : ∀ T, (∀ y, y ∈ T → y ∈ table a ∧ y.1 ≠ pos.*1) →
            sumZ ((λ x, embed (zip_with get_slice (legs a) x.1) x.2 idx) <$> T)
            = 0%Z).
  { intros T HT. apply sumZ_fmap_zero, Forall_forall. intros y Hy.
    destruct (HT y Hy). by apply (embed_other_row a pos.*1). }
  destruct (find_row (_qdata a) pos.*1) as [k|] eqn:Hf.
  - apply find_row_Some in Hf.
    destruct (lookup_lt_is_Some_2 (_data a) k) as [t Ht].
    { rewrite <- Hlen. by eapply lookup_lt_Some. }
    rewrite (list_lookup_total_correct _ _ _ Ht).
    assert (Hk : table a !! k = Some (pos.*1, t)).
    { unfold table. by rewrite lookup_zip_with, Hf; cbn; rewrite Ht. }
    assert (Ht' : table (set_data (<[k:=nd_set t pos.*2 v]> (_data a)) a) =
                  <[k := (pos.*1, nd_set t pos.*2 v)]> (table a)).
    { unfold table. cbn [_qdata _data set_data]. by apply zip_insert_r. }
    rewrite Ht'. cbn [legs set_data].
    assert (Hsplit : ∀ i,
              sumZ ((λ x, embed (zip_with get_slice (legs a) x.1) x.2 i)
                    <$> table a) =
              (sumZ ((λ x, embed (zip_with get_slice (legs a) x.1) x.2 i)
                     <$> take k (table a)) +
               embed (zip_with get_slice (legs a) pos.*1) t i +
               sumZ ((λ x, embed (zip_with get_slice (legs a) x.1) x.2 i)
                     <$> drop (S k) (table a)))%Z).
    { intros i. rewrite <- (take_drop_middle _ _ _ Hk) at 1.
      rewrite fmap_app, fmap_cons, sumZ_app, sumZ_cons. cbn [fst snd]. lia. }
    rewrite Hsplit.
    rewrite insert_take_drop by (by eapply lookup_lt_Some).
    rewrite fmap_app, fmap_cons, sumZ_app, sumZ_cons. cbn [fst snd].
    rewrite (embed_nd_set _ t pos.*2 v idx idx' Hin Hoff).
    destruct (decide (idx' = idx)) as [->|Hne']; [|lia].
    apply bool_decide_eq_true in Hd.
    rewrite !Hzero; [lia| |].
    + intros y Hy.
      apply list_elem_of_lookup in Hy as [j Hj]. rewrite lookup_drop in Hj.
      split; [by eapply list_elem_of_lookup_2|].
      intros Heq. unfold table in Hj.
      apply lookup_zip_with_Some in Hj as (r & t' & -> & Hr & _).
      cbn in Heq. subst r.
      pose proof (NoDup_lookup _ _ _ _ Hd Hr Hf). lia.
    + intros y Hy.
      apply list_elem_of_lookup in Hy as [j Hj].
      apply lookup_take_Some in Hj as [Hj Hjk].
      split; [by eapply list_elem_of_lookup_2|].
      intros Heq. unfold table in Hj.
      apply lookup_zip_with_Some in Hj as (r & t' & -> & Hr & _).
      cbn in Heq. subst r.
      pose proof (NoDup_lookup _ _ _ _ Hd Hr Hf). lia.
  - unfold table at 1. cbn [_qdata _data legs set_data set_qdata set_qdata_sorted].
    rewrite (zip_with_app pair (_qdata a) [pos.*1] (_data a) _ Hlen).
    rewrite fmap_app, sumZ_app. cbn [zip_with fmap list_fmap].
    rewrite sumZ_cons. cbn [fst snd sumZ foldr].
    rewrite (embed_nd_set _ _ pos.*2 v idx idx' Hin Hoff).
    fold (zip (_qdata a) (_data a)). fold (table a).
    destruct (decide (idx' = idx)) as [->|Hne'].
    + rewrite Hzero; [lia|]. intros y Hy. split; [done|].
      intros Heq. apply find_row_None in Hf. apply Hf. rewrite <- Heq.
      rewrite <- (table_fst _ Hlen). apply list_elem_of_fmap. by exists y.
    + unfold embed at 2. cbn [np_zeros nd_at].
      destruct (in_slices _ idx'); lia.
Qed.

(** X8: an assignment [a[i1, ..., in] = v] that does not raise, on an
    Array that passes [test_sanity], has blocks of the shapes of their
    sectors and stores no row twice, changes the dense array at the index
    [(i1, ..., in)], where it puts [v], and nowhere else. *)
Theorem setitem_dense_update (a a' : Array) (zs : list Z) (v : Z) :
  test_sanity a = Ok () → blocks_shaped a = true → rows_distinct a = true →
  legs a ≠ [] →
  Forall2 (λ z l, (0 ≤ z < Z.of_nat (ind_len l))%Z) zs (legs a) →
  __setitem__ a (ITuple (Iint <$> zs)) v = Ok (Stored a') →
  nd_shape (to_ndarray a') = nd_shape (to_ndarray a) ∧
  ∀ idx', nd_at (to_ndarray a') idx' =
          if decide (idx' = Z.to_nat <$> zs) then v
          else nd_at (to_ndarray a) idx'.
Proof.
  intros Hs Hsh Hd Hne HF Hset. split; [|by apply setitem_dense].
  rewrite !to_ndarray_shape.
  destruct (setitem_result _ _ _ _ Hs Hsh Hne HF Hset) as (pos & _ & _ & ->).
  by destruct (find_row _ _).
Qed.

Lemma setitem_dense_update_witness :
  test_sanity ex_first = Ok () ∧ blocks_shaped ex_first = true ∧
  rows_distinct ex_first = true ∧ legs ex_first ≠ [] ∧
  Forall2 (λ z l, (0 ≤ z < Z.of_nat (ind_len l))%Z) [1%Z; 1%Z] (legs ex_first) ∧
  ∃ a', __setitem__ ex_first (ITuple (Iint <$> [1%Z; 1%Z])) 7%Z = Ok (Stored a') ∧
        nd_shape (to_ndarray a') = nd_shape (to_ndarray ex_first) ∧
        ∀ idx', nd_at (to_ndarray a') idx' =
                if decide (idx' = Z.to_nat <$> [1%Z; 1%Z]) then 7%Z
                else nd_at (to_ndarray ex_first) idx'.
Proof.
  assert (H1 : test_sanity ex_first = Ok ()) by (vm_compute; reflexivity).
  assert (H2 : blocks_shaped ex_first = true) by (vm_compute; reflexivity).
  assert (H2' : rows_distinct ex_first = true) by (vm_compute; reflexivity).
  assert (H3 : legs ex_first ≠ []) by discriminate.
  assert (H4 : Forall2 (λ z l, (0 ≤ z < Z.of_nat (ind_len l))%Z)
                 [1%Z; 1%Z] (legs ex_first))
    by (repeat constructor; vm_compute; done).
  split; [exact H1|]. split; [exact H2|]. split; [exact H2'|].
  split; [exact H3|]. split; [exact H4|].
  destruct (__setitem__ ex_first (ITuple (Iint <$> [1%Z; 1%Z])) 7%Z)
    as [[a'|]|] eqn:H5; try (vm_compute in H5; discriminate).
  exists a'. split; [reflexivity|].
  exact (setitem_dense_update ex_first a' [1%Z; 1%Z] 7%Z H1 H2 H2' H3 H4 H5).
Defined.


(** ** Leg labels *)

Lemma set_leg_labels_loop_spec (lbs : list (option string)) : ∀ i m,
  Forall (λ l, l ≠ Some EmptyString) lbs →
  NoDup (omap id lbs) →
  (∀ s, s ∈ omap id lbs → m !! s = None) →
  ∃ m', set_leg_labels_loop i lbs m = Ok m' ∧
        ∀ s j, m' !! s = Some j ↔
               m !! s = Some j ∨ (i ≤ j ∧ lbs !! (j - i) = Some (Some s)).
Proof.
  induction lbs as [|l lbs IH]; intros i m Hne Hnd Hfresh.
  - exists m. split; [done|]. intros s j. split; [by left|].
    intros [?|[_ H]]; [done|]. by rewrite lookup_nil in H.
  - apply Forall_cons in Hne as [Hl Hne]. cbn [set_leg_labels_loop].
    rewrite bool_decide_eq_false_2 by done.
    destruct l as [s0|].
    + cbn [omap id] in Hnd, Hfresh. change (id s0) with s0 in *.
      apply NoDup_cons in Hnd as [Hs0 Hnd].
      destruct (IH (S i) (<[s0 := i]> m) Hne Hnd) as (m' & Hm' & Hspec).
      { intros s Hs. rewrite lookup_insert_ne; [|by intros ->].
        apply Hfresh. by right. }
      exists m'. split; [done|]. intros s j. rewrite Hspec.
      destruct (decide (s = s0)) as [->|Hss].
      * rewrite lookup_insert_eq, (Hfresh s0) by (by left). split.
        -- intros [[= <-]|[Hj Hlk]].
           ++ right. split; [lia|]. by rewrite Nat.sub_diag.
           ++ exfalso. apply Hs0. apply list_elem_of_omap.
              exists (Some s0). split; [|done]. by eapply list_elem_of_lookup_2.
        -- intros [?|[Hj Hlk]]; [done|].
           destruct (decide (j = i)) as [->|Hji]; [by left|]. exfalso.
           replace (j - i) with (S (j - S i)) in Hlk by lia. cbn in Hlk.
           apply Hs0. apply list_elem_of_omap.
           exists (Some s0). split; [|done]. by eapply list_elem_of_lookup_2.
      * rewrite lookup_insert_ne by done. split.
        -- intros [?|[Hj Hlk]]; [by left|]. right. split; [lia|].
           replace (j - i) with (S (j - S i)) by lia. done.
        -- intros [?|[Hj Hlk]]; [by left|].
           destruct (decide (j = i)) as [->|Hji].
           ++ rewrite Nat.sub_diag in Hlk. cbn in Hlk. congruence.
           ++ right. split; [lia|].
              replace (j - i) with (S (j - S i)) in Hlk by lia. done.
    + cbn [omap] in Hnd, Hfresh.
      destruct (IH (S i) m Hne Hnd Hfresh) as (m' & Hm' & Hspec).
      exists m'. split; [done|]. intros s j. rewrite Hspec. split.
      * intros [?|[Hj Hlk]]; [by left|]. right. split; [lia|].
        replace (j - i) with (S (j - S i)) by lia. done.
      * intros [?|[Hj Hlk]]; [by left|].
        destruct (decide (j = i)) as [->|Hji].
        -- rewrite Nat.sub_diag in Hlk. done.
        -- right. split; [lia|].
           replace (j - i) with (S (j - S i)) in Hlk by lia. done.
Qed.

Lemma get_leg_labels_fold (n : nat) (L : list (string * nat)) :
  NoDup L.*2 → Forall (λ kv : string * nat, kv.2 < n) L →
  ∃ lb, foldl (λ acc (kv : string * nat),
                 lb ← acc; py_list_set lb kv.2 (Some kv.1))
              (Ok (replicate n None)) L = Ok lb ∧
        length lb = n ∧
        ∀ j, j < n →
             lb !! j = Some (match list_find (λ kv : string * nat, kv.2 = j) L with
                             | Some (_, kv) => Some kv.1
                             | None => None
                             end).
Proof.
  induction L as [|[k v] L IH] using rev_ind; intros Hnd Hlt.
  - exists (replicate n None). split; [done|]. split; [by rewrite length_replicate|].
    intros j Hj. cbn. by rewrite lookup_replicate_2.
  - rewrite fmap_app in Hnd. apply NoDup_app in Hnd as (Hnd & Hdis & _).
    apply Forall_app in Hlt as [Hlt Hv]. apply Forall_inv in Hv. cbn in Hv.
    destruct (IH Hnd Hlt) as (lb & Hlb & Hlen & Hspec).
    exists (<[v := Some k]> lb). rewrite foldl_app. cbn [foldl]. rewrite Hlb.
    cbn [mbind result_bind fst snd]. unfold py_list_set.
    rewrite Hlen. rewrite (proj2 (Nat.ltb_lt _ _) Hv).
    split; [done|]. split; [by rewrite length_insert|].
    intros j Hj.
    assert (HvL : ∀ kv : string * nat, kv ∈ L → kv.2 ≠ v).
    { intros kv Hkv Heq. apply (Hdis v); [|cbn; by left].
      apply list_elem_of_fmap. by exists kv. }
    destruct (decide (j = v)) as [->|Hjv].
    + rewrite list_lookup_insert_eq by lia. f_equal.
      assert (list_find (λ kv : string * nat, kv.2 = v) (L ++ [(k, v)]) =
              Some (length L, (k, v))) as ->; [|done].
      apply list_find_Some. split; [|split; [done|]].
      * rewrite lookup_app_r by lia. by rewrite Nat.sub_diag.
      * intros i y Hi Hlt'. rewrite lookup_app_l in Hi by done.
        apply HvL. by eapply list_elem_of_lookup_2.
    + rewrite list_lookup_insert_ne by done. rewrite (Hspec j Hj). f_equal.
      destruct (list_find (λ kv : string * nat, kv.2 = j) L) as [[i kv]|] eqn:E.
      * by rewrite (list_find_app_l _ _ _ _ _ E).
      * rewrite (list_find_app_r _ _ _ E). cbn.
        rewrite decide_False by (cbn; congruence). done.
Qed.

Lemma set_leg_labels_round_trip (a : Array) (lbs : list (option string)) :
  length lbs = rank a →
  Forall (λ l, l ≠ Some EmptyString) lbs →
  NoDup (omap id lbs) →
  ∃ a', set_leg_labels a lbs = Ok a' ∧
        get_leg_labels a' = Ok lbs ∧
        ∀ i s, lbs !! i = Some (Some s) →
               get_leg_index a' (LStr s) = Ok (Z.of_nat i).
Proof.
  intros Hlen Hne Hnd.
  destruct (set_leg_labels_loop_spec lbs 0 ∅ Hne Hnd) as (m & Hm & Hspec).
  { intros s _. apply lookup_empty. }
  assert (Hm' : ∀ s j, m !! s = Some j ↔ lbs !! j = Some (Some s)).
  { intros s j. rewrite Hspec, lookup_empty, Nat.sub_0_r.
    split; [by intros [?|[_ ?]]|]. intros H. right. split; [lia|done]. }
  exists (set_labels m a). split.
  { unfold set_leg_labels. rewrite (bool_decide_eq_true_2 _ Hlen).
    cbn [negb]. by rewrite Hm. }
  split.
  - unfold get_leg_labels. change (rank (set_labels m a)) with (rank a).
    change (labels (set_labels m a)) with m.
    destruct (get_leg_labels_fold (rank a) (map_to_list m))
      as (lb & Hlb & Hlblen & Hlbspec).
    + apply NoDup_fmap_2_strong; [|apply NoDup_map_to_list].
      intros [k1 v1] [k2 v2] H1 H2 Hv. cbn in Hv. subst v2.
      apply elem_of_map_to_list, Hm' in H1, H2. congruence.
    + apply Forall_forall. intros [k v] Hkv.
      apply elem_of_map_to_list, Hm' in Hkv. cbn.
      rewrite <- Hlen. by eapply lookup_lt_Some.
    + rewrite Hlb. f_equal. apply list_eq. intros j.
      destruct (decide (j < rank a)) as [Hj|Hj].
      * rewrite (Hlbspec j Hj).
        destruct (lookup_lt_is_Some_2 lbs j) as [l Hl]; [lia|]. rewrite Hl.
        f_equal.
        destruct (list_find _ (map_to_list m)) as [[i [k v]]|] eqn:E.
        -- apply list_find_Some in E as (Hi & Hv & _). cbn in Hv. subst v.
           apply list_elem_of_lookup_2, elem_of_map_to_list, Hm' in Hi.
           cbn. congruence.
        -- destruct l as [s|]; [|done]. exfalso.
           apply list_find_None in E. rewrite Forall_forall in E.
           apply (E (s, j)); [|done].
           by apply elem_of_map_to_list, Hm'.
      * rewrite !lookup_ge_None_2 by lia. done.
  - intros i s Hi. unfold get_leg_index.
    change (labels (set_labels m a)) with m.
    change (rank (set_labels m a)) with (rank a).
    rewrite (proj2 (Hm' s i) Hi). cbn [mbind result_bind].
    apply lookup_lt_Some in Hi.
    rewrite (proj2 (Z.ltb_ge _ _)) by lia.
    by rewrite (proj2 (Z.ltb_ge _ _)) by lia.
Qed.

(** X9: [set_leg_labels] with one entry per leg, no empty string and no
    label given twice returns, and afterwards [get_leg_labels] gives the
    same labels back and [get_leg_index] translates every label to the
    position it was given at. *)
Theorem set_get_leg_labels (a : Array) (lbs : list (option string)) :
  length lbs = rank a →
  Forall (λ l, l ≠ Some EmptyString) lbs →
  NoDup (omap id lbs) →
  ∃ a', set_leg_labels a lbs = Ok a' ∧
        get_leg_labels a' = Ok lbs ∧
        ∀ i s, lbs !! i = Some (Some s) →
               get_leg_index a' (LStr s) = Ok (Z.of_nat i).
Proof. apply set_leg_labels_round_trip. Qed.

Lemma set_get_leg_labels_witness :
  length [Some "a"; None] = rank ex_eye ∧
  Forall (λ l : option string, l ≠ Some EmptyString) [Some "a"; None] ∧
  NoDup (omap id [Some "a"; None]) ∧
  ∃ a', set_leg_labels ex_eye [Some "a"; None] = Ok a' ∧
        get_leg_labels a' = Ok [Some "a"; None] ∧
        ∀ i s, [Some "a"; None] !! i = Some (Some s) →
               get_leg_index a' (LStr s) = Ok (Z.of_nat i).
Proof.
  assert (H1 : length [Some "a"; None] = rank ex_eye) by reflexivity.
  assert (H2 : Forall (λ l : option string, l ≠ Some EmptyString)
                 [Some "a"; None]) by (repeat constructor; discriminate).
  assert (H3 : NoDup (omap id [Some "a"; None])) by apply NoDup_singleton.
  split; [exact H1|]. split; [exact H2|]. split; [exact H3|].
  exact (set_get_leg_labels ex_eye [Some "a"; None] H1 H2 H3).
Defined.

(** X10: for an integer label [i] with [-rank <= i < rank],
    [get_leg_index] returns the axis [i mod rank], which is the index of a
    leg; it raises for every [i > rank]; the label [i = rank] is accepted
    and returned unchanged although no leg has this index. *)
Theorem get_leg_index_integer (a : Array) (i : Z) :
  ((- Z.of_nat (rank a) ≤ i < Z.of_nat (rank a))%Z →
   get_leg_index a (LInt i) = Ok (i mod Z.of_nat (rank a))%Z ∧
   (0 ≤ i mod Z.of_nat (rank a) < Z.of_nat (rank a))%Z) ∧
  ((Z.of_nat (rank a) < i)%Z → is_Ok (get_leg_index a (LInt i)) = false) ∧
  get_leg_index a (LInt (Z.of_nat (rank a))) = Ok (Z.of_nat (rank a)).
Proof.
  unfold get_leg_index. cbn [mbind result_bind]. split; [|split].
  - intros Hi. split; [|apply Z.mod_pos_bound; lia].
    rewrite (proj2 (Z.ltb_ge _ _)) by lia.
    destruct (Z.ltb_spec i 0).
    + f_equal. apply Z.mod_unique with (-1)%Z; lia.
    + f_equal. symmetry. apply Z.mod_small. lia.
  - intros Hi. by rewrite (proj2 (Z.ltb_lt _ _)) by lia.
  - rewrite Z.ltb_irrefl. by rewrite (proj2 (Z.ltb_ge _ _)) by lia.
Qed.


(** ** Labels of pipes *)

Lemma str_slice_middle (pre p suf : list Ascii.ascii) :
  str_slice (pre ++ p ++ suf) (length pre) (length pre + length p) = p.
Proof.
  unfold str_slice. rewrite drop_app_length.
  replace (length pre + length p - length pre) with (length p) by lia.
  by rewrite take_app_length.
Qed.

Lemma split_label_loop_plain (label p : list Ascii.ascii) :
  Forall (λ c, c ≠ "("%char ∧ c ≠ ")"%char ∧ c ≠ "."%char) p →
  ∀ i cs beg depth res,
  split_label_loop label i (p ++ cs) beg depth res =
  split_label_loop label (i + length p) cs beg depth res.
Proof.
  induction 1 as [|c p (H1 & H2 & H3) _ IH]; intros i cs beg depth res.
  - cbn. by rewrite Nat.add_0_r.
  - cbn [app split_label_loop length].
    rewrite (proj2 (Ascii.eqb_neq _ _) H1), (proj2 (Ascii.eqb_neq _ _) H2),
      (proj2 (Ascii.eqb_neq _ _) H3).
    cbn [andb]. rewrite IH. f_equal. lia.
Qed.

Lemma split_label_loop_pieces (ps : list (list Ascii.ascii)) :
  Forall plain_label ps → ps ≠ [] →
  ∀ pre suf res,
  split_label_loop (pre ++ join_dot ps ++ suf) (length pre) (join_dot ps)
                   (length pre) 0 res =
  (length pre + length (join_dot ps) - length (default [] (last ps)),
   res ++ removelast ps).
Proof.
  induction 1 as [|p ps [Hp Hplain] Hps IH]; intros Hne pre suf res; [done|].
  destruct ps as [|p' ps'].
  - cbn [join_dot last default removelast].
    rewrite <- (app_nil_r p) at 2. rewrite split_label_loop_plain by done.
    cbn. rewrite app_nil_r. f_equal. lia.
  - change (join_dot (p :: p' :: ps')) with (p ++ "."%char :: join_dot (p' :: ps')).
    rewrite split_label_loop_plain by done.
    cbn [split_label_loop]. cbn [Ascii.eqb Bool.eqb andb Z.eqb].
    replace (pre ++ (p ++ "."%char :: join_dot (p' :: ps')) ++ suf)
      with (pre ++ p ++ ("."%char :: join_dot (p' :: ps') ++ suf))
      by (by rewrite <- !app_assoc).
    rewrite str_slice_middle.
    replace (pre ++ p ++ "."%char :: join_dot (p' :: ps') ++ suf)
      with ((pre ++ p ++ ["."%char]) ++ join_dot (p' :: ps') ++ suf)
      by (by rewrite <- !app_assoc).
    replace (S (length pre + length p)) with (length (pre ++ p ++ ["."%char]))
      by (rewrite !length_app; cbn; lia).
    rewrite IH by done.
    change (last (p :: p' :: ps')) with (last (p' :: ps')).
    change (removelast (p :: p' :: ps')) with (p :: removelast (p' :: ps')).
    f_equal.
    + rewrite !length_app. cbn [length]. lia.
    + by rewrite <- app_assoc.
Qed.

Lemma removelast_last {A} (d : A) (l : list A) :
  l ≠ [] → removelast l ++ [default d (last l)] = l.
Proof.
  induction l as [|x l IH]; intros Hne; [done|].
  destruct l as [|y l]; [done|].
  change (removelast (x :: y :: l)) with (x :: removelast (y :: l)).
  change (last (x :: y :: l)) with (last (y :: l)).
  cbn [app]. f_equal. by apply IH.
Qed.

Lemma join_dot_suffix (ps : list (list Ascii.ascii)) :
  ps ≠ [] → ∃ front, join_dot ps = front ++ default [] (last ps).
Proof.
  induction ps as [|p ps IH]; intros Hne; [done|].
  destruct ps as [|p' ps'].
  - by exists [].
  - destruct IH as [front Hf]; [done|].
    exists (p ++ "."%char :: front).
    change (join_dot (p :: p' :: ps')) with (p ++ "."%char :: join_dot (p' :: ps')).
    change (last (p :: p' :: ps')) with (last (p' :: ps')).
    by rewrite Hf, <- app_assoc.
Qed.

Lemma map_result_Ok {A B} (f : A → result B) (g : A → B) (l : list A) :
  Forall (λ x, f x = Ok (g x)) l → map_result f l = Ok (g <$> l).
Proof.
  induction 1 as [|x l Hx _ IH]; [done|].
  cbn [map_result]. rewrite Hx. cbn [mbind result_bind]. by rewrite IH.
Qed.

(** X11: [_split_leg_label] undoes the labelling of [combine_legs]: for
    at least one label, each non-empty and free of parentheses and dots,
    the label ['(' + '.'.join(labels) + ')'] of their pipe splits into
    these labels in their order, with [None] for those that begin with
    ['?']. *)
Theorem split_pipe_label (ps : list (list Ascii.ascii)) :
  Forall plain_label ps → ps ≠ [] →
  _split_leg_label (pipe_label ps) (length ps) =
    SplitDone (Ok ((λ p : list Ascii.ascii,
                      if bool_decide (head p = Some "?"%char) then None
                      else Some p) <$> ps)).
Proof.
  intros Hplain Hne. unfold _split_leg_label, pipe_label.
  cbn [Ascii.eqb Bool.eqb negb orb].
  rewrite app_comm_cons, last_snoc.
  rewrite bool_decide_eq_true_2 by done. cbn [negb].
  rewrite <- app_comm_cons.
  assert (Hmid : str_slice ("("%char :: join_dot ps ++ [")"%char]) 1
                   (length ("("%char :: join_dot ps ++ [")"%char]) - 1) =
                 join_dot ps).
  { unfold str_slice. cbn [length drop]. rewrite drop_0, length_app.
    cbn [length].
    replace (S (length (join_dot ps) + 1) - 1 - 1) with (length (join_dot ps))
      by lia.
    by rewrite take_app_length. }
  cbv zeta. rewrite Hmid.
  destruct (join_dot_suffix ps Hne) as [front Hfront].
  assert (Hlast : plain_label (default [] (last ps))).
  { destruct (last ps) as [p|] eqn:El.
    - rewrite Forall_forall in Hplain. apply Hplain.
      apply last_Some in El as [l' ->]. apply elem_of_app. right. by left.
    - apply last_None in El. done. }
  rewrite bool_decide_eq_false_2.
  2:{ rewrite Hfront. destruct Hlast as [Hl _].
      by destruct front, (default [] (last ps)). }
  pose proof (split_label_loop_pieces ps Hplain Hne ["("%char] [")"%char] [])
    as Hloop.
  cbn [app length] in Hloop. rewrite Hloop. cbn [app].
  assert (Hsl : str_slice ("("%char :: join_dot ps ++ [")"%char])
                  (1 + length (join_dot ps) - length (default [] (last ps)))
                  (length ("("%char :: join_dot ps ++ [")"%char]) - 1) =
                default [] (last ps)).
  { rewrite Hfront.
    replace ("("%char :: (front ++ default [] (last ps)) ++ [")"%char])
      with (("("%char :: front) ++ default [] (last ps) ++ [")"%char])
      by (by rewrite <- !app_assoc).
    replace (1 + length (front ++ default [] (last ps)) -
             length (default [] (last ps))) with (length ("("%char :: front))
      by (rewrite length_app; cbn [length]; lia).
    replace (length (("("%char :: front) ++ default [] (last ps) ++ [")"%char]) - 1)
      with (length ("("%char :: front) + length (default [] (last ps)))
      by (rewrite !length_app; cbn [length]; lia).
    apply str_slice_middle. }
  rewrite Hsl, removelast_last by done.
  rewrite bool_decide_eq_true_2 by done. cbn [negb]. f_equal.
  apply map_result_Ok. eapply Forall_impl; [exact Hplain|].
  intros p [Hp _]. destruct p as [|c' p]; [done|]. cbn [head].
  destruct (Ascii.eqb_spec c' "?"%char) as [->|Hc].
  - by rewrite bool_decide_eq_true_2.
  - rewrite bool_decide_eq_false_2; [done|]. by intros [= ->].
Qed.

Lemma split_pipe_label_witness :
  Forall plain_label
    [String.list_ascii_of_string "a"; String.list_ascii_of_string "?1";
     String.list_ascii_of_string "bc"] ∧
  [String.list_ascii_of_string "a"; String.list_ascii_of_string "?1";
   String.list_ascii_of_string "bc"] ≠ [] ∧
  _split_leg_label (String.list_ascii_of_string "(a.?1.bc)") 3 =
    SplitDone (Ok [Some (String.list_ascii_of_string "a"); None;
                   Some (String.list_ascii_of_string "bc")]).
Proof.
  assert (H1 : Forall plain_label
    [String.list_ascii_of_string "a"; String.list_ascii_of_string "?1";
     String.list_ascii_of_string "bc"]).
  { repeat constructor; cbn; discriminate. }
  assert (H2 : [String.list_ascii_of_string "a"; String.list_ascii_of_string "?1";
                String.list_ascii_of_string "bc"] ≠ []) by discriminate.
  split; [exact H1|]. split; [exact H2|].
  exact (split_pipe_label _ H1 H2).
Defined.

(** The labels of legs that are no pipes or that are not closed: the
    loop variable is unbound for ['()'], and a label that does not have
    the form ['(...)'] is refused. *)
Example split_leg_label_edges :
  _split_leg_label (String.list_ascii_of_string "()") 1 = SplitUnboundLocal ∧
  _split_leg_label (String.list_ascii_of_string "(") 1 =
    SplitDone (Raise (ValueError
      "split label, which is not of the Form '(...)'")) ∧
  _split_leg_label (String.list_ascii_of_string "(a.b)") 3 =
    SplitDone (Raise (ValueError "wrong number of splitted labels.")) ∧
  _split_leg_label (String.list_ascii_of_string "(a.(b.c))") 2 =
    SplitDone (Ok [Some (String.list_ascii_of_string "a");
                   Some (String.list_ascii_of_string "(b.c)")]).
Proof. vm_compute. repeat split; reflexivity. Qed.


(** ** Conjugated labels *)

Lemma insert_stars_plain (l : list Ascii.ascii) : ∀ prev,
  Forall (λ c, c ≠ "."%char ∧ c ≠ ")"%char) l → insert_stars prev l = l.
Proof.
  induction l as [|c l IH]; intros prev H; [done|].
  apply Forall_cons in H as [[H1 H2] H]. cbn [insert_stars].
  rewrite (proj2 (Ascii.eqb_neq _ _) H1), (proj2 (Ascii.eqb_neq _ _) H2).
  rewrite andb_false_r. cbn [app]. by rewrite IH.
Qed.

Lemma remove_double_star_plain (l : list Ascii.ascii) :
  Forall (λ c, c ≠ "*"%char) l →
  remove_double_star (l ++ ["*"%char]) = l ++ ["*"%char] ∧
  remove_double_star (l ++ ["*"%char; "*"%char]) = l.
Proof.
  induction 1 as [|c l Hc _ [IH1 IH2]]; [done|].
  assert (Hstep : ∀ k, k ≠ [] →
            remove_double_star (c :: k) = c :: remove_double_star k).
  { intros [|d k] Hk; [done|]. cbn [remove_double_star].
    by rewrite (proj2 (Ascii.eqb_neq _ _) Hc). }
  rewrite <- !app_comm_cons, !Hstep, IH1, IH2; [done| |]; by destruct l.
Qed.

Lemma conj_leg_label_star (s : string) :
  String.list_ascii_of_string s ≠ [] →
  Forall (λ c, c ≠ "."%char ∧ c ≠ ")"%char ∧ c ≠ "*"%char)
         (String.list_ascii_of_string s) →
  _conj_leg_label s = Ok (String.append s "*") ∧
  _conj_leg_label (String.append s "*") = Ok s.
Proof.
  intros Hne Hplain.
  assert (Happ : String.list_ascii_of_string (String.append s "*") =
                 String.list_ascii_of_string s ++ ["*"%char]).
  { clear. induction s as [|c s IH]; [done|]. simpl. f_equal. exact IH. }
  assert (Hback : ∀ l, String.string_of_list_ascii (l ++ ["*"%char]) =
                       String.append (String.string_of_list_ascii l) "*").
  { induction l as [|c l IH]; [done|]. simpl. rewrite IH. reflexivity. }
  assert (Hdots : Forall (λ c, c ≠ "."%char ∧ c ≠ ")"%char)
                    (String.list_ascii_of_string s)).
  { eapply Forall_impl; [exact Hplain|]. by intros c (? & ? & ?). }
  assert (Hstars : Forall (λ c, c ≠ "*"%char) (String.list_ascii_of_string s)).
  { eapply Forall_impl; [exact Hplain|]. by intros c (? & ? & ?). }
  assert (Hlast : ∀ k, last (String.list_ascii_of_string s ++ k) ≠ Some ")"%char
                       ∨ k ≠ []).
  { intros [|c k]; [|by right]. left. rewrite app_nil_r.
    destruct (last _) as [c|] eqn:El; [|done]. intros [= ->].
    apply last_Some in El as [l' Hl]. rewrite Hl in Hdots.
    apply Forall_app in Hdots as [_ Hd]. apply Forall_inv in Hd. by destruct Hd. }
  destruct (remove_double_star_plain _ Hstars) as [Hr1 Hr2].
  split.
  - unfold _conj_leg_label.
    destruct (String.list_ascii_of_string s) as [|c rest] eqn:El; [done|].
    apply Forall_cons in Hdots as [_ Hdots].
    rewrite (insert_stars_plain _ _ Hdots).
    destruct (Hlast []) as [Hl|]; [|done]. rewrite app_nil_r in Hl.
    rewrite (bool_decide_eq_false_2 _ Hl). cbn [negb].
    rewrite Hr1, Hback, <- El.
    by rewrite String.string_of_list_ascii_of_string.
  - unfold _conj_leg_label. rewrite Happ.
    destruct (String.list_ascii_of_string s) as [|c rest] eqn:El; [done|].
    rewrite <- app_comm_cons.
    assert (Hd' : Forall (λ c, c ≠ "."%char ∧ c ≠ ")"%char) (rest ++ ["*"%char])).
    { apply Forall_cons in Hdots as [_ Hdots]. apply Forall_app. split; [done|].
      repeat constructor; discriminate. }
    rewrite (insert_stars_plain _ _ Hd').
    rewrite app_comm_cons, last_snoc.
    rewrite bool_decide_eq_false_2 by discriminate. cbn [negb].
    rewrite <- app_assoc. cbn [app] in Hr2 |- *. rewrite Hr2, <- El.
    by rewrite String.string_of_list_ascii_of_string.
Qed.

(** X12: for a non-empty label without dots, closing parentheses and
    stars, [_conj_leg_label] appends a star, and applied to the starred
    label it gives the label back: ['a' -> 'a*'] and ['a*' -> 'a']. *)
Theorem conj_leg_label_plain (s : string) :
  String.list_ascii_of_string s ≠ [] →
  Forall (λ c, c ≠ "."%char ∧ c ≠ ")"%char ∧ c ≠ "*"%char)
         (String.list_ascii_of_string s) →
  _conj_leg_label s = Ok (String.append s "*") ∧
  _conj_leg_label (String.append s "*") = Ok s.
Proof. apply conj_leg_label_star. Qed.

Lemma conj_leg_label_plain_witness :
  String.list_ascii_of_string "vL" ≠ [] ∧
  Forall (λ c, c ≠ "."%char ∧ c ≠ ")"%char ∧ c ≠ "*"%char)
         (String.list_ascii_of_string "vL") ∧
  _conj_leg_label "vL" = Ok (String.append "vL" "*") ∧
  _conj_leg_label (String.append "vL" "*") = Ok "vL"%string.
Proof.
  assert (H1 : String.list_ascii_of_string "vL" ≠ []) by discriminate.
  assert (H2 : Forall (λ c, c ≠ "."%char ∧ c ≠ ")"%char ∧ c ≠ "*"%char)
                 (String.list_ascii_of_string "vL"))
    by (repeat constructor; discriminate).
  split; [exact H1|]. split; [exact H2|].
  exact (conj_leg_label_plain "vL" H1 H2).
Defined.

(** The label of a pipe of the docstring. *)
Example conj_leg_label_pipe :
  _conj_leg_label "(a.(b*.c))" = Ok "(a*.(b.c*))"%string.
Proof. vm_compute. reflexivity. Qed.


(** ** When the blockwise merge returns *)

Lemma blockwise_merge_unfold (func : ndarray → ndarray → ndarray)
    (la lb : list (list nat * ndarray)) :
  blockwise_merge func la lb =
    match la, lb with
    | [], [] => Ok []
    | [], _ :: _ => Raise (IndexError "index out of bounds")
    | _ :: _, [] => Raise (IndexError "index out of bounds")
    | (ra, ta) :: la', (rb, tb) :: lb' =>
        if decide (ra = rb) then
          rest ← blockwise_merge func la' lb';
          Ok ((ra, func ta tb) :: rest)
        else if tuple_lt (reverse ra) (reverse rb) then
          rest ← blockwise_merge func la' lb;
          Ok ((ra, func ta (np_zeros_like ta)) :: rest)
        else
          rest ← blockwise_merge func la lb';
          Ok ((rb, func (np_zeros_like tb) tb) :: rest)
    end.
Proof. destruct la as [|[ra ta] la], lb as [|[rb tb] lb]; reflexivity. Qed.

Lemma is_Ok_bind {A B} (r : result A) (f : A → B) :
  is_Ok (x ← r; Ok (f x)) = is_Ok r.
Proof. by destruct r. Qed.

Lemma last_cons_ne {A} (x : A) (l : list A) : l ≠ [] → last (x :: l) = last l.
Proof. by destruct l. Qed.

Lemma sorted_last_gt (r : list nat) (l : list (list nat)) (m : list nat) :
  StronglySorted (λ u v, row_lt u v = true) (r :: l) →
  last l = Some m → row_lt r m = true.
Proof.
  intros Hs Hl. apply StronglySorted_inv in Hs as [_ Hr].
  rewrite Forall_forall in Hr. apply Hr.
  apply last_Some in Hl as [l' ->]. apply elem_of_app. right. by left.
Qed.

Lemma blockwise_merge_returns (func : ndarray → ndarray → ndarray) (n : nat)
    (la : list (list nat * ndarray)) : ∀ lb,
  StronglySorted (λ u v, row_lt u v = true) la.*1 →
  StronglySorted (λ u v, row_lt u v = true) lb.*1 →
  Forall (λ r, length r = n) la.*1 → Forall (λ r, length r = n) lb.*1 →
  is_Ok (blockwise_merge func la lb) = true ↔ last la.*1 = last lb.*1.
Proof.
  induction la as [|[ra ta] la IHa]; intros lb;
    induction lb as [|[rb tb] lb IHb]; intros Hsa Hsb Hna Hnb;
    rewrite blockwise_merge_unfold.
  1: done.
  1: { rewrite fmap_cons. cbn. split; [done|].
       intros H. symmetry in H. destruct lb; [done|].
       by apply last_None in H. }
  1: { rewrite fmap_cons. cbn. split; [done|].
       intros H. destruct la; [done|]. by apply last_None in H. }
  rewrite !fmap_cons in *. cbn [fst] in *.
  pose proof (StronglySorted_inv Hsa) as [Hsa' _].
  pose proof (StronglySorted_inv Hsb) as [Hsb' _].
  pose proof (Forall_inv Hna) as Hla. pose proof (Forall_inv_tail Hna) as Hna'.
  pose proof (Forall_inv Hnb) as Hlb. pose proof (Forall_inv_tail Hnb) as Hnb'.
  assert (Hirr : ∀ x, row_lt x x = true → False).
  { intros x Hx. by rewrite row_lt_irrefl in Hx. }
  assert (Hshift : ∀ (r : list nat) (l k : list (list nat)),
            StronglySorted (λ u v, row_lt u v = true) (r :: l) →
            (∀ m, last k = Some m → row_lt r m = true ∨ (k = [r] ∧ l ≠ [])) →
            k ≠ [] →
            last l = last k ↔ last (r :: l) = last k).
  { intros r l k Hs Hk Hkne. destruct l as [|x l]; [|done].
    cbn [last]. split.
    - intros H. symmetry in H. by apply last_None in H.
    - intros H. symmetry in H. destruct (Hk r H) as [Hlt|[_ ?]]; [|done].
      by apply Hirr in Hlt. }
  destruct (decide (ra = rb)) as [->|Hne].
  - rewrite is_Ok_bind, (IHa lb Hsa' Hsb' Hna' Hnb').
    destruct (decide (lb = [])) as [->|Hlbne].
    + cbn [fmap list_fmap last]. destruct la as [|xa la]; [done|].
      rewrite fmap_cons. split; [intros H; by apply last_None in H|].
      rewrite last_cons_ne by done. intros H.
      pose proof (sorted_last_gt _ _ _ Hsa H) as Hlt. by apply Hirr in Hlt.
    + rewrite (last_cons_ne rb lb.*1) by (by destruct lb).
      apply Hshift; [done| |by destruct lb].
      intros m Hm. left. by apply (sorted_last_gt _ _ _ Hsb Hm).
  - fold (row_lt ra rb). destruct (row_lt ra rb) eqn:Hlt.
    + rewrite is_Ok_bind.
      rewrite (IHa ((rb, tb) :: lb) Hsa' Hsb Hna' Hnb). rewrite ?fmap_cons.
      cbn [fst]. apply Hshift; [done| |done].
      intros m Hm. left. destruct lb as [|xb lb].
      * cbn in Hm. by injection Hm as <-.
      * rewrite last_cons_ne in Hm by done.
        eapply row_lt_trans; [exact Hlt|].
        by apply (sorted_last_gt _ _ _ Hsb Hm).
    + assert (Hgt : row_lt rb ra = true).
      { apply row_le_neq_lt; [congruence| |congruence].
        unfold row_le. by rewrite Hlt. }
      rewrite is_Ok_bind. rewrite (IHb Hsa Hsb' Hna Hnb').
      rewrite ?fmap_cons. cbn [fst].
      split; intros H; symmetry; symmetry in H; revert H;
        apply Hshift; try done.
      all: intros m Hm; left; destruct la as [|xa la];
        [cbn in Hm; by injection Hm as <-|];
        rewrite last_cons_ne in Hm by done;
        (eapply row_lt_trans; [exact Hgt|]);
        by apply (sorted_last_gt _ _ _ Hsa Hm).
Qed.

Lemma blockwise_merge_error (func : ndarray → ndarray → ndarray)
    (la : list (list nat * ndarray)) : ∀ lb e,
  blockwise_merge func la lb = Raise e → e = IndexError "index out of bounds".
Proof.
  induction la as [|[ra ta] la IHa]; intros lb;
    induction lb as [|[rb tb] lb IHb]; intros e;
    rewrite blockwise_merge_unfold; try congruence.
  destruct (decide (ra = rb)); [|destruct (tuple_lt _ _)].
  - destruct (blockwise_merge func la lb) eqn:E; [done|].
    cbn. intros [= <-]. by eapply IHa.
  - destruct (blockwise_merge func la ((rb, tb) :: lb)) eqn:E; [done|].
    cbn. intros [= <-]. by eapply IHa.
  - destruct (blockwise_merge func ((ra, ta) :: la) lb) eqn:E; [done|].
    cbn. intros [= <-]. by eapply IHb.
Qed.

Lemma sorted_distinct_strict (n : nat) (rows : list (list nat)) :
  Sorted (λ u v, row_le u v = true) rows → NoDup rows →
  Forall (λ r, length r = n) rows →
  StronglySorted (λ u v, row_lt u v = true) rows.
Proof.
  intros Hs Hnd Hn. apply Sorted_StronglySorted; [apply _|].
  induction Hs as [|x l Hs IH Hd]; [constructor|].
  apply NoDup_cons in Hnd as [Hx Hnd]. apply Forall_cons in Hn as [Hlx Hn].
  constructor; [by apply IH|].
  destruct Hd as [|y l Hxy]; constructor.
  apply Forall_inv in Hn.
  apply row_le_neq_lt; [congruence|done|]. intros ->. apply Hx. by left.
Qed.

Lemma isort_qdata_strict (a : Array) :
  test_sanity a = Ok () → rows_distinct a = true →
  StronglySorted (λ u v, row_lt u v = true) (_qdata (isort_qdata a)) ∧
  Forall (λ r, length r = rank a) (_qdata (isort_qdata a)) ∧
  length (_qdata (isort_qdata a)) = length (_data (isort_qdata a)).
Proof.
  intros Hs Hd.
  destruct (isort_qdata_sane _ Hs) as [Hs' Hflag].
  destruct (test_sanity_Ok _ Hs) as (_ & _ & _ & Hlen & _).
  destruct (test_sanity_Ok _ Hs') as (_ & _ & _ & Hlen' & _ & _ & Hsorted).
  destruct (isort_qdata_same_content a Hlen) as (_ & _ & Hsh & _ & _ & _ & Hperm).
  assert (Hn : Forall (λ r, length r = rank a) (_qdata (isort_qdata a))).
  { eapply Forall_impl; [exact (sane_rows _ Hs')|]. intros r [Hr _].
    unfold rank in *. by rewrite <- Hsh. }
  split; [|done]. apply (sorted_distinct_strict (rank a)); [| |done].
  - apply (argsort_by_seq_Sorted row_le); [apply row_le_total|].
    by apply Hsorted.
  - apply bool_decide_eq_true in Hd.
    rewrite <- (fst_zip (_qdata (isort_qdata a)) (_data (isort_qdata a))) by lia.
    rewrite Hperm. by rewrite fst_zip by lia.
Qed.

(** X13: for two Arrays of one rank that pass [test_sanity], store no row
    twice and have pairwise equal legs, [ibinary_blockwise] returns
    exactly when the last rows of the two sorted block tables coincide,
    or neither table has a row;
    in every other case it raises the [IndexError] of reading past the end
    of a table. *)
Theorem ibinary_blockwise_returns_iff (func : ndarray → ndarray → ndarray)
    (a b : Array) :
  test_sanity a = Ok () → test_sanity b = Ok () →
  rows_distinct a = true → rows_distinct b = true → rank a = rank b →
  for_each (λ p, test_equal p.1 p.2) (zip (legs a) (legs b)) = Ok () →
  (is_Ok (ibinary_blockwise func a b) = true ↔
   last (_qdata (isort_qdata a)) = last (_qdata (isort_qdata b))) ∧
  (is_Ok (ibinary_blockwise func a b) = false →
   ibinary_blockwise func a b = Raise (IndexError "index out of bounds")).
Proof.
  intros Ha Hb Hda Hdb Hrk Hleg.
  destruct (isort_qdata_strict _ Ha Hda) as (Hsa & Hna & Hla).
  destruct (isort_qdata_strict _ Hb Hdb) as (Hsb & Hnb & Hlb).
  rewrite <- Hrk in Hnb.
  unfold ibinary_blockwise. rewrite Hleg. cbn [mbind result_bind].
  unfold blockwise_data.
  set (a1 := isort_qdata a) in *. set (b1 := isort_qdata b) in *.
  destruct (bool_decide (length (_qdata a1) = length (_qdata b1)) &&
            bool_decide (_qdata a1 = _qdata b1)) eqn:Hfast.
  - apply andb_true_iff in Hfast as [_ Heq]. apply bool_decide_eq_true in Heq.
    cbn. rewrite Heq. done.
  - pose proof (blockwise_merge_returns func (rank a)
                  (zip (_qdata a1) (_data a1)) (zip (_qdata b1) (_data b1)))
      as Hm.
    rewrite !fst_zip in Hm by lia. specialize (Hm Hsa Hsb Hna Hnb).
    destruct (blockwise_merge func _ _) as [r|e] eqn:E.
    + cbn. split; [|done]. by rewrite <- Hm.
    + cbn. split; [by rewrite <- Hm|]. intros _.
      by rewrite (blockwise_merge_error _ _ _ _ E).
Qed.

Lemma ibinary_blockwise_returns_iff_witness :
  test_sanity ex_eye = Ok () ∧ test_sanity ex_first = Ok () ∧
  rows_distinct ex_eye = true ∧ rows_distinct ex_first = true ∧
  rank ex_eye = rank ex_first ∧
  for_each (λ p, test_equal p.1 p.2) (zip (legs ex_eye) (legs ex_first)) = Ok () ∧
  (is_Ok (ibinary_blockwise np_add ex_eye ex_first) = true ↔
   last (_qdata (isort_qdata ex_eye)) = last (_qdata (isort_qdata ex_first))) ∧
  (is_Ok (ibinary_blockwise np_add ex_eye ex_first) = false →
   ibinary_blockwise np_add ex_eye ex_first =
     Raise (IndexError "index out of bounds")).
Proof.
  assert (H1 : test_sanity ex_eye = Ok ()) by (vm_compute; reflexivity).
  assert (H2 : test_sanity ex_first = Ok ()) by (vm_compute; reflexivity).
  assert (H3 : rows_distinct ex_eye = true) by (vm_compute; reflexivity).
  assert (H4 : rows_distinct ex_first = true) by (vm_compute; reflexivity).
  assert (H5 : rank ex_eye = rank ex_first) by reflexivity.
  assert (H6 : for_each (λ p, test_equal p.1 p.2)
                 (zip (legs ex_eye) (legs ex_first)) = Ok ())
    by (vm_compute; reflexivity).
  split; [exact H1|]. split; [exact H2|]. split; [exact H3|].
  split; [exact H4|]. split; [exact H5|]. split; [exact H6|].
  exact (ibinary_blockwise_returns_iff np_add ex_eye ex_first H1 H2 H3 H4 H5 H6).
Defined.


(** ** The dense array of a blockwise combination *)

Lemma Forall_fst {A B} (P : A → Prop) (l : list (A * B)) :
  Forall P l.*1 → Forall (λ x, P x.1) l.
Proof.
  intros H. rewrite Forall_forall in H. apply Forall_forall. intros x Hx.
  apply H, list_elem_of_fmap. by exists x.
Qed.

Lemma table_at_sum ci (ls : list LegCharge) (T : list (list nat * ndarray))
    (idx : list nat) :
  forallb (leg_sane ci) ls = true →
  NoDup T.*1 → Forall (λ x, row_in_range ls x.1) T →
  sumZ ((λ x, embed (zip_with get_slice ls x.1) x.2 idx) <$> T) =
  table_at ls T idx.
Proof.
  intros Hl. induction T as [|x T IH]; intros Hnd Hrg; [done|].
  rewrite fmap_cons in Hnd. apply NoDup_cons in Hnd as [Hx Hnd].
  apply Forall_cons in Hrg as [Hrx Hrg].
  rewrite fmap_cons, sumZ_cons. cbn [table_at]. unfold embed at 1.
  destruct (in_slices (zip_with get_slice ls x.1) idx) eqn:Hin.
  - rewrite sumZ_fmap_zero; [lia|]. apply Forall_forall. intros y Hy.
    unfold embed.
    destruct (in_slices (zip_with get_slice ls y.1) idx) eqn:Hin'; [|done].
    exfalso. apply Hx. rewrite Forall_forall in Hrg.
    assert (y.1 = x.1) as <-.
    { eapply (slices_disjoint ci ls); eauto. }
    apply list_elem_of_fmap. by exists y.
  - rewrite IH by done. lia.
Qed.

Lemma table_at_other_rows ci (ls : list LegCharge)
    (T : list (list nat * ndarray)) (row idx : list nat) :
  forallb (leg_sane ci) ls = true → row_in_range ls row →
  in_slices (zip_with get_slice ls row) idx = true →
  Forall (λ x, row_in_range ls x.1 ∧ x.1 ≠ row) T →
  table_at ls T idx = 0%Z.
Proof.
  intros Hl Hrow Hin. induction 1 as [|x T [Hx Hne] _ IH]; [done|].
  cbn [table_at].
  destruct (in_slices (zip_with get_slice ls x.1) idx) eqn:Hin'; [|done].
  exfalso. apply Hne. eapply (slices_disjoint ci ls); eauto.
Qed.

Lemma blockwise_merge_rows (func : ndarray → ndarray → ndarray)
    (P : list nat → Prop) (la : list (list nat * ndarray)) : ∀ lb r,
  blockwise_merge func la lb = Ok r →
  Forall P la.*1 → Forall P lb.*1 → Forall P r.*1.
Proof.
  induction la as [|[ra ta] la IHa]; intros lb;
    induction lb as [|[rb tb] lb IHb]; intros r;
    rewrite blockwise_merge_unfold; try congruence.
  rewrite !fmap_cons. cbn [fst]. intros Hr Ha Hb.
  pose proof (Forall_inv Ha) as Hra. pose proof (Forall_inv_tail Ha) as Ha'.
  pose proof (Forall_inv Hb) as Hrb. pose proof (Forall_inv_tail Hb) as Hb'.
  destruct (decide (ra = rb)); [|destruct (tuple_lt _ _)].
  - destruct (blockwise_merge func la lb) eqn:E; [|done].
    cbn in Hr. injection Hr as <-. rewrite fmap_cons. constructor; [done|].
    by eapply IHa.
  - destruct (blockwise_merge func la ((rb, tb) :: lb)) eqn:E; [|done].
    cbn in Hr. injection Hr as <-. rewrite fmap_cons. constructor; [done|].
    eapply IHa; [done|done|]. rewrite fmap_cons. by constructor.
  - destruct (blockwise_merge func ((ra, ta) :: la) lb) eqn:E; [|done].
    cbn in Hr. injection Hr as <-. rewrite fmap_cons. constructor; [done|].
    eapply IHb; [done| |done]. rewrite fmap_cons. by constructor.
Qed.

Lemma blockwise_merge_sorted (func : ndarray → ndarray → ndarray)
    (la : list (list nat * ndarray)) : ∀ lb r,
  blockwise_merge func la lb = Ok r →
  StronglySorted (λ u v, row_lt u v = true) la.*1 →
  StronglySorted (λ u v, row_lt u v = true) lb.*1 →
  ∀ n, Forall (λ r, length r = n) la.*1 → Forall (λ r, length r = n) lb.*1 →
  StronglySorted (λ u v, row_lt u v = true) r.*1.
Proof.
  induction la as [|[ra ta] la IHa]; intros lb;
    induction lb as [|[rb tb] lb IHb]; intros r;
    rewrite blockwise_merge_unfold; try congruence.
  rewrite !fmap_cons. cbn [fst]. intros Hr Hsa Hsb n Ha Hb.
  pose proof (StronglySorted_inv Hsa) as [Hsa' Hga].
  pose proof (StronglySorted_inv Hsb) as [Hsb' Hgb].
  pose proof (Forall_inv Ha) as Hra. pose proof (Forall_inv_tail Ha) as Ha'.
  pose proof (Forall_inv Hb) as Hrb. pose proof (Forall_inv_tail Hb) as Hb'.
  destruct (decide (ra = rb)) as [->|Hne].
  - destruct (blockwise_merge func la lb) as [rest|] eqn:E; [|done].
    cbn in Hr. injection Hr as <-. rewrite fmap_cons. constructor.
    + by eapply (IHa lb rest).
    + by eapply blockwise_merge_rows.
  - fold (row_lt ra rb) in Hr. destruct (row_lt ra rb) eqn:Hlt.
    + destruct (blockwise_merge func la ((rb, tb) :: lb)) as [rest|] eqn:E;
        [|done].
      cbn in Hr. injection Hr as <-. rewrite fmap_cons. constructor.
      * eapply (IHa _ rest); try done; rewrite ?fmap_cons; try done.
      * eapply blockwise_merge_rows; [exact E|done|].
        rewrite fmap_cons. constructor; [done|].
        eapply Forall_impl; [exact Hgb|]. intros x Hx. cbn in Hx.
        by eapply row_lt_trans.
    + assert (Hgt : row_lt rb ra = true).
      { apply row_le_neq_lt; [|unfold row_le; by rewrite Hlt|congruence].
        congruence. }
      destruct (blockwise_merge func ((ra, ta) :: la) lb) as [rest|] eqn:E;
        [|done].
      cbn in Hr. injection Hr as <-. rewrite fmap_cons. constructor.
      * eapply (IHb rest); try done; rewrite ?fmap_cons; try done.
      * eapply blockwise_merge_rows; [exact E| |done].
        rewrite fmap_cons. constructor; [done|].
        eapply Forall_impl; [exact Hga|]. intros x Hx. cbn in Hx.
        by eapply row_lt_trans.
Qed.

Lemma test_equal_Ok (l l' : LegCharge) :
  test_equal l l' = Ok () → qind l = qind l'.
Proof.
  unfold test_equal. destruct (decide _) as [[Hq _]|]; [done|discriminate].
Qed.

Lemma for_each_equal (la lb : list LegCharge) :
  length la = length lb →
  for_each (λ p, test_equal p.1 p.2) (zip la lb) = Ok () →
  Forall2 (λ la lb, qind la = qind lb) la lb.
Proof.
  revert lb. induction la as [|l la IH]; intros [|l' lb] Hlen H; try done;
    try (by constructor).
  cbn [zip zip_with for_each fst snd] in H.
  destruct (test_equal l l') as [[]|] eqn:E; [|discriminate].
  constructor; [by apply test_equal_Ok|].
  apply IH; [by injection Hlen|done].
Qed.

Lemma equal_slices (la lb : list LegCharge) : ∀ r,
  Forall2 (λ la lb, qind la = qind lb) la lb →
  zip_with get_slice lb r = zip_with get_slice la r ∧
  (row_in_range lb r → row_in_range la r).
Proof.
  intros r H. revert r.
  induction H as [|l l' la lb Hq _ IH]; intros r.
  - destruct r; repeat split; try done.
  - destruct r as [|qi r]; [repeat split; try done; inversion 1|].
    destruct (IH r) as (H1 & H3). cbn [zip_with]. rewrite H1.
    assert (get_slice l' qi = get_slice l qi) as ->
      by (unfold get_slice, sector_start, sector_stop, sector; by rewrite Hq).
    split; [done|].
    intros Hr. apply Forall2_cons in Hr as [Hqi Hr].
    constructor; [|by apply H3]. unfold block_number in *. by rewrite Hq.
Qed.

Lemma table_at_equal_legs (la lb : list LegCharge)
    (T : list (list nat * ndarray)) (idx : list nat) :
  Forall2 (λ la lb, qind la = qind lb) la lb →
  table_at lb T idx = table_at la T idx.
Proof.
  intros H. induction T as [|x T IH]; [done|]. cbn [table_at].
  destruct (equal_slices la lb x.1 H) as [-> _]. by rewrite IH.
Qed.

Lemma isort_qdata_dense (a : Array) (idx : list nat) :
  test_sanity a = Ok () → rows_distinct a = true →
  rows_distinct (isort_qdata a) = true ∧
  nd_at (to_ndarray (isort_qdata a)) idx = nd_at (to_ndarray a) idx.
Proof.
  intros Hs Hd.
  destruct (isort_qdata_sane _ Hs) as [Hs' Hflag].
  destruct (test_sanity_Ok _ Hs) as (_ & _ & _ & Hlen & _).
  destruct (test_sanity_Ok _ Hs') as (_ & _ & _ & Hlen' & _).
  destruct (isort_qdata_same_content a Hlen)
    as (_ & Hl & Hsh & _ & _ & _ & Hperm).
  assert (Hd' : rows_distinct (isort_qdata a) = true).
  { apply bool_decide_eq_true. apply bool_decide_eq_true in Hd.
    rewrite <- (table_fst _ Hlen'). unfold table. rewrite Hperm.
    by rewrite (fst_zip (_qdata a) (_data a)) by lia. }
  split; [done|].
  rewrite (to_ndarray_at _ _ Hs' Hd'), (to_ndarray_at _ _ Hs Hd), Hl.
  apply sumZ_fmap_Permutation. exact Hperm.
Qed.

Lemma to_ndarray_table_at (a : Array) (idx : list nat) :
  test_sanity a = Ok () → rows_distinct a = true →
  nd_at (to_ndarray a) idx = table_at (legs a) (table a) idx.
Proof.
  intros Hs Hd. rewrite (to_ndarray_at _ _ Hs Hd).
  destruct (test_sanity_Ok _ Hs) as (_ & _ & Hl & Hlen & _).
  apply (table_at_sum (chinfo a)); [done| |by apply table_row_in_range].
  rewrite (table_fst _ Hlen). by apply bool_decide_eq_true in Hd.
Qed.

Section pointwise.
Variable func : ndarray → ndarray → ndarray.
Variable op : Z → Z → Z.
Hypothesis func_at : ∀ s t i, nd_at (func s t) i = op (nd_at s i) (nd_at t i).
Hypothesis op_zero : op 0%Z 0%Z = 0%Z.

Lemma blockwise_merge_at ci (ls : list LegCharge) (idx : list nat)
    (la : list (list nat * ndarray)) : ∀ lb r,
  forallb (leg_sane ci) ls = true →
  blockwise_merge func la lb = Ok r →
  StronglySorted (λ u v, row_lt u v = true) la.*1 →
  StronglySorted (λ u v, row_lt u v = true) lb.*1 →
  Forall (row_in_range ls) la.*1 → Forall (row_in_range ls) lb.*1 →
  table_at ls r idx = op (table_at ls la idx) (table_at ls lb idx).
Proof.
  intros lb r Hl. revert lb r.
  assert (Hirr : ∀ x, row_lt x x = true → False).
  { intros x Hx. by rewrite row_lt_irrefl in Hx. }
  assert (Hzero : ∀ (row : list nat) (T : list (list nat * ndarray)),
            row_in_range ls row →
            in_slices (zip_with get_slice ls row) idx = true →
            Forall (row_in_range ls) T.*1 →
            Forall (λ r', row_lt row r' = true) T.*1 →
            table_at ls T idx = 0%Z).
  { intros row T Hrow Hin Hrg Hgt.
    apply (table_at_other_rows ci ls T row idx Hl Hrow Hin).
    rewrite Forall_fmap in Hrg, Hgt. apply Forall_forall. intros x Hx.
    rewrite Forall_forall in Hrg, Hgt. split; [by apply Hrg|].
    intros Heq. specialize (Hgt x Hx). cbn in Hgt. rewrite Heq in Hgt.
    by apply Hirr in Hgt. }
  induction la as [|[ra ta] la IHa]; intros lb;
    induction lb as [|[rb tb] lb IHb]; intros r;
    rewrite blockwise_merge_unfold; try congruence.
  { intros [= ?]; subst. cbn. by rewrite op_zero. }
  rewrite !fmap_cons. cbn [fst]. intros Hr Hsa Hsb Ha Hb.
  pose proof (StronglySorted_inv Hsa) as [Hsa' Hga].
  pose proof (StronglySorted_inv Hsb) as [Hsb' Hgb].
  pose proof (Forall_inv Ha) as Hra. pose proof (Forall_inv_tail Ha) as Ha'.
  pose proof (Forall_inv Hb) as Hrb. pose proof (Forall_inv_tail Hb) as Hb'.
  destruct (decide (ra = rb)) as [->|Hne].
  - destruct (blockwise_merge func la lb) as [rest|] eqn:E; [|done].
    cbn in Hr. injection Hr as <-. cbn [table_at fst snd].
    destruct (in_slices (zip_with get_slice ls rb) idx); [by rewrite func_at|].
    by apply IHa.
  - fold (row_lt ra rb) in Hr. destruct (row_lt ra rb) eqn:Hlt.
    + destruct (blockwise_merge func la ((rb, tb) :: lb)) as [rest|] eqn:E;
        [|done].
      cbn in Hr. injection Hr as <-.
      cbn [table_at fst snd].
      destruct (in_slices (zip_with get_slice ls ra) idx) eqn:Hin.
      * rewrite func_at. cbn [np_zeros_like np_zeros nd_at]. f_equal.
        symmetry.
        change (table_at ls ((rb, tb) :: lb) idx = 0%Z).
        apply (Hzero ra); [done|done|by rewrite fmap_cons|].
        rewrite fmap_cons. constructor; [done|].
        eapply Forall_impl; [exact Hgb|]. intros x Hx. cbn in Hx.
        by eapply row_lt_trans.
      * change (table_at ls rest idx =
                op (table_at ls la idx) (table_at ls ((rb, tb) :: lb) idx)).
        apply IHa; try done; by rewrite fmap_cons.
    + assert (Hgt : row_lt rb ra = true).
      { apply row_le_neq_lt; [|unfold row_le; by rewrite Hlt|congruence].
        apply Forall2_length in Hra, Hrb. congruence. }
      destruct (blockwise_merge func ((ra, ta) :: la) lb) as [rest|] eqn:E;
        [|done].
      cbn in Hr. injection Hr as <-.
      cbn [table_at fst snd].
      destruct (in_slices (zip_with get_slice ls rb) idx) eqn:Hin.
      * rewrite func_at. cbn [np_zeros_like np_zeros nd_at].
        assert (table_at ls ((ra, ta) :: la) idx = 0%Z) as Hz.
        { apply (Hzero rb); [done|done|by rewrite fmap_cons|].
          rewrite fmap_cons. constructor; [done|].
          eapply Forall_impl; [exact Hga|]. intros x Hx. cbn in Hx.
          by eapply row_lt_trans. }
        cbn [table_at fst snd] in Hz. by rewrite Hz.
      * change (table_at ls rest idx =
                op (table_at ls ((ra, ta) :: la) idx) (table_at ls lb idx)).
        apply IHb; try done; by rewrite fmap_cons.
Qed.

Lemma blockwise_zip_at (ls : list LegCharge) (idx : list nat)
    (q : list (list nat)) : ∀ da db,
  length da = length db →
  table_at ls (zip q (zip_with func da db)) idx =
  op (table_at ls (zip q da) idx) (table_at ls (zip q db) idx).
Proof using func_at op_zero.
  induction q as [|r q IH]; intros da db Hlen; [by cbn; rewrite op_zero|].
  destruct da as [|ta da], db as [|tb db]; try done.
  cbn [zip_with table_at fst snd].
  destruct (in_slices _ idx); [by rewrite func_at|].
  apply IH. cbn in Hlen. lia.
Qed.

(** The dense array of the receiver after [ibinary_blockwise]. *)
Lemma ibinary_blockwise_dense (a b r : Array) (idx : list nat) :
  test_sanity a = Ok () → test_sanity b = Ok () →
  rows_distinct a = true → rows_distinct b = true →
  rank a = rank b →
  ibinary_blockwise func a b = Ok r →
  nd_shape (to_ndarray r) = nd_shape (to_ndarray a) ∧
  nd_at (to_ndarray r) idx =
    op (nd_at (to_ndarray a) idx) (nd_at (to_ndarray b) idx).
Proof using func_at op_zero.
  intros Ha Hb Hda Hdb Hrk Hr.
  unfold ibinary_blockwise in Hr.
  destruct (for_each _ _) as [[]|] eqn:Hleg; [|discriminate].
  cbn [mbind result_bind] in Hr.
  pose proof (rank_legs _ Ha) as Hrka. pose proof (rank_legs _ Hb) as Hrkb.
  assert (Hq : Forall2 (λ la lb, qind la = qind lb) (legs a) (legs b)).
  { apply for_each_equal; [congruence|done]. }
  destruct (isort_qdata_strict _ Ha Hda) as (Hsa & Hna & Hla).
  destruct (isort_qdata_strict _ Hb Hdb) as (Hsb & Hnb & Hlb).
  rewrite <- Hrk in Hnb.
  destruct (isort_qdata_dense a idx Ha Hda) as [Hda' <-].
  destruct (isort_qdata_dense b idx Hb Hdb) as [Hdb' <-].
  destruct (isort_qdata_sane _ Ha) as [Ha' _].
  destruct (isort_qdata_sane _ Hb) as [Hb' _].
  destruct (test_sanity_Ok _ Ha) as (_ & _ & Hls & Hlen & _).
  destruct (test_sanity_Ok _ Hb) as (_ & _ & _ & Hlenb & _).
  destruct (isort_qdata_same_content a Hlen) as (Hci & Hl & Hsh & _).
  destruct (isort_qdata_same_content b Hlenb) as (_ & Hl' & _).
  rewrite (to_ndarray_table_at _ _ Ha' Hda'), (to_ndarray_table_at _ _ Hb' Hdb').
  rewrite Hl, Hl', (table_at_equal_legs (legs a) (legs b) _ idx Hq).
  pose proof (sane_rows _ Ha') as Hrga. pose proof (sane_rows _ Hb') as Hrgb.
  rewrite Hl in Hrga. rewrite Hl' in Hrgb.
  assert (Hrga' : Forall (row_in_range (legs a)) (_qdata (isort_qdata a))).
  { eapply Forall_impl; [exact Hrga|]. by intros x [_ ?]. }
  assert (Hrgb' : Forall (row_in_range (legs a)) (_qdata (isort_qdata b))).
  { eapply Forall_impl; [exact Hrgb|]. intros x [_ Hx].
    by apply (equal_slices (legs a) (legs b) x Hq). }
  set (a1 := isort_qdata a) in *. set (b1 := isort_qdata b) in *.
  destruct (blockwise_data func a1 b1) as [rd|] eqn:Hrd; [|discriminate].
  cbn [mbind result_bind] in Hr. injection Hr as <-.
  assert (Hfin : legs (blockwise_finish a1 rd) = legs a ∧
                 shape (blockwise_finish a1 rd) = shape a ∧
                 table (blockwise_finish a1 rd) = zip rd.2 rd.1).
  { unfold blockwise_finish. cbn zeta.
    destruct (_data (set_qdata rd.2 (set_data rd.1 a1))); done. }
  destruct Hfin as (Hfl & Hfs & Hft).
  split; [by rewrite !to_ndarray_shape|].
  rewrite to_ndarray_table, Hfl, Hft.
  unfold blockwise_data in Hrd.
  destruct (bool_decide (length (_qdata a1) = length (_qdata b1)) &&
            bool_decide (_qdata a1 = _qdata b1)) eqn:Hfast.
  - apply andb_true_iff in Hfast as [_ Heq]. apply bool_decide_eq_true in Heq.
    assert (Hlab : length (_data a1) = length (_data b1)) by congruence.
    injection Hrd as <-. cbn [fst snd].
    rewrite (foldl_set_slices_at (chinfo a)); [|done| |].
    + rewrite (table_at_sum (chinfo a)); [|done| |].
      * unfold table. rewrite <- Heq. by apply blockwise_zip_at.
      * rewrite fst_zip by (rewrite length_zip_with; lia).
        by apply bool_decide_eq_true in Hda'.
      * apply Forall_fst. rewrite fst_zip by (rewrite length_zip_with; lia).
        done.
    + rewrite fst_zip by (rewrite length_zip_with; lia).
      by apply bool_decide_eq_true in Hda'.
    + apply Forall_fst. rewrite fst_zip by (rewrite length_zip_with; lia).
      done.
  - destruct (blockwise_merge func _ _) as [m|] eqn:E; [|discriminate].
    cbn [mbind result_bind] in Hrd. injection Hrd as <-. cbn [fst snd].
    rewrite zip_fst_snd.
    assert (Hfa : (zip (_qdata a1) (_data a1)).*1 = _qdata a1)
      by (apply fst_zip; lia).
    assert (Hfb : (zip (_qdata b1) (_data b1)).*1 = _qdata b1)
      by (apply fst_zip; lia).
    assert (Hms : StronglySorted (λ u v, row_lt u v = true) m.*1).
    { eapply (blockwise_merge_sorted func _ _ m E); rewrite ?Hfa, ?Hfb;
        [exact Hsa|exact Hsb|exact Hna|exact Hnb]. }
    assert (Hmr : Forall (row_in_range (legs a)) m.*1).
    { eapply (blockwise_merge_rows func _ _ _ m E); by rewrite ?Hfa, ?Hfb. }
    assert (Hnd : NoDup m.*1).
    { eapply StronglySorted_NoDup; [|exact Hms].
      intros x Hx. by rewrite row_lt_irrefl in Hx. }
    rewrite (foldl_set_slices_at (chinfo a)); [|done|done|by apply Forall_fst].
    rewrite (table_at_sum (chinfo a)); [|done|done|by apply Forall_fst].
    apply (blockwise_merge_at (chinfo a)); unfold table;
      rewrite ?Hfa, ?Hfb; done.
Qed.
End pointwise.

(** X14: let [func] act entry by entry as [op], with [op 0 0 = 0]. When
    [ibinary_blockwise func a b] returns for two Arrays of one rank that
    pass [test_sanity] and store no row twice, the dense array of the
    result has the shape of [a] and holds [op x y] wherever the dense
    arrays of [a] and [b] hold [x] and [y], also where only one of them,
    or neither, stores a block. *)
Theorem ibinary_blockwise_entrywise (func : ndarray → ndarray → ndarray)
    (op : Z → Z → Z) (a b r : Array) :
  (∀ s t i, nd_at (func s t) i = op (nd_at s i) (nd_at t i)) →
  op 0%Z 0%Z = 0%Z →
  test_sanity a = Ok () → test_sanity b = Ok () →
  rows_distinct a = true → rows_distinct b = true →
  rank a = rank b →
  ibinary_blockwise func a b = Ok r →
  nd_shape (to_ndarray r) = nd_shape (to_ndarray a) ∧
  ∀ idx, nd_at (to_ndarray r) idx =
         op (nd_at (to_ndarray a) idx) (nd_at (to_ndarray b) idx).
Proof.
  intros Hf H0 Ha Hb Hda Hdb Hrk Hr. split.
  - by apply (ibinary_blockwise_dense func op Hf H0 a b r [] Ha Hb Hda Hdb Hrk).
  - intros idx.
    by apply (ibinary_blockwise_dense func op Hf H0 a b r idx Ha Hb Hda Hdb Hrk).
Qed.

Lemma ibinary_blockwise_entrywise_witness :
  (∀ s t i, nd_at (np_add s t) i = (nd_at s i + nd_at t i)%Z) ∧
  (0 + 0 = 0)%Z ∧
  test_sanity ex_second = Ok () ∧ test_sanity ex_eye_unsorted = Ok () ∧
  rows_distinct ex_second = true ∧ rows_distinct ex_eye_unsorted = true ∧
  rank ex_second = rank ex_eye_unsorted ∧
  ibinary_blockwise np_add ex_second ex_eye_unsorted = Ok ex_sum ∧
  nd_shape (to_ndarray ex_sum) = nd_shape (to_ndarray ex_second) ∧
  ∀ idx, nd_at (to_ndarray ex_sum) idx =
         (nd_at (to_ndarray ex_second) idx +
          nd_at (to_ndarray ex_eye_unsorted) idx)%Z.
Proof.
  assert (H1 : ∀ s t i, nd_at (np_add s t) i = (nd_at s i + nd_at t i)%Z)
    by reflexivity.
  assert (H2 : (0 + 0 = 0)%Z) by reflexivity.
  assert (H3 : test_sanity ex_second = Ok ()) by (vm_compute; reflexivity).
  assert (H4 : test_sanity ex_eye_unsorted = Ok ()) by (vm_compute; reflexivity).
  assert (H5 : rows_distinct ex_second = true) by (vm_compute; reflexivity).
  assert (H6 : rows_distinct ex_eye_unsorted = true) by (vm_compute; reflexivity).
  assert (H7 : rank ex_second = rank ex_eye_unsorted) by reflexivity.
  assert (H8 : ibinary_blockwise np_add ex_second ex_eye_unsorted = Ok ex_sum)
    by (vm_compute; reflexivity).
  split; [exact H1|]. split; [exact H2|]. split; [exact H3|].
  split; [exact H4|]. split; [exact H5|]. split; [exact H6|].
  split; [exact H7|]. split; [exact H8|].
  exact (ibinary_blockwise_entrywise np_add Z.add ex_second ex_eye_unsorted
           ex_sum H1 H2 H3 H4 H5 H6 H7 H8).
Defined.

(** X15: for two Arrays of one rank that pass [test_sanity] and store no
    row twice, the dense array of [a + b] and of [a += b], when the call
    returns, is the entry-by-entry sum of the dense arrays of [a] and [b],
    and that of [a - b] and of [a -= b] is their difference. *)
Theorem add_sub_dense (a b r : Array) :
  test_sanity a = Ok () → test_sanity b = Ok () →
  rows_distinct a = true → rows_distinct b = true →
  rank a = rank b →
  (__add__ a b = Ok r ∨ __iadd__ a b = Ok r →
   nd_shape (to_ndarray r) = nd_shape (to_ndarray a) ∧
   ∀ idx, nd_at (to_ndarray r) idx =
          (nd_at (to_ndarray a) idx + nd_at (to_ndarray b) idx)%Z) ∧
  (__sub__ a b = Ok r ∨ __isub__ a b = Ok r →
   nd_shape (to_ndarray r) = nd_shape (to_ndarray a) ∧
   ∀ idx, nd_at (to_ndarray r) idx =
          (nd_at (to_ndarray a) idx - nd_at (to_ndarray b) idx)%Z).
Proof.
  intros Ha Hb Hda Hdb Hrk. split.
  - intros Hr.
    assert (Hr' : ibinary_blockwise np_ufunc_add a b = Ok r) by (by destruct Hr).
    split.
    + by apply (ibinary_blockwise_dense np_ufunc_add Z.add
                  (λ _ _ _, eq_refl) eq_refl a b r [] Ha Hb Hda Hdb Hrk).
    + intros idx.
      by apply (ibinary_blockwise_dense np_ufunc_add Z.add
                  (λ _ _ _, eq_refl) eq_refl a b r idx Ha Hb Hda Hdb Hrk).
  - intros Hr.
    assert (Hr' : ibinary_blockwise np_ufunc_subtract a b = Ok r)
      by (by destruct Hr).
    split.
    + by apply (ibinary_blockwise_dense np_ufunc_subtract Z.sub
                  (λ _ _ _, eq_refl) eq_refl a b r [] Ha Hb Hda Hdb Hrk).
    + intros idx.
      by apply (ibinary_blockwise_dense np_ufunc_subtract Z.sub
                  (λ _ _ _, eq_refl) eq_refl a b r idx Ha Hb Hda Hdb Hrk).
Qed.

Lemma add_sub_dense_witness :
  test_sanity ex_second = Ok () ∧ test_sanity ex_eye_unsorted = Ok () ∧
  rows_distinct ex_second = true ∧ rows_distinct ex_eye_unsorted = true ∧
  rank ex_second = rank ex_eye_unsorted ∧
  __add__ ex_second ex_eye_unsorted = Ok ex_sum ∧
  (__add__ ex_second ex_eye_unsorted = Ok ex_sum ∨
   __iadd__ ex_second ex_eye_unsorted = Ok ex_sum →
   nd_shape (to_ndarray ex_sum) = nd_shape (to_ndarray ex_second) ∧
   ∀ idx, nd_at (to_ndarray ex_sum) idx =
          (nd_at (to_ndarray ex_second) idx +
           nd_at (to_ndarray ex_eye_unsorted) idx)%Z) ∧
  (__sub__ ex_second ex_eye_unsorted = Ok ex_sum ∨
   __isub__ ex_second ex_eye_unsorted = Ok ex_sum →
   nd_shape (to_ndarray ex_sum) = nd_shape (to_ndarray ex_second) ∧
   ∀ idx, nd_at (to_ndarray ex_sum) idx =
          (nd_at (to_ndarray ex_second) idx -
           nd_at (to_ndarray ex_eye_unsorted) idx)%Z).
Proof.
  assert (H3 : test_sanity ex_second = Ok ()) by (vm_compute; reflexivity).
  assert (H4 : test_sanity ex_eye_unsorted = Ok ()) by (vm_compute; reflexivity).
  assert (H5 : rows_distinct ex_second = true) by (vm_compute; reflexivity).
  assert (H6 : rows_distinct ex_eye_unsorted = true) by (vm_compute; reflexivity).
  assert (H7 : rank ex_second = rank ex_eye_unsorted) by reflexivity.
  assert (H8 : __add__ ex_second ex_eye_unsorted = Ok ex_sum)
    by (vm_compute; reflexivity).
  split; [exact H3|]. split; [exact H4|]. split; [exact H5|].
  split; [exact H6|]. split; [exact H7|]. split; [exact H8|].
  exact (add_sub_dense ex_second ex_eye_unsorted ex_sum H3 H4 H5 H6 H7).
Defined.


(** ** The block table after a blockwise combination *)

Lemma blockwise_merge_elem (func : ndarray → ndarray → ndarray)
    (la : list (list nat * ndarray)) : ∀ lb m,
  blockwise_merge func la lb = Ok m →
  ∀ row, row ∈ la.*1 ∨ row ∈ lb.*1 → row ∈ m.*1.
Proof.
  induction la as [|[ra ta] la IHa]; intros lb;
    induction lb as [|[rb tb] lb IHb]; intros m;
    rewrite blockwise_merge_unfold; try congruence.
  { intros _ row [H|H]; by apply elem_of_nil in H. }
  rewrite !fmap_cons. cbn [fst]. intros Hm row Hrow.
  destruct (decide (ra = rb)) as [->|Hne]; [|destruct (tuple_lt _ _)].
  - destruct (blockwise_merge func la lb) as [rest|] eqn:E; [|done].
    cbn in Hm. injection Hm as <-. rewrite fmap_cons. cbn [fst].
    rewrite !elem_of_cons in Hrow. apply elem_of_cons.
    destruct Hrow as [[->|H]|[->|H]]; auto; right; eapply IHa; eauto.
  - destruct (blockwise_merge func la ((rb, tb) :: lb)) as [rest|] eqn:E;
      [|done].
    cbn in Hm. injection Hm as <-. rewrite fmap_cons. cbn [fst].
    rewrite elem_of_cons in Hrow. apply elem_of_cons.
    destruct Hrow as [[->|H]|H]; auto; right; eapply IHa; eauto.
  - destruct (blockwise_merge func ((ra, ta) :: la) lb) as [rest|] eqn:E;
      [|done].
    cbn in Hm. injection Hm as <-. rewrite fmap_cons. cbn [fst].
    rewrite (elem_of_cons lb.*1) in Hrow. apply elem_of_cons.
    destruct Hrow as [H|[->|H]]; auto; right; eapply IHb; eauto.
Qed.

Lemma blockwise_merge_blocks (func : ndarray → ndarray → ndarray)
    (Q : list nat → ndarray → Prop) (la : list (list nat * ndarray)) :
  (∀ r s t, Q r s → Q r t → Q r (func s t)) →
  (∀ r s, Q r s → Q r (func s (np_zeros_like s))) →
  (∀ r t, Q r t → Q r (func (np_zeros_like t) t)) →
  ∀ lb m,
  blockwise_merge func la lb = Ok m →
  Forall (λ x, Q x.1 x.2) la → Forall (λ x, Q x.1 x.2) lb →
  Forall (λ x, Q x.1 x.2) m.
Proof.
  intros Q2 Ql Qr.
  induction la as [|[ra ta] la IHa]; intros lb;
    induction lb as [|[rb tb] lb IHb]; intros m;
    rewrite blockwise_merge_unfold; try congruence.
  intros Hm Ha Hb.
  pose proof (Forall_inv Ha) as Hra. pose proof (Forall_inv_tail Ha) as Ha'.
  pose proof (Forall_inv Hb) as Hrb. pose proof (Forall_inv_tail Hb) as Hb'.
  cbn [fst snd] in Hra, Hrb.
  destruct (decide (ra = rb)) as [->|Hne]; [|destruct (tuple_lt _ _)].
  - destruct (blockwise_merge func la lb) as [rest|] eqn:E; [|done].
    cbn in Hm. injection Hm as <-. constructor; [by apply Q2|]. by eapply IHa.
  - destruct (blockwise_merge func la ((rb, tb) :: lb)) as [rest|] eqn:E;
      [|done].
    cbn in Hm. injection Hm as <-. constructor; [by apply Ql|]. by eapply IHa.
  - destruct (blockwise_merge func ((ra, ta) :: la) lb) as [rest|] eqn:E;
      [|done].
    cbn in Hm. injection Hm as <-. constructor; [by apply Qr|]. by eapply IHb.
Qed.

Lemma zip_with_blocks (func : ndarray → ndarray → ndarray)
    (Q : list nat → ndarray → Prop) (q : list (list nat)) :
  (∀ r s t, Q r s → Q r t → Q r (func s t)) →
  ∀ da db, length da = length db →
  Forall (λ x, Q x.1 x.2) (zip q da) → Forall (λ x, Q x.1 x.2) (zip q db) →
  Forall (λ x, Q x.1 x.2) (zip q (zip_with func da db)).
Proof.
  intros Q2. induction q as [|r q IH]; intros da db Hlen Ha Hb; [constructor|].
  destruct da as [|ta da], db as [|tb db]; try done.
  cbn [zip_with] in *.
  apply Forall_cons in Ha as [Hta Ha]. apply Forall_cons in Hb as [Htb Hb].
  constructor; [by apply Q2|]. apply IH; [|done|done]. cbn in Hlen. lia.
Qed.

Lemma test_equal_Ok_conj (l l' : LegCharge) :
  test_equal l l' = Ok () → qind l = qind l' ∧ qconj l = qconj l'.
Proof.
  unfold test_equal. destruct (decide _) as [H|]; [done|discriminate].
Qed.

Lemma for_each_equal_conj (la lb : list LegCharge) :
  length la = length lb →
  for_each (λ p, test_equal p.1 p.2) (zip la lb) = Ok () →
  Forall2 (λ la lb, qind la = qind lb ∧ qconj la = qconj lb) la lb.
Proof.
  revert lb. induction la as [|l la IH]; intros [|l' lb] Hlen H; try done;
    try (by constructor).
  cbn [zip zip_with for_each fst snd] in H.
  destruct (test_equal l l') as [[]|] eqn:E; [|discriminate].
  constructor; [by apply test_equal_Ok_conj|].
  apply IH; [by injection Hlen|done].
Qed.

Lemma equal_legs_charges (la lb : list LegCharge) : ∀ r,
  Forall2 (λ la lb, qind la = qind lb ∧ qconj la = qconj lb) la lb →
  zip_with get_charge lb r = zip_with get_charge la r ∧
  zip_with sector_size lb r = zip_with sector_size la r.
Proof.
  intros r H. revert r.
  induction H as [|l l' la lb [Hq Hc] _ IH]; intros r.
  - by destruct r.
  - destruct r as [|qi r]; [done|].
    destruct (IH r) as (H1 & H2). cbn [zip_with]. rewrite H1, H2.
    split; f_equal.
    + unfold get_charge, sector. by rewrite Hq, Hc.
    + unfold sector_size, sector_start, sector_stop, sector. by rewrite Hq.
Qed.

(** What [ibinary_blockwise] leaves in the receiver. *)
Lemma ibinary_blockwise_table (func : ndarray → ndarray → ndarray)
    (a b r : Array) :
  test_sanity a = Ok () → test_sanity b = Ok () →
  rows_distinct a = true → rows_distinct b = true →
  rank a = rank b →
  ibinary_blockwise func a b = Ok r →
  (chinfo r = chinfo a ∧ legs r = legs a ∧ shape r = shape a ∧
   qtotal r = qtotal a ∧ labels r = labels a ∧ _qdata_sorted r = true) ∧
  length (_qdata r) = length (_data r) ∧
  dtype r = match _data r with t :: _ => nd_dtype t | [] => dtype a end ∧
  StronglySorted (λ u v, row_lt u v = true) (_qdata r) ∧
  (∀ row, row ∈ _qdata r ↔ row ∈ _qdata a ∨ row ∈ _qdata b) ∧
  ∀ Q : list nat → ndarray → Prop,
    (∀ r s t, Q r s → Q r t → Q r (func s t)) →
    (∀ r s, Q r s → Q r (func s (np_zeros_like s))) →
    (∀ r t, Q r t → Q r (func (np_zeros_like t) t)) →
    Forall (λ x, Q x.1 x.2) (table a) → Forall (λ x, Q x.1 x.2) (table b) →
    Forall (λ x, Q x.1 x.2) (table r).
Proof.
  intros Ha Hb Hda Hdb Hrk Hr.
  unfold ibinary_blockwise in Hr.
  destruct (for_each _ _) as [[]|] eqn:Hleg; [|discriminate].
  cbn [mbind result_bind] in Hr.
  destruct (isort_qdata_strict _ Ha Hda) as (Hsa & Hna & Hla).
  destruct (isort_qdata_strict _ Hb Hdb) as (Hsb & Hnb & Hlb).
  rewrite <- Hrk in Hnb.
  destruct (isort_qdata_sane _ Ha) as [Ha' Hflag].
  destruct (test_sanity_Ok _ Ha) as (_ & _ & Hls & Hlen & _).
  destruct (test_sanity_Ok _ Hb) as (_ & _ & _ & Hlenb & _).
  destruct (isort_qdata_same_content a Hlen)
    as (Hci & Hl & Hsh & Hdt & Hqt & Hlab & Hpa).
  destruct (isort_qdata_same_content b Hlenb) as (_ & _ & _ & _ & _ & _ & Hpb).
  assert (Hqa : _qdata (isort_qdata a) ≡ₚ _qdata a).
  { rewrite <- (fst_zip (_qdata a) (_data a)) by lia.
    rewrite <- (fst_zip (_qdata (isort_qdata a)) (_data (isort_qdata a))) by lia.
    by rewrite Hpa. }
  assert (Hqb : _qdata (isort_qdata b) ≡ₚ _qdata b).
  { rewrite <- (fst_zip (_qdata b) (_data b)) by lia.
    rewrite <- (fst_zip (_qdata (isort_qdata b)) (_data (isort_qdata b))) by lia.
    by rewrite Hpb. }
  change (zip (_qdata a) (_data a)) with (table a) in Hpa.
  change (zip (_qdata b) (_data b)) with (table b) in Hpb.
  set (a1 := isort_qdata a) in *. set (b1 := isort_qdata b) in *.
  destruct (blockwise_data func a1 b1) as [rd|] eqn:Hrd; [|discriminate].
  cbn [mbind result_bind] in Hr. injection Hr as <-.
  assert (Hfin : ∀ x, x = blockwise_finish a1 rd →
            (chinfo x = chinfo a ∧ legs x = legs a ∧ shape x = shape a ∧
             qtotal x = qtotal a ∧ labels x = labels a ∧
             _qdata_sorted x = true) ∧
            _data x = rd.1 ∧ _qdata x = rd.2 ∧
            dtype x = match rd.1 with t :: _ => nd_dtype t | [] => dtype a end).
  { intros x ->. unfold blockwise_finish. cbn zeta.
    change (_data (set_qdata rd.2 (set_data rd.1 a1))) with rd.1.
    destruct rd.1; cbn; rewrite ?Hdt; done. }
  destruct (Hfin _ eq_refl) as (Hattr & Hfd & Hfq & Hfdt). clear Hfin.
  split; [exact Hattr|]. unfold table. rewrite Hfd, Hfq, Hfdt.
  unfold blockwise_data in Hrd.
  destruct (bool_decide (length (_qdata a1) = length (_qdata b1)) &&
            bool_decide (_qdata a1 = _qdata b1)) eqn:Hfast.
  - apply andb_true_iff in Hfast as [_ Heq]. apply bool_decide_eq_true in Heq.
    assert (Hlab' : length (_data a1) = length (_data b1)) by congruence.
    injection Hrd as <-. cbn [fst snd].
    split; [rewrite length_zip_with; lia|]. split; [done|].
    split; [done|]. split.
    + intros row. rewrite <- Hqb, <- Heq, Hqa. tauto.
    + intros Q Q2 _ _ HQa HQb. rewrite <- Hpa in HQa. rewrite <- Hpb in HQb.
      unfold table in HQb. rewrite <- Heq in HQb.
      by apply zip_with_blocks.
  - destruct (blockwise_merge func _ _) as [m|] eqn:E; [|discriminate].
    cbn [mbind result_bind] in Hrd. injection Hrd as <-. cbn [fst snd].
    rewrite zip_fst_snd.
    assert (Hfa : (zip (_qdata a1) (_data a1)).*1 = _qdata a1)
      by (apply fst_zip; lia).
    assert (Hfb : (zip (_qdata b1) (_data b1)).*1 = _qdata b1)
      by (apply fst_zip; lia).
    split; [by rewrite !length_fmap|]. split; [done|]. split.
    { eapply (blockwise_merge_sorted func _ _ m E); rewrite ?Hfa, ?Hfb;
        [exact Hsa|exact Hsb|exact Hna|exact Hnb]. }
    split.
    + intros row. split.
      * intros Hrow. rewrite <- Hqa, <- Hqb.
        pose proof (blockwise_merge_rows func
                      (λ r, r ∈ _qdata a1 ∨ r ∈ _qdata b1) _ _ m E) as Hm.
        rewrite Hfa, Hfb in Hm.
        assert (Hall : Forall (λ r, r ∈ _qdata a1 ∨ r ∈ _qdata b1) m.*1).
        { apply Hm; apply Forall_forall; auto. }
        rewrite Forall_forall in Hall. by apply Hall.
      * intros Hrow. rewrite <- Hqa, <- Hqb in Hrow.
        apply (blockwise_merge_elem func _ _ m E). by rewrite Hfa, Hfb.
    + intros Q Q2 Ql Qr HQa HQb. rewrite <- Hpa in HQa. rewrite <- Hpb in HQb.
      by eapply (blockwise_merge_blocks func Q _ Q2 Ql Qr _ m E).
Qed.

Lemma Forall_zip_rows {A B} (P : A → Prop) (q : list A) (d : list B) :
  length q = length d → Forall (λ x, P x.1) (zip q d) ↔ Forall P q.
Proof.
  revert d. induction q as [|r q IH]; intros [|t d] Hlen; try done.
  cbn [zip_with]. rewrite !Forall_cons, IH; [done|]. by injection Hlen.
Qed.

Lemma Forall_zip_blocks {A B} (P : B → Prop) (q : list A) (d : list B) :
  length q = length d → Forall (λ x, P x.2) (zip q d) ↔ Forall P d.
Proof.
  revert d. induction q as [|r q IH]; intros [|t d] Hlen; try done.
  cbn [zip_with]. rewrite !Forall_cons, IH; [done|]. by injection Hlen.
Qed.

Lemma Forall_zip_swap {A B} (P : A → B → Prop) (q : list A) (d : list B) :
  Forall (λ x, P x.1 x.2) (zip q d) ↔ Forall (λ p, P p.2 p.1) (zip d q).
Proof.
  revert d. induction q as [|r q IH]; intros [|t d]; try done.
  cbn [zip_with]. by rewrite !Forall_cons, IH.
Qed.

Lemma find_common_type_idemp (dt : np_dtype) : find_common_type dt dt = dt.
Proof. by destruct dt. Qed.

Lemma blocks_shaped_table (a : Array) :
  blocks_shaped a = true ↔
  Forall (λ x, nd_shape x.2 = zip_with sector_size (legs a) x.1) (table a).
Proof.
  unfold blocks_shaped, table, _get_block_shape.
  generalize (_qdata a) as q. generalize (_data a) as d.
  induction d as [|t d IH]; intros [|r q]; try done.
  cbn [zip_with forallb fst snd].
  by rewrite andb_true_iff, Forall_cons, bool_decide_eq_true, IH.
Qed.

Section blockwise_invariants.
Variable func : ndarray → ndarray → ndarray.
Hypothesis func_dtype : ∀ s t,
  nd_dtype (func s t) = find_common_type (nd_dtype s) (nd_dtype t).
Hypothesis func_shape : ∀ s t, nd_shape (func s t) = nd_shape s.

Lemma blockwise_invariants (a b r : Array) :
  test_sanity a = Ok () → test_sanity b = Ok () →
  rows_distinct a = true → rows_distinct b = true →
  rank a = rank b → dtype a = dtype b →
  ibinary_blockwise func a b = Ok r →
  test_sanity r = Ok () ∧ rows_distinct r = true ∧ dtype r = dtype a ∧
  (∀ row, row ∈ _qdata r ↔ row ∈ _qdata a ∨ row ∈ _qdata b) ∧
  (blocks_shaped a = true → blocks_shaped b = true →
   blocks_shaped r = true) ∧
  (chinfo a = chinfo b → qtotal a = qtotal b →
   charges_conserved a = true → charges_conserved b = true →
   charges_conserved r = true).
Proof using func_dtype func_shape.
  intros Ha Hb Hda Hdb Hrk Hdte Hr.
  assert (Hleg : for_each (λ p, test_equal p.1 p.2)
                   (zip (legs a) (legs b)) = Ok ()).
  { unfold ibinary_blockwise in Hr.
    by destruct (for_each _ _) as [[]|]. }
  pose proof (rank_legs _ Ha) as Hrka. pose proof (rank_legs _ Hb) as Hrkb.
  assert (Hq : Forall2 (λ la lb, qind la = qind lb ∧ qconj la = qconj lb)
                 (legs a) (legs b)).
  { apply for_each_equal_conj; [congruence|done]. }
  assert (Hq' : Forall2 (λ la lb, qind la = qind lb) (legs a) (legs b)).
  { eapply Forall2_impl; [exact Hq|]. by intros ?? [? _]. }
  destruct (ibinary_blockwise_table func a b r Ha Hb Hda Hdb Hrk Hr)
    as ((Hci & Hl & Hsh & Hqt & Hlab & Hflag) & Hlen & Hdt & Hs & Hrows & HQ).
  destruct (test_sanity_Forall _ Ha) as (Hsha & Hdta & Hlsa & Hlena & Hrga & _).
  destruct (test_sanity_Forall _ Hb) as (_ & Hdtb & _ & Hlenb & Hrgb & _).
  assert (Hdtr : Forall (λ d, nd_dtype d = dtype a) (_data r)).
  { apply (Forall_zip_blocks (λ d, nd_dtype d = dtype a)
             (_qdata r) (_data r) Hlen).
    apply (HQ (λ _ t, nd_dtype t = dtype a)).
    - intros _ s t Hs' Ht'. by rewrite func_dtype, Hs', Ht',
        find_common_type_idemp.
    - intros _ s Hs'. rewrite func_dtype. cbn. by rewrite Hs',
        find_common_type_idemp.
    - intros _ t Ht'. rewrite func_dtype. cbn. by rewrite Ht',
        find_common_type_idemp.
    - by apply (Forall_zip_blocks (λ d, nd_dtype d = dtype a)
                  (_qdata a) (_data a) Hlena).
    - apply (Forall_zip_blocks (λ d, nd_dtype d = dtype a)
               (_qdata b) (_data b) Hlenb).
      by rewrite Hdte. }
  assert (Hdtr' : dtype r = dtype a).
  { rewrite Hdt. destruct (_data r) as [|t d]; [done|].
    by apply Forall_inv in Hdtr. }
  assert (Hrg : Forall (row_in_range (legs a)) (_qdata r)).
  { apply Forall_forall. intros row Hrow. apply Hrows in Hrow as [Hrow|Hrow].
    - rewrite Forall_forall in Hrga. by apply Hrga.
    - rewrite Forall_forall in Hrgb.
      apply (equal_slices (legs a) (legs b) row Hq'). by apply Hrgb. }
  split.
  { apply test_sanity_intro.
    - by rewrite Hsh, Hl.
    - by rewrite Hdtr'.
    - by rewrite Hci, Hl.
    - done.
    - by rewrite Hl.
    - intros _. by apply argsort_by_sorted, Sorted_row_lt_le. }
  split.
  { apply bool_decide_eq_true. eapply StronglySorted_NoDup; [|exact Hs].
    intros x Hx. by rewrite row_lt_irrefl in Hx. }
  split; [done|]. split; [done|]. split.
  - intros Hsa Hsb. apply blocks_shaped_table. rewrite Hl.
    apply blocks_shaped_table in Hsa, Hsb.
    apply (HQ (λ row t, nd_shape t = zip_with sector_size (legs a) row)).
    + intros row s t Hs' _. by rewrite func_shape.
    + intros row s Hs'. by rewrite func_shape.
    + intros row t Ht'. by rewrite func_shape.
    + done.
    + eapply Forall_impl; [exact Hsb|]. intros p Hp. cbn beta in *.
      rewrite Hp.
      by destruct (equal_legs_charges (legs a) (legs b) p.1 Hq) as [_ ->].
  - intros Hcie Hqte Hca Hcb. unfold charges_conserved.
    apply forallb_Forall, Forall_forall. intros row Hrow.
    apply bool_decide_eq_true. unfold _get_block_charge.
    rewrite Hci, Hl, Hqt.
    unfold charges_conserved in Hca, Hcb.
    apply forallb_Forall in Hca, Hcb.
    rewrite Forall_forall in Hca, Hcb.
    apply Hrows in Hrow as [Hrow|Hrow].
    + specialize (Hca row Hrow). by apply bool_decide_eq_true in Hca.
    + specialize (Hcb row Hrow). apply bool_decide_eq_true in Hcb.
      unfold _get_block_charge in Hcb. rewrite <- Hcie, <- Hqte in Hcb.
      by destruct (equal_legs_charges (legs a) (legs b) row Hq) as [<- _].
Qed.
End blockwise_invariants.

(** X16: for two Arrays of one rank and one dtype that pass [test_sanity]
    and store no row twice, the result of [a + b], [a += b], [a - b] or
    [a -= b], when the call returns, passes [test_sanity], keeps the dtype,
    stores no row twice, and stores exactly the rows that [a] or [b]
    stores. Its blocks have the shapes of their sectors when those of [a]
    and [b] do, and the charges of its rows are the total charge when that
    holds of [a] and [b] and the two have one [ChargeInfo] and one total
    charge. *)
Theorem add_sub_keep_invariants (a b r : Array) :
  test_sanity a = Ok () → test_sanity b = Ok () →
  rows_distinct a = true → rows_distinct b = true →
  rank a = rank b → dtype a = dtype b →
  __add__ a b = Ok r ∨ __iadd__ a b = Ok r ∨
  __sub__ a b = Ok r ∨ __isub__ a b = Ok r →
  test_sanity r = Ok () ∧ rows_distinct r = true ∧ dtype r = dtype a ∧
  (∀ row, row ∈ _qdata r ↔ row ∈ _qdata a ∨ row ∈ _qdata b) ∧
  (blocks_shaped a = true → blocks_shaped b = true →
   blocks_shaped r = true) ∧
  (chinfo a = chinfo b → qtotal a = qtotal b →
   charges_conserved a = true → charges_conserved b = true →
   charges_conserved r = true).
Proof.
  intros Ha Hb Hda Hdb Hrk Hdt [Hr|[Hr|[Hr|Hr]]].
  - by apply (blockwise_invariants np_ufunc_add (λ _ _, eq_refl)
                (λ _ _, eq_refl) a b r).
  - by apply (blockwise_invariants np_ufunc_add (λ _ _, eq_refl)
                (λ _ _, eq_refl) a b r).
  - by apply (blockwise_invariants np_ufunc_subtract (λ _ _, eq_refl)
                (λ _ _, eq_refl) a b r).
  - by apply (blockwise_invariants np_ufunc_subtract (λ _ _, eq_refl)
                (λ _ _, eq_refl) a b r).
Qed.

Lemma add_sub_keep_invariants_witness :
  test_sanity ex_second = Ok () ∧ test_sanity ex_eye_unsorted = Ok () ∧
  rows_distinct ex_second = true ∧ rows_distinct ex_eye_unsorted = true ∧
  rank ex_second = rank ex_eye_unsorted ∧
  dtype ex_second = dtype ex_eye_unsorted ∧
  (__add__ ex_second ex_eye_unsorted = Ok ex_sum ∨
   __iadd__ ex_second ex_eye_unsorted = Ok ex_sum ∨
   __sub__ ex_second ex_eye_unsorted = Ok ex_sum ∨
   __isub__ ex_second ex_eye_unsorted = Ok ex_sum) ∧
  test_sanity ex_sum = Ok () ∧ rows_distinct ex_sum = true ∧
  dtype ex_sum = dtype ex_second ∧
  (∀ row, row ∈ _qdata ex_sum ↔
          row ∈ _qdata ex_second ∨ row ∈ _qdata ex_eye_unsorted) ∧
  (blocks_shaped ex_second = true → blocks_shaped ex_eye_unsorted = true →
   blocks_shaped ex_sum = true) ∧
  (chinfo ex_second = chinfo ex_eye_unsorted →
   qtotal ex_second = qtotal ex_eye_unsorted →
   charges_conserved ex_second = true →
   charges_conserved ex_eye_unsorted = true →
   charges_conserved ex_sum = true).
Proof.
  assert (H1 : test_sanity ex_second = Ok ()) by (vm_compute; reflexivity).
  assert (H2 : test_sanity ex_eye_unsorted = Ok ()) by (vm_compute; reflexivity).
  assert (H3 : rows_distinct ex_second = true) by (vm_compute; reflexivity).
  assert (H4 : rows_distinct ex_eye_unsorted = true) by (vm_compute; reflexivity).
  assert (H5 : rank ex_second = rank ex_eye_unsorted) by reflexivity.
  assert (H6 : dtype ex_second = dtype ex_eye_unsorted) by reflexivity.
  assert (H7 : __add__ ex_second ex_eye_unsorted = Ok ex_sum ∨
               __iadd__ ex_second ex_eye_unsorted = Ok ex_sum ∨
               __sub__ ex_second ex_eye_unsorted = Ok ex_sum ∨
               __isub__ ex_second ex_eye_unsorted = Ok ex_sum)
    by (left; vm_compute; reflexivity).
  split; [exact H1|]. split; [exact H2|]. split; [exact H3|].
  split; [exact H4|]. split; [exact H5|]. split; [exact H6|].
  split; [exact H7|].
  exact (add_sub_keep_invariants ex_second ex_eye_unsorted ex_sum
           H1 H2 H3 H4 H5 H6 H7).
Defined.

(** The dtypes have to agree: an integer block that only the receiver
    stores stays an integer block beside the float blocks of the sum. *)
Example add_mixed_dtypes :
  test_sanity ex_eye_int = Ok () ∧ test_sanity ex_second = Ok () ∧
  ∃ r, __add__ ex_eye_int ex_second = Ok r ∧
       nd_dtype <$> _data r = [dt_int; dt_float] ∧
       test_sanity r = Raise (ValueError "wrong dtype").
Proof.
  split; [by vm_compute|]. split; [by vm_compute|].
  eexists. split; [reflexivity|]. split; by vm_compute.
Qed.


(** ** [astype] *)

Lemma astype_data (a : Array) (dt : np_dtype) :
  Forall (λ d, nd_dtype d = dtype a) (_data a) →
  _data (astype a dt) = _data a.
Proof.
  intros H. unfold astype. cbn. induction H as [|t d Ht _ IH]; [done|].
  rewrite fmap_cons, IH. f_equal. destruct t. cbn in Ht. by rewrite <- Ht.
Qed.

(** X17: on an Array that passes [test_sanity], [astype] with a given dtype
    sets the [dtype] attribute but leaves every block, and so the dense
    entries, as they are. The result passes [test_sanity] exactly when no
    block is stored or the new dtype is the old one. *)
Theorem astype_keeps_blocks (a : Array) (dt : np_dtype) :
  test_sanity a = Ok () →
  dtype (astype a dt) = dt ∧
  _data (astype a dt) = _data a ∧ _qdata (astype a dt) = _qdata a ∧
  Forall (λ d, nd_dtype d = dtype a) (_data (astype a dt)) ∧
  (∀ idx, nd_at (to_ndarray (astype a dt)) idx = nd_at (to_ndarray a) idx) ∧
  (test_sanity (astype a dt) = Ok () ↔ _data a = [] ∨ dt = dtype a).
Proof.
  intros Hs.
  destruct (test_sanity_Forall _ Hs) as (Hsh & Hdt & Hl & Hlen & Hrg & Hsorted).
  pose proof (astype_data a dt Hdt) as Hd.
  split; [done|]. split; [done|]. split; [done|].
  split; [by rewrite Hd|]. split.
  { intros idx. rewrite !to_ndarray_table. unfold table. rewrite Hd.
    change (_qdata (astype a dt)) with (_qdata a).
    change (legs (astype a dt)) with (legs a).
    change (shape (astype a dt)) with (shape a).
    change (dtype (astype a dt)) with dt.
    generalize (zip (_qdata a) (_data a)) as T.
    intros T.
    assert (H : ∀ s s', nd_at s = nd_at s' →
              nd_at (foldl (λ res (x : list nat * ndarray),
                       nd_set_slices res (zip_with get_slice (legs a) x.1) x.2)
                      s T) =
              nd_at (foldl (λ res (x : list nat * ndarray),
                       nd_set_slices res (zip_with get_slice (legs a) x.1) x.2)
                      s' T)).
    { induction T as [|x T IH]; intros s s' Hss; [done|].
      cbn [foldl]. apply IH. cbn. by rewrite Hss. }
    by rewrite (H (np_zeros (shape a) dt) (np_zeros (shape a) (dtype a))). }
  split.
  - intros Hs'. destruct (test_sanity_Forall _ Hs') as (_ & Hdt' & _).
    rewrite Hd in Hdt'. change (dtype (astype a dt)) with dt in Hdt'.
    destruct (_data a) as [|t d]; [by left|right].
    apply Forall_inv in Hdt, Hdt'. congruence.
  - intros Hcase. apply test_sanity_intro; rewrite ?Hd; try done.
    change (dtype (astype a dt)) with dt.
    destruct Hcase as [->| ->]; [constructor|done].
Qed.

Lemma astype_keeps_blocks_witness :
  test_sanity ex_eye = Ok () ∧
  dtype (astype ex_eye dt_complex) = dt_complex ∧
  _data (astype ex_eye dt_complex) = _data ex_eye ∧
  _qdata (astype ex_eye dt_complex) = _qdata ex_eye ∧
  Forall (λ d, nd_dtype d = dtype ex_eye) (_data (astype ex_eye dt_complex)) ∧
  (∀ idx, nd_at (to_ndarray (astype ex_eye dt_complex)) idx =
          nd_at (to_ndarray ex_eye) idx) ∧
  (test_sanity (astype ex_eye dt_complex) = Ok () ↔
   _data ex_eye = [] ∨ dt_complex = dtype ex_eye).
Proof.
  assert (H1 : test_sanity ex_eye = Ok ()) by (vm_compute; reflexivity).
  split; [exact H1|]. exact (astype_keeps_blocks ex_eye dt_complex H1).
Defined.


(** ** Transposition *)

Lemma axes_Permutation (n : nat) (ax : list nat) :
  NoDup ax → length ax = n → Forall (λ p, p < n) ax → ax ≡ₚ seq 0 n.
Proof.
  intros Hnd Hlen Hlt. apply submseteq_length_Permutation.
  - apply NoDup_submseteq; [done|]. intros x Hx.
    rewrite Forall_forall in Hlt. apply elem_of_seq. specialize (Hlt x Hx). lia.
  - rewrite length_seq. lia.
Qed.

Lemma py_list_get_nat {A} `{Inhabited A} (l : list A) (p : nat) :
  p < length l → py_list_get l (Z.of_nat p) = Ok (l !!! p).
Proof.
  intros Hp. unfold py_list_get. rewrite bool_decide_eq_true_2 by lia.
  rewrite Nat2Z.id. unfold py_index.
  destruct (lookup_lt_is_Some_2 l p Hp) as [x Hx]. rewrite Hx.
  by rewrite (list_lookup_total_correct _ _ _ Hx).
Qed.

Lemma map_py_list_get {A} `{Inhabited A} (l : list A) (ax : list nat) :
  Forall (λ p, p < length l) ax →
  map_result (py_list_get l) (Z.of_nat <$> ax) = Ok (fancy l ax).
Proof.
  intros Hlt. unfold fancy.
  rewrite (map_result_Ok (py_list_get l) (λ z, l !!! Z.to_nat z)).
  - rewrite <- list_fmap_compose. f_equal. apply list_fmap_ext.
    intros i p _. cbn. by rewrite Nat2Z.id.
  - apply Forall_fmap. eapply Forall_impl; [exact Hlt|]. intros p Hp.
    cbn beta in Hp.
    change (py_list_get l (Z.of_nat p) = Ok (l !!! Z.to_nat (Z.of_nat p))).
    rewrite Nat2Z.id. by apply py_list_get_nat.
Qed.

Lemma map_normalize_axis (n : nat) (ax : list nat) :
  Forall (λ p, p < n) ax →
  map_result (normalize_axis n) (Z.of_nat <$> ax) = Ok ax.
Proof.
  intros Hlt.
  rewrite (map_result_Ok (normalize_axis n) Z.to_nat).
  - rewrite <- list_fmap_compose. f_equal. rewrite <- (list_fmap_id ax) at 2.
    apply list_fmap_ext. intros i p _. cbn. by rewrite Nat2Z.id.
  - apply Forall_fmap. eapply Forall_impl; [exact Hlt|]. intros p Hp.
    change (normalize_axis n (Z.of_nat p) = Ok (Z.to_nat (Z.of_nat p))).
    cbn beta in Hp.
    unfold normalize_axis. rewrite bool_decide_eq_true_2; [done|lia].
Qed.

Lemma np_transpose_nat (t : ndarray) (ax : list nat) :
  NoDup ax → length ax = length (nd_shape t) →
  Forall (λ p, p < length (nd_shape t)) ax →
  np_transpose t (Z.of_nat <$> ax) =
    Ok {| nd_shape := fancy (nd_shape t) ax; nd_dtype := nd_dtype t;
          nd_at := λ idx, nd_at t (fancy idx (inverse_axes ax)) |}.
Proof.
  intros Hnd Hlen Hlt. unfold np_transpose.
  rewrite length_fmap, (bool_decide_eq_true_2 _ Hlen). cbn [negb].
  rewrite (map_normalize_axis _ _ Hlt). cbn [mbind result_bind].
  by rewrite (bool_decide_eq_true_2 _ Hnd).
Qed.

(** Undoing a permutation of the axes. *)
Lemma fancy_inverse_axes {A} `{Inhabited A} (x : list A) (ax : list nat) :
  ax ≡ₚ seq 0 (length x) →
  fancy (fancy x ax) (inverse_axes ax) = x.
Proof.
  intros Hp. assert (Hlen : length ax = length x).
  { by rewrite Hp, length_seq. }
  unfold inverse_axes. rewrite Hlen. unfold fancy at 1.
  rewrite <- list_fmap_compose.
  rewrite <- (fancy_seq x) at 2. unfold fancy at 2.
  apply list_fmap_ext. intros i j Hj. cbn.
  apply lookup_seq in Hj as [Hji Hj]. cbn in Hji. subst j.
  assert (Hin : i ∈ ax) by (rewrite Hp; apply elem_of_seq; lia).
  destruct (list_find (λ p, p = i) ax) as [[k p]|] eqn:E.
  - apply list_find_Some in E as (Hk & -> & _). cbn.
    unfold fancy. apply list_lookup_total_correct.
    by rewrite list_lookup_fmap, Hk.
  - apply list_find_None in E. rewrite Forall_forall in E.
    by specialize (E i Hin).
Qed.

Lemma fancy_length {A} `{Inhabited A} (l : list A) (ax : list nat) :
  length (fancy l ax) = length ax.
Proof. unfold fancy. by rewrite length_fmap. Qed.

Lemma fancy_zip_with {A B C} `{Inhabited A} `{Inhabited B} `{Inhabited C}
    (f : A → B → C) (l : list A) (k : list B) (ax : list nat) :
  length l = length k → Forall (λ p, p < length l) ax →
  zip_with f (fancy l ax) (fancy k ax) = fancy (zip_with f l k) ax.
Proof.
  intros Hlen. unfold fancy. induction 1 as [|p ax Hp _ IH]; [done|].
  rewrite !fmap_cons. cbn [zip_with]. rewrite IH. f_equal.
  destruct (lookup_lt_is_Some_2 l p Hp) as [x Hx].
  destruct (lookup_lt_is_Some_2 k p) as [y Hy]; [lia|].
  rewrite (list_lookup_total_correct _ _ _ Hx).
  rewrite (list_lookup_total_correct _ _ _ Hy).
  symmetry. apply list_lookup_total_correct.
  by rewrite lookup_zip_with, Hx, Hy.
Qed.

Lemma forallb_Permutation {A} (P : A → bool) (l k : list A) :
  l ≡ₚ k → forallb P l = forallb P k.
Proof.
  induction 1 as [|x l k _ IH|x y l|l k m _ IH1 _ IH2]; cbn [forallb].
  - done.
  - by rewrite IH.
  - by rewrite !andb_assoc, (andb_comm (P y)).
  - by rewrite IH1.
Qed.

Lemma axes_in_range (n : nat) (ax : list nat) :
  ax ≡ₚ seq 0 n → length ax = n ∧ Forall (λ p, p < n) ax ∧ NoDup ax.
Proof.
  intros Hp. split; [by rewrite Hp, length_seq|]. split.
  - apply Forall_forall. intros p Hin. rewrite Hp in Hin.
    apply elem_of_seq in Hin. lia.
  - rewrite Hp. apply NoDup_seq.
Qed.

Lemma in_slices_fancy (sl : list (nat * nat)) (jdx ax : list nat) :
  length jdx = length sl → ax ≡ₚ seq 0 (length sl) →
  in_slices (fancy sl ax) (fancy jdx ax) = in_slices sl jdx.
Proof.
  intros Hlen Hp. destruct (axes_in_range _ _ Hp) as (Hax & Hlt & _).
  unfold in_slices. rewrite !fancy_length.
  rewrite !bool_decide_eq_true_2 by done. rewrite !andb_true_l.
  rewrite fancy_zip; [|done|by rewrite Hlen].
  apply forallb_Permutation, fancy_Permutation.
  by rewrite length_zip, Hlen, Nat.min_id.
Qed.

(** The transpose of a block along a permutation of its axes. *)
Lemma foldl_set_slices_transposed (ls : list LegCharge) (ax jdx : list nat)
    (tr : ndarray → ndarray) (T : list (list nat * ndarray)) :
  ax ≡ₚ seq 0 (length ls) → length jdx = length ls →
  (∀ t idx, nd_at (tr t) idx = nd_at t (fancy idx (inverse_axes ax))) →
  Forall (λ x, length x.1 = length ls) T →
  ∀ res res', nd_at res' (fancy jdx ax) = nd_at res jdx →
  nd_at (foldl (λ res (x : list nat * ndarray),
                  nd_set_slices res (zip_with get_slice (fancy ls ax) x.1) x.2)
               res' ((λ x, (fancy x.1 ax, tr x.2)) <$> T)) (fancy jdx ax) =
  nd_at (foldl (λ res (x : list nat * ndarray),
                  nd_set_slices res (zip_with get_slice ls x.1) x.2)
               res T) jdx.
Proof.
  intros Hp Hj Htr. destruct (axes_in_range _ _ Hp) as (Hax & Hlt & _).
  induction 1 as [|x T Hx _ IH]; intros res res' Hres; [done|].
  rewrite fmap_cons. cbn [foldl]. apply IH. cbn [nd_at nd_set_slices fst snd].
  assert (Hsl : length (zip_with get_slice ls x.1) = length ls).
  { rewrite length_zip_with. lia. }
  rewrite (fancy_zip_with get_slice ls x.1 ax) by done.
  rewrite in_slices_fancy by (by rewrite Hsl).
  destruct (in_slices _ jdx); [|done].
  rewrite Htr. f_equal.
  rewrite (fancy_zip_with (λ i (s : nat * nat), i - s.1) jdx _ ax);
    [|by rewrite Hsl|by rewrite Hj].
  apply fancy_inverse_axes. rewrite length_zip_with, Hsl, Hj, Nat.min_id.
  done.
Qed.

Lemma set_leg_labels_Ok (a a' : Array) (lbs : list (option string)) :
  set_leg_labels a lbs = Ok a' → ∃ m, a' = set_labels m a.
Proof.
  unfold set_leg_labels. destruct (negb _); [done|].
  destruct (set_leg_labels_loop 0 lbs ∅) as [m|]; [|done].
  intros [= <-]. by exists m.
Qed.

Lemma get_leg_labels_length (a : Array) (labs : list (option string)) :
  get_leg_labels a = Ok labs → length labs = rank a.
Proof.
  unfold get_leg_labels.
  assert (H : ∀ (L : list (string * nat)) acc lb,
            foldl (λ acc (kv : string * nat),
                     lb ← acc; py_list_set lb kv.2 (Some kv.1)) acc L = Ok lb →
            ∃ lb0, acc = Ok lb0 ∧ length lb = length lb0).
  { induction L as [|kv L IH]; intros acc lb Hf.
    - exists lb. by rewrite <- Hf.
    - cbn [foldl] in Hf. apply IH in Hf as (lb1 & Hlb1 & Hlen).
      destruct acc as [lb0|]; [|done]. exists lb0. split; [done|].
      cbn [mbind result_bind] in Hlb1. unfold py_list_set in Hlb1.
      destruct (_ <? _); [|done]. injection Hlb1 as <-.
      by rewrite Hlen, length_insert. }
  intros Hf. apply H in Hf as (lb0 & [= <-] & ->).
  by rewrite length_replicate.
Qed.

Lemma zip_fmap_both {A B C D} (f : A → C) (g : B → D) (l : list A) (k : list B) :
  zip (f <$> l) (g <$> k) = (λ x, (f x.1, g x.2)) <$> zip l k.
Proof.
  revert k. induction l as [|x l IH]; intros [|y k]; try done.
  cbn. by rewrite <- IH.
Qed.

Lemma row_in_range_fancy (ls : list LegCharge) (row ax : list nat) :
  row_in_range ls row → Forall (λ p, p < length ls) ax →
  row_in_range (fancy ls ax) (fancy row ax).
Proof.
  intros Hr Hlt. unfold row_in_range, fancy in *.
  apply Forall2_fmap. induction Hlt as [|p ax Hp _ IH]; constructor; [|done].
  cbn. pose proof (Forall2_length _ _ _ Hr) as Hlen.
  destruct (lookup_lt_is_Some_2 ls p Hp) as [l Hl].
  destruct (lookup_lt_is_Some_2 row p) as [qi Hqi]; [lia|].
  rewrite (list_lookup_total_correct _ _ _ Hl).
  rewrite (list_lookup_total_correct _ _ _ Hqi).
  by eapply (Forall2_lookup_lr _ _ _ _ _ _ Hr).
Qed.

(** The Array that [itranspose] leaves for a permutation [ax] of the axes;
    [m] is the new dictionary of labels. *)
Lemma itranspose_eval (a : Array) (ax : list nat)
    (labs : list (option string)) :
  test_sanity a = Ok () → blocks_shaped a = true →
  get_leg_labels a = Ok labs →
  Forall (λ l, l ≠ Some EmptyString) labs → NoDup (omap id labs) →
  ax ≡ₚ seq 0 (rank a) →
  ∃ m r,
    itranspose_axes a (Z.of_nat <$> ax) = Ok r ∧
    r = mkArray (chinfo a) (fancy (legs a) ax) (ind_len <$> fancy (legs a) ax)
          (dtype a) (qtotal a) m
          ((λ t, {| nd_shape := fancy (nd_shape t) ax; nd_dtype := nd_dtype t;
                    nd_at := λ idx, nd_at t (fancy idx (inverse_axes ax)) |})
             <$> _data a)
          ((λ r, fancy r ax) <$> _qdata a) false ∧
    get_leg_labels r = Ok (fancy labs ax).
Proof.
  intros Hs Hsh Hlabs Hne Hnd Hp.
  destruct (axes_in_range _ _ Hp) as (Hax & Hlt & Hndax).
  pose proof (rank_legs _ Hs) as Hrk.
  pose proof (get_leg_labels_length _ _ Hlabs) as Hll.
  destruct (test_sanity_Forall _ Hs) as (_ & _ & _ & Hlen & _).
  set (s1 := _set_shape (set_legs (fancy (legs a) ax) a)).
  assert (Hrk1 : rank s1 = rank a).
  { unfold s1, rank. cbn. by rewrite length_fmap, fancy_length. }
  assert (Hlabs1 : get_leg_labels s1 = Ok labs).
  { unfold get_leg_labels. rewrite Hrk1. exact Hlabs. }
  destruct (set_leg_labels_round_trip s1 (fancy labs ax)) as (s2 & Hs2 & Hg2 & _).
  { by rewrite fancy_length, Hrk1. }
  { apply Forall_forall. intros l Hl. rewrite Forall_forall in Hne.
    apply Hne. rewrite <- (fancy_Permutation labs ax); [done|by rewrite Hll]. }
  { rewrite (fancy_Permutation labs ax); [done|by rewrite Hll]. }
  destruct (set_leg_labels_Ok _ _ _ Hs2) as [m ->].
  exists m. eexists. split; [|split; [reflexivity|]].
  - unfold itranspose_axes.
    rewrite map_py_list_get by (by rewrite <- Hrk).
    cbn [mbind result_bind]. fold s1. rewrite Hlabs1.
    cbn [mbind result_bind].
    rewrite map_py_list_get by (by rewrite Hll).
    cbn [mbind result_bind]. rewrite Hs2. cbn [mbind result_bind].
    change (_qdata (set_labels m s1)) with (_qdata a).
    rewrite (map_result_Ok _ (λ r, fancy r ax)).
    2:{ eapply Forall_impl; [exact (sane_rows _ Hs)|]. intros r [Hr _].
        apply map_py_list_get. by rewrite Hr. }
    cbn [mbind result_bind].
    change (_data (set_qdata_sorted false _)) with (_data a).
    rewrite (map_result_Ok _
      (λ t, {| nd_shape := fancy (nd_shape t) ax; nd_dtype := nd_dtype t;
               nd_at := λ idx, nd_at t (fancy idx (inverse_axes ax)) |})).
    2:{ apply blocks_shaped_table in Hsh.
        apply (Forall_zip_blocks
                 (λ t, np_transpose t (Z.of_nat <$> ax) = Ok _)
                 (_qdata a) (_data a) Hlen).
        pose proof (table_row_in_range _ Hs) as Hrg.
        unfold table in *.
        rewrite Forall_forall in Hsh, Hrg. apply Forall_forall.
        intros x Hin. pose proof (Hsh x Hin) as Hx.
        pose proof (Hrg x Hin) as Hrx. cbn beta in *.
        assert (Hnx : length (nd_shape x.2) = rank a).
        { rewrite Hx, length_zip_with. apply Forall2_length in Hrx. lia. }
        apply np_transpose_nat; rewrite ?Hnx; done. }
    cbn [mbind result_bind]. reflexivity.
  - unfold get_leg_labels in *. exact Hg2.
Qed.

Lemma itranspose_axes_spec (a : Array) (ax : list nat)
    (labs : list (option string)) :
  test_sanity a = Ok () → blocks_shaped a = true →
  get_leg_labels a = Ok labs →
  Forall (λ l, l ≠ Some EmptyString) labs → NoDup (omap id labs) →
  ax ≡ₚ seq 0 (rank a) →
  ∃ r, itranspose_axes a (Z.of_nat <$> ax) = Ok r ∧
       legs r = fancy (legs a) ax ∧
       test_sanity r = Ok () ∧ blocks_shaped r = true ∧
       get_leg_labels r = Ok (fancy labs ax) ∧
       ∀ jdx, length jdx = rank a →
              nd_at (to_ndarray r) (fancy jdx ax) = nd_at (to_ndarray a) jdx.
Proof.
  intros Hs Hsh Hlabs Hne Hnd Hp.
  destruct (itranspose_eval a ax labs Hs Hsh Hlabs Hne Hnd Hp)
    as (m & r & Hr & Hrec & Hlb).
  exists r. split; [done|].
  destruct (axes_in_range _ _ Hp) as (Hax & Hlt & Hndax).
  pose proof (rank_legs _ Hs) as Hrk.
  destruct (test_sanity_Forall _ Hs) as (_ & Hdt & Hl & Hlen & Hrg & _).
  pose proof (sane_rows _ Hs) as Hrows.
  split; [by rewrite Hrec|]. split; [|split; [|split; [done|]]].
  - apply test_sanity_intro; rewrite Hrec; cbn.
    + done.
    + apply Forall_fmap. eapply Forall_impl; [exact Hdt|]. by intros t Ht.
    + apply forallb_forall. intros l Hin. apply list_elem_of_In in Hin.
      unfold fancy in Hin. apply list_elem_of_fmap in Hin as (p & -> & Hin).
      rewrite forallb_forall in Hl. apply Hl, list_elem_of_In.
      apply list_elem_of_lookup_total_2. rewrite Forall_forall in Hlt.
      rewrite <- Hrk. by apply Hlt.
    + by rewrite !length_fmap.
    + apply Forall_fmap. eapply Forall_impl; [exact Hrg|]. intros row Hrow.
      apply row_in_range_fancy; [done|by rewrite <- Hrk].
    + intros [=].
  - apply blocks_shaped_table. rewrite Hrec. unfold table. cbn.
    rewrite zip_fmap_both. apply Forall_fmap.
    apply blocks_shaped_table in Hsh. pose proof (table_row_in_range _ Hs) as Hrt.
    unfold table in *. rewrite Forall_forall in Hsh, Hrt.
    apply Forall_forall. intros x Hin. cbn.
    rewrite (Hsh x Hin). symmetry. apply fancy_zip_with.
    + specialize (Hrt x Hin). apply Forall2_length in Hrt. lia.
    + by rewrite <- Hrk.
  - intros jdx Hj. rewrite !to_ndarray_table. rewrite Hrec. unfold table. cbn.
    rewrite zip_fmap_both.
    apply (foldl_set_slices_transposed (legs a) ax jdx
             (λ t, {| nd_shape := fancy (nd_shape t) ax;
                      nd_dtype := nd_dtype t;
                      nd_at := λ idx, nd_at t (fancy idx (inverse_axes ax)) |}));
      try done.
    + by rewrite <- Hrk.
    + by rewrite <- Hrk.
    + apply (Forall_zip_rows (λ r, length r = length (legs a))
               (_qdata a) (_data a) Hlen).
      eapply Forall_impl; [exact Hrows|]. intros row [Hrow _]. by rewrite <- Hrk.
Qed.

Lemma fancy_reverse {A} `{Inhabited A} (l : list A) :
  fancy l (reverse (seq 0 (length l))) = reverse l.
Proof.
  unfold fancy. rewrite fmap_reverse. f_equal. apply fancy_seq.
Qed.

(** X18: [itranspose] with a tuple of integers that names every axis of
    the Array once returns, for an Array that passes [test_sanity], whose
    blocks have the shapes of their sectors and whose labels are distinct
    and not empty. The result passes [test_sanity], its legs and labels are
    those of the Array in the new order, and its dense entry at a permuted
    multi-index is the entry of the Array at the multi-index. *)
Theorem itranspose_dense (a : Array) (ax : list nat)
    (labs : list (option string)) :
  test_sanity a = Ok () → blocks_shaped a = true →
  get_leg_labels a = Ok labs →
  Forall (λ l, l ≠ Some EmptyString) labs → NoDup (omap id labs) →
  NoDup ax → length ax = rank a → Forall (λ p, p < rank a) ax →
  ∃ r, itranspose a (Some (LInt <$> (Z.of_nat <$> ax))) = Ok r ∧
       transpose a (Some (LInt <$> (Z.of_nat <$> ax))) = Ok r ∧
       legs r = fancy (legs a) ax ∧
       test_sanity r = Ok () ∧ blocks_shaped r = true ∧
       get_leg_labels r = Ok (fancy labs ax) ∧
       ∀ jdx, length jdx = rank a →
              nd_at (to_ndarray r) (fancy jdx ax) = nd_at (to_ndarray a) jdx.
Proof.
  intros Hs Hsh Hlabs Hne Hnd Hndax Hax Hlt.
  pose proof (axes_Permutation _ _ Hndax Hax Hlt) as Hp.
  pose proof (rank_legs _ Hs) as Hrk.
  pose proof (get_leg_labels_length _ _ Hlabs) as Hll.
  assert (Heval : itranspose a (Some (LInt <$> (Z.of_nat <$> ax))) =
                  if bool_decide (ax = seq 0 (rank a)) then Ok a
                  else itranspose_axes a (Z.of_nat <$> ax)).
  { unfold itranspose. rewrite get_leg_indices_in_range.
    2:{ apply Forall_fmap. eapply Forall_impl; [exact Hlt|]. intros p Hp'.
        cbn in *. lia. }
    cbn [mbind result_bind]. rewrite length_fmap.
    rewrite (bool_decide_eq_true_2 _ Hax).
    rewrite remove_dups_NoDup.
    2:{ apply NoDup_fmap; [|done]. intros ??. apply Nat2Z.inj. }
    rewrite length_fmap, (bool_decide_eq_true_2 _ Hax). cbn [negb orb].
    destruct (decide (ax = seq 0 (rank a))) as [Heq|Hneq].
    - rewrite !bool_decide_eq_true_2; [done|done|by rewrite Heq].
    - rewrite !bool_decide_eq_false_2; [done|done|].
      intros Heq. apply Hneq. eapply (inj (fmap Z.of_nat)), Heq. }
  unfold transpose, copy. rewrite Heval. clear Heval.
  destruct (decide (ax = seq 0 (rank a))) as [->|Hneq].
  - rewrite bool_decide_eq_true_2 by done. exists a.
    split; [done|]. split; [done|].
    split; [by rewrite Hrk, fancy_seq|]. split; [done|]. split; [done|].
    split; [by rewrite <- Hll, fancy_seq|].
    intros jdx Hj. by rewrite <- Hj, fancy_seq.
  - rewrite bool_decide_eq_false_2 by done.
    destruct (itranspose_axes_spec a ax labs Hs Hsh Hlabs Hne Hnd Hp)
      as (r & Hr & Hrest).
    exists r. split; [done|]. split; [done|]. done.
Qed.

Lemma itranspose_dense_witness :
  test_sanity ex_odd = Ok () ∧ blocks_shaped ex_odd = true ∧
  get_leg_labels ex_odd = Ok [None; None] ∧
  Forall (λ l : option string, l ≠ Some EmptyString) [None; None] ∧
  NoDup (omap id [None; None] : list string) ∧
  NoDup [1; 0] ∧ length [1; 0] = rank ex_odd ∧
  Forall (λ p, p < rank ex_odd) [1; 0] ∧
  ∃ r, itranspose ex_odd (Some (LInt <$> (Z.of_nat <$> [1; 0]))) = Ok r ∧
       transpose ex_odd (Some (LInt <$> (Z.of_nat <$> [1; 0]))) = Ok r ∧
       legs r = fancy (legs ex_odd) [1; 0] ∧
       test_sanity r = Ok () ∧ blocks_shaped r = true ∧
       get_leg_labels r = Ok (fancy [None; None] [1; 0]) ∧
       ∀ jdx, length jdx = rank ex_odd →
              nd_at (to_ndarray r) (fancy jdx [1; 0]) =
              nd_at (to_ndarray ex_odd) jdx.
Proof.
  assert (H1 : test_sanity ex_odd = Ok ()) by (vm_compute; reflexivity).
  assert (H2 : blocks_shaped ex_odd = true) by (vm_compute; reflexivity).
  assert (H3 : get_leg_labels ex_odd = Ok [None; None])
    by (vm_compute; reflexivity).
  assert (H4 : Forall (λ l : option string, l ≠ Some EmptyString) [None; None])
    by (repeat constructor; discriminate).
  assert (H5 : NoDup (omap id [None; None] : list string)) by constructor.
  assert (H6 : NoDup [1; 0]) by (apply (bool_decide_eq_true_1 (NoDup [1; 0])); vm_compute; reflexivity).
  assert (H7 : length [1; 0] = rank ex_odd) by reflexivity.
  assert (H8 : Forall (λ p, p < rank ex_odd) [1; 0])
    by (repeat constructor; vm_compute; lia).
  split; [exact H1|]. split; [exact H2|]. split; [exact H3|].
  split; [exact H4|]. split; [exact H5|]. split; [exact H6|].
  split; [exact H7|]. split; [exact H8|].
  exact (itranspose_dense ex_odd [1; 0] [None; None] H1 H2 H3 H4 H5 H6 H7 H8).
Defined.

(** The transposed [ex_odd] holds its entry at the row [(0, 1)]. *)
Example itranspose_example :
  ∃ r, itranspose ex_odd (Some [LInt 1; LInt 0]) = Ok r ∧
       _qdata r = [[0; 1]] ∧ _qdata_sorted r = false ∧
       (λ idx, nd_at (to_ndarray r) idx) <$> [[0; 0]; [0; 1]; [1; 0]; [1; 1]] =
         [0; 5; 0; 0]%Z ∧
       (λ idx, nd_at (to_ndarray ex_odd) idx) <$>
         [[0; 0]; [0; 1]; [1; 0]; [1; 1]] = [0; 0; 5; 0]%Z.
Proof. eexists. split; [by vm_compute|]. by vm_compute. Qed.

Lemma itranspose_reverse (a : Array) (labs : list (option string)) :
  test_sanity a = Ok () → blocks_shaped a = true →
  get_leg_labels a = Ok labs →
  Forall (λ l, l ≠ Some EmptyString) labs → NoDup (omap id labs) →
  ∃ r, itranspose a None = Ok r ∧
       legs r = reverse (legs a) ∧ rank r = rank a ∧
       test_sanity r = Ok () ∧ blocks_shaped r = true ∧
       get_leg_labels r = Ok (reverse labs) ∧
       ∀ jdx, length jdx = rank a →
              nd_at (to_ndarray r) (reverse jdx) = nd_at (to_ndarray a) jdx.
Proof.
  intros Hs Hsh Hlabs Hne Hnd.
  pose proof (rank_legs _ Hs) as Hrk.
  pose proof (get_leg_labels_length _ _ Hlabs) as Hll.
  destruct (itranspose_axes_spec a (reverse (seq 0 (rank a))) labs
              Hs Hsh Hlabs Hne Hnd)
    as (r & Hr & Hlegs & Hsr & Hshr & Hlbr & Hdense).
  { apply reverse_Permutation. }
  exists r. split; [done|].
  assert (Hlegs' : legs r = reverse (legs a)).
  { by rewrite Hlegs, Hrk, fancy_reverse. }
  split; [done|]. split.
  { by rewrite (rank_legs _ Hsr), Hlegs', length_reverse. }
  split; [done|]. split; [done|]. split.
  { by rewrite Hlbr, <- Hll, fancy_reverse. }
  intros jdx Hj. rewrite <- (Hdense jdx Hj). by rewrite <- Hj, fancy_reverse.
Qed.

(** X19: [itranspose] without [axes] reverses the legs, the labels and the
    axes of the dense array, for an Array that passes [test_sanity], whose
    blocks have the shapes of their sectors and whose labels are distinct
    and not empty; a second call gives back the legs, the labels and the
    dense entries of the Array. *)
Theorem itranspose_twice (a : Array) (labs : list (option string)) :
  test_sanity a = Ok () → blocks_shaped a = true →
  get_leg_labels a = Ok labs →
  Forall (λ l, l ≠ Some EmptyString) labs → NoDup (omap id labs) →
  ∃ r r2, itranspose a None = Ok r ∧ itranspose r None = Ok r2 ∧
    legs r = reverse (legs a) ∧ get_leg_labels r = Ok (reverse labs) ∧
    test_sanity r = Ok () ∧
    (∀ jdx, length jdx = rank a →
            nd_at (to_ndarray r) (reverse jdx) = nd_at (to_ndarray a) jdx) ∧
    legs r2 = legs a ∧ get_leg_labels r2 = Ok labs ∧
    test_sanity r2 = Ok () ∧
    (∀ jdx, length jdx = rank a →
            nd_at (to_ndarray r2) jdx = nd_at (to_ndarray a) jdx).
Proof.
  intros Hs Hsh Hlabs Hne Hnd.
  destruct (itranspose_reverse a labs Hs Hsh Hlabs Hne Hnd)
    as (r & Hr & Hlegs & Hrk & Hsr & Hshr & Hlbr & Hdense).
  destruct (itranspose_reverse r (reverse labs) Hsr Hshr Hlbr)
    as (r2 & Hr2 & Hlegs2 & Hrk2 & Hsr2 & Hshr2 & Hlbr2 & Hdense2).
  { apply Forall_reverse. done. }
  { by rewrite reverse_Permutation. }
  exists r, r2. split; [done|]. split; [done|]. split; [done|].
  split; [done|]. split; [done|]. split; [done|].
  split; [by rewrite Hlegs2, Hlegs, reverse_involutive|].
  split; [by rewrite Hlbr2, reverse_involutive|]. split; [done|].
  intros jdx Hj. rewrite <- (Hdense jdx Hj).
  rewrite <- (Hdense2 (reverse jdx)) by (by rewrite length_reverse, Hrk).
  by rewrite reverse_involutive.
Qed.

Lemma itranspose_twice_witness :
  test_sanity ex_odd = Ok () ∧ blocks_shaped ex_odd = true ∧
  get_leg_labels ex_odd = Ok [None; None] ∧
  Forall (λ l : option string, l ≠ Some EmptyString) [None; None] ∧
  NoDup (omap id [None; None] : list string) ∧
  ∃ r r2, itranspose ex_odd None = Ok r ∧ itranspose r None = Ok r2 ∧
    legs r = reverse (legs ex_odd) ∧
    get_leg_labels r = Ok (reverse [None; None]) ∧
    test_sanity r = Ok () ∧
    (∀ jdx, length jdx = rank ex_odd →
            nd_at (to_ndarray r) (reverse jdx) = nd_at (to_ndarray ex_odd) jdx) ∧
    legs r2 = legs ex_odd ∧ get_leg_labels r2 = Ok [None; None] ∧
    test_sanity r2 = Ok () ∧
    (∀ jdx, length jdx = rank ex_odd →
            nd_at (to_ndarray r2) jdx = nd_at (to_ndarray ex_odd) jdx).
Proof.
  assert (H1 : test_sanity ex_odd = Ok ()) by (vm_compute; reflexivity).
  assert (H2 : blocks_shaped ex_odd = true) by (vm_compute; reflexivity).
  assert (H3 : get_leg_labels ex_odd = Ok [None; None])
    by (vm_compute; reflexivity).
  assert (H4 : Forall (λ l : option string, l ≠ Some EmptyString) [None; None])
    by (repeat constructor; discriminate).
  assert (H5 : NoDup (omap id [None; None] : list string)) by constructor.
  split; [exact H1|]. split; [exact H2|]. split; [exact H3|].
  split; [exact H4|]. split; [exact H5|].
  exact (itranspose_twice ex_odd [None; None] H1 H2 H3 H4 H5).
Defined.

Lemma map_result_Raise {A B} (f : A → result B) (e : pyerr) (l : list A) :
  Forall (λ x, is_Ok (f x) = true ∨ f x = Raise e) l →
  Exists (λ x, f x = Raise e) l →
  map_result f l = Raise e.
Proof.
  induction 1 as [|x l Hx _ IH]; intros Hex; [by apply Exists_nil in Hex|].
  cbn [map_result]. destruct Hx as [Hx|Hx]; [|by rewrite Hx].
  destruct (f x) as [y|] eqn:E; [|done]. cbn [mbind result_bind].
  apply Exists_cons in Hex as [Hex|Hex]; [congruence|].
  by rewrite IH.
Qed.

Lemma remove_dups_length_lt {A} `{EqDecision A} (l : list A) :
  ¬ NoDup l → length (remove_dups l) < length l.
Proof.
  induction l as [|x l IH]; intros Hnd; [by destruct Hnd; constructor|].
  cbn [remove_dups length].
  assert (Hle : length (remove_dups l) ≤ length l).
  { clear. induction l as [|y l IH]; [done|]. cbn [remove_dups length].
    destruct (decide_rel elem_of y l); cbn [length]; lia. }
  destruct (decide_rel elem_of x l) as [Hin|Hin]; [lia|].
  cbn [length]. apply -> Nat.succ_lt_mono. apply IH.
  intros Hl. apply Hnd. by constructor.
Qed.

(** X20: for integer axes between [0] and the rank, [itranspose] raises
    [ValueError] when their number is not the rank or one is repeated.
    Axes that pass this check but contain the rank itself, which
    [get_leg_index] accepts, make the call raise [IndexError]. *)
Theorem itranspose_bad_axes (a : Array) (ax : list nat) :
  test_sanity a = Ok () → Forall (λ p, p ≤ rank a) ax →
  (length ax ≠ rank a ∨ ¬ NoDup ax →
   itranspose a (Some (LInt <$> (Z.of_nat <$> ax))) =
     Raise (ValueError "axes has wrong length")) ∧
  (length ax = rank a → NoDup ax → rank a ∈ ax →
   itranspose a (Some (LInt <$> (Z.of_nat <$> ax))) =
     Raise (IndexError "list index out of range")).
Proof.
  intros Hs Hle. pose proof (rank_legs _ Hs) as Hrk.
  assert (Hidx : get_leg_indices a (LInt <$> (Z.of_nat <$> ax)) =
                 Ok (Z.of_nat <$> ax)).
  { unfold get_leg_indices. clear Hs Hrk.
    induction Hle as [|p ax Hp _ IH]; [done|].
    rewrite !fmap_cons. cbn [map_result]. rewrite IH.
    unfold get_leg_index. cbn [mbind result_bind].
    rewrite (proj2 (Z.ltb_ge _ _)) by lia.
    by rewrite (proj2 (Z.ltb_ge _ _)) by lia. }
  unfold itranspose. rewrite Hidx. cbn [mbind result_bind].
  rewrite length_fmap. split.
  - intros Hbad. destruct (decide (length ax = rank a)) as [Hlen|Hlen].
    + destruct Hbad as [?|Hnd]; [done|].
      rewrite (bool_decide_eq_true_2 _ Hlen). cbn [negb orb].
      rewrite bool_decide_eq_false_2; [done|].
      assert (Hnd' : ¬ NoDup (Z.of_nat <$> ax)).
      { intros H. apply Hnd. by eapply NoDup_fmap_1. }
      apply remove_dups_length_lt in Hnd'. rewrite length_fmap in Hnd'. lia.
    + by rewrite (bool_decide_eq_false_2 _ Hlen).
  - intros Hlen Hnd Hin.
    rewrite (bool_decide_eq_true_2 _ Hlen).
    rewrite remove_dups_NoDup.
    2:{ apply NoDup_fmap; [|done]. intros ??. apply Nat2Z.inj. }
    rewrite length_fmap, (bool_decide_eq_true_2 _ Hlen). cbn [negb orb].
    rewrite bool_decide_eq_false_2.
    2:{ intros Heq. apply (inj (fmap Z.of_nat)) in Heq. rewrite Heq in Hin.
        apply elem_of_seq in Hin. lia. }
    unfold itranspose_axes.
    rewrite (map_result_Raise _ (IndexError "list index out of range")); [done| |].
    + apply Forall_fmap. eapply Forall_impl; [exact Hle|]. intros p Hp.
      cbn in *. unfold py_list_get.
      destruct (decide (p < rank a)) as [Hlt|Hge].
      * left. rewrite bool_decide_eq_true_2 by lia. unfold py_index.
        rewrite Nat2Z.id.
        destruct (lookup_lt_is_Some_2 (legs a) p) as [l Hl]; [lia|].
        by rewrite Hl.
      * right. rewrite !bool_decide_eq_false_2 by lia. done.
    + apply Exists_exists. exists (Z.of_nat (rank a)). split.
      * apply list_elem_of_fmap. by exists (rank a).
      * unfold py_list_get. rewrite !bool_decide_eq_false_2 by lia. done.
Qed.

Lemma itranspose_bad_axes_witness :
  test_sanity ex_eye = Ok () ∧ Forall (λ p, p ≤ rank ex_eye) [0; 2] ∧
  (length [0; 2] ≠ rank ex_eye ∨ ¬ NoDup [0; 2] →
   itranspose ex_eye (Some (LInt <$> (Z.of_nat <$> [0; 2]))) =
     Raise (ValueError "axes has wrong length")) ∧
  (length [0; 2] = rank ex_eye → NoDup [0; 2] → rank ex_eye ∈ [0; 2] →
   itranspose ex_eye (Some (LInt <$> (Z.of_nat <$> [0; 2]))) =
     Raise (IndexError "list index out of range")).
Proof.
  assert (H1 : test_sanity ex_eye = Ok ()) by (vm_compute; reflexivity).
  assert (H2 : Forall (λ p, p ≤ rank ex_eye) [0; 2])
    by (repeat constructor; vm_compute; lia).
  split; [exact H1|]. split; [exact H2|].
  exact (itranspose_bad_axes ex_eye [0; 2] H1 H2).
Defined.

Example itranspose_rank_axis :
  itranspose ex_eye (Some [LInt 0; LInt 2]) =
    Raise (IndexError "list index out of range") ∧
  itranspose ex_eye (Some [LInt 0; LInt 0]) =
    Raise (ValueError "axes has wrong length").
Proof. split; by vm_compute. Qed.


(** ** Conjugating twice *)

Lemma make_valid_neg (ci : ChargeInfo) (p q : charge) :
  make_valid ci p = make_valid ci q →
  make_valid ci (charge_neg p) = make_valid ci (charge_neg q).
Proof.
  unfold make_valid, charge_neg. generalize (qmod ci) as ms.
  intros ms. revert p q.
  induction ms as [|m ms IH]; intros [|x p] [|y q] H; try done.
  cbn [zip_with fmap list_fmap] in *. injection H as H1 H2.
  f_equal; [|by apply IH].
  unfold make_valid_1 in *. destruct (Z.eqb_spec m 0) as [->|Hm]; [lia|].
  rewrite <- !Z.sub_0_l. rewrite (Zminus_mod 0 x), (Zminus_mod 0 y).
  by rewrite H1.
Qed.

Lemma leg_conj_involutive (l : LegCharge) : leg_conj (leg_conj l) = l.
Proof. destruct l. unfold leg_conj. cbn. by rewrite Z.opp_involutive. Qed.

Lemma charge_neg_involutive (q : charge) : charge_neg (charge_neg q) = q.
Proof.
  unfold charge_neg. rewrite <- list_fmap_compose.
  rewrite <- (list_fmap_id q) at 2. apply list_fmap_ext.
  intros i x _. cbn. lia.
Qed.

Lemma legs_conj_contractible (ls : list LegCharge) :
  Forall2 (λ la lb, qind la = qind lb ∧ qconj la = (- qconj lb)%Z)
          ls (leg_conj <$> ls).
Proof.
  apply Forall2_fmap_r, Forall_Forall2_diag, Forall_forall.
  intros l _. cbn. split; [done|lia].
Qed.

(** The label that [conj] gives to a simple label. *)
Lemma conj_simple_label (s : string) :
  simple_label s →
  ∃ s', _conj_leg_label s = Ok s' ∧ _conj_leg_label s' = Ok s ∧
        simple_label s'.
Proof.
  intros (t & Hne & Hplain & [->| ->]);
    destruct (conj_leg_label_star t Hne Hplain) as [H1 H2].
  - exists (String.append t "*"). split; [done|]. split; [done|].
    exists t. auto.
  - exists t. split; [done|]. split; [done|]. exists t. auto.
Qed.

(** The dictionary that the loop of [conj] builds from simple labels. *)
Lemma conj_labels (m : gmap string nat) :
  (∀ s i, m !! s = Some i → simple_label s) →
  ∃ lbs,
    map_result (λ p : string * nat, lab ← _conj_leg_label p.1; Ok (lab, p.2))
               (map_to_list m) = Ok lbs ∧
    (∀ s i, (list_to_map lbs : gmap string nat) !! s = Some i ↔
            ∃ s0, _conj_leg_label s0 = Ok s ∧ m !! s0 = Some i).
Proof.
  intros Hsimple.
  set (g := λ s, match _conj_leg_label s with Ok t => t | Raise _ => s end).
  assert (Hg : ∀ s i, m !! s = Some i →
             _conj_leg_label s = Ok (g s) ∧ _conj_leg_label (g s) = Ok s).
  { intros s i Hs. destruct (conj_simple_label s (Hsimple s i Hs))
      as (s' & H1 & H2 & _).
    unfold g. rewrite H1. done. }
  exists ((λ p : string * nat, (g p.1, p.2)) <$> map_to_list m). split.
  - apply map_result_Ok. apply Forall_forall. intros [s i] Hin.
    apply elem_of_map_to_list in Hin. cbn.
    by destruct (Hg s i Hin) as [-> _].
  - assert (Hnd : NoDup ((λ p : string * nat, (g p.1, p.2)) <$> map_to_list m).*1).
    { rewrite <- list_fmap_compose.
      apply NoDup_fmap_2_strong; [|apply NoDup_map_to_list].
      intros [s i] [s' i'] Hin Hin' Heq. cbn in Heq.
      apply elem_of_map_to_list in Hin, Hin'.
      destruct (Hg s i Hin) as [_ H1]. destruct (Hg s' i' Hin') as [_ H2].
      rewrite Heq in H1. assert (s = s') as -> by congruence.
      f_equal. congruence. }
    intros s i. rewrite <- (elem_of_list_to_map _ _ _ Hnd).
    rewrite list_elem_of_fmap. split.
    + intros ([s0 i0] & [= -> ->] & Hin). apply elem_of_map_to_list in Hin.
      exists s0. split; [|done]. by destruct (Hg s0 i0 Hin).
    + intros (s0 & Hc & Hin). exists (s0, i). split.
      * cbn. f_equal. destruct (Hg s0 i Hin) as [H1 _]. congruence.
      * by apply elem_of_map_to_list.
Qed.

Lemma leg_sane_conj (ci : ChargeInfo) (l : LegCharge) :
  leg_sane ci l = true → leg_sane ci (leg_conj l) = true.
Proof.
  unfold leg_sane, leg_conj. cbn. rewrite !andb_true_iff, !orb_true_iff.
  rewrite !bool_decide_eq_true. intros [[H1 H2] H3]. split; [done|]. lia.
Qed.

Lemma conj_blocks (a : Array) (cc : bool) :
  Forall (λ d, nd_dtype d = dtype a) (_data a) →
  (if bool_decide (dtype a = dt_complex) && cc
   then unary_blockwise np_conj a else copy a) = a.
Proof.
  intros Hdt. destruct (_ && _); [|done].
  unfold unary_blockwise, iunary_blockwise, copy. cbn zeta.
  assert (Hd : np_conj <$> _data a = _data a) by apply list_fmap_id.
  destruct a as [ci ls sh dt qt lb d q srt]. cbn in *. rewrite Hd.
  destruct d as [|t d]; [done|]. apply Forall_inv in Hdt. cbn.
  unfold set_dtype, set_data. cbn. by rewrite Hdt.
Qed.

Lemma conj_twice_eval (a : Array) (cc : bool) :
  test_sanity a = Ok () →
  (∀ s i, labels a !! s = Some i → simple_label s) →
  ∃ m, conj a cc =
         Ok (set_labels m (set_legs (leg_conj <$> legs a)
                             (set_qtotal (charge_neg (qtotal a)) a))) ∧
       conj (set_labels m (set_legs (leg_conj <$> legs a)
                             (set_qtotal (charge_neg (qtotal a)) a))) cc = Ok a.
Proof.
  intros Hs Hsimple.
  destruct (test_sanity_Forall _ Hs) as (_ & Hdt & _).
  destruct (conj_labels (labels a) Hsimple) as (lbs & Hlbs & Hspec).
  exists (list_to_map lbs). split.
  { unfold conj. rewrite (conj_blocks a cc Hdt).
    change (labels (set_legs _ _)) with (labels a). by rewrite Hlbs. }
  set (r := set_labels _ _).
  assert (Hsimple' : ∀ s i, labels r !! s = Some i → simple_label s).
  { intros s i Hin. apply Hspec in Hin as (s0 & Hc & Hin).
    destruct (conj_simple_label s0 (Hsimple s0 i Hin)) as (s' & H1 & _ & H3).
    congruence. }
  destruct (conj_labels (labels r) Hsimple') as (lbs' & Hlbs' & Hspec').
  unfold conj. rewrite (conj_blocks r cc Hdt).
  change (labels (set_legs _ _)) with (labels r). rewrite Hlbs'.
  cbn [mbind result_bind]. f_equal.
  assert (Hm : (list_to_map lbs' : gmap string nat) = labels a).
  { apply map_eq. intros s. apply option_eq. intros i.
    rewrite Hspec'. split.
    - intros (s1 & Hc1 & Hin1). apply Hspec in Hin1 as (s0 & Hc0 & Hin0).
      destruct (conj_simple_label s0 (Hsimple s0 i Hin0)) as (s' & H1 & H2 & _).
      assert (s' = s1) as -> by congruence.
      assert (s = s0) as -> by congruence. done.
    - intros Hin.
      destruct (conj_simple_label s (Hsimple s i Hin)) as (s' & H1 & H2 & _).
      exists s'. split; [done|]. apply Hspec. by exists s. }
  rewrite Hm. unfold r. destruct a as [ci ls sh dt qt lb d q srt].
  unfold set_labels, set_legs, set_qtotal. cbn.
  rewrite charge_neg_involutive. f_equal.
  rewrite <- list_fmap_compose. rewrite <- (list_fmap_id ls) at 2.
  apply list_fmap_ext. intros i l _. apply leg_conj_involutive.
Qed.

(** X21: on an Array that passes [test_sanity] and whose labels have no
    dot, no parenthesis and at most one star, at the end, [conj] returns
    and a second [conj] gives the Array back. The conjugated Array passes
    [test_sanity], has the same dense entries (the entries of the model are
    real), and the charges of its blocks are congruent to its total charge
    when that holds of the Array. *)
Theorem conj_twice (a : Array) (cc : bool) :
  test_sanity a = Ok () →
  (∀ s i, labels a !! s = Some i → simple_label s) →
  ∃ r, conj a cc = Ok r ∧ conj r cc = Ok a ∧
       test_sanity r = Ok () ∧
       qtotal r = charge_neg (qtotal a) ∧ legs r = leg_conj <$> legs a ∧
       nd_shape (to_ndarray r) = nd_shape (to_ndarray a) ∧
       (∀ idx, nd_at (to_ndarray r) idx = nd_at (to_ndarray a) idx) ∧
       (charges_congruent a = true → charges_congruent r = true).
Proof.
  intros Hs Hsimple.
  destruct (conj_twice_eval a cc Hs Hsimple) as (m & Hr & Hr2).
  eexists. split; [exact Hr|]. split; [exact Hr2|].
  destruct (test_sanity_Forall _ Hs) as (Hsh & Hdt & Hl & Hlen & Hrg & Hsort).
  pose proof (legs_conj_contractible (legs a)) as Hc.
  split; [|split; [done|split; [done|split; [|split]]]].
  - apply test_sanity_intro; cbn; try done.
    + rewrite Hsh, <- list_fmap_compose. apply list_fmap_ext. done.
    + rewrite forallb_forall in Hl. apply forallb_forall. intros l Hin.
      apply list_elem_of_In, list_elem_of_fmap in Hin as (l0 & -> & Hin).
      apply leg_sane_conj, Hl. by apply list_elem_of_In.
    + eapply Forall_impl; [exact Hrg|]. intros row Hrow.
      unfold row_in_range in *. apply Forall2_fmap_r.
      eapply Forall2_impl; [exact Hrow|]. done.
  - by rewrite !to_ndarray_shape.
  - intros idx. rewrite !to_ndarray_table. cbn.
    generalize (np_zeros (shape a) (dtype a)) as res0.
    unfold table. cbn. generalize (zip (_qdata a) (_data a)) as T.
    induction T as [|x T IH]; intros res0; [done|]. cbn [foldl].
    destruct (contractible_slices _ _ x.1 Hc) as (-> & _). apply IH.
  - unfold charges_congruent. cbn. intros Hcg.
    apply forallb_Forall in Hcg. apply forallb_Forall.
    eapply Forall_impl; [exact Hcg|]. intros row Hrow.
    apply bool_decide_eq_true in Hrow. apply bool_decide_eq_true.
    unfold _get_block_charge in *.
    cbn [chinfo legs qtotal set_labels set_legs set_qtotal].
    rewrite (contractible_charge_sum _ _ _ row Hc).
    by apply make_valid_neg.
Qed.

Lemma conj_twice_witness :
  test_sanity ex_labelled = Ok () ∧
  (∀ s i, labels ex_labelled !! s = Some i → simple_label s) ∧
  ∃ r, conj ex_labelled true = Ok r ∧ conj r true = Ok ex_labelled ∧
       test_sanity r = Ok () ∧
       qtotal r = charge_neg (qtotal ex_labelled) ∧
       legs r = leg_conj <$> legs ex_labelled ∧
       nd_shape (to_ndarray r) = nd_shape (to_ndarray ex_labelled) ∧
       (∀ idx, nd_at (to_ndarray r) idx = nd_at (to_ndarray ex_labelled) idx) ∧
       (charges_congruent ex_labelled = true → charges_congruent r = true).
Proof.
  assert (H1 : test_sanity ex_labelled = Ok ()) by (vm_compute; reflexivity).
  assert (H2 : ∀ s i, labels ex_labelled !! s = Some i → simple_label s).
  { intros s i. unfold ex_labelled. cbn [labels set_labels].
    rewrite !lookup_insert_Some, lookup_empty.
    intros [[<- _]|[_ [[<- _]|[_ ?]]]]; [| |done]; exists "p"%string;
      (split; [discriminate|]); (split; [repeat constructor; discriminate|]);
      [by left|by right]. }
  split; [exact H1|]. split; [exact H2|].
  exact (conj_twice ex_labelled true H1 H2).
Defined.

(** The labels ['p'] and ['p*'] change places. *)
Example conj_labels_example :
  ∃ r, conj ex_labelled true = Ok r ∧
       labels r !! "p"%string = Some 1 ∧ labels r !! "p*"%string = Some 0.
Proof. eexists. split; [by vm_compute|]. split; by vm_compute. Qed.


(** ** The dense array of a contraction *)

Lemma in_slices_app (s1 s2 : list (nat * nat)) (i k : list nat) :
  length i = length s1 →
  in_slices (s1 ++ s2) (i ++ k) = in_slices s1 i && in_slices s2 k.
Proof.
  revert i. induction s1 as [|[s e] s1 IH]; intros [|x i] Hlen; try done.
  cbn [app]. rewrite !in_slices_cons, IH by (by injection Hlen).
  by rewrite andb_assoc.
Qed.

Lemma embed_app (s1 s2 : list (nat * nat)) (t : ndarray) (i k : list nat) :
  length i = length s1 →
  embed (s1 ++ s2) t (i ++ k) =
  if in_slices s1 i && in_slices s2 k
  then nd_at t (zip_with (λ i (s : nat * nat), i - s.1) i s1 ++
                zip_with (λ i (s : nat * nat), i - s.1) k s2)
  else 0%Z.
Proof.
  intros Hlen. unfold embed. rewrite in_slices_app by done.
  destruct (_ && _); [|done]. by rewrite zip_with_app.
Qed.

Lemma ndindex_length (sh : list nat) (idx : list nat) :
  idx ∈ ndindex sh → length idx = length sh.
Proof.
  revert idx. induction sh as [|n sh IH]; intros idx Hin.
  - apply list_elem_of_singleton in Hin. by subst.
  - rewrite ndindex_cons in Hin. apply list_elem_of_bind in Hin as (i & Hin & _).
    apply list_elem_of_fmap in Hin as (idx' & -> & Hin). cbn. f_equal. by apply IH.
Qed.

(** The contraction of two embedded blocks over the legs [LS]. *)
Lemma pair_contract ci (LK LS LK' : list LegCharge) (rk rs rs' rk' : list nat)
    (ta tb : ndarray) (i j : list nat) :
  forallb (leg_sane ci) LS = true →
  row_in_range LS rs → row_in_range LS rs' →
  length rk = length LK → length i = length LK →
  nd_shape ta = zip_with sector_size (LK ++ LS) (rk ++ rs) →
  sumZ ((λ k, embed (zip_with get_slice (LK ++ LS) (rk ++ rs)) ta (i ++ k) *
              embed (zip_with get_slice (LS ++ LK') (rs' ++ rk')) tb (k ++ j))%Z
        <$> ndindex (ind_len <$> LS)) =
  if decide (rs = rs')
  then embed (zip_with get_slice (LK ++ LK') (rk ++ rk'))
             (np_tensordot (length LS) ta tb) (i ++ j)
  else 0%Z.
Proof.
  intros Hs Hrs Hrs' Hrk Hi Hsh.
  pose proof (Forall2_length _ _ _ Hrs) as Hlrs.
  pose proof (Forall2_length _ _ _ Hrs') as Hlrs'.
  rewrite !zip_with_app by done.
  set (sK := zip_with get_slice LK rk). set (sS := zip_with get_slice LS rs).
  set (sS' := zip_with get_slice LS rs'). set (sK' := zip_with get_slice LK' rk').
  assert (HlK : length i = length sK).
  { unfold sK. rewrite length_zip_with. lia. }
  assert (HlS' : ∀ k, k ∈ ndindex (ind_len <$> LS) → length k = length sS').
  { intros k Hk. apply ndindex_length in Hk. rewrite length_fmap in Hk.
    unfold sS'. rewrite length_zip_with. lia. }
  rewrite (embed_app sK sK') by done.
  set (offs := λ (idx : list nat) (sl : list (nat * nat)),
                 zip_with (λ i (s : nat * nat), i - s.1) idx sl).
  fold (offs i sK) (offs j sK').
  transitivity (sumZ ((λ k,
      if in_slices sK i && in_slices sK' j
      then (if in_slices sS k
            then (λ o, if in_slices sS' k
                       then (nd_at ta (offs i sK ++ o) *
                             nd_at tb (offs k sS' ++ offs j sK'))%Z
                       else 0%Z)
                   (offs k sS)
            else 0%Z)
      else 0%Z) <$> ndindex (ind_len <$> LS))).
  { apply sumZ_fmap_ext, Forall_forall. intros k Hk.
    rewrite (embed_app sK sS) by done.
    rewrite (embed_app sS' sK') by (by apply HlS').
    fold (offs i sK) (offs k sS) (offs k sS') (offs j sK').
    destruct (in_slices sK i), (in_slices sK' j), (in_slices sS k),
      (in_slices sS' k); cbn; lia. }
  destruct (in_slices sK i && in_slices sK' j) eqn:Hin.
  2:{ rewrite sumZ_fmap_zero by (apply Forall_forall; by intros).
      by destruct (decide _). }
  destruct (decide (rs = rs')) as [<-|Hne].
  - fold sS.
    transitivity (sumZ ((λ k,
        if in_slices sS k
        then (λ o, nd_at ta (offs i sK ++ o) * nd_at tb (o ++ offs j sK'))%Z
               (zip_with (λ i (s : nat * nat), i - s.1) k sS)
        else 0%Z) <$> ndindex (ind_len <$> LS))).
    { apply sumZ_fmap_ext, Forall_forall. intros k Hk. unfold offs, sS', sS.
      by destruct (in_slices _ k). }
    etransitivity.
    { exact (box_sum (ind_len <$> LS) sS
               (λ o, nd_at ta (offs i sK ++ o) * nd_at tb (o ++ offs j sK'))%Z
               (slices_in_shape ci LS rs Hs Hrs)). }
    unfold sS. rewrite sizes_of_slices.
    cbn [np_tensordot nd_at]. rewrite Hsh.
    assert (Hkeep : length (zip_with sector_size (LK ++ LS) (rk ++ rs)) -
                    length LS = length LK).
    { rewrite length_zip_with, !length_app. lia. }
    rewrite Hkeep.
    assert (Hio : length (offs i sK) = length LK).
    { unfold offs. rewrite length_zip_with. lia. }
    rewrite take_app_length' by done. rewrite drop_app_length' by done.
    rewrite zip_with_app by done. rewrite drop_app_length'.
    2:{ rewrite length_zip_with. lia. }
    done.
  - apply sumZ_fmap_zero, Forall_forall. intros k _.
    destruct (in_slices sS k) eqn:H1; [|done].
    destruct (in_slices sS' k) eqn:H2; [|done].
    exfalso. apply Hne. eapply (slices_disjoint ci LS); eauto.
Qed.

(** ** The groups of [_find_row_differences] *)

Lemma bind_seq_S {B} (F : nat → list B) (m : nat) :
  seq 0 (S m) ≫= F = F 0 ++ (seq 0 m ≫= λ g, F (S g)).
Proof.
  cbn [seq]. rewrite bind_cons. f_equal.
  rewrite <- fmap_S_seq. generalize (seq 0 m) as l.
  induction l as [|x l IH]; [done|]. rewrite fmap_cons, !bind_cons. by rewrite IH.
Qed.

Lemma slice_range_S (c : nat) (cs : list nat) (g : nat) :
  slice_range (c :: cs) (S g) = slice_range cs g.
Proof. reflexivity. Qed.

Lemma row_changes_length prev i rows : 0 < length (row_changes prev i rows).
Proof.
  revert prev i. induction rows as [|r rows IH]; intros prev i; cbn; [lia|].
  destruct (decide _); cbn; [apply IH|lia].
Qed.

Lemma row_changes_groups (all : list (list nat)) : ∀ rows pre prev c0,
  all = pre ++ rows → c0 < length pre →
  (∀ p, c0 ≤ p < length pre → all !!! p = prev) →
  let cs := c0 :: row_changes prev (length pre) rows in
  seq 0 (length cs - 1) ≫= slice_range cs = seq c0 (length all - c0) ∧
  ∀ g p, g < length cs - 1 → p ∈ slice_range cs g →
         all !!! p = all !!! (cs !!! g).
Proof.
  induction rows as [|r rows IH]; intros pre prev c0 Hall Hc0 Hrun.
  - cbn zeta. cbn [row_changes length]. subst all. rewrite app_nil_r in *.
    replace (2 - 1) with 1 by lia. cbn [seq mbind list_bind]. rewrite app_nil_r.
    unfold slice_range. cbn [lookup_total list_lookup_total].
    split; [done|]. intros g p Hg Hp. assert (g = 0) as -> by lia.
    unfold slice_range in Hp. cbn [lookup_total list_lookup_total] in Hp.
    cbn [lookup_total list_lookup_total]. apply elem_of_seq in Hp.
    rewrite !Hrun by lia. done.
  - assert (Hall' : all = (pre ++ [r]) ++ rows) by (by rewrite <- app_assoc).
    assert (Hlen' : length (pre ++ [r]) = S (length pre)).
    { rewrite length_app. cbn. lia. }
    assert (Hr : all !!! length pre = r).
    { subst all. by rewrite list_lookup_total_middle. }
    cbn zeta. cbn [row_changes].
    destruct (decide (r = prev)) as [->|Hne].
    + specialize (IH (pre ++ [prev]) prev c0 Hall'). rewrite Hlen' in IH.
      apply IH; [lia|]. intros p Hp.
      destruct (decide (p = length pre)) as [->|]; [done|]. apply Hrun. lia.
    + specialize (IH (pre ++ [r]) r (length pre) Hall'). rewrite Hlen' in IH.
      destruct IH as [IH1 IH2]; [lia| |].
      { intros p Hp. assert (p = length pre) as -> by lia. done. }
      set (cs' := length pre :: row_changes r (S (length pre)) rows) in *.
      pose proof (row_changes_length r (S (length pre)) rows) as Hpos.
      assert (Hlcs : length (c0 :: cs') - 1 = S (length cs' - 1)).
      { cbn [length]. unfold cs'. cbn [length]. lia. }
      rewrite Hlcs. split.
      * rewrite bind_seq_S.
        rewrite (list_bind_ext (λ g, slice_range (c0 :: cs') (S g))
                   (slice_range cs') (seq 0 (length cs' - 1))
                   (seq 0 (length cs' - 1))) by done.
        rewrite IH1. unfold slice_range at 1.
        cbn [lookup_total list_lookup_total]. unfold cs' at 1.
        cbn [lookup_total list_lookup_total].
        assert (Hle : length pre ≤ length all).
        { subst all. rewrite length_app. lia. }
        replace (length all - c0) with
          ((length pre - c0) + (length all - length pre)) by lia.
        rewrite seq_app. do 2 f_equal. lia.
      * intros g p Hg Hp. destruct g as [|g].
        -- unfold slice_range in Hp. cbn [lookup_total list_lookup_total] in Hp.
           unfold cs' in Hp. cbn [lookup_total list_lookup_total] in Hp.
           apply elem_of_seq in Hp. cbn [lookup_total list_lookup_total].
           rewrite !Hrun by lia. done.
        -- rewrite slice_range_S in Hp.
           change ((c0 :: cs') !!! S g) with (cs' !!! g).
           apply IH2; [lia|done].
Qed.

Lemma find_row_differences_spec (rows : list (list nat)) :
  let cs := _find_row_differences rows in
  seq 0 (length cs - 1) ≫= slice_range cs = seq 0 (length rows) ∧
  ∀ g p, g < length cs - 1 → p ∈ slice_range cs g →
         rows !!! p = rows !!! (cs !!! g).
Proof.
  destruct rows as [|r rows]; [done|].
  cbn zeta. unfold _find_row_differences.
  destruct (row_changes_groups (r :: rows) rows [r] r 0) as [H1 H2];
    [done|cbn; lia| |].
  { intros p Hp. cbn in Hp. assert (p = 0) as -> by lia. done. }
  cbn [length] in H1, H2. rewrite Nat.sub_0_r in H1. by split.
Qed.

Lemma group_positions (keep : list (list nat)) (g p : nat) :
  let cs := _find_row_differences keep in
  g < length cs - 1 → p ∈ slice_range cs g → p < length keep.
Proof.
  intros cs Hg Hp. destruct (find_row_differences_spec keep) as [H1 _].
  fold cs in H1.
  assert (Hin : p ∈ seq 0 (length cs - 1) ≫= slice_range cs).
  { apply list_elem_of_bind. exists g. split; [done|]. apply elem_of_seq. lia. }
  rewrite H1 in Hin. apply elem_of_seq in Hin. lia.
Qed.

Lemma group_sum (keep : list (list nat)) (G : list nat → nat → Z) :
  let cs := _find_row_differences keep in
  sumZ ((λ g, sumZ ((λ i, G (keep !!! (cs !!! g)) i) <$> slice_range cs g))
        <$> seq 0 (length cs - 1)) =
  sumZ ((λ i, G (keep !!! i) i) <$> seq 0 (length keep)).
Proof.
  intros cs. destruct (find_row_differences_spec keep) as [H1 H2].
  fold cs in H1, H2. rewrite <- H1, sumZ_bind.
  apply sumZ_fmap_ext, Forall_forall. intros g Hg. apply elem_of_seq in Hg.
  apply sumZ_fmap_ext, Forall_forall. intros i Hi.
  rewrite (H2 g i) by (done || lia). done.
Qed.

Lemma group_keep (keep : list (list nat)) :
  let cs := _find_row_differences keep in
  length (fancy keep (group_starts cs)) = length cs - 1 ∧
  ∀ g, g < length cs - 1 →
       fancy keep (group_starts cs) !!! g = keep !!! (cs !!! g).
Proof.
  intros cs. unfold fancy, group_starts. split.
  - rewrite length_fmap, length_take. lia.
  - intros g Hg. apply list_lookup_total_correct.
    rewrite list_lookup_fmap, lookup_take_lt by done.
    destruct (lookup_lt_is_Some_2 cs g) as [c Hc]; [lia|].
    rewrite Hc. cbn. by rewrite (list_lookup_total_correct _ _ _ Hc).
Qed.

Lemma group_ascending (keep : list (list nat)) (sums : list nat) (g : nat) :
  let cs := _find_row_differences keep in
  length sums = length keep →
  StronglySorted (λ u v, row_lt u v = true)
                 (zip_with (λ s k, s :: k) sums keep) →
  g < length cs - 1 → ascending sums (slice_range cs g).
Proof.
  intros cs Hlen Hs Hg. unfold ascending, slice_range.
  apply StronglySorted_seq. intros i j Hi Hij Hj.
  destruct (find_row_differences_spec keep) as [_ H2]. fold cs in H2.
  assert (Hin : ∀ p, cs !!! g ≤ p < cs !!! g + (cs !!! S g - cs !!! g) →
                     p ∈ slice_range cs g).
  { intros p Hp. unfold slice_range. apply elem_of_seq. lia. }
  pose proof (group_positions keep g i Hg (Hin i ltac:(lia))) as Hi'.
  pose proof (group_positions keep g j Hg (Hin j ltac:(lia))) as Hj'.
  pose proof (H2 g i Hg (Hin i ltac:(lia))) as Hki.
  pose proof (H2 g j Hg (Hin j ltac:(lia))) as Hkj.
  pose proof (StronglySorted_lookup _ _ i j Hs Hij) as Hlt.
  rewrite length_zip_with in Hlt. specialize (Hlt ltac:(lia)).
  assert (Hx : ∀ p, p < length keep →
             zip_with (λ s k, s :: k) sums keep !!! p =
             sums !!! p :: keep !!! p).
  { intros p Hp. apply list_lookup_total_correct.
    destruct (lookup_lt_is_Some_2 sums p) as [s Hs']; [lia|].
    destruct (lookup_lt_is_Some_2 keep p) as [k Hk']; [lia|].
    rewrite lookup_zip_with, Hs', Hk'. cbn.
    by rewrite (list_lookup_total_correct _ _ _ Hs'),
      (list_lookup_total_correct _ _ _ Hk'). }
  rewrite !Hx in Hlt by done. rewrite Hki, Hkj in Hlt.
  unfold row_lt in Hlt. rewrite !reverse_cons, tuple_lt_app_same in Hlt.
  cbn [tuple_lt] in Hlt. destruct (sums !!! i <? sums !!! j) eqn:E.
  - by apply Nat.ltb_lt.
  - by destruct (sums !!! j <? sums !!! i).
Qed.

(** ** The operands of [_tensordot_worker] in sorted order *)

Lemma NoDup_fancy {A} `{Inhabited A} (l : list A) (perm : list nat) :
  perm ≡ₚ seq 0 (length l) → NoDup l → NoDup (fancy l perm).
Proof. intros Hp Hnd. by rewrite (fancy_Permutation l perm Hp). Qed.

Lemma zip_with_fmap_both {A B C D} (f : C → D → B) (g : A → C) (h : A → D)
    (l : list A) :
  zip_with f (g <$> l) (h <$> l) = (λ x, f (g x) (h x)) <$> l.
Proof. induction l as [|x l IH]; [done|]. cbn. by rewrite IH. Qed.

(** Rows sorted by [np.lexsort] on a key column [enc (fs r)] followed by
    the columns [fk r]. *)
Lemma lexsort_view (Q : list (list nat)) (D : list ndarray)
    (fk fs : list nat → list nat) (enc : list nat → nat) (nk : nat) :
  length Q = length D →
  Forall (λ r, length (fk r) = nk) Q →
  NoDup ((λ r, enc (fs r) :: fk r) <$> Q) →
  let sums := (λ r, enc (fs r)) <$> Q in
  let perm := np_lexsort_rows (zip_with (λ s r, s :: fk r) sums Q) in
  let rows := fancy Q perm in
  rows ≡ₚ Q ∧
  length rows = length (fancy D perm) ∧
  zip rows (fancy D perm) ≡ₚ zip Q D ∧
  fancy sums perm = (λ r, enc (fs r)) <$> rows ∧
  fancy (fk <$> Q) perm = fk <$> rows ∧
  StronglySorted (λ u v, row_lt u v = true)
    (zip_with (λ s k, s :: k) ((λ r, enc (fs r)) <$> rows) (fk <$> rows)).
Proof.
  intros Hlen Hnk Hnd sums perm rows.
  set (X := zip_with (λ s r, s :: fk r) sums Q) in *.
  assert (HX : X = (λ r, enc (fs r) :: fk r) <$> Q).
  { unfold X, sums. rewrite <- (list_fmap_id Q) at 2.
    by rewrite zip_with_fmap_both. }
  assert (HlX : length X = length Q) by (by rewrite HX, length_fmap).
  assert (Hperm : perm ≡ₚ seq 0 (length Q)).
  { unfold perm. rewrite <- HlX. apply argsort_by_Permutation. }
  assert (Hlt : Forall (λ p, p < length Q) perm).
  { by apply Permutation_seq_lt. }
  split; [by apply fancy_Permutation|].
  split; [by unfold rows; rewrite !fancy_length|]. split.
  { unfold rows. rewrite fancy_zip by done. apply fancy_Permutation.
    by rewrite length_zip, <- Hlen, Nat.min_id. }
  split; [by unfold sums, rows; rewrite fancy_fmap|].
  split; [by unfold rows; rewrite fancy_fmap|].
  rewrite zip_with_fmap_both.
  unfold rows. rewrite <- fancy_fmap by done. rewrite <- HX.
  apply (sorted_distinct_strict (S nk)).
  - apply lexsort_fancy_Sorted.
  - apply NoDup_fancy; [by rewrite HlX|by rewrite HX].
  - rewrite (fancy_Permutation X perm) by (by rewrite HlX).
    rewrite HX. apply Forall_fmap. eapply Forall_impl; [exact Hnk|].
    intros r Hr. cbn. by rewrite Hr.
Qed.

Lemma stride_horner (ls : list LegCharge) (cut : nat) (row : list nat) :
  cut ≤ length ls → length row = length ls - cut →
  encode_row
    (np_cumprod (1 :: (block_number <$> drop cut (take (length ls - 1) ls))))
    row =
  horner (block_number <$> drop cut ls) row.
Proof.
  intros Hcut Hrow.
  rewrite <- (encode_row_horner (drop cut ls) row) by (by rewrite length_drop).
  do 4 f_equal. rewrite length_drop.
  destruct (decide (cut = length ls)) as [->|Hne].
  - rewrite Nat.sub_diag. cbn [Nat.sub take].
    rewrite drop_ge; [done|]. rewrite length_take. lia.
  - rewrite take_drop_commute. do 2 f_equal. lia.
Qed.

Lemma StronglySorted_fmap_elem {A B} (R : relation A) (S : relation B)
    (f : A → B) (l : list A) :
  (∀ x y, x ∈ l → y ∈ l → R x y → S (f x) (f y)) →
  StronglySorted R l → StronglySorted S (f <$> l).
Proof.
  intros Hf Hs. induction Hs as [|x l Hs IH Hx]; [constructor|].
  rewrite fmap_cons. constructor.
  - apply IH. intros u v Hu Hv. apply Hf; by right.
  - apply Forall_fmap, Forall_forall. intros y Hy. rewrite Forall_forall in Hx.
    apply Hf; [by left|by right|by apply Hx].
Qed.

Lemma row_lt_cons_key (s s' : nat) (d : list nat) :
  row_lt (s :: d) (s' :: d) = (s <? s').
Proof.
  change (s :: d) with ([s] ++ d). change (s' :: d) with ([s'] ++ d).
  rewrite row_lt_app_same. unfold row_lt.
  change (reverse [s]) with [s]. change (reverse [s']) with [s'].
  cbn [tuple_lt].
  destruct (s <? s') eqn:E; [done|]. by destruct (s' <? s).
Qed.

(** The key column and the kept columns order rows like the rows
    themselves, the kept columns leading. *)
Lemma row_lt_key_keep (NS t t' d d' : list nat) :
  Forall2 lt t NS → Forall2 lt t' NS → length d = length d' →
  row_lt (t ++ d) (t' ++ d') = true →
  row_lt (horner NS t :: d) (horner NS t' :: d') = true.
Proof.
  intros Ht Ht' Hd Hlt. destruct (decide (d = d')) as [<-|Hne].
  - rewrite row_lt_app_same in Hlt. rewrite row_lt_cons_key.
    apply Nat.ltb_lt. by apply (horner_lt NS t t').
  - assert (Hdd : row_lt d d' = true).
    { destruct (row_lt d d') eqn:E; [done|]. exfalso.
      assert (Hle : row_le d' d = true) by (unfold row_le; by rewrite E).
      pose proof (row_le_neq_lt d' d (eq_sym Hd) Hle (not_eq_sym Hne)) as Hgt.
      pose proof (row_lt_app_r t' t d' d (eq_sym Hd) Hgt) as Hgt'.
      rewrite (row_lt_asym _ _ Hgt') in Hlt. done. }
    by apply (row_lt_app_r [horner NS t] [horner NS t']).
Qed.

Lemma row_in_range_take (ls : list LegCharge) (r : list nat) (c : nat) :
  row_in_range ls r → Forall2 lt (take c r) (block_number <$> take c ls).
Proof.
  intros Hr. rewrite fmap_take. apply Forall2_take, Forall2_fmap_r.
  exact Hr.
Qed.

Lemma row_in_range_drop (ls : list LegCharge) (r : list nat) (c : nat) :
  row_in_range ls r → Forall2 lt (drop c r) (block_number <$> drop c ls).
Proof.
  intros Hr. rewrite fmap_drop. apply Forall2_drop, Forall2_fmap_r.
  exact Hr.
Qed.

Lemma pre_worker_view_a (a b : Array) (cut_a cut_b : nat) :
  test_sanity a = Ok () → rows_distinct a = true → cut_a ≤ rank a →
  let NS := block_number <$> drop cut_a (legs a) in
  let pa := (_tensordot_pre_worker a b cut_a cut_b).1 in
  ∃ rows,
    length rows = length (p_data pa) ∧
    zip rows (p_data pa) ≡ₚ table a ∧
    p_qdata_sum pa = (λ r, horner NS (drop cut_a r)) <$> rows ∧
    p_slices pa = _find_row_differences (take cut_a <$> rows) ∧
    p_qdata_keep pa =
      fancy (take cut_a <$> rows) (group_starts (p_slices pa)) ∧
    p_charges_keep pa =
      (λ r, make_valid (chinfo a)
              (charge_sum (chinfo a)
                 (zip_with get_charge (take cut_a (legs a)) r)))
      <$> p_qdata_keep pa ∧
    StronglySorted (λ u v, row_lt u v = true)
      (zip_with (λ s k, s :: k) (p_qdata_sum pa) (take cut_a <$> rows)).
Proof.
  intros Hs Hd Hcut NS pa.
  pose proof (rank_legs _ Hs) as Hrk.
  pose proof (sane_rows _ Hs) as Hrows.
  destruct (test_sanity_Forall _ Hs) as (_ & _ & _ & Hlen & _).
  apply bool_decide_eq_true in Hd.
  set (stride := np_cumprod
         (1 :: (block_number <$>
                drop cut_a (take (length (legs a) - 1) (legs a))))).
  assert (Henc : ∀ r, r ∈ _qdata a →
            encode_row stride (drop cut_a r) = horner NS (drop cut_a r)).
  { intros r Hr. rewrite Forall_forall in Hrows. destruct (Hrows r Hr) as [Hl _].
    apply stride_horner; [lia|]. rewrite length_drop. lia. }
  destruct (lexsort_view (_qdata a) (_data a) (take cut_a) (drop cut_a)
              (encode_row stride) cut_a Hlen)
    as (Hrp & Hl' & Hperm & Hsum & Hkeep & Hsorted).
  { eapply Forall_impl; [exact Hrows|]. intros r [Hr _]. cbn.
    rewrite length_take. lia. }
  { apply NoDup_fmap_2_strong; [|done]. intros r r' Hr Hr' [= He Ht].
    rewrite (Henc r Hr), (Henc r' Hr') in He.
    rewrite Forall_forall in Hrows.
    destruct (Hrows r Hr) as [_ Hrg]. destruct (Hrows r' Hr') as [_ Hrg'].
    apply (horner_inj NS) in He;
      [|by apply row_in_range_drop|by apply row_in_range_drop].
    rewrite <- (take_drop cut_a r), <- (take_drop cut_a r'). congruence. }
  set (perm := np_lexsort_rows _) in *. set (rows := fancy (_qdata a) perm) in *.
  assert (Hin : ∀ r, r ∈ rows → r ∈ _qdata a).
  { intros r Hr. by rewrite <- Hrp. }
  assert (Hsum' : (λ r, encode_row stride (drop cut_a r)) <$> rows =
                  (λ r, horner NS (drop cut_a r)) <$> rows).
  { apply list_fmap_ext. intros i r Hr. apply Henc, Hin.
    by eapply list_elem_of_lookup_2. }
  exists rows. unfold pa, _tensordot_pre_worker. fold stride.
  destruct (negb (_qdata_sorted b));
    cbn [fst p_data p_qdata_sum p_slices p_qdata_keep p_charges_keep];
    fold perm; rewrite Hsum, Hkeep, Hsum'; rewrite Hsum' in Hsorted; done.
Qed.

Lemma pre_worker_view_b (a b : Array) (cut_a cut_b : nat) :
  test_sanity a = Ok () → test_sanity b = Ok () → rows_distinct b = true →
  cut_a ≤ rank a → cut_b ≤ rank b → cut_b = rank a - cut_a →
  block_number <$> take cut_b (legs b) =
    block_number <$> drop cut_a (legs a) →
  let NS := block_number <$> drop cut_a (legs a) in
  let pb := (_tensordot_pre_worker a b cut_a cut_b).2 in
  ∃ rows,
    length rows = length (p_data pb) ∧
    zip rows (p_data pb) ≡ₚ table b ∧
    p_qdata_sum pb = (λ r, horner NS (take cut_b r)) <$> rows ∧
    p_slices pb = _find_row_differences (drop cut_b <$> rows) ∧
    p_qdata_keep pb =
      fancy (drop cut_b <$> rows) (group_starts (p_slices pb)) ∧
    p_charges_keep pb =
      (λ r, make_valid (chinfo a)
              (charge_sum (chinfo a)
                 (zip_with get_charge (drop cut_b (legs b)) r)))
      <$> p_qdata_keep pb ∧
    StronglySorted (λ u v, row_lt u v = true)
      (zip_with (λ s k, s :: k) (p_qdata_sum pb) (drop cut_b <$> rows)).
Proof.
  intros Hsa Hs Hd Hcuta Hcut Hcutb Hns NS pb.
  pose proof (rank_legs _ Hsa) as Hrka.
  pose proof (rank_legs _ Hs) as Hrk.
  pose proof (sane_rows _ Hs) as Hrows.
  destruct (test_sanity_Forall _ Hs) as (_ & _ & _ & Hlen & _).
  pose proof Hd as Hd'. apply bool_decide_eq_true in Hd.
  set (stride := np_cumprod
         (1 :: (block_number <$>
                drop cut_a (take (length (legs a) - 1) (legs a))))).
  assert (Henc : ∀ r, r ∈ _qdata b →
            encode_row stride (take cut_b r) = horner NS (take cut_b r)).
  { intros r Hr. rewrite Forall_forall in Hrows. destruct (Hrows r Hr) as [Hl _].
    apply stride_horner; [lia|]. rewrite length_take. lia. }
  assert (Hrange : ∀ r, r ∈ _qdata b → Forall2 lt (take cut_b r) NS).
  { intros r Hr. rewrite Forall_forall in Hrows. destruct (Hrows r Hr) as [_ Hrg].
    unfold NS. rewrite <- Hns. by apply row_in_range_take. }
  unfold pb, _tensordot_pre_worker. fold stride.
  destruct (_qdata_sorted b) eqn:Hsb;
    cbn [negb snd p_data p_qdata_sum p_slices p_qdata_keep p_charges_keep].
  - exists (_qdata b).
    assert (Hsum' : (λ r, encode_row stride (take cut_b r)) <$> _qdata b =
                    (λ r, horner NS (take cut_b r)) <$> _qdata b).
    { apply list_fmap_ext. intros i r Hr. apply Henc.
      by eapply list_elem_of_lookup_2. }
    rewrite Hsum'. split; [done|]. split; [done|]. split; [done|].
    split; [done|]. split; [done|]. split; [done|].
    rewrite zip_with_fmap_both.
    destruct (isort_qdata_strict _ Hs Hd') as (Hst & _).
    unfold isort_qdata in Hst. rewrite Hsb in Hst.
    eapply StronglySorted_fmap_elem; [|exact Hst].
    intros r r' Hr Hr' Hlt. cbn beta.
    rewrite <- (take_drop cut_b r), <- (take_drop cut_b r') in Hlt.
    apply (row_lt_key_keep NS _ _ _ _ (Hrange r Hr) (Hrange r' Hr')); [|done].
    rewrite Forall_forall in Hrows.
    destruct (Hrows r Hr) as [Hl _]. destruct (Hrows r' Hr') as [Hl' _].
    rewrite !length_drop. lia.
  - destruct (lexsort_view (_qdata b) (_data b) (drop cut_b) (take cut_b)
                (encode_row stride) (rank b - cut_b) Hlen)
      as (Hrp & Hl' & Hperm & Hsum & Hkeep & Hsorted).
    { eapply Forall_impl; [exact Hrows|]. intros r [Hr _]. cbn.
      rewrite length_drop. lia. }
    { apply NoDup_fmap_2_strong; [|done]. intros r r' Hr Hr' [= He Ht].
      rewrite (Henc r Hr), (Henc r' Hr') in He.
      apply (horner_inj NS) in He; [|by apply Hrange|by apply Hrange].
      rewrite <- (take_drop cut_b r), <- (take_drop cut_b r'). congruence. }
    set (perm := np_lexsort_rows _) in *.
    set (rows := fancy (_qdata b) perm) in *.
    assert (Hin : ∀ r, r ∈ rows → r ∈ _qdata b).
    { intros r Hr. by rewrite <- Hrp. }
    assert (Hsum' : (λ r, encode_row stride (take cut_b r)) <$> rows =
                    (λ r, horner NS (take cut_b r)) <$> rows).
    { apply list_fmap_ext. intros i r Hr. apply Henc, Hin.
      by eapply list_elem_of_lookup_2. }
    exists rows. rewrite Hsum, Hkeep, Hsum'. rewrite Hsum' in Hsorted. done.
Qed.

(** ** Charges of the kept and of the contracted sectors *)

Lemma charge_sum_length_le ci (qs : list charge) :
  length (charge_sum ci qs) ≤ qnumber ci.
Proof.
  unfold charge_sum. induction qs as [|q qs IH]; cbn [foldr].
  - unfold charge_zero. by rewrite length_replicate.
  - unfold charge_add at 1. rewrite length_zip_with. lia.
Qed.

Lemma charge_sum_length ci (qs : list charge) :
  Forall (λ q, length q = qnumber ci) qs →
  length (charge_sum ci qs) = qnumber ci.
Proof.
  unfold charge_sum. induction 1 as [|q qs Hq _ IH]; cbn [foldr].
  - unfold charge_zero. by rewrite length_replicate.
  - unfold charge_add at 1. rewrite length_zip_with. lia.
Qed.

Lemma charge_add_zero ci (q : charge) :
  length q ≤ qnumber ci → charge_add (charge_zero ci) q = q.
Proof.
  unfold charge_add, charge_zero. generalize (qnumber ci) as n.
  induction q as [|x q IH]; intros n Hn; [by destruct n|].
  destruct n as [|n]; [cbn in Hn; lia|]. cbn. f_equal. apply IH.
  cbn in Hn. lia.
Qed.

Lemma charge_add_assoc (p q r : charge) :
  charge_add p (charge_add q r) = charge_add (charge_add p q) r.
Proof.
  unfold charge_add. revert q r.
  induction p as [|x p IH]; intros [|y q] [|z r]; try done.
  cbn. f_equal; [lia|apply IH].
Qed.

Lemma charge_sum_app ci (l1 l2 : list charge) :
  charge_sum ci (l1 ++ l2) =
  charge_add (charge_sum ci l1) (charge_sum ci l2).
Proof.
  induction l1 as [|q l1 IH].
  - cbn [app]. change (charge_sum ci []) with (charge_zero ci).
    by rewrite charge_add_zero by apply charge_sum_length_le.
  - cbn [app]. unfold charge_sum in *. cbn [foldr]. rewrite IH.
    apply charge_add_assoc.
Qed.

Lemma get_charge_length ci (l : LegCharge) (qi : nat) :
  leg_sane ci l = true → qi < block_number l →
  length (get_charge l qi) = qnumber ci.
Proof.
  intros Hs Hqi. unfold get_charge, charge_scale. rewrite length_fmap.
  pose proof (sector_lookup_Some l qi Hqi) as Hlk.
  unfold leg_sane in Hs. apply andb_true_iff in Hs as [Hs _].
  apply andb_true_iff in Hs as [_ Hs]. rewrite forallb_forall in Hs.
  specialize (Hs (sector l qi)).
  rewrite andb_true_iff, bool_decide_eq_true in Hs. apply Hs.
  apply list_elem_of_In. by eapply list_elem_of_lookup_2.
Qed.

Lemma row_charges_length ci (ls : list LegCharge) (r : list nat) :
  forallb (leg_sane ci) ls = true → row_in_range ls r →
  Forall (λ q, length q = qnumber ci) (zip_with get_charge ls r).
Proof.
  intros Hs Hr. unfold row_in_range in Hr. revert Hs.
  induction Hr as [|qi l r ls' Hqi _ IH]; intros Hs; [constructor|].
  cbn in Hs. apply andb_true_iff in Hs as [Hl Hs]. cbn [zip_with].
  constructor; [by apply (get_charge_length ci)|by apply IH].
Qed.

Lemma make_valid_1_sum (m ska sls skb x y : Z) :
  make_valid_1 m (ska + sls) = make_valid_1 m x →
  make_valid_1 m (- sls + skb) = make_valid_1 m y →
  make_valid_1 m (make_valid_1 m skb + make_valid_1 m ska) =
  make_valid_1 m (x + y).
Proof.
  unfold make_valid_1. destruct (Z.eqb_spec m 0) as [->|Hm]; [lia|].
  intros H1 H2.
  rewrite <- Z.add_mod by done.
  rewrite (Z.add_mod x y), <- H1, <- H2, <- Z.add_mod by done.
  f_equal. lia.
Qed.

Lemma charge_check_vectors ci (SKA SLS SKB qa qb : charge) :
  length SKA = qnumber ci → length SLS = qnumber ci →
  length SKB = qnumber ci →
  make_valid ci (charge_add SKA SLS) = make_valid ci qa →
  make_valid ci (charge_add (charge_neg SLS) SKB) = make_valid ci qb →
  make_valid ci (charge_add (make_valid ci SKB) (make_valid ci SKA)) =
  make_valid ci (charge_add qa qb).
Proof.
  unfold make_valid, charge_add, charge_neg, qnumber.
  generalize (qmod ci) as ms. intros ms. revert SKA SLS SKB qa qb.
  induction ms as [|m ms IH]; intros SKA SLS SKB qa qb Ha Hl Hb H1 H2;
    [done|].
  destruct SKA as [|ska SKA], SLS as [|sls SLS], SKB as [|skb SKB]; try done.
  destruct qa as [|x qa], qb as [|y qb]; try done.
  cbn [zip_with fmap list_fmap] in *.
  injection H1 as H1 H1'. injection H2 as H2 H2'.
  f_equal; [by eapply make_valid_1_sum|].
  apply (IH SKA SLS SKB); try done; cbn in *; lia.
Qed.

Lemma forallb_take {A} (P : A → bool) (l : list A) (n : nat) :
  forallb P l = true → forallb P (take n l) = true.
Proof.
  rewrite !forallb_Forall. apply Forall_take.
Qed.

Lemma forallb_drop {A} (P : A → bool) (l : list A) (n : nat) :
  forallb P l = true → forallb P (drop n l) = true.
Proof.
  rewrite !forallb_Forall. apply Forall_drop.
Qed.

Lemma row_in_range_split (ls : list LegCharge) (r : list nat) (c : nat) :
  row_in_range ls r →
  row_in_range (take c ls) (take c r) ∧ row_in_range (drop c ls) (drop c r).
Proof.
  unfold row_in_range. intros Hr. split;
    [by apply Forall2_take|by apply Forall2_drop].
Qed.

Lemma block_charge_split ci (ls : list LegCharge) (r : list nat) (c : nat) :
  length r = length ls →
  charge_sum ci (zip_with get_charge ls r) =
  charge_add (charge_sum ci (zip_with get_charge (take c ls) (take c r)))
             (charge_sum ci (zip_with get_charge (drop c ls) (drop c r))).
Proof.
  intros Hlen. rewrite <- charge_sum_app, <- zip_with_app.
  - by rewrite !take_drop.
  - rewrite !length_take. lia.
Qed.

(** Two stored rows that agree on the contracted sectors pass the charge
    check of [_tensordot_worker]. *)
Lemma matched_rows_charge (a b : Array) (cut_a axes : nat)
    (ra rb : list nat) :
  test_sanity a = Ok () → test_sanity b = Ok () → chinfo a = chinfo b →
  cut_a + axes = rank a → axes ≤ rank b →
  Forall2 (λ la lb, qind la = qind lb ∧ qconj la = (- qconj lb)%Z)
          (drop cut_a (legs a)) (take axes (legs b)) →
  charges_congruent a = true → charges_congruent b = true →
  ra ∈ _qdata a → rb ∈ _qdata b → drop cut_a ra = take axes rb →
  make_valid (chinfo a)
    (charge_add
       (make_valid (chinfo a)
          (charge_sum (chinfo a)
             (zip_with get_charge (drop axes (legs b)) (drop axes rb))))
       (make_valid (chinfo a)
          (charge_sum (chinfo a)
             (zip_with get_charge (take cut_a (legs a)) (take cut_a ra))))) =
  make_valid (chinfo a) (charge_add (qtotal a) (qtotal b)).
Proof.
  intros Hsa Hsb Hci Hcut Hax Hc Hca Hcb Hra Hrb Heq.
  pose proof (rank_legs _ Hsa) as Hrka. pose proof (rank_legs _ Hsb) as Hrkb.
  pose proof (sane_rows _ Hsa) as Hrowsa. pose proof (sane_rows _ Hsb) as Hrowsb.
  rewrite Forall_forall in Hrowsa, Hrowsb.
  destruct (Hrowsa ra Hra) as [Hla Hrga]. destruct (Hrowsb rb Hrb) as [Hlb Hrgb].
  destruct (test_sanity_Forall _ Hsa) as (_ & _ & Hlsa & _).
  destruct (test_sanity_Forall _ Hsb) as (_ & _ & Hlsb & _).
  rewrite <- Hci in Hlsb.
  unfold charges_congruent in Hca, Hcb. rewrite forallb_forall in Hca, Hcb.
  pose proof (Hca ra (proj1 (list_elem_of_In _ _) Hra)) as Ha.
  pose proof (Hcb rb (proj1 (list_elem_of_In _ _) Hrb)) as Hb.
  apply bool_decide_eq_true in Ha, Hb. unfold _get_block_charge in Ha, Hb.
  rewrite <- Hci in Hb.
  rewrite (block_charge_split _ (legs a) ra cut_a) in Ha by lia.
  rewrite (block_charge_split _ (legs b) rb axes) in Hb by lia.
  rewrite <- Heq in Hb.
  rewrite (contractible_charge_sum _ _ _ (drop cut_a ra) Hc) in Hb.
  destruct (row_in_range_split _ _ cut_a Hrga) as [HrgKA HrgLS].
  destruct (row_in_range_split _ _ axes Hrgb) as [_ HrgKB].
  apply charge_check_vectors with
    (SLS := charge_sum (chinfo a)
              (zip_with get_charge (drop cut_a (legs a)) (drop cut_a ra)));
    try done.
  - apply charge_sum_length, row_charges_length; [by apply forallb_take|done].
  - apply charge_sum_length, row_charges_length; [by apply forallb_drop|done].
  - apply charge_sum_length, row_charges_length; [by apply forallb_drop|done].
Qed.

(** ** The entries of the blocks of the result *)

Lemma foldl_add_at {K} (c : K → ndarray) (ks : list K) : ∀ s o,
  nd_at (foldl (λ s k, np_add s (c k)) s ks) o =
  (nd_at s o + sumZ ((λ k, nd_at (c k) o) <$> ks))%Z.
Proof.
  induction ks as [|k ks IH]; intros s o; cbn [foldl].
  - cbn. lia.
  - rewrite IH, fmap_cons, sumZ_cons. cbn. lia.
Qed.

Lemma group_pair_output_embed ci qt axes dt pa pb row col
    (sl : list nat → list (nat * nat)) (idx : list nat) :
  sumZ ((λ u : list nat * ndarray, embed (sl u.1) u.2 idx)
        <$> group_pair_output ci qt axes dt pa pb row col) =
  if bool_decide
       (make_valid ci (charge_add (p_charges_keep pb !!! col)
                         (p_charges_keep pa !!! row)) = qt)
  then sumZ ((λ k : nat * nat,
                embed (sl ((p_qdata_keep pa !!! row) ++ (p_qdata_keep pb !!! col)))
                      (np_tensordot axes (p_data pa !!! k.1) (p_data pb !!! k.2))
                      idx)
             <$> _iter_common_sorted (p_qdata_sum pa) (p_qdata_sum pb)
                   (slice_range (p_slices pa) row)
                   (slice_range (p_slices pb) col))
  else 0%Z.
Proof.
  unfold group_pair_output. destruct (bool_decide _); [|done].
  destruct (_iter_common_sorted _ _ _ _) as [|k ks]; [done|].
  cbn [fmap list_fmap fst snd]. rewrite !sumZ_cons. cbn [sumZ foldr].
  unfold embed. destruct (in_slices _ idx).
  - rewrite foldl_add_at. cbn [np_asarray nd_at].
    change (list_fmap ?A ?B ?f ?l) with (f <$> l). lia.
  - rewrite sumZ_fmap_zero; [lia|]. apply Forall_forall. by intros.
Qed.

Lemma tensordot_worker_sane (a b res : Array) (axes : nat) :
  _tensordot_worker a b axes = Ok res → test_sanity res = Ok ().
Proof.
  unfold _tensordot_worker.
  destruct (_tensordot_pre_worker _ _ _ _) as [pa pb].
  destruct (worker_table _ _ _ _ _ _) as [q d].
  unfold Array_init.
  destruct (test_sanity (Array_new _ _ _ _)) as [[]|] eqn:E; [|done].
  cbn [mbind result_bind].
  destruct (bool_decide _); [by intros [= <-]|].
  destruct (test_sanity (set_data _ _)) as [[]|] eqn:E'; [|done].
  cbn [mbind result_bind]. by intros [= <-].
Qed.

Section worker_dense.
Variables (a b : Array) (axes : nat).
Hypothesis Hsa : test_sanity a = Ok ().
Hypothesis Hsb : test_sanity b = Ok ().
Hypothesis Hda : rows_distinct a = true.
Hypothesis Hdb : rows_distinct b = true.
Hypothesis Hsha : blocks_shaped a = true.
Hypothesis Hshb : blocks_shaped b = true.
Hypothesis Hci : chinfo a = chinfo b.
Hypothesis Hxa : axes ≤ rank a.
Hypothesis Hxb : axes ≤ rank b.
Hypothesis Hc :
  Forall2 (λ la lb, qind la = qind lb ∧ qconj la = (- qconj lb)%Z)
          (drop (rank a - axes) (legs a)) (take axes (legs b)).

Local Abbreviation cut_a := (rank a - axes).
Local Abbreviation LK := (take (rank a - axes) (legs a)).
Local Abbreviation LS := (drop (rank a - axes) (legs a)).
Local Abbreviation LK' := (drop axes (legs b)).
Local Abbreviation NS := (block_number <$> drop (rank a - axes) (legs a)).

Lemma dense_contraction_terms (i j : list nat) :
  length i = cut_a →
  sumZ ((λ k, nd_at (to_ndarray a) (i ++ k) * nd_at (to_ndarray b) (k ++ j))%Z
        <$> ndindex (drop cut_a (shape a))) =
  sumZ ((λ y, sumZ ((λ x, contraction_term a b axes (i ++ j) x y)
                    <$> table a)) <$> table b).
Proof using Hsa Hsb Hda Hdb Hsha Hxa Hxb Hc.
  intros Hi.
  pose proof (rank_legs _ Hsa) as Hrka. pose proof (rank_legs _ Hsb) as Hrkb.
  destruct (test_sanity_Forall _ Hsa) as (Hshape & _ & Hlsa & Hlena & _).
  destruct (test_sanity_Forall _ Hsb) as (_ & _ & Hlsb & Hlenb & _).
  pose proof (table_row_in_range _ Hsa) as Hrga.
  pose proof (table_row_in_range _ Hsb) as Hrgb.
  pose proof (table_shaped _ Hsha) as Hta.
  rewrite Forall_forall in Hrga, Hrgb, Hta.
  transitivity (sumZ ((λ k,
      sumZ ((λ y, sumZ ((λ x,
          embed (zip_with get_slice (legs a) x.1) x.2 (i ++ k) *
          embed (zip_with get_slice (legs b) y.1) y.2 (k ++ j))%Z
        <$> table a)) <$> table b)) <$> ndindex (drop cut_a (shape a)))).
  { apply sumZ_fmap_ext, Forall_forall. intros k _.
    rewrite (to_ndarray_at _ _ Hsa Hda), (to_ndarray_at _ _ Hsb Hdb).
    rewrite <- sumZ_fmap_mul_l.
    apply sumZ_fmap_ext, Forall_forall. intros y _.
    by rewrite <- sumZ_fmap_mul_r. }
  rewrite (sumZ_swap (λ k y, sumZ ((λ x,
          embed (zip_with get_slice (legs a) x.1) x.2 (i ++ k) *
          embed (zip_with get_slice (legs b) y.1) y.2 (k ++ j))%Z
        <$> table a))).
  apply sumZ_fmap_ext, Forall_forall. intros y Hy.
  rewrite (sumZ_swap (λ k x,
          embed (zip_with get_slice (legs a) x.1) x.2 (i ++ k) *
          embed (zip_with get_slice (legs b) y.1) y.2 (k ++ j))%Z).
  apply sumZ_fmap_ext, Forall_forall. intros x Hx.
  specialize (Hrga x Hx). specialize (Hrgb y Hy). specialize (Hta x Hx).
  cbn beta in *.
  pose proof (Forall2_length _ _ _ Hrga) as Hlx.
  pose proof (Forall2_length _ _ _ Hrgb) as Hly.
  destruct (row_in_range_split _ _ cut_a Hrga) as [_ HrgS].
  destruct (row_in_range_split _ _ axes Hrgb) as [HrgS' _].
  destruct (contractible_slices LS (take axes (legs b)) (take axes y.1) Hc)
    as (Hsl & _ & Hrg').
  specialize (Hrg' HrgS').
  assert (Hslb : zip_with get_slice (legs b) y.1 =
                 zip_with get_slice (LS ++ LK') (take axes y.1 ++ drop axes y.1)).
  { rewrite zip_with_app by (rewrite length_drop, length_take; lia).
    rewrite <- Hsl, <- zip_with_app by (rewrite !length_take; lia).
    by rewrite !take_drop. }
  rewrite Hslb.
  replace (zip_with get_slice (legs a) x.1) with
    (zip_with get_slice (LK ++ LS) (take cut_a x.1 ++ drop cut_a x.1))
    by (by rewrite !take_drop).
  rewrite Hshape, <- fmap_drop.
  rewrite (pair_contract (chinfo a) LK LS LK' (take cut_a x.1) (drop cut_a x.1)
             (take axes y.1) (drop axes y.1) x.2 y.2 i j).
  - unfold contraction_term. rewrite length_drop.
    replace (length (legs a) - cut_a) with axes by lia. done.
  - by apply forallb_drop.
  - done.
  - done.
  - rewrite !length_take. lia.
  - rewrite length_take. lia.
  - rewrite !take_drop. exact Hta.
Qed.

Lemma contractible_block_numbers (la lb : list LegCharge) :
  Forall2 (λ la lb, qind la = qind lb ∧ qconj la = (- qconj lb)%Z) la lb →
  block_number <$> lb = block_number <$> la.
Proof.
  induction 1 as [|l l' la lb [Hq _] _ IH]; [done|].
  rewrite !fmap_cons, IH. f_equal. unfold block_number. by rewrite Hq.
Qed.

Lemma view_positions (rows : list (list nat)) (data : list ndarray)
    (T : list (list nat * ndarray)) (q : list (list nat)) (i : nat) :
  length rows = length data → zip rows data ≡ₚ T → T.*1 ≡ₚ q →
  i < length rows →
  rows !!! i ∈ q ∧ zip rows data !!! i = (rows !!! i, data !!! i).
Proof.
  intros Hlen Hp Hq Hi. split.
  - rewrite <- Hq, <- Hp, fst_zip by lia.
    apply list_elem_of_lookup_total_2. done.
  - by apply zip_lookup_total.
Qed.

Lemma worker_dense_terms (res : Array) (idx : list nat) :
  charges_congruent a = true → charges_congruent b = true →
  _tensordot_worker a b axes = Ok res →
  nd_at (to_ndarray res) idx =
  sumZ ((λ y, sumZ ((λ x, contraction_term a b axes idx x y) <$> table a))
        <$> table b).
Proof using All.
  intros Hca Hcb Hres.
  pose proof (rank_legs _ Hsa) as Hrka. pose proof (rank_legs _ Hsb) as Hrkb.
  destruct (test_sanity_Forall _ Hsa) as (_ & _ & Hlsa & Hlena & _).
  destruct (test_sanity_Forall _ Hsb) as (_ & _ & Hlsb & Hlenb & _).
  pose proof (sane_rows _ Hsa) as Hrowsa. pose proof (sane_rows _ Hsb) as Hrowsb.
  rewrite Forall_forall in Hrowsa, Hrowsb.
  destruct (tensordot_worker_returns a b axes Hsa Hsb Hci Hxa Hxb)
    as (res' & Hres' & Hlegs & Hq & Hd & Hsorted).
  rewrite Hres in Hres'. injection Hres' as <-.
  pose proof (tensordot_worker_sane _ _ _ _ Hres) as Hsr.
  assert (Hdr : rows_distinct res = true).
  { apply bool_decide_eq_true. eapply StronglySorted_NoDup; [|exact Hsorted].
    intros x Hx. by rewrite row_lt_irrefl in Hx. }
  rewrite (to_ndarray_at _ _ Hsr Hdr). unfold table at 1.
  rewrite Hq, Hd, zip_fst_snd, Hlegs.
  destruct (pre_worker_view_a a b cut_a axes Hsa Hda)
    as (rowsA & HlA & HpA & HsumA & HslA & HkA & HchA & HsortA); [lia|].
  destruct (pre_worker_view_b a b cut_a axes Hsa Hsb Hdb)
    as (rowsB & HlB & HpB & HsumB & HslB & HkB & HchB & HsortB);
    [lia|lia|lia|by apply contractible_block_numbers|].
  set (pre := _tensordot_pre_worker a b cut_a axes) in *.
  set (pa := pre.1) in *. set (pb := pre.2) in *.
  set (keepsA := take cut_a <$> rowsA) in *.
  set (keepsB := drop axes <$> rowsB) in *.
  set (ci := chinfo a) in *.
  set (qt := make_valid ci (charge_add (qtotal a) (qtotal b))) in *.
  set (dt := find_common_type (dtype a) (dtype b)) in *.
  destruct (group_keep keepsA) as [HnKA HKA]. rewrite <- HslA, <- HkA in HnKA, HKA.
  destruct (group_keep keepsB) as [HnKB HKB]. rewrite <- HslB, <- HkB in HnKB, HKB.
  destruct (find_row_differences_spec keepsA) as [_ HgA]. rewrite <- HslA in HgA.
  destruct (find_row_differences_spec keepsB) as [_ HgB]. rewrite <- HslB in HgB.
  assert (HqA : (table a).*1 ≡ₚ _qdata a) by (by rewrite table_fst).
  assert (HqB : (table b).*1 ≡ₚ _qdata b) by (by rewrite table_fst).
  assert (HlkA : length keepsA = length rowsA) by (by unfold keepsA; rewrite length_fmap).
  assert (HlkB : length keepsB = length rowsB) by (by unfold keepsB; rewrite length_fmap).
  assert (HposA : ∀ row i, row < length (p_qdata_keep pa) →
            i ∈ slice_range (p_slices pa) row → i < length rowsA).
  { intros row i Hrow Hi. rewrite <- HlkA.
    apply (group_positions keepsA row i); rewrite <- ?HslA; [lia|done]. }
  assert (HposB : ∀ col j, col < length (p_qdata_keep pb) →
            j ∈ slice_range (p_slices pb) col → j < length rowsB).
  { intros col j Hcol Hj. rewrite <- HlkB.
    apply (group_positions keepsB col j); rewrite <- ?HslB; [lia|done]. }
  set (Fpos := λ i j, contraction_term a b axes idx
                        (rowsA !!! i, p_data pa !!! i)
                        (rowsB !!! j, p_data pb !!! j)).
  assert (Hpair : ∀ col row,
    col < length (p_qdata_keep pb) → row < length (p_qdata_keep pa) →
    sumZ ((λ u : list nat * ndarray,
             embed (zip_with get_slice (LK ++ LK') u.1) u.2 idx)
          <$> group_pair_output ci qt axes dt pa pb row col) =
    sumZ ((λ j, sumZ ((λ i, Fpos i j) <$> slice_range (p_slices pa) row))
          <$> slice_range (p_slices pb) col)).
  { intros col row Hcol Hrow.
    rewrite (group_pair_output_embed ci qt axes dt pa pb row col
               (λ r, zip_with get_slice (LK ++ LK') r) idx).
    assert (HascA : ascending (p_qdata_sum pa) (slice_range (p_slices pa) row)).
    { rewrite HslA. apply group_ascending; [|exact HsortA|rewrite <- HslA; lia].
      by rewrite HsumA, length_fmap. }
    assert (HascB : ascending (p_qdata_sum pb) (slice_range (p_slices pb) col)).
    { rewrite HslB. apply group_ascending; [|exact HsortB|rewrite <- HslB; lia].
      by rewrite HsumB, length_fmap. }
    rewrite (iter_common_sorted_spec _ _ _ _ HascA HascB).
    pose proof (sum_common_pairs (p_qdata_sum pa) (p_qdata_sum pb)
      (λ i j, embed (zip_with get_slice (LK ++ LK')
                       (p_qdata_keep pa !!! row ++ p_qdata_keep pb !!! col))
                    (np_tensordot axes (p_data pa !!! i) (p_data pb !!! j)) idx)
      (slice_range (p_slices pa) row) (slice_range (p_slices pb) col)) as Hscp.
    cbn beta in Hscp. rewrite Hscp. clear Hscp.
    assert (Hterm : ∀ i j, i ∈ slice_range (p_slices pa) row →
              j ∈ slice_range (p_slices pb) col →
              (p_qdata_sum pa !!! i = p_qdata_sum pb !!! j ↔
               drop cut_a (rowsA !!! i) = take axes (rowsB !!! j)) ∧
              p_qdata_keep pa !!! row = take cut_a (rowsA !!! i) ∧
              p_qdata_keep pb !!! col = drop axes (rowsB !!! j) ∧
              (drop cut_a (rowsA !!! i) = take axes (rowsB !!! j) →
               make_valid ci (charge_add (p_charges_keep pb !!! col)
                                (p_charges_keep pa !!! row)) = qt)).
    { intros i j Hi Hj.
      pose proof (HposA row i Hrow Hi) as Hia.
      pose proof (HposB col j Hcol Hj) as Hjb.
      destruct (view_positions rowsA (p_data pa) (table a) (_qdata a) i
                  HlA HpA HqA Hia) as [HinA _].
      destruct (view_positions rowsB (p_data pb) (table b) (_qdata b) j
                  HlB HpB HqB Hjb) as [HinB _].
      destruct (Hrowsa _ HinA) as [HlrA HrgA].
      destruct (Hrowsb _ HinB) as [HlrB HrgB].
      assert (HkeepA : p_qdata_keep pa !!! row = take cut_a (rowsA !!! i)).
      { rewrite (HKA row) by lia. rewrite <- (HgA row i) by (done || lia).
        unfold keepsA. by rewrite (list_lookup_total_fmap (take cut_a) rowsA i). }
      assert (HkeepB : p_qdata_keep pb !!! col = drop axes (rowsB !!! j)).
      { rewrite (HKB col) by lia. rewrite <- (HgB col j) by (done || lia).
        unfold keepsB. by rewrite (list_lookup_total_fmap (drop axes) rowsB j). }
      split; [|split; [done|split; [done|]]].
      - rewrite HsumA, HsumB.
        rewrite (list_lookup_total_fmap (λ r, horner NS (drop cut_a r)) rowsA i)
          by done.
        rewrite (list_lookup_total_fmap (λ r, horner NS (take axes r)) rowsB j)
          by done.
        split.
        + apply horner_inj; [by apply row_in_range_drop|].
          rewrite <- (contractible_block_numbers _ _ Hc).
          by apply row_in_range_take.
        + by intros ->.
      - intros Heq. rewrite HchA, HchB.
        rewrite (list_lookup_total_fmap _ (p_qdata_keep pb) col) by lia.
        rewrite (list_lookup_total_fmap _ (p_qdata_keep pa) row) by lia.
        rewrite HkeepA, HkeepB.
        apply (matched_rows_charge a b cut_a axes); try done; lia. }
    destruct (bool_decide _) eqn:Hchk.
    - apply sumZ_fmap_ext, Forall_forall. intros j Hj.
      apply sumZ_fmap_ext, Forall_forall. intros i Hi.
      destruct (Hterm i j Hi Hj) as (Hiff & HkA' & HkB' & _).
      unfold Fpos, contraction_term. cbn [fst snd]. rewrite HkA', HkB'.
      destruct (decide (p_qdata_sum pa !!! i = p_qdata_sum pb !!! j)) as [He|He];
        destruct (decide (drop cut_a (rowsA !!! i) = take axes (rowsB !!! j)))
          as [He'|He']; try done.
      + by apply Hiff in He.
      + by apply Hiff in He'.
    - symmetry. apply sumZ_fmap_zero, Forall_forall. intros j Hj.
      apply sumZ_fmap_zero, Forall_forall. intros i Hi.
      destruct (Hterm i j Hi Hj) as (_ & _ & _ & Hq').
      unfold Fpos, contraction_term. cbn [fst snd].
      destruct (decide _) as [He|]; [|done].
      apply bool_decide_eq_false in Hchk. by specialize (Hq' He). }
  transitivity (sumZ ((λ col, sumZ ((λ row,
      sumZ ((λ j, sumZ ((λ i, Fpos i j) <$> slice_range (p_slices pa) row))
            <$> slice_range (p_slices pb) col))
      <$> seq 0 (length (p_qdata_keep pa))))
      <$> seq 0 (length (p_qdata_keep pb)))).
  { unfold group_pairs_output. rewrite sumZ_bind.
    apply sumZ_fmap_ext, Forall_forall. intros col Hcol.
    apply elem_of_seq in Hcol. rewrite sumZ_bind.
    apply sumZ_fmap_ext, Forall_forall. intros row Hrow.
    apply elem_of_seq in Hrow. apply Hpair; lia. }
  transitivity (sumZ ((λ col,
      sumZ ((λ j, sumZ ((λ i, Fpos i j) <$> seq 0 (length keepsA)))
            <$> slice_range (p_slices pb) col))
      <$> seq 0 (length (p_qdata_keep pb)))).
  { apply sumZ_fmap_ext, Forall_forall. intros col _.
    rewrite (sumZ_swap (λ row j,
               sumZ ((λ i, Fpos i j) <$> slice_range (p_slices pa) row))).
    apply sumZ_fmap_ext, Forall_forall. intros j _.
    rewrite HnKA, HslA.
    exact (group_sum keepsA (λ _ i, Fpos i j)). }
  rewrite HnKB, HslB.
  rewrite (group_sum keepsB
             (λ _ j, sumZ ((λ i, Fpos i j) <$> seq 0 (length keepsA)))).
  rewrite HlkA, HlkB.
  set (zipA := zip rowsA (p_data pa)). set (zipB := zip rowsB (p_data pb)).
  assert (HlzA : length zipA = length rowsA).
  { unfold zipA. rewrite length_zip. lia. }
  assert (HlzB : length zipB = length rowsB).
  { unfold zipB. rewrite length_zip. lia. }
  transitivity (sumZ ((λ j,
      (λ y, sumZ ((λ x, contraction_term a b axes idx x y) <$> zipA))
        (zipB !!! j)) <$> seq 0 (length zipB))).
  { rewrite HlzB. apply sumZ_fmap_ext, Forall_forall. intros j Hj.
    apply elem_of_seq in Hj. cbn beta.
    rewrite <- (sumZ_seq_lookup
                  (λ x, contraction_term a b axes idx x (zipB !!! j)) zipA).
    rewrite HlzA. apply sumZ_fmap_ext, Forall_forall. intros i Hi.
    apply elem_of_seq in Hi. unfold Fpos, zipA, zipB.
    rewrite !zip_lookup_total by (done || lia). done. }
  rewrite (sumZ_seq_lookup
             (λ y, sumZ ((λ x, contraction_term a b axes idx x y) <$> zipA))
             zipB).
  rewrite (sumZ_fmap_Permutation _ zipB (table b) HpB).
  apply sumZ_fmap_ext, Forall_forall. intros y _.
  by apply sumZ_fmap_Permutation.
Qed.
End worker_dense.

(** X22: [_tensordot_worker] computes the contraction of the dense arrays.
    For operands as [tensordot] passes them (one charge group, the last
    [axes] legs of [a] contractible with the first [axes] legs of [b], at
    least one contracted axis and one kept leg) that pass [test_sanity],
    store no row twice, have blocks of the shapes of their sectors and
    block charges congruent to their total charges, the worker returns an
    Array that passes [test_sanity] and whose dense array has the shape and,
    at every multi-index of its rank, the entry of
    [np.tensordot(a.to_ndarray(), b.to_ndarray(), axes)]. *)
Theorem tensordot_worker_dense (a b : Array) (axes : nat) :
  test_sanity a = Ok () → test_sanity b = Ok () →
  rows_distinct a = true → rows_distinct b = true →
  blocks_shaped a = true → blocks_shaped b = true →
  charges_congruent a = true → charges_congruent b = true →
  chinfo a = chinfo b →
  0 < axes → axes ≤ rank a → axes ≤ rank b →
  ¬ (axes = rank a ∧ axes = rank b) →
  for_each (λ p, test_contractible p.1 p.2)
           (zip (drop (rank a - axes) (legs a)) (take axes (legs b))) = Ok () →
  ∃ res,
    _tensordot_worker a b axes = Ok res ∧ test_sanity res = Ok () ∧
    nd_shape (to_ndarray res) =
      nd_shape (np_tensordot axes (to_ndarray a) (to_ndarray b)) ∧
    ∀ idx, length idx = rank res →
           nd_at (to_ndarray res) idx =
           nd_at (np_tensordot axes (to_ndarray a) (to_ndarray b)) idx.
Proof.
  intros Hsa Hsb Hda Hdb Hsha Hshb Hca Hcb Hci _ Hxa Hxb _ Hfor.
  pose proof (rank_legs _ Hsa) as Hrka. pose proof (rank_legs _ Hsb) as Hrkb.
  assert (Hc : Forall2 (λ la lb, qind la = qind lb ∧ qconj la = (- qconj lb)%Z)
                 (drop (rank a - axes) (legs a)) (take axes (legs b))).
  { apply for_each_contractible; [|done]. rewrite length_drop, length_take. lia. }
  destruct (tensordot_worker_returns a b axes Hsa Hsb Hci Hxa Hxb)
    as (res & Hres & Hlegs & _).
  pose proof (tensordot_worker_sane _ _ _ _ Hres) as Hsr.
  pose proof (rank_legs _ Hsr) as Hrkr.
  destruct (test_sanity_Forall _ Hsa) as (Hshape_a & _).
  destruct (test_sanity_Forall _ Hsb) as (Hshape_b & _).
  destruct (test_sanity_Forall _ Hsr) as (Hshape_r & _).
  exists res. split; [done|]. split; [done|]. split.
  - rewrite to_ndarray_shape. cbn [np_tensordot nd_shape].
    rewrite !to_ndarray_shape, Hshape_r, Hlegs, Hshape_a, Hshape_b.
    rewrite fmap_app, !fmap_take, !fmap_drop, length_fmap. by rewrite <- Hrka.
  - intros idx Hidx.
    rewrite (worker_dense_terms a b axes Hsa Hsb Hda Hdb Hsha Hshb Hci Hxa Hxb
               Hc res idx Hca Hcb Hres).
    pose proof (dense_contraction_terms a b axes Hsa Hsb Hda Hdb Hsha Hxa Hxb Hc
                  (take (rank a - axes) idx) (drop (rank a - axes) idx)) as Hrhs.
    rewrite take_drop in Hrhs. rewrite <- Hrhs.
    + cbn [np_tensordot nd_at]. by rewrite !to_ndarray_shape.
    + rewrite length_take. rewrite Hidx, Hrkr, Hlegs, length_app, length_take.
      lia.
Qed.

Lemma tensordot_worker_dense_witness :
  test_sanity ex_eye = Ok () ∧ test_sanity ex_eye_unsorted = Ok () ∧
  rows_distinct ex_eye = true ∧ rows_distinct ex_eye_unsorted = true ∧
  blocks_shaped ex_eye = true ∧ blocks_shaped ex_eye_unsorted = true ∧
  charges_congruent ex_eye = true ∧ charges_congruent ex_eye_unsorted = true ∧
  chinfo ex_eye = chinfo ex_eye_unsorted ∧
  0 < 1 ∧ 1 ≤ rank ex_eye ∧ 1 ≤ rank ex_eye_unsorted ∧
  ¬ (1 = rank ex_eye ∧ 1 = rank ex_eye_unsorted) ∧
  for_each (λ p, test_contractible p.1 p.2)
           (zip (drop (rank ex_eye - 1) (legs ex_eye))
                (take 1 (legs ex_eye_unsorted))) = Ok () ∧
  ∃ res,
    _tensordot_worker ex_eye ex_eye_unsorted 1 = Ok res ∧
    test_sanity res = Ok () ∧
    nd_shape (to_ndarray res) =
      nd_shape (np_tensordot 1 (to_ndarray ex_eye)
                  (to_ndarray ex_eye_unsorted)) ∧
    ∀ idx, length idx = rank res →
           nd_at (to_ndarray res) idx =
           nd_at (np_tensordot 1 (to_ndarray ex_eye)
                    (to_ndarray ex_eye_unsorted)) idx.
Proof.
  assert (H1 : test_sanity ex_eye = Ok ()) by (vm_compute; reflexivity).
  assert (H2 : test_sanity ex_eye_unsorted = Ok ()) by (vm_compute; reflexivity).
  assert (H3 : rows_distinct ex_eye = true) by (vm_compute; reflexivity).
  assert (H4 : rows_distinct ex_eye_unsorted = true)
    by (vm_compute; reflexivity).
  assert (H5 : blocks_shaped ex_eye = true) by (vm_compute; reflexivity).
  assert (H6 : blocks_shaped ex_eye_unsorted = true)
    by (vm_compute; reflexivity).
  assert (H7 : charges_congruent ex_eye = true) by (vm_compute; reflexivity).
  assert (H8 : charges_congruent ex_eye_unsorted = true)
    by (vm_compute; reflexivity).
  assert (H9 : chinfo ex_eye = chinfo ex_eye_unsorted) by reflexivity.
  assert (H10 : 0 < 1) by lia.
  assert (H11 : 1 ≤ rank ex_eye) by (vm_compute; lia).
  assert (H12 : 1 ≤ rank ex_eye_unsorted) by (vm_compute; lia).
  assert (H13 : ¬ (1 = rank ex_eye ∧ 1 = rank ex_eye_unsorted))
    by (vm_compute; lia).
  assert (H14 : for_each (λ p, test_contractible p.1 p.2)
                  (zip (drop (rank ex_eye - 1) (legs ex_eye))
                       (take 1 (legs ex_eye_unsorted))) = Ok ())
    by (vm_compute; reflexivity).
  split; [exact H1|]. split; [exact H2|]. split; [exact H3|].
  split; [exact H4|]. split; [exact H5|]. split; [exact H6|].
  split; [exact H7|]. split; [exact H8|]. split; [exact H9|].
  split; [exact H10|]. split; [exact H11|]. split; [exact H12|].
  split; [exact H13|]. split; [exact H14|].
  exact (tensordot_worker_dense ex_eye ex_eye_unsorted 1
           H1 H2 H3 H4 H5 H6 H7 H8 H9 H10 H11 H12 H13 H14).
Defined.

(** The entries of the product of [ex_eye] and [ex_eye_unsorted]. *)
Example tensordot_worker_dense_example :
  ∃ res, _tensordot_worker ex_eye ex_eye_unsorted 1 = Ok res ∧
         (λ idx, nd_at (to_ndarray res) idx)
           <$> [[0; 0]; [0; 1]; [1; 0]; [1; 1]] = [3; 0; 0; 2]%Z ∧
         (λ idx, nd_at (np_tensordot 1 (to_ndarray ex_eye)
                          (to_ndarray ex_eye_unsorted)) idx)
           <$> [[0; 0]; [0; 1]; [1; 0]; [1; 1]] = [3; 0; 0; 2]%Z.
Proof. eexists. split; [by vm_compute|]. split; by vm_compute. Qed.


(** ** Gauging the total charge *)

Lemma gauge_component (m c q s1 s2 old new : Z) :
  c = 1%Z ∨ c = (-1)%Z →
  make_valid_1 m (s1 + (c * q + s2)) = make_valid_1 m old →
  make_valid_1 m (s1 + (c * make_valid_1 m (q + c * (new - old)) + s2)) =
  make_valid_1 m new.
Proof.
  unfold make_valid_1. destruct (Z.eqb_spec m 0) as [->|Hm].
  - intros [-> | ->] H; lia.
  - intros Hc H.
    rewrite (Z.mod_eq (q + c * (new - old)) m) by done.
    set (k := ((q + c * (new - old)) / m)%Z).
    replace (s1 + (c * (q + c * (new - old) - m * k) + s2))%Z
      with ((s1 + (c * q + s2)) + (new - old) + (- c * k) * m)%Z
      by (destruct Hc as [-> | ->]; lia).
    rewrite Z_mod_plus_full, <- Zplus_mod_idemp_l, H, Zplus_mod_idemp_l.
    f_equal. lia.
Qed.

Lemma gauge_vectors (ms : list Z) (c : Z) : ∀ q S1 S2 old newv : charge,
  c = 1%Z ∨ c = (-1)%Z →
  length q = length ms → length S1 = length ms → length S2 = length ms →
  length old = length ms → length newv = length ms →
  zip_with make_valid_1 ms
    (charge_add S1 (charge_add (charge_scale c q) S2)) =
  zip_with make_valid_1 ms old →
  zip_with make_valid_1 ms
    (charge_add S1
       (charge_add
          (charge_scale c
             (zip_with make_valid_1 ms
                (charge_add q (charge_scale c (zip_with Z.sub newv old)))))
          S2)) =
  zip_with make_valid_1 ms newv.
Proof.
  unfold charge_add, charge_scale.
  induction ms as [|m ms IH]; intros q S1 S2 old newv Hc Hq H1 H2 Ho Hn H;
    [done|].
  destruct q as [|x q], S1 as [|s1 S1], S2 as [|s2 S2], old as [|o old],
    newv as [|n newv]; try done.
  cbn [zip_with fmap list_fmap] in *. injection H as Hh Ht.
  f_equal; [by apply gauge_component|].
  apply IH; try done; cbn in *; lia.
Qed.

Lemma make_valid_idemp ci (q : charge) :
  make_valid ci (make_valid ci q) = make_valid ci q.
Proof.
  unfold make_valid. generalize (qmod ci) as ms. intros ms. revert q.
  induction ms as [|m ms IH]; intros [|x q]; try done.
  cbn [zip_with]. f_equal; [|apply IH].
  unfold make_valid_1. destruct (Z.eqb_spec m 0); [done|].
  by rewrite Z.mod_mod.
Qed.

Lemma make_valid_length ci (q : charge) :
  length q = qnumber ci → length (make_valid ci q) = qnumber ci.
Proof.
  unfold make_valid, qnumber. rewrite length_zip_with. lia.
Qed.

Lemma contiguous_from_ranges (f : nat * nat * charge → nat * nat * charge)
    (q : list (nat * nat * charge)) :
  (∀ x, (f x).1 = x.1) → ∀ s,
  contiguous_from s (f <$> q) = contiguous_from s q.
Proof.
  intros Hf. induction q as [|x q IH]; intros s; [done|].
  cbn [fmap list_fmap contiguous_from]. specialize (Hf x).
  destruct (f x) as [[b e] c], x as [[b' e'] c']. cbn in Hf.
  injection Hf as -> ->. by rewrite IH.
Qed.

Lemma gauge_leg_sector ci d l qi :
  (sector (gauge_leg ci d l) qi).1 = (sector l qi).1.
Proof.
  unfold sector, gauge_leg. cbn [qind]. rewrite !nth_lookup, list_lookup_fmap.
  by destruct (qind l !! qi).
Qed.

Lemma gauge_leg_slice ci d l qi :
  get_slice (gauge_leg ci d l) qi = get_slice l qi.
Proof.
  unfold get_slice, sector_start, sector_stop.
  by rewrite gauge_leg_sector.
Qed.

Lemma gauge_leg_ind_len ci d l : ind_len (gauge_leg ci d l) = ind_len l.
Proof.
  unfold ind_len, gauge_leg. cbn [qind]. rewrite fmap_last.
  by destruct (last (qind l)) as [[[b e] c]|].
Qed.

Lemma gauge_leg_block_number ci d l :
  block_number (gauge_leg ci d l) = block_number l.
Proof. unfold block_number, gauge_leg. cbn [qind]. by rewrite length_fmap. Qed.

Lemma gauge_leg_charge ci d l qi :
  qi < block_number l →
  get_charge (gauge_leg ci d l) qi =
  charge_scale (qconj l)
    (make_valid ci (charge_add (sector l qi).2 (charge_scale (qconj l) d))).
Proof.
  intros Hqi. unfold get_charge, sector, gauge_leg. cbn [qind qconj].
  rewrite !nth_lookup, list_lookup_fmap.
  destruct (lookup_lt_is_Some_2 (qind l) qi Hqi) as [x ->]. done.
Qed.

Lemma gauge_leg_sane ci d l :
  length d = qnumber ci → leg_sane ci l = true →
  leg_sane ci (gauge_leg ci d l) = true.
Proof.
  intros Hd. unfold leg_sane. rewrite !andb_true_iff.
  intros [[H1 H2] H3]. cbn [qconj]. split; [split|done].
  - unfold gauge_leg. cbn [qind]. by rewrite contiguous_from_ranges.
  - unfold gauge_leg. cbn [qind]. rewrite forallb_forall in H2.
    apply forallb_forall. intros s Hs. apply in_map_iff in Hs as (x & <- & Hx).
    specialize (H2 x Hx). apply andb_true_iff in H2 as [H2 _].
    apply bool_decide_eq_true in H2. cbn [snd].
    apply andb_true_iff. split; apply bool_decide_eq_true_2.
    + apply make_valid_length. unfold charge_add, charge_scale.
      rewrite length_zip_with, length_fmap. lia.
    + apply make_valid_idemp.
Qed.

Lemma leg_sane_qconj ci l :
  leg_sane ci l = true → qconj l = 1%Z ∨ qconj l = (-1)%Z.
Proof.
  unfold leg_sane. rewrite !andb_true_iff, orb_true_iff, !bool_decide_eq_true.
  tauto.
Qed.

Lemma charge_sum_cons ci (q : charge) (qs : list charge) :
  charge_sum ci (q :: qs) = charge_add q (charge_sum ci qs).
Proof. done. Qed.

(** The charge of a block after one leg is gauged. *)
Lemma gauge_block_charge ci (ls : list LegCharge) (p : nat) (l : LegCharge)
    (row : list nat) (old newv : charge) :
  forallb (leg_sane ci) ls = true → ls !! p = Some l → row_in_range ls row →
  length old = qnumber ci → length newv = qnumber ci →
  make_valid ci newv = newv →
  make_valid ci (charge_sum ci (zip_with get_charge ls row)) =
  make_valid ci old →
  make_valid ci
    (charge_sum ci
       (zip_with get_charge
          (<[p := gauge_leg ci (zip_with Z.sub newv old) l]> ls) row)) = newv.
Proof.
  intros Hls Hl Hrow Ho Hn Hcan Hold.
  pose proof (Forall2_length _ _ _ Hrow) as Hlen.
  pose proof (lookup_lt_Some _ _ _ Hl) as Hp.
  destruct (lookup_lt_is_Some_2 row p ltac:(lia)) as [qi Hqi].
  assert (Hqil : qi < block_number l)
    by exact (Forall2_lookup_lr _ _ _ _ _ _ Hrow Hqi Hl).
  assert (Hsl : leg_sane ci l = true).
  { rewrite forallb_forall in Hls. apply Hls, list_elem_of_In.
    by eapply list_elem_of_lookup_2. }
  destruct (row_in_range_split ls row p Hrow) as [Hr1 Hr2].
  destruct (row_in_range_split ls row (S p) Hrow) as [_ Hr3].
  pose proof (forallb_take _ _ p Hls) as Hls1.
  pose proof (forallb_drop _ _ (S p) Hls) as Hls3.
  pose proof (charge_sum_length ci _ (row_charges_length ci _ _ Hls1 Hr1)) as H1.
  pose proof (charge_sum_length ci _ (row_charges_length ci _ _ Hls3 Hr3)) as H3.
  set (S1 := charge_sum ci (zip_with get_charge (take p ls) (take p row))) in *.
  set (S2 := charge_sum ci
               (zip_with get_charge (drop (S p) ls) (drop (S p) row))) in *.
  assert (Hsplit : ∀ l0,
    charge_sum ci (zip_with get_charge (<[p := l0]> ls) row) =
    charge_add S1 (charge_add (get_charge l0 qi) S2)).
  { intros l0. rewrite (insert_take_drop ls p l0) by done.
    rewrite <- (take_drop_middle row p qi Hqi) at 1.
    rewrite zip_with_app by (rewrite !length_take; lia).
    cbn [zip_with]. by rewrite charge_sum_app, charge_sum_cons. }
  rewrite Hsplit. rewrite <- (list_insert_id ls p l Hl), Hsplit in Hold.
  rewrite gauge_leg_charge by done.
  unfold get_charge in Hold.
  assert (Hq : length (sector l qi).2 = qnumber ci).
  { pose proof (get_charge_length ci l qi Hsl Hqil) as Hg.
    unfold get_charge, charge_scale in Hg. by rewrite length_fmap in Hg. }
  rewrite <- Hcan at 2. unfold make_valid in *. unfold qnumber in *.
  apply gauge_vectors; try done. by eapply leg_sane_qconj.
Qed.

Lemma foldl_fmap_ext {A B C} (f : A → B → A) (g h : C → B) (l : list C) :
  (∀ z x, f z (g x) = f z (h x)) → ∀ z,
  foldl f z (g <$> l) = foldl f z (h <$> l).
Proof.
  intros H. induction l as [|x l IH]; intros z; [done|].
  cbn [fmap list_fmap foldl]. rewrite H. apply IH.
Qed.

Lemma gauge_slices ci d (ls : list LegCharge) (p : nat) (l : LegCharge)
    (row : list nat) :
  ls !! p = Some l →
  zip_with get_slice (<[p := gauge_leg ci d l]> ls) row =
  zip_with get_slice ls row.
Proof.
  revert p row. induction ls as [|l0 ls IH]; intros p row Hl; [done|].
  destruct row as [|qi row]; [by destruct p|].
  destruct p as [|p]; cbn [insert list_insert zip_with].
  - injection Hl as ->. by rewrite gauge_leg_slice.
  - f_equal. by apply IH.
Qed.

(** X23: [gauge_total_charge] on a leg of an Array that passes
    [test_sanity] and whose blocks carry the total charge up to the
    moduli, for an old and a new total charge with one entry for every
    charge, returns an Array with the canonical new total charge that
    passes [test_sanity]; only the gauged leg differs, every stored block
    has exactly the new total charge, and the dense array is the same. *)
Theorem gauge_total_charge_conserves (a : Array) (leg : leg_label) (p : nat)
    (newq : charge) :
  test_sanity a = Ok () → charges_congruent a = true →
  length (qtotal a) = qnumber (chinfo a) →
  length newq = qnumber (chinfo a) →
  get_leg_index a leg = Ok (Z.of_nat p) → p < rank a →
  ∃ r, gauge_total_charge a leg newq = Ok r ∧
       qtotal r = make_valid (chinfo a) newq ∧
       (∀ i, i ≠ p → legs r !! i = legs a !! i) ∧
       test_sanity r = Ok () ∧
       charges_conserved r = true ∧
       to_ndarray r = to_ndarray a.
Proof.
  intros Hs Hc Hqt Hnq Hleg Hp.
  pose proof (rank_legs _ Hs) as Hrk.
  destruct (test_sanity_Forall _ Hs) as (Hsh & Hdt & Hls & Hlen & Hrows & Hsrt).
  assert (Hpl : p < length (legs a)) by lia.
  destruct (lookup_lt_is_Some_2 (legs a) p Hpl) as [l Hl].
  set (newv := make_valid (chinfo a) newq).
  set (d := zip_with Z.sub newv (qtotal a)).
  assert (Hnv : length newv = qnumber (chinfo a))
    by (by apply make_valid_length).
  assert (Hd : length d = qnumber (chinfo a))
    by (unfold d; rewrite length_zip_with; lia).
  exists (set_qtotal newv
            (set_legs (<[p := gauge_leg (chinfo a) d l]> (legs a)) a)).
  split; [|split; [done|split; [|split; [|split]]]].
  - unfold gauge_total_charge. rewrite Hleg. cbn [mbind result_bind].
    rewrite py_list_get_nat by done. cbn [mbind result_bind].
    rewrite (list_lookup_total_correct _ _ _ Hl).
    destruct (Z.ltb_spec (Z.of_nat p) 0); [lia|]. by rewrite Nat2Z.id.
  - intros i Hi. cbn [legs set_qtotal set_legs].
    by rewrite list_lookup_insert_ne.
  - apply test_sanity_intro; cbn [legs set_qtotal set_legs shape _data dtype
                                    chinfo _qdata _qdata_sorted]; try done.
    + rewrite Hsh. rewrite list_fmap_insert, gauge_leg_ind_len.
      symmetry. apply list_insert_id. by rewrite list_lookup_fmap, Hl.
    + rewrite forallb_Forall in Hls. apply forallb_Forall.
      apply Forall_insert; [done|].
      apply gauge_leg_sane; [done|].
      by apply (Forall_lookup_1 _ _ _ _ Hls Hl).
    + eapply Forall_impl; [exact Hrows|]. intros row Hrow.
      unfold row_in_range in *. 
      apply Forall2_same_length_lookup. split.
      { rewrite length_insert. by eapply Forall2_length. }
      intros i qi l' Hqi Hl'.
      destruct (decide (i = p)) as [->|Hne].
      * rewrite list_lookup_insert_eq in Hl' by done. injection Hl' as <-.
        rewrite gauge_leg_block_number.
        exact (Forall2_lookup_lr _ _ _ _ _ _ Hrow Hqi Hl).
      * rewrite list_lookup_insert_ne in Hl' by done.
        exact (Forall2_lookup_lr _ _ _ _ _ _ Hrow Hqi Hl').
  - unfold charges_conserved, charges_congruent in *.
    cbn [_qdata qtotal set_qtotal set_legs].
    rewrite forallb_forall in Hc. apply forallb_forall. intros row Hrow.
    specialize (Hc row Hrow). apply bool_decide_eq_true in Hc.
    apply bool_decide_eq_true_2. unfold _get_block_charge in *.
    cbn [chinfo legs set_qtotal set_legs].
    apply gauge_block_charge; try done.
    + rewrite Forall_forall in Hrows. by apply Hrows, list_elem_of_In.
    + apply make_valid_idemp.
  - unfold to_ndarray, iter_blocks.
    cbn [legs shape dtype _data _qdata set_qtotal set_legs].
    apply (foldl_fmap_ext
             (λ (res : ndarray)
                (y : ndarray * list (nat * nat) * list charge * list nat),
                nd_set_slices res y.1.1.2 y.1.1.1)).
    intros z x. cbn [fst snd]. by rewrite (gauge_slices _ _ _ _ _ _ Hl).
Qed.

Lemma gauge_total_charge_conserves_witness :
  ∃ r, gauge_total_charge ex_odd (LInt 1) [0%Z] = Ok r ∧
       qtotal r = make_valid (chinfo ex_odd) [0%Z] ∧
       (∀ i, i ≠ 1 → legs r !! i = legs ex_odd !! i) ∧
       test_sanity r = Ok () ∧
       charges_conserved r = true ∧
       to_ndarray r = to_ndarray ex_odd.
Proof.
  apply (gauge_total_charge_conserves ex_odd (LInt 1) 1 [0%Z]).
  - reflexivity.
  - reflexivity.
  - reflexivity.
  - reflexivity.
  - reflexivity.
  - vm_compute. lia.
Defined.

(** The leg index [rank] passes [get_leg_index]; the list of legs then
    raises. *)
Example gauge_total_charge_rank_axis :
  gauge_total_charge ex_odd (LInt 2) [0%Z] =
  Raise (IndexError "list index out of range").
Proof. reflexivity. Qed.


(** ** Scaling an axis *)





















(** The block of [ex_odd] sits in the second row, which is scaled by [7];
    along the second axis it sits in the first column, scaled by [3]. *)
Example iscale_axis_example :
  (r ← iscale_axis ex_odd ex_scale (LInt 0);
   Ok (nd_at (to_ndarray r) [1; 0], nd_at (to_ndarray r) [0; 0])) =
    Ok (35%Z, 0%Z) ∧
  (r ← iscale_axis ex_odd ex_scale (LInt (-1));
   Ok (nd_at (to_ndarray r) [1; 0])) = Ok 15%Z.
Proof. split; reflexivity. Qed.

(** A vector of the wrong length is refused; the leg index [rank] passes
    [get_leg_index] and the shape tuple then raises. *)
Example iscale_axis_errors :
  iscale_axis ex_fused ex_scale (LInt 0) =
    Raise (ValueError "s has wrong shape: ") ∧
  iscale_axis ex_odd ex_scale (LInt 2) =
    Raise (IndexError "tuple index out of range").
Proof. split; reflexivity. Qed.


(** ** Arrays from dense data *)

Lemma elem_of_ndindex (sh : list nat) : ∀ idx,
  idx ∈ ndindex sh ↔ Forall2 (λ i n, i < n) idx sh.
Proof.
  induction sh as [|n sh IH]; intros idx.
  - cbn [ndindex]. rewrite list_elem_of_singleton. split.
    + intros ->. constructor.
    + by inversion 1.
  - rewrite ndindex_cons, list_elem_of_bind. split.
    + intros (i & Hin & Hi). apply list_elem_of_fmap in Hin as (idx' & -> & Hin).
      apply elem_of_seq in Hi. constructor; [lia|by apply IH].
    + inversion 1 as [|i ? idx' ? Hi Hidx]; subst. exists i. split.
      * apply list_elem_of_fmap. exists idx'. split; [done|by apply IH].
      * apply elem_of_seq. lia.
Qed.

Lemma ndindex_sorted (sh : list nat) :
  StronglySorted (λ u v, tuple_lt u v = true) (ndindex sh).
Proof.
  induction sh as [|n sh IH]; [repeat constructor|].
  rewrite ndindex_cons. apply StronglySorted_bind.
  - intros i _. eapply StronglySorted_fmap; [|exact IH].
    intros u v Huv. cbn [tuple_lt]. by rewrite Nat.ltb_irrefl.
  - apply StronglySorted_seq. intros i j _ Hij _ u v Hu Hv.
    apply list_elem_of_fmap in Hu as (u' & -> & _).
    apply list_elem_of_fmap in Hv as (v' & -> & _).
    cbn [tuple_lt]. by destruct (Nat.ltb_spec i j); [|lia].
Qed.

Lemma StronglySorted_filter {A} (R : relation A) (P : A → Prop)
    `{∀ x, Decision (P x)} (l : list A) :
  StronglySorted R l → StronglySorted R (filter P l).
Proof.
  induction 1 as [|x l Hs IH Hx]; [constructor|].
  rewrite filter_cons. destruct (decide (P x)); [|done].
  constructor; [done|]. apply Forall_forall. intros y Hy.
  apply list_elem_of_filter in Hy as [_ Hy].
  rewrite Forall_forall in Hx. by apply Hx.
Qed.

Lemma StronglySorted_row_le (rows : list (list nat)) :
  StronglySorted (λ u v, row_lt u v = true) rows →
  Sorted (λ u v, row_le u v = true) rows.
Proof.
  intros Hs. apply StronglySorted_Sorted.
  apply (StronglySorted_fmap_elem _ (λ u v, row_le u v = true) id) in Hs.
  - by rewrite list_fmap_id in Hs.
  - intros x y _ _. apply row_lt_le.
Qed.

Lemma iter_all_blocks_elem (a : Array) (row : list nat) :
  row ∈ _iter_all_blocks a ↔ row_in_range (legs a) row.
Proof.
  unfold _iter_all_blocks, row_in_range. rewrite list_elem_of_fmap. split.
  - intros (idx & -> & Hin). apply elem_of_ndindex in Hin.
    rewrite Forall2_fmap_r in Hin. apply Forall2_reverse in Hin.
    by rewrite reverse_involutive in Hin.
  - intros Hr. exists (reverse row).
    split; [by rewrite reverse_involutive|].
    apply elem_of_ndindex. rewrite Forall2_fmap_r. by apply Forall2_reverse.
Qed.

Lemma iter_all_blocks_sorted (a : Array) :
  StronglySorted (λ u v, row_lt u v = true) (_iter_all_blocks a).
Proof.
  unfold _iter_all_blocks.
  eapply StronglySorted_fmap; [|apply ndindex_sorted].
  intros u v Huv. unfold row_lt. by rewrite !reverse_involutive.
Qed.

Lemma slices_clip ci (ls : list LegCharge) (row : list nat) :
  forallb (leg_sane ci) ls = true → row_in_range ls row →
  zip_with (λ n (s : nat * nat), (s.2 `min` n) - (s.1 `min` n))
           (ind_len <$> ls) (zip_with get_slice ls row) =
    zip_with sector_size ls row ∧
  zip_with (λ n (s : nat * nat), s.1 `min` n)
           (ind_len <$> ls) (zip_with get_slice ls row) =
    (zip_with get_slice ls row).*1.
Proof.
  intros Hls Hr. unfold row_in_range in Hr. revert Hls.
  induction Hr as [|qi l row ls Hqi _ IH]; intros Hls; [done|].
  cbn [forallb] in Hls. apply andb_true_iff in Hls as [Hl Hls].
  destruct (IH Hls) as [IH1 IH2].
  pose proof (sector_in_leg ci l qi Hl Hqi) as Hb.
  cbn [fmap list_fmap zip_with]. rewrite IH1.
  change (list_fmap _ _ (λ n (s : nat * nat), s.1 `min` n)) with
    (fmap (M:=list) (λ n (s : nat * nat), s.1 `min` n)) in *.
  split; f_equal.
  - unfold get_slice, sector_size. cbn [fst snd].
    rewrite !Nat.min_l by lia. done.
  - unfold get_slice. cbn [fst snd]. by rewrite Nat.min_l by lia.
  - exact IH2.
Qed.

Lemma in_slices_local (sl : list (nat * nat)) : ∀ idx,
  in_slices sl idx = true →
  zip_with Nat.add sl.*1 (zip_with (λ i (s : nat * nat), i - s.1) idx sl) = idx.
Proof.
  induction sl as [|[b e] sl IH]; intros [|i idx] Hin; try done.
  rewrite in_slices_cons in Hin. apply andb_true_iff in Hin as [Hi Hin].
  apply andb_true_iff in Hi as [Hi _]. apply Nat.leb_le in Hi.
  cbn [fmap list_fmap zip_with]. f_equal; [cbn; lia|by apply IH].
Qed.

Lemma zip_fmap_self {A B} (f : A → B) (l : list A) :
  zip l (f <$> l) = (λ x, (x, f x)) <$> l.
Proof. induction l as [|x l IH]; [done|]. cbn. by rewrite <- IH. Qed.

(** The entry of a table that holds the block [f row] for every row. *)
Lemma table_at_rows ci (ls : list LegCharge) (f : list nat → ndarray)
    (rows : list (list nat)) (row idx : list nat) :
  forallb (leg_sane ci) ls = true → Forall (row_in_range ls) rows →
  row_in_range ls row → in_slices (zip_with get_slice ls row) idx = true →
  table_at ls ((λ q, (q, f q)) <$> rows) idx =
  if decide (row ∈ rows)
  then nd_at (f row) (zip_with (λ i (s : nat * nat), i - s.1) idx
                               (zip_with get_slice ls row))
  else 0%Z.
Proof.
  intros Hls Hrows Hrow Hin.
  induction Hrows as [|q rows Hq _ IH].
  - cbn. by rewrite decide_False by apply not_elem_of_nil.
  - rewrite fmap_cons. cbn [table_at fst snd].
    destruct (in_slices (zip_with get_slice ls q) idx) eqn:E.
    + assert (q = row) as -> by (by eapply (slices_disjoint ci ls)).
      by rewrite decide_True by left.
    + rewrite IH. assert (q ≠ row) by (intros ->; congruence).
      destruct (decide (row ∈ rows)) as [Hm|Hm].
      * by rewrite decide_True by (by right).
      * rewrite decide_False; [done|].
        intros Hc. apply elem_of_cons in Hc as [->|?]; done.
Qed.

Lemma Array_init_Ok ci (ls : list LegCharge) (dt : np_dtype) (qt : charge) :
  forallb (leg_sane ci) ls = true →
  Array_init ci ls dt qt = Ok (Array_new ci ls dt qt).
Proof.
  intros Hls. unfold Array_init.
  assert (Hs : test_sanity (Array_new ci ls dt qt) = Ok ()).
  { apply test_sanity_intro; try done; constructor. }
  cbn zeta. by rewrite Hs.
Qed.

Lemma block_charge_length ci (ls : list LegCharge) (row : list nat) :
  forallb (leg_sane ci) ls = true → row_in_range ls row →
  length (make_valid ci (charge_sum ci (zip_with get_charge ls row))) =
  qnumber ci.
Proof.
  intros Hls Hr. apply make_valid_length, charge_sum_length.
  by apply row_charges_length.
Qed.

Lemma np_all_eq_same_length (x y : list Z) :
  length x = length y → np_all_eq x y = bool_decide (x = y).
Proof. intros H. unfold np_all_eq. by rewrite bool_decide_eq_true_2. Qed.

(** The Array that [from_ndarray] builds for a given total charge. *)
Lemma from_ndarray_eval (d : ndarray) (ci : ChargeInfo)
    (ls : list LegCharge) (dt : np_dtype) (qt : charge) (cutoff : Z) :
  forallb (leg_sane ci) ls = true → length qt = qnumber ci →
  nd_shape d = ind_len <$> ls →
  ∃ r, from_ndarray d ci ls dt (Some qt) cutoff = Ok r ∧
       chinfo r = ci ∧ legs r = ls ∧ dtype r = dt ∧
       qtotal r = make_valid ci qt ∧
       test_sanity r = Ok () ∧ rows_distinct r = true ∧
       blocks_shaped r = true ∧ _qdata_sorted r = true ∧
       (∀ row, row ∈ _qdata r ↔
               row_in_range ls row ∧ _get_block_charge r row = qt) ∧
       ∀ row idx, row_in_range ls row →
                  in_slices (zip_with get_slice ls row) idx = true →
                  nd_at (to_ndarray r) idx =
                  if decide (_get_block_charge r row = qt)
                  then nd_at d idx else 0%Z.
Proof.
  intros Hls Hqt Hd.
  set (res0 := Array_new ci ls dt qt).
  set (rows := filter (λ q, np_all_eq (_get_block_charge res0 q) qt = true)
                      (_iter_all_blocks res0)).
  set (f := λ q, np_asarray
                   (nd_slices (np_asarray d dt) (_get_block_slices res0 q)) dt).
  set (r := set_qdata_sorted true (set_qdata rows (set_data (f <$> rows) res0))).
  assert (Hrows : ∀ row, row ∈ rows ↔
            row_in_range ls row ∧ _get_block_charge r row = qt).
  { intros row. unfold rows. rewrite list_elem_of_filter, iter_all_blocks_elem.
    change (legs res0) with ls.
    change (_get_block_charge r row) with (_get_block_charge res0 row).
    split.
    - intros [Heq Hr]. split; [done|].
      rewrite np_all_eq_same_length in Heq.
      + by apply bool_decide_eq_true in Heq.
      + unfold _get_block_charge. cbn [chinfo legs res0 Array_new _set_shape
                                        set_shape].
        rewrite block_charge_length by done. done.
    - intros [Hr Heq]. split; [|done]. rewrite Heq.
      rewrite np_all_eq_same_length by done. by apply bool_decide_eq_true_2. }
  assert (Hrg : Forall (row_in_range ls) rows).
  { apply Forall_forall. intros row Hrow. by apply Hrows in Hrow as [? _]. }
  assert (Hss : StronglySorted (λ u v, row_lt u v = true) rows).
  { apply StronglySorted_filter, iter_all_blocks_sorted. }
  assert (Hs : test_sanity r = Ok ()).
  { apply test_sanity_intro; cbn [r res0 Array_new _set_shape set_shape shape
      legs dtype chinfo _data _qdata _qdata_sorted set_data set_qdata
      set_qdata_sorted]; try done.
    - apply Forall_fmap, Forall_forall. by intros q _.
    - by rewrite length_fmap.
    - intros _. apply argsort_by_sorted. by apply StronglySorted_row_le. }
  assert (Hnd : rows_distinct r = true).
  { apply bool_decide_eq_true_2.
    apply (StronglySorted_NoDup (λ u v, row_lt u v = true)); [|done].
    intros x. by rewrite row_lt_irrefl. }
  assert (Htab : table r = (λ q, (q, f q)) <$> rows)
    by apply zip_fmap_self.
  exists r. split.
  { unfold from_ndarray. rewrite Array_init_Ok by done.
    cbn [mbind result_bind default]. fold res0.
    change (dtype res0) with dt. change (shape res0) with (ind_len <$> ls).
    rewrite bool_decide_eq_true_2 by exact (eq_sym Hd). cbn [negb].
    change (test_sanity r ≫= (λ _, Ok r) = Ok r). by rewrite Hs. }
  split; [done|]. split; [done|]. split; [done|]. split; [done|].
  split; [done|]. split; [done|]. split; [|split; [done|split; [done|]]].
  - apply blocks_shaped_table. rewrite Htab. apply Forall_fmap, Forall_forall.
    intros q Hq. unfold compose. cbn [fst snd]. unfold f.
    cbn [nd_shape np_asarray nd_slices].
    rewrite Hd. change (legs r) with ls. unfold _get_block_slices.
    change (legs res0) with ls.
    rewrite Forall_forall in Hrg.
    by destruct (slices_clip ci ls q Hls (Hrg q Hq)) as [-> _].
  - intros row idx Hrow Hin.
    rewrite (to_ndarray_table_at r idx Hs Hnd), Htab.
    change (legs r) with ls.
    rewrite (table_at_rows ci ls f rows row idx Hls Hrg Hrow Hin).
    destruct (decide (row ∈ rows)) as [Hm|Hm].
    + rewrite decide_True by (by apply Hrows in Hm as [_ ?]).
      cbn [f nd_at np_asarray nd_slices nd_shape]. rewrite Hd.
      unfold _get_block_slices. change (legs res0) with ls.
      destruct (slices_clip ci ls row Hls Hrow) as [_ ->].
      by rewrite in_slices_local.
    + rewrite decide_False; [done|]. intros Heq. apply Hm, Hrows. done.
Qed.

(** X25: [from_ndarray] with a total charge that has one entry for every
    charge, sane legs and dense data of the shape of the legs returns,
    whatever the cutoff, an Array that passes [test_sanity], with sorted
    and distinct rows and blocks of the shapes of their sectors. It stores
    exactly the blocks whose charge equals the charge of the call, so none
    for a charge that is not canonical; inside such a block the dense
    array of the result is the data, in every other block it is zero. *)
Theorem from_ndarray_dense (d : ndarray) (ci : ChargeInfo)
    (ls : list LegCharge) (dt : np_dtype) (qt : charge) (cutoff : Z) :
  forallb (leg_sane ci) ls = true → length qt = qnumber ci →
  nd_shape d = ind_len <$> ls →
  ∃ r, from_ndarray d ci ls dt (Some qt) cutoff = Ok r ∧
       chinfo r = ci ∧ legs r = ls ∧ dtype r = dt ∧
       qtotal r = make_valid ci qt ∧
       test_sanity r = Ok () ∧ rows_distinct r = true ∧
       blocks_shaped r = true ∧ _qdata_sorted r = true ∧
       (∀ row, row ∈ _qdata r ↔
               row_in_range ls row ∧ _get_block_charge r row = qt) ∧
       (make_valid ci qt ≠ qt → _qdata r = []) ∧
       ∀ row idx, row_in_range ls row →
                  in_slices (zip_with get_slice ls row) idx = true →
                  nd_at (to_ndarray r) idx =
                  if decide (_get_block_charge r row = qt)
                  then nd_at d idx else 0%Z.
Proof.
  intros Hls Hqt Hd.
  destruct (from_ndarray_eval d ci ls dt qt cutoff Hls Hqt Hd)
    as (r & Hr & Hci & Hl & Hdt & Hq & Hs & Hnd & Hsh & Hsrt & Hrows & Hat).
  exists r. repeat (split; [done|]). split; [|done].
  intros Hnc. apply elem_of_nil_inv. intros row Hin. apply Hnc.
  apply Hrows in Hin as [_ <-]. unfold _get_block_charge. rewrite Hci.
  apply make_valid_idemp.
Qed.

Lemma from_ndarray_dense_witness :
  ∃ r, from_ndarray ex_dense Z2 [leg2 1; leg2 (-1)] dt_float (Some [0%Z])
         0 = Ok r ∧
       chinfo r = Z2 ∧ legs r = [leg2 1; leg2 (-1)] ∧ dtype r = dt_float ∧
       qtotal r = make_valid Z2 [0%Z] ∧
       test_sanity r = Ok () ∧ rows_distinct r = true ∧
       blocks_shaped r = true ∧ _qdata_sorted r = true ∧
       (∀ row, row ∈ _qdata r ↔
               row_in_range [leg2 1; leg2 (-1)] row ∧
               _get_block_charge r row = [0%Z]) ∧
       (make_valid Z2 [0%Z] ≠ [0%Z] → _qdata r = []) ∧
       ∀ row idx, row_in_range [leg2 1; leg2 (-1)] row →
                  in_slices (zip_with get_slice [leg2 1; leg2 (-1)] row) idx =
                    true →
                  nd_at (to_ndarray r) idx =
                  if decide (_get_block_charge r row = [0%Z])
                  then nd_at ex_dense idx else 0%Z.
Proof.
  apply (from_ndarray_dense ex_dense Z2 [leg2 1; leg2 (-1)] dt_float [0%Z]
           0).
  - reflexivity.
  - reflexivity.
  - reflexivity.
Defined.

(** Of the matrix [1 2; 3 4] the total charge [0] keeps the diagonal and
    the total charge [1] the rest; for the charge [2], which is [0] modulo
    [2], nothing is stored. Without a total charge the first block with an
    entry above the cutoff gives it: the block of [1] for the cutoff [0],
    the block of [2] for the cutoff [1], and the zero charge when no entry
    is above the cutoff. *)
Example from_ndarray_example :
  let entries (r : Array) :=
    nd_at (to_ndarray r) <$> [[0; 0]; [0; 1]; [1; 0]; [1; 1]] in
  (r ← from_ndarray ex_dense Z2 [leg2 1; leg2 (-1)] dt_float (Some [0%Z]) 0;
   Ok (_qdata r, qtotal r, entries r)) =
    Ok ([[0; 0]; [1; 1]], [0%Z], [1%Z; 0%Z; 0%Z; 4%Z]) ∧
  (r ← from_ndarray ex_dense Z2 [leg2 1; leg2 (-1)] dt_float (Some [1%Z]) 0;
   Ok (_qdata r, qtotal r, entries r)) =
    Ok ([[1; 0]; [0; 1]], [1%Z], [0%Z; 2%Z; 3%Z; 0%Z]) ∧
  (r ← from_ndarray ex_dense Z2 [leg2 1; leg2 (-1)] dt_float (Some [2%Z]) 0;
   Ok (_qdata r, qtotal r, entries r)) =
    Ok ([], [0%Z], [0%Z; 0%Z; 0%Z; 0%Z]) ∧
  (r ← from_ndarray ex_dense Z2 [leg2 1; leg2 (-1)] dt_float None 0;
   Ok (_qdata r, qtotal r, entries r)) =
    Ok ([[0; 0]; [1; 1]], [0%Z], [1%Z; 0%Z; 0%Z; 4%Z]) ∧
  (r ← from_ndarray ex_dense Z2 [leg2 1; leg2 (-1)] dt_float None 1;
   Ok (_qdata r, qtotal r, entries r)) =
    Ok ([[1; 0]; [0; 1]], [1%Z], [0%Z; 2%Z; 3%Z; 0%Z]) ∧
  (r ← from_ndarray ex_dense Z2 [leg2 1; leg2 (-1)] dt_float None 4;
   Ok (_qdata r, qtotal r, entries r)) =
    Ok ([[0; 0]; [1; 1]], [0%Z], [1%Z; 0%Z; 0%Z; 4%Z]).
Proof. repeat split; vm_compute; reflexivity. Qed.

Lemma table_at_outside (ls : list LegCharge) (T : list (list nat * ndarray))
    (idx : list nat) :
  Forall (λ x, in_slices (zip_with get_slice ls x.1) idx = false) T →
  table_at ls T idx = 0%Z.
Proof.
  induction 1 as [|x T Hx _ IH]; [done|]. cbn [table_at]. by rewrite Hx.
Qed.

(** X26: [from_ndarray] undoes [to_ndarray]: for an Array that passes
    [test_sanity], with distinct rows, whose stored blocks all have the
    total charge, which has one entry for every charge, the call on the
    dense array, the legs and the total charge of the Array returns,
    whatever the cutoff, an Array that passes [test_sanity] and has the
    same dense array. *)
Theorem from_ndarray_to_ndarray (a : Array) (cutoff : Z) :
  test_sanity a = Ok () → rows_distinct a = true →
  charges_conserved a = true → length (qtotal a) = qnumber (chinfo a) →
  ∃ r, from_ndarray (to_ndarray a) (chinfo a) (legs a) (dtype a)
         (Some (qtotal a)) cutoff = Ok r ∧
       test_sanity r = Ok () ∧ legs r = legs a ∧
       nd_shape (to_ndarray r) = nd_shape (to_ndarray a) ∧
       ∀ idx, nd_at (to_ndarray r) idx = nd_at (to_ndarray a) idx.
Proof.
  intros Hs Hnd Hc Hqt.
  destruct (test_sanity_Forall _ Hs) as (Hsh & _ & Hls & Hlen & Hrows & _).
  destruct (from_ndarray_eval (to_ndarray a) (chinfo a) (legs a) (dtype a)
              (qtotal a) cutoff Hls Hqt)
    as (r & Hr & Hci & Hl & Hdt & Hq & Hsr & Hndr & Hshr & Hsrt & Hrs & Hat).
  { by rewrite to_ndarray_shape. }
  exists r. split; [done|]. split; [done|]. split; [done|]. split.
  { rewrite !to_ndarray_shape.
    destruct (test_sanity_Forall _ Hsr) as (-> & _). by rewrite Hl. }
  intros idx.
  destruct (Forall_Exists_dec
              (λ row, in_slices (zip_with get_slice (legs a) row) idx = false)
              (λ row, in_slices (zip_with get_slice (legs a) row) idx = true)
              (λ row, match in_slices (zip_with get_slice (legs a) row) idx
                        as b return {b = false} + {b = true}
                      with
                      | true => right eq_refl
                      | false => left eq_refl
                      end)
              (_iter_all_blocks a)) as [Hout|Hin].
  - rewrite Forall_forall in Hout.
    rewrite (to_ndarray_table_at r idx Hsr Hndr).
    rewrite (to_ndarray_table_at a idx Hs Hnd).
    rewrite !table_at_outside; [done| |].
    + apply Forall_forall. intros x Hx. apply Hout, iter_all_blocks_elem.
      pose proof (table_row_in_range _ Hs) as Hrg.
      rewrite Forall_forall in Hrg. by apply Hrg.
    + apply Forall_forall. intros x Hx. rewrite Hl.
      apply Hout, iter_all_blocks_elem.
      pose proof (table_row_in_range _ Hsr) as Hrg.
      rewrite Forall_forall in Hrg. rewrite <- Hl. by apply Hrg.
  - apply Exists_exists in Hin as (row & Hrow & Hin).
    apply iter_all_blocks_elem in Hrow.
    rewrite (Hat row idx Hrow Hin).
    destruct (decide (_get_block_charge r row = qtotal a)) as [Heq|Hne];
      [done|].
    rewrite (to_ndarray_table_at a idx Hs Hnd). symmetry.
    apply (table_at_other_rows (chinfo a) (legs a) (table a) row idx);
      try done.
    pose proof (table_row_in_range _ Hs) as Hrg.
    rewrite Forall_forall in Hrg. apply Forall_forall. intros x Hx.
    split; [by apply Hrg|]. intros Hxr. apply Hne.
    unfold charges_conserved in Hc. rewrite forallb_forall in Hc.
    assert (Hm : x.1 ∈ _qdata a).
    { rewrite <- (table_fst _ Hlen). apply list_elem_of_fmap. by exists x. }
    apply list_elem_of_In in Hm. specialize (Hc _ Hm).
    apply bool_decide_eq_true in Hc. rewrite <- Hc, Hxr.
    unfold _get_block_charge. by rewrite Hci, Hl.
Qed.

Lemma from_ndarray_to_ndarray_witness :
  ∃ r, from_ndarray (to_ndarray ex_odd) (chinfo ex_odd) (legs ex_odd)
         (dtype ex_odd) (Some (qtotal ex_odd)) 0 = Ok r ∧
       test_sanity r = Ok () ∧ legs r = legs ex_odd ∧
       nd_shape (to_ndarray r) = nd_shape (to_ndarray ex_odd) ∧
       ∀ idx, nd_at (to_ndarray r) idx = nd_at (to_ndarray ex_odd) idx.
Proof.
  apply (from_ndarray_to_ndarray ex_odd 0).
  - reflexivity.
  - reflexivity.
  - reflexivity.
  - reflexivity.
Defined.

(** The Array that comes back stores every block of the total charge:
    [ex_odd] has one block, its round trip has two. *)
Example from_ndarray_to_ndarray_rows :
  (r ← from_ndarray (to_ndarray ex_odd) (chinfo ex_odd) (legs ex_odd)
         (dtype ex_odd) (Some (qtotal ex_odd)) 0;
   Ok (_qdata r)) = Ok [[1; 0]; [0; 1]] ∧
  _qdata ex_odd = [[1; 0]].
Proof. split; vm_compute; reflexivity. Qed.


Lemma make_valid_zero ci : make_valid ci (charge_zero ci) = charge_zero ci.
Proof.
  unfold make_valid, charge_zero, qnumber. induction (qmod ci) as [|m ms IH];
    [done|].
  cbn [length replicate zip_with]. rewrite IH. f_equal.
  unfold make_valid_1. destruct (Z.eqb_spec m 0); [done|]. by apply Z.mod_0_l.
Qed.

Lemma detect_canonical (self : Array) (flat : ndarray) (cutoff : Z) :
  make_valid (chinfo self) (detect_ndarray_qtotal self flat cutoff) =
  detect_ndarray_qtotal self flat cutoff.
Proof.
  unfold detect_ndarray_qtotal. destruct (filter _ _) as [|q ?].
  - apply make_valid_zero.
  - apply make_valid_idemp.
Qed.

(** Without a total charge [from_ndarray] works with the detected one. *)
Lemma from_ndarray_None (d : ndarray) (ci : ChargeInfo)
    (ls : list LegCharge) (dt : np_dtype) (cutoff : Z) :
  from_ndarray d ci ls dt None cutoff =
  from_ndarray d ci ls dt
    (Some (detect_ndarray_qtotal (Array_new ci ls dt (charge_zero ci))
             (np_asarray d dt) cutoff)) cutoff.
Proof.
  set (qt := detect_ndarray_qtotal _ _ _).
  assert (Hqt : make_valid ci qt = qt)
    by exact (detect_canonical (Array_new ci ls dt (charge_zero ci)) _ _).
  assert (Heq : set_qtotal qt (Array_new ci ls dt (charge_zero ci)) =
                Array_new ci ls dt qt).
  { unfold Array_new, _set_shape, set_shape, set_qtotal. cbn. by rewrite Hqt. }
  unfold from_ndarray, Array_init. cbn [default]. change (id qt) with qt.
  change (id (charge_zero ci)) with (charge_zero ci).
  change (test_sanity (Array_new ci ls dt qt))
    with (test_sanity (Array_new ci ls dt (charge_zero ci))).
  destruct (test_sanity (Array_new ci ls dt (charge_zero ci))) as [[]|e];
    [|reflexivity].
  cbn [mbind result_bind].
  change (dtype (Array_new ci ls dt (charge_zero ci))) with dt.
  change (dtype (Array_new ci ls dt qt)) with dt.
  change (shape (Array_new ci ls dt (charge_zero ci)))
    with (shape (Array_new ci ls dt qt)).
  destruct (negb _); [done|].
  fold qt. rewrite Heq. reflexivity.
Qed.

Lemma in_slices_offsets (sl : list (nat * nat)) : ∀ idx,
  in_slices sl idx = true →
  Forall2 (λ j n, j < n) (zip_with (λ i (s : nat * nat), i - s.1) idx sl)
          ((λ s : nat * nat, s.2 - s.1) <$> sl).
Proof.
  induction sl as [|[b e] sl IH]; intros [|i idx] Hin; try done;
    try (by constructor).
  rewrite in_slices_cons in Hin. apply andb_true_iff in Hin as [Hi Hin].
  apply andb_true_iff in Hi as [Hb He].
  apply Nat.leb_le in Hb. apply Nat.ltb_lt in He.
  cbn [zip_with fmap list_fmap]. constructor; [cbn; lia|by apply IH].
Qed.

Lemma offsets_in_slices (sl : list (nat * nat)) : ∀ j,
  Forall2 (λ j n, j < n) j ((λ s : nat * nat, s.2 - s.1) <$> sl) →
  in_slices sl (zip_with Nat.add sl.*1 j) = true.
Proof.
  induction sl as [|[b e] sl IH]; intros j Hj.
  - by inversion Hj.
  - inversion Hj as [|i n j' ? Hi Hj']; subst.
    cbn [fmap list_fmap zip_with fst]. rewrite in_slices_cons.
    rewrite (IH j' Hj'). cbn in Hi.
    destruct (Nat.leb_spec b (b + i)); [|lia].
    destruct (Nat.ltb_spec (b + i) e); [done|lia].
Qed.

Lemma sector_sizes_slices (ls : list LegCharge) : ∀ row,
  zip_with sector_size ls row =
  (λ s : nat * nat, s.2 - s.1) <$> zip_with get_slice ls row.
Proof.
  induction ls as [|l ls IH]; intros [|qi row]; try done.
  cbn [zip_with fmap list_fmap]. by rewrite IH.
Qed.

(** A block of dense data has an entry above the cutoff. *)
Lemma np_any_abs_gt_slices ci (ls : list LegCharge) (d : ndarray)
    (row : list nat) (cutoff : Z) :
  forallb (leg_sane ci) ls = true → row_in_range ls row →
  nd_shape d = ind_len <$> ls →
  np_any_abs_gt (nd_slices d (zip_with get_slice ls row)) cutoff = true ↔
  ∃ idx, in_slices (zip_with get_slice ls row) idx = true ∧
         (cutoff < Z.abs (nd_at d idx))%Z.
Proof.
  intros Hls Hrow Hd. unfold np_any_abs_gt.
  cbn [nd_slices nd_shape nd_at]. rewrite Hd.
  destruct (slices_clip ci ls row Hls Hrow) as [-> ->].
  rewrite sector_sizes_slices. set (sl := zip_with get_slice ls row).
  rewrite existsb_exists. split.
  - intros (j & Hj & Hnz). apply list_elem_of_In, elem_of_ndindex in Hj.
    exists (zip_with Nat.add sl.*1 j). split; [by apply offsets_in_slices|].
    by apply Z.ltb_lt in Hnz.
  - intros (idx & Hin & Hnz).
    exists (zip_with (λ i (s : nat * nat), i - s.1) idx sl). split.
    + apply list_elem_of_In, elem_of_ndindex. by apply in_slices_offsets.
    + rewrite in_slices_local by done. by apply Z.ltb_lt.
Qed.

(** X27: [from_ndarray] without a total charge and with a cutoff that is
    not negative, for sane legs and dense data of their shape with an
    entry above the cutoff in absolute value, whose entries that are not
    zero all lie in blocks of one charge, detects this charge: the result
    is that of the call with the charge, passes [test_sanity], has the
    charge as total charge of every stored block, and its dense array is
    the data. *)
Theorem from_ndarray_detects (d : ndarray) (ci : ChargeInfo)
    (ls : list LegCharge) (dt : np_dtype) (q : charge) (cutoff : Z) :
  forallb (leg_sane ci) ls = true → nd_shape d = ind_len <$> ls →
  (0 ≤ cutoff)%Z →
  (∀ row idx, row_in_range ls row →
              in_slices (zip_with get_slice ls row) idx = true →
              nd_at d idx ≠ 0%Z →
              make_valid ci (charge_sum ci (zip_with get_charge ls row)) = q) →
  (∃ row idx, row_in_range ls row ∧
              in_slices (zip_with get_slice ls row) idx = true ∧
              (cutoff < Z.abs (nd_at d idx))%Z) →
  ∃ r, from_ndarray d ci ls dt None cutoff = Ok r ∧
       from_ndarray d ci ls dt (Some q) cutoff = Ok r ∧
       legs r = ls ∧ qtotal r = q ∧
       test_sanity r = Ok () ∧ charges_conserved r = true ∧
       ∀ row idx, row_in_range ls row →
                  in_slices (zip_with get_slice ls row) idx = true →
                  nd_at (to_ndarray r) idx = nd_at d idx.
Proof.
  intros Hls Hd Hcut Hcons (row0 & idx0 & Hrow0 & Hin0 & Hnz0).
  set (res0 := Array_new ci ls dt (charge_zero ci)).
  assert (Hq : make_valid ci (charge_sum ci (zip_with get_charge ls row0)) = q).
  { apply (Hcons row0 idx0); [done|done|]. intros Hz. rewrite Hz in Hnz0.
    cbn in Hnz0. lia. }
  assert (Hql : length q = qnumber ci)
    by (rewrite <- Hq; by apply block_charge_length).
  assert (Hqc : make_valid ci q = q)
    by (rewrite <- Hq; apply make_valid_idemp).
  assert (Hdet : detect_ndarray_qtotal res0 (np_asarray d dt) cutoff = q).
  { unfold detect_ndarray_qtotal.
    destruct (filter _ _) as [|q0 rest] eqn:E.
    - exfalso. assert (Hm : row0 ∈ @nil (list nat)); [|by inversion Hm].
      rewrite <- E. apply list_elem_of_filter. split.
      + apply (np_any_abs_gt_slices ci ls (np_asarray d dt) row0);
          [done|done|done|]. by exists idx0.
      + by apply iter_all_blocks_elem.
    - assert (Hm : q0 ∈ q0 :: rest) by left. rewrite <- E in Hm.
      apply list_elem_of_filter in Hm as [Hany Hm].
      apply iter_all_blocks_elem in Hm. change (legs res0) with ls in Hm.
      apply (np_any_abs_gt_slices ci ls (np_asarray d dt) q0) in Hany
        as (idx & Hin & Hnz); [|done|done|done].
      apply (Hcons q0 idx Hm Hin). intros Hz.
      change (nd_at (np_asarray d dt) idx) with (nd_at d idx) in Hnz.
      rewrite Hz in Hnz. cbn in Hnz. lia. }
  destruct (from_ndarray_eval d ci ls dt q cutoff Hls Hql Hd)
    as (r & Hr & Hci & Hl & Hdt & Hqr & Hs & Hnd & Hsh & Hsrt & Hrows & Hat).
  exists r. split; [|split; [done|]].
  { rewrite from_ndarray_None. fold res0. by rewrite Hdet. }
  split; [done|]. split; [by rewrite Hqr|]. split; [done|]. split.
  - unfold charges_conserved. apply forallb_forall. intros row Hrow.
    apply list_elem_of_In, Hrows in Hrow as [_ Hc].
    apply bool_decide_eq_true_2. by rewrite Hc, Hqr.
  - intros row idx Hrow Hin. rewrite (Hat row idx Hrow Hin).
    destruct (decide (_get_block_charge r row = q)) as [|Hne]; [done|].
    destruct (decide (nd_at d idx = 0%Z)) as [|Hnz]; [done|].
    exfalso. apply Hne. unfold _get_block_charge. rewrite Hci, Hl.
    by eapply Hcons.
Qed.

Lemma from_ndarray_detects_witness :
  ∃ r, from_ndarray ex_dense_vector Z2 [leg2 1] dt_float None 1 = Ok r ∧
       from_ndarray ex_dense_vector Z2 [leg2 1] dt_float (Some [1%Z]) 1 =
         Ok r ∧
       legs r = [leg2 1] ∧ qtotal r = [1%Z] ∧
       test_sanity r = Ok () ∧ charges_conserved r = true ∧
       ∀ row idx, row_in_range [leg2 1] row →
                  in_slices (zip_with get_slice [leg2 1] row) idx = true →
                  nd_at (to_ndarray r) idx = nd_at ex_dense_vector idx.
Proof.
  apply (from_ndarray_detects ex_dense_vector Z2 [leg2 1] dt_float [1%Z] 1).
  - reflexivity.
  - reflexivity.
  - lia.
  - intros row idx Hrow Hin Hnz.
    inversion Hrow as [|qi l row' ls' Hqi Hrow']; subst.
    inversion Hrow'; subst.
    destruct qi as [|[|qi]]; [|reflexivity|vm_compute in Hqi; lia].
    exfalso. apply Hnz.
    destruct idx as [|i [|? ?]]; [done| |done].
    change (zip_with get_slice [leg2 1] [0]) with [(0, 1)] in Hin.
    rewrite in_slices_cons in Hin. apply andb_true_iff in Hin as [Hi _].
    apply andb_true_iff in Hi as [Hb He].
    apply Nat.leb_le in Hb. apply Nat.ltb_lt in He.
    assert (i = 0) as -> by lia. reflexivity.
  - exists [1], [1]. split; [repeat constructor|]. split; [reflexivity|].
    cbn. lia.
Defined.

(** An entry that is not above the cutoff is not seen: of the vector
    [0 5] the cutoff [1] detects the charge [1] of the second sector, and
    the cutoff [5] detects nothing, so that the total charge is zero and
    the entry is dropped. *)
Example from_ndarray_below_cutoff :
  let res0 := Array_new Z2 [leg2 1] dt_float (charge_zero Z2) in
  detect_ndarray_qtotal res0 ex_dense_vector 1 = [1%Z] ∧
  detect_ndarray_qtotal res0 ex_dense_vector 5 = [0%Z] ∧
  (r ← from_ndarray ex_dense_vector Z2 [leg2 1] dt_float None 1;
   Ok (_qdata r, qtotal r, nd_at (to_ndarray r) <$> [[0]; [1]])) =
    Ok ([[1]], [1%Z], [0%Z; 5%Z]) ∧
  (r ← from_ndarray ex_dense_vector Z2 [leg2 1] dt_float None 5;
   Ok (_qdata r, qtotal r, nd_at (to_ndarray r) <$> [[0]; [1]])) =
    Ok ([[0]], [0%Z], [0%Z; 0%Z]).
Proof. repeat split; vm_compute; reflexivity. Qed.


(** ** Calls on the store: what they keep *)

Import Objects Methods.










(** ** Calls on the store: what they return *)











(** ** The calls one by one *)






Lemma copy_obj_dom self : keeps_dom (copy_obj self).
Proof.
  intros σ id [a Hid]. rewrite (copy_obj_frame self σ id a Hid). by eexists.
Qed.





































(** ** Calls on the store and the functions on values *)
































(** ** The structure of the Array that a value-returning call gives *)








(** ** What a call that returns tells about its arguments *)

















Lemma structured_copy (a : Array) : structured a → structured (copy a).
Proof. done. Qed.






(** ** The charges of the blocks of a result *)



Lemma well_formed_copy (a : Array) : well_formed a → well_formed (copy a).
Proof. done. Qed.














Lemma np_ufunc_add_dtype (s t : ndarray) :
  nd_dtype (np_ufunc_add s t) = find_common_type (nd_dtype s) (nd_dtype t).
Proof. done. Qed.

Lemma np_ufunc_subtract_dtype (s t : ndarray) :
  nd_dtype (np_ufunc_subtract s t) =
  find_common_type (nd_dtype s) (nd_dtype t).
Proof. done. Qed.

(** ** Value-returning calls are atomic *)







